(** * Thumbnail cache and generation scheduling of the gallery server

    A shallow embedding of [main.go]: the thumbnail path resolver
    ([getThumbnailPath]), the media-class tables, the generation routine
    ([generateThumbnail]), the request coordinator
    ([queueAndWaitForThumbnail], called from [handleThumbnail]) and the two
    worker loops ([imageThumbnailWorker], [movieThumbnailWorker]); then the
    path of a request through the security check of the handlers
    ([handleThumbnail], [handlePreview], [handleStatic], [handleList]), the
    listing of a directory and the base path ([urlWithBasePath] and its
    normal form in [main]).

    Strings are Go strings (byte sequences).  The registry [pendingThumbs]
    is a finite map from thumbnail paths to channels, the two buffered
    channels are lists bounded by [queueSize], and goroutines are threads
    with a program counter; one step of the system is one access of a
    goroutine to the shared state, and a schedule is a list of such
    steps. *)

From Stdlib Require Import Ascii.
From stdpp Require Import gmap strings list fin_maps pretty.

(** ** Go's [path/filepath] and [strings] on a Unix host *)

Module filepath.

Definition Separator : ascii := "/"%char.

Definition IsPathSeparator (c : ascii) : bool := bool_decide (c = Separator).

(** The elements of a path: the substrings between separators. *)
Fixpoint elements (s : string) : list string :=
  match s with
  | "" => [""]
  | String c s' =>
      if IsPathSeparator c then "" :: elements s'
      else match elements s' with
           | e :: es => String c e :: es
           | [] => [String c ""]
           end
  end.

(** [strings.Join elem "/"]. *)
Fixpoint join_elements (es : list string) : string :=
  match es with
  | [] => ""
  | [e] => e
  | e :: es' => e +:+ "/" +:+ join_elements es'
  end.

(** The element stack of [Clean], top first: empty and [.] elements are
    dropped, [..] removes the element before it, is dropped at the root
    and is kept at the start of a path that is not rooted. *)
Fixpoint clean_elements (rooted : bool) (stack es : list string) : list string :=
  match es with
  | [] => rev stack
  | e :: es' =>
      if bool_decide (e = "") || bool_decide (e = ".") then
        clean_elements rooted stack es'
      else if bool_decide (e = "..") then
        match stack with
        | top :: below =>
            if bool_decide (top = "..") then clean_elements rooted (e :: stack) es'
            else clean_elements rooted below es'
        | [] =>
            if rooted then clean_elements rooted [] es'
            else clean_elements rooted [e] es'
        end
      else clean_elements rooted (e :: stack) es'
  end.

Definition is_rooted (path : string) : bool :=
  match path with
  | String c _ => IsPathSeparator c
  | "" => false
  end.

(** [filepath.Clean]: the shortest path naming the same file. *)
Definition Clean (path : string) : string :=
  let rooted := is_rooted path in
  let out := join_elements (clean_elements rooted [] (elements path)) in
  if rooted then "/" +:+ out
  else if bool_decide (out = "") then "." else out.

(** [filepath.Split]: the path up to and with its last separator, and
    what follows it. *)
Fixpoint Split (path : string) : string * string :=
  match path with
  | "" => ("", "")
  | String c s' =>
      let '(d, f) := Split s' in
      match d with
      | "" => if IsPathSeparator c then (String c "", f) else ("", String c f)
      | _ => (String c d, f)
      end
  end.

(** [filepath.Dir]. *)
Definition Dir (path : string) : string := Clean (fst (Split path)).

Fixpoint trim_trailing_separators (s : string) : string :=
  match s with
  | "" => ""
  | String c s' =>
      match trim_trailing_separators s' with
      | "" => if IsPathSeparator c then "" else String c ""
      | t => String c t
      end
  end.

(** [filepath.Base]. *)
Definition Base (path : string) : string :=
  if bool_decide (path = "") then "."
  else
    let f := snd (Split (trim_trailing_separators path)) in
    if bool_decide (f = "") then "/" else f.

(** The suffix of an element that starts at its last dot. *)
Fixpoint last_dot (s : string) : option string :=
  match s with
  | "" => None
  | String c s' =>
      match last_dot s' with
      | Some e => Some e
      | None => if bool_decide (c = "."%char) then Some s else None
      end
  end.

(** [filepath.Ext]. *)
Definition Ext (path : string) : string :=
  default "" (last_dot (snd (Split path))).

(** [filepath.Join]: leading empty elements are ignored, the others are
    joined with separators and cleaned. *)
Fixpoint Join (elem : list string) : string :=
  match elem with
  | [] => ""
  | e :: rest =>
      if bool_decide (e = "") then Join rest
      else Clean (join_elements elem)
  end.

(** [filepath.FromSlash]: the separator of a Unix host is the slash, so
    the path is returned as it is. *)
Definition FromSlash (path : string) : string := path.

(** The elements of a path that are not empty. *)
Definition names (path : string) : list string :=
  filter (λ e, e ≠ "") (elements path).

(** The loop of [Rel] on the elements of the two cleaned paths: the
    elements that they share at the start are dropped; every element that
    is left of [base] is answered with [..], which cannot be done when the
    first of them is [..] itself; what is left of [targ] follows. *)
Fixpoint rel_elements (base targ : list string) : option (list string) :=
  match base, targ with
  | [], _ => Some targ
  | b :: base', t :: targ' =>
      if bool_decide (b = t) then rel_elements base' targ'
      else if bool_decide (b = "..") then None
      else Some (replicate (length base) ".." ++ targ)
  | _ :: _, [] => Some (replicate (length base) "..")
  end.

(** [filepath.Rel]: a path that names [targpath] when joined to
    [basepath]; [None] is its error. *)
Definition Rel (basepath targpath : string) : option string :=
  let base := Clean basepath in
  let targ := Clean targpath in
  if bool_decide (targ = base) then Some "."
  else
    let base := if bool_decide (base = ".") then "" else base in
    if negb (bool_decide (is_rooted base = is_rooted targ)) then None
    else join_elements <$> rel_elements (names base) (names targ).

End filepath.

Module utf8.

Definition RuneError : Z := 0xFFFD.
Definition RuneSelf : Z := 0x80.
Definition MaxRune : Z := 0x10FFFF.

(** A byte of a string as a number, and back. *)
Definition byte (c : ascii) : Z := Z.of_nat (nat_of_ascii c).
Definition char (b : Z) : ascii := ascii_of_nat (Z.to_nat b).

(** The table [first] with [acceptRanges]: for a byte that starts a
    sequence of more than one byte, the length of the sequence and the
    range that its second byte must lie in. *)
Inductive size := Two | Three | Four.

Definition first (s0 : Z) : option (size * (Z * Z)) :=
  if bool_decide (0xC2 ≤ s0 ≤ 0xDF)%Z then Some (Two, (0x80, 0xBF)%Z)
  else if bool_decide (s0 = 0xE0)%Z then Some (Three, (0xA0, 0xBF)%Z)
  else if bool_decide (0xE1 ≤ s0 ≤ 0xEC)%Z then Some (Three, (0x80, 0xBF)%Z)
  else if bool_decide (s0 = 0xED)%Z then Some (Three, (0x80, 0x9F)%Z)
  else if bool_decide (0xEE ≤ s0 ≤ 0xEF)%Z then Some (Three, (0x80, 0xBF)%Z)
  else if bool_decide (s0 = 0xF0)%Z then Some (Four, (0x90, 0xBF)%Z)
  else if bool_decide (0xF1 ≤ s0 ≤ 0xF3)%Z then Some (Four, (0x80, 0xBF)%Z)
  else if bool_decide (s0 = 0xF4)%Z then Some (Four, (0x80, 0x8F)%Z)
  else None.

Definition between (lo hi b : Z) : bool := bool_decide (lo ≤ b ≤ hi)%Z.

(** The six low bits of a continuation byte. *)
Definition low (b : Z) : Z := Z.land b 0x3F.

(** [utf8.DecodeRuneInString]: the first rune of [s] and its width in
    bytes; a byte that starts no well-formed sequence is the rune
    [RuneError] of width 1. *)
Definition DecodeRuneInString (s : string) : Z * nat :=
  match s with
  | "" => (RuneError, 0)
  | String c0 t =>
      let s0 := byte c0 in
      if bool_decide (s0 < RuneSelf)%Z then (s0, 1)
      else
        match first s0, t with
        | Some (Two, (lo, hi)), String c1 _ =>
            if between lo hi (byte c1)
            then (Z.lor (Z.shiftl (Z.land s0 0x1F) 6) (low (byte c1)), 2)
            else (RuneError, 1)
        | Some (Three, (lo, hi)), String c1 (String c2 _) =>
            if between lo hi (byte c1) && between 0x80 0xBF (byte c2)
            then (Z.lor (Z.shiftl (Z.land s0 0x0F) 12)
                    (Z.lor (Z.shiftl (low (byte c1)) 6) (low (byte c2))), 3)
            else (RuneError, 1)
        | Some (Four, (lo, hi)), String c1 (String c2 (String c3 _)) =>
            if between lo hi (byte c1) && between 0x80 0xBF (byte c2)
               && between 0x80 0xBF (byte c3)
            then (Z.lor (Z.shiftl (Z.land s0 0x07) 18)
                    (Z.lor (Z.shiftl (low (byte c1)) 12)
                       (Z.lor (Z.shiftl (low (byte c2)) 6) (low (byte c3)))), 4)
            else (RuneError, 1)
        | _, _ => (RuneError, 1)
        end
  end.

Definition encode3 (r : Z) : string :=
  String (char (Z.lor 0xE0 (Z.shiftr r 12)))
    (String (char (Z.lor 0x80 (low (Z.shiftr r 6))))
       (String (char (Z.lor 0x80 (low r))) "")).

(** [utf8.AppendRune] to the empty string: the bytes of a rune; a value
    that is no rune is written as [RuneError]. *)
Definition EncodeRune (r : Z) : string :=
  if bool_decide (0 ≤ r < 0x80)%Z then String (char r) ""
  else if bool_decide (0 ≤ r < 0x800)%Z then
    String (char (Z.lor 0xC0 (Z.shiftr r 6)))
      (String (char (Z.lor 0x80 (low r))) "")
  else if bool_decide (r < 0 ∨ MaxRune < r ∨ 0xD800 ≤ r ≤ 0xDFFF)%Z then
    encode3 RuneError
  else if bool_decide (r < 0x10000)%Z then encode3 r
  else
    String (char (Z.lor 0xF0 (Z.shiftr r 18)))
      (String (char (Z.lor 0x80 (low (Z.shiftr r 12))))
         (String (char (Z.lor 0x80 (low (Z.shiftr r 6))))
            (String (char (Z.lor 0x80 (low r))) ""))).

End utf8.

Module unicode.

(** What a range of [unicode.CaseRanges] adds to a rune to give its lower
    case: a number, or [UpperLower] for a range in which upper-case and
    lower-case letters alternate. *)
Inductive delta := Delta (d : Z) | UpperLower.

(** The ranges of [unicode.CaseRanges] above ASCII whose lower-case delta
    is not zero: the simple lower-case mappings of the Unicode Character
    Database (the same in its versions 14.0 and 15.0). *)
Definition CaseRanges : list (Z * Z * delta) :=
  [
    (0x00C0, 0x00D6, Delta 32); (0x00D8, 0x00DE, Delta 32);
    (0x0100, 0x012F, UpperLower); (0x0130, 0x0130, Delta (-199));
    (0x0132, 0x0137, UpperLower); (0x0139, 0x0148, UpperLower);
    (0x014A, 0x0177, UpperLower); (0x0178, 0x0178, Delta (-121));
    (0x0179, 0x017E, UpperLower); (0x0181, 0x0181, Delta 210);
    (0x0182, 0x0185, UpperLower); (0x0186, 0x0186, Delta 206);
    (0x0187, 0x0187, Delta 1); (0x0189, 0x018A, Delta 205);
    (0x018B, 0x018B, Delta 1); (0x018E, 0x018E, Delta 79);
    (0x018F, 0x018F, Delta 202); (0x0190, 0x0190, Delta 203);
    (0x0191, 0x0191, Delta 1); (0x0193, 0x0193, Delta 205);
    (0x0194, 0x0194, Delta 207); (0x0196, 0x0196, Delta 211);
    (0x0197, 0x0197, Delta 209); (0x0198, 0x0198, Delta 1);
    (0x019C, 0x019C, Delta 211); (0x019D, 0x019D, Delta 213);
    (0x019F, 0x019F, Delta 214); (0x01A0, 0x01A5, UpperLower);
    (0x01A6, 0x01A6, Delta 218); (0x01A7, 0x01A7, Delta 1);
    (0x01A9, 0x01A9, Delta 218); (0x01AC, 0x01AC, Delta 1);
    (0x01AE, 0x01AE, Delta 218); (0x01AF, 0x01AF, Delta 1);
    (0x01B1, 0x01B2, Delta 217); (0x01B3, 0x01B6, UpperLower);
    (0x01B7, 0x01B7, Delta 219); (0x01B8, 0x01B8, Delta 1);
    (0x01BC, 0x01BC, Delta 1); (0x01C4, 0x01C4, Delta 2);
    (0x01C5, 0x01C5, Delta 1); (0x01C7, 0x01C7, Delta 2);
    (0x01C8, 0x01C8, Delta 1); (0x01CA, 0x01CA, Delta 2);
    (0x01CB, 0x01DC, UpperLower); (0x01DE, 0x01EF, UpperLower);
    (0x01F1, 0x01F1, Delta 2); (0x01F2, 0x01F5, UpperLower);
    (0x01F6, 0x01F6, Delta (-97)); (0x01F7, 0x01F7, Delta (-56));
    (0x01F8, 0x021F, UpperLower); (0x0220, 0x0220, Delta (-130));
    (0x0222, 0x0233, UpperLower); (0x023A, 0x023A, Delta 10795);
    (0x023B, 0x023B, Delta 1); (0x023D, 0x023D, Delta (-163));
    (0x023E, 0x023E, Delta 10792); (0x0241, 0x0241, Delta 1);
    (0x0243, 0x0243, Delta (-195)); (0x0244, 0x0244, Delta 69);
    (0x0245, 0x0245, Delta 71); (0x0246, 0x024F, UpperLower);
    (0x0370, 0x0373, UpperLower); (0x0376, 0x0376, Delta 1);
    (0x037F, 0x037F, Delta 116); (0x0386, 0x0386, Delta 38);
    (0x0388, 0x038A, Delta 37); (0x038C, 0x038C, Delta 64);
    (0x038E, 0x038F, Delta 63); (0x0391, 0x03A1, Delta 32);
    (0x03A3, 0x03AB, Delta 32); (0x03CF, 0x03CF, Delta 8);
    (0x03D8, 0x03EF, UpperLower); (0x03F4, 0x03F4, Delta (-60));
    (0x03F7, 0x03F7, Delta 1); (0x03F9, 0x03F9, Delta (-7));
    (0x03FA, 0x03FA, Delta 1); (0x03FD, 0x03FF, Delta (-130));
    (0x0400, 0x040F, Delta 80); (0x0410, 0x042F, Delta 32);
    (0x0460, 0x0481, UpperLower); (0x048A, 0x04BF, UpperLower);
    (0x04C0, 0x04C0, Delta 15); (0x04C1, 0x04CE, UpperLower);
    (0x04D0, 0x052F, UpperLower); (0x0531, 0x0556, Delta 48);
    (0x10A0, 0x10C5, Delta 7264); (0x10C7, 0x10C7, Delta 7264);
    (0x10CD, 0x10CD, Delta 7264); (0x13A0, 0x13EF, Delta 38864);
    (0x13F0, 0x13F5, Delta 8); (0x1C90, 0x1CBA, Delta (-3008));
    (0x1CBD, 0x1CBF, Delta (-3008)); (0x1E00, 0x1E95, UpperLower);
    (0x1E9E, 0x1E9E, Delta (-7615)); (0x1EA0, 0x1EFF, UpperLower);
    (0x1F08, 0x1F0F, Delta (-8)); (0x1F18, 0x1F1D, Delta (-8));
    (0x1F28, 0x1F2F, Delta (-8)); (0x1F38, 0x1F3F, Delta (-8));
    (0x1F48, 0x1F4D, Delta (-8)); (0x1F59, 0x1F59, Delta (-8));
    (0x1F5B, 0x1F5B, Delta (-8)); (0x1F5D, 0x1F5D, Delta (-8));
    (0x1F5F, 0x1F5F, Delta (-8)); (0x1F68, 0x1F6F, Delta (-8));
    (0x1F88, 0x1F8F, Delta (-8)); (0x1F98, 0x1F9F, Delta (-8));
    (0x1FA8, 0x1FAF, Delta (-8)); (0x1FB8, 0x1FB9, Delta (-8));
    (0x1FBA, 0x1FBB, Delta (-74)); (0x1FBC, 0x1FBC, Delta (-9));
    (0x1FC8, 0x1FCB, Delta (-86)); (0x1FCC, 0x1FCC, Delta (-9));
    (0x1FD8, 0x1FD9, Delta (-8)); (0x1FDA, 0x1FDB, Delta (-100));
    (0x1FE8, 0x1FE9, Delta (-8)); (0x1FEA, 0x1FEB, Delta (-112));
    (0x1FEC, 0x1FEC, Delta (-7)); (0x1FF8, 0x1FF9, Delta (-128));
    (0x1FFA, 0x1FFB, Delta (-126)); (0x1FFC, 0x1FFC, Delta (-9));
    (0x2126, 0x2126, Delta (-7517)); (0x212A, 0x212A, Delta (-8383));
    (0x212B, 0x212B, Delta (-8262)); (0x2132, 0x2132, Delta 28);
    (0x2160, 0x216F, Delta 16); (0x2183, 0x2183, Delta 1);
    (0x24B6, 0x24CF, Delta 26); (0x2C00, 0x2C2F, Delta 48);
    (0x2C60, 0x2C60, Delta 1); (0x2C62, 0x2C62, Delta (-10743));
    (0x2C63, 0x2C63, Delta (-3814)); (0x2C64, 0x2C64, Delta (-10727));
    (0x2C67, 0x2C6C, UpperLower); (0x2C6D, 0x2C6D, Delta (-10780));
    (0x2C6E, 0x2C6E, Delta (-10749)); (0x2C6F, 0x2C6F, Delta (-10783));
    (0x2C70, 0x2C70, Delta (-10782)); (0x2C72, 0x2C72, Delta 1);
    (0x2C75, 0x2C75, Delta 1); (0x2C7E, 0x2C7F, Delta (-10815));
    (0x2C80, 0x2CE3, UpperLower); (0x2CEB, 0x2CEE, UpperLower);
    (0x2CF2, 0x2CF2, Delta 1); (0xA640, 0xA66D, UpperLower);
    (0xA680, 0xA69B, UpperLower); (0xA722, 0xA72F, UpperLower);
    (0xA732, 0xA76F, UpperLower); (0xA779, 0xA77C, UpperLower);
    (0xA77D, 0xA77D, Delta (-35332)); (0xA77E, 0xA787, UpperLower);
    (0xA78B, 0xA78B, Delta 1); (0xA78D, 0xA78D, Delta (-42280));
    (0xA790, 0xA793, UpperLower); (0xA796, 0xA7A9, UpperLower);
    (0xA7AA, 0xA7AA, Delta (-42308)); (0xA7AB, 0xA7AB, Delta (-42319));
    (0xA7AC, 0xA7AC, Delta (-42315)); (0xA7AD, 0xA7AD, Delta (-42305));
    (0xA7AE, 0xA7AE, Delta (-42308)); (0xA7B0, 0xA7B0, Delta (-42258));
    (0xA7B1, 0xA7B1, Delta (-42282)); (0xA7B2, 0xA7B2, Delta (-42261));
    (0xA7B3, 0xA7B3, Delta 928); (0xA7B4, 0xA7C3, UpperLower);
    (0xA7C4, 0xA7C4, Delta (-48)); (0xA7C5, 0xA7C5, Delta (-42307));
    (0xA7C6, 0xA7C6, Delta (-35384)); (0xA7C7, 0xA7CA, UpperLower);
    (0xA7D0, 0xA7D0, Delta 1); (0xA7D6, 0xA7D9, UpperLower);
    (0xA7F5, 0xA7F5, Delta 1); (0xFF21, 0xFF3A, Delta 32);
    (0x10400, 0x10427, Delta 40); (0x104B0, 0x104D3, Delta 40);
    (0x10570, 0x1057A, Delta 39); (0x1057C, 0x1058A, Delta 39);
    (0x1058C, 0x10592, Delta 39); (0x10594, 0x10595, Delta 39);
    (0x10C80, 0x10CB2, Delta 64); (0x118A0, 0x118BF, Delta 32);
    (0x16E40, 0x16E5F, Delta 32); (0x1E900, 0x1E921, Delta 34)
  ]%Z.

Fixpoint to (r : Z) (caseRange : list (Z * Z * delta)) : Z :=
  match caseRange with
  | [] => r
  | (lo, hi, d) :: rest =>
      if bool_decide (lo ≤ r ≤ hi)%Z then
        match d with
        | Delta d => (r + d)%Z
        | UpperLower => (lo + Z.lor (Z.ldiff (r - lo) 1) 1)%Z
        end
      else to r rest
  end.

(** [unicode.ToLower]. *)
Definition ToLower (r : Z) : Z :=
  if bool_decide (r ≤ 0x7F)%Z then
    if bool_decide (0x41 ≤ r ≤ 0x5A)%Z then (r + 0x20)%Z else r
  else to r CaseRanges.

End unicode.

Module strings.

(** One byte of the loop that [strings.ToLower] runs over a string of
    ASCII bytes: the letters [A]..[Z] move to [a]..[z]. *)
Definition lower_byte (c : ascii) : ascii :=
  let n := nat_of_ascii c in
  if bool_decide (65 ≤ n ≤ 90) then ascii_of_nat (n + 32) else c.

Fixpoint lower_bytes (s : string) : string :=
  match s with
  | "" => ""
  | String c s' => String (lower_byte c) (lower_bytes s')
  end.

(** Every byte of [s] is below [utf8.RuneSelf]. *)
Fixpoint isASCII (s : string) : bool :=
  match s with
  | "" => true
  | String (Ascii _ _ _ _ _ _ _ b7) s' => negb b7 && isASCII s'
  end.

(** [strings.Map] for a mapping that drops no rune: the runes of [s], as
    [range] decodes them, are mapped and written one after the other;
    [skip] counts the bytes left of the rune that was decoded last. *)
Fixpoint map_from (skip : nat) (mapping : Z → Z) (s : string) : string :=
  match s with
  | "" => ""
  | String _ s' =>
      match skip with
      | S k => map_from k mapping s'
      | 0 =>
          let '(c, width) := utf8.DecodeRuneInString s in
          utf8.EncodeRune (mapping c) +:+ map_from (width - 1) mapping s'
      end
  end.

Definition Map (mapping : Z → Z) (s : string) : string := map_from 0 mapping s.

(** [strings.ToLower]: byte by byte on a string of ASCII bytes, rune by
    rune with [unicode.ToLower] on any other. *)
Definition ToLower (s : string) : string :=
  if isASCII s then lower_bytes s else Map unicode.ToLower s.

(** [s[n:]] and [s[:n]]. *)
Fixpoint slice_from (n : nat) (s : string) : string :=
  match n, s with
  | S n', String _ s' => slice_from n' s'
  | _, _ => s
  end.

Fixpoint slice_to (n : nat) (s : string) : string :=
  match n, s with
  | S n', String c s' => String c (slice_to n' s')
  | _, _ => ""
  end.

(** [strings.HasPrefix] and [strings.HasSuffix]. *)
Fixpoint HasPrefix (s prefix : string) {struct prefix} : bool :=
  match prefix with
  | "" => true
  | String p prefix' =>
      match s with
      | "" => false
      | String c s' => bool_decide (c = p) && HasPrefix s' prefix'
      end
  end.

Definition HasSuffix (s suffix : string) : bool :=
  bool_decide (String.length suffix ≤ String.length s)
  && bool_decide (slice_from (String.length s - String.length suffix) s = suffix).

(** [strings.TrimPrefix] and [strings.TrimSuffix]: the affix is removed
    once, when it is there. *)
Definition TrimPrefix (s prefix : string) : string :=
  if HasPrefix s prefix then slice_from (String.length prefix) s else s.

Definition TrimSuffix (s suffix : string) : string :=
  if HasSuffix s suffix then slice_to (String.length s - String.length suffix) s
  else s.

(** [strings.ReplaceAll]: the occurrences of [old] that do not overlap,
    from the left; an empty [old] matches before every byte and at the
    end. *)
Fixpoint replace_from (skip : nat) (s old new : string) : string :=
  match s with
  | "" => ""
  | String c s' =>
      match skip with
      | S k => replace_from k s' old new
      | 0 =>
          if HasPrefix s old
          then new +:+ replace_from (String.length old - 1) s' old new
          else String c (replace_from 0 s' old new)
      end
  end.

Fixpoint after_each (s new : string) : string :=
  match s with
  | "" => ""
  | String c s' => String c (new +:+ after_each s' new)
  end.

Definition ReplaceAll (s old new : string) : string :=
  if bool_decide (old = "") then new +:+ after_each s new
  else replace_from 0 s old new.

End strings.

(** ** Media classes *)

Definition imageExtensions : gmap string bool :=
list_to_map
  [ (".jpg", true); (".jpeg", true); (".png", true);
    (".heic", true); (".HEIC", true); (".arw", true); (".ARW", true);
    (".raw", true); (".RAW", true); (".heif", true); (".HEIF", true);
    (".dng", true); (".DNG", true) ].

Definition movieExtensions : gmap string bool :=
list_to_map
  [ (".mov", true); (".MOV", true); (".mp4", true); (".MP4", true);
    (".avi", true); (".AVI", true); (".mkv", true); (".MKV", true) ].

(** Indexing a Go [map[string]bool]: a missing key reads as [false]. *)
Definition index (m : gmap string bool) (k : string) : bool :=
default false (m !! k).

(** ** [getThumbnailPath] *)

Definition getThumbnailPath (imagePath : string) : string :=
let dir := filepath.Dir imagePath in
let baseName := filepath.Base imagePath in
let thumbnailDir := filepath.Join [dir; ".small"] in
let thumbnailPath := filepath.Join [thumbnailDir; baseName +:+ ".jpg"] in
thumbnailPath.


(** ** The disk, as [os.Stat] sees it *)

(** What is known of a path: a regular file or a directory, which
    [os.Stat] can read, or a path on which [os.Stat] fails with an error
    other than "does not exist".  No entry means that the path does not
    exist.  Nothing in [main.go] removes a file, and removal from outside
    is not part of the model. *)
Inductive entry := Regular | Directory | Inaccessible.

Inductive stat_result := StatOK | StatNotExist | StatError.

Definition Stat (fs : gmap string entry) (name : string) : stat_result :=
  match fs !! name with
  | None => StatNotExist
  | Some Regular | Some Directory => StatOK
  | Some Inaccessible => StatError
  end.

(** [os.IsNotExist(err)] and [err == nil] on the result of [os.Stat]. *)
Definition IsNotExist (r : stat_result) : bool :=
  match r with StatNotExist => true | _ => false end.

Definition is_nil (r : stat_result) : bool :=
  match r with StatOK => true | _ => false end.

(** ** Errors and external commands *)

Inductive error :=
| ErrMkdir         (* failed to create thumbnail directory *)
| ErrOpen          (* failed to open image for vips stdin *)
| ErrRun           (* failed to generate thumbnail *)
| ErrUnsupported   (* unsupported file type for thumbnail generation *)
| ErrNotFound      (* thumbnail generation completed but file not found *)
| ErrTimeout.      (* thumbnail generation timeout *)

Inductive tool := Ffmpeg | Vips.

(** One [cmd.Run()]: the tool, the source it reads, the file it is asked
    to write, and whether it returned without error. *)
Record command := Command {
  cmd_tool : tool;
  cmd_input : string;
  cmd_output : string;
  cmd_ok : bool;
}.

(** What the environment answers during one call of [generateThumbnail]:
    whether the system lets [os.MkdirAll] make a directory, whether
    [os.Open] and [cmd.Run] succeed, and whether a run that fails leaves a
    file at its output path. *)
Record outcome := Outcome {
  mkdir_ok : bool;
  open_ok : bool;
  run_ok : bool;
  leaves_output : bool;
}.

(** *** [os.MkdirAll] *)

(** The directories that [os.MkdirAll] goes through for a cleaned path:
    the path itself and the directories above it, the nearest first.  The
    root directory is not among them, unless it is the path itself:
    [os.MkdirAll] looks at the part of the path before its last element
    only when that part is not empty. *)
Definition lineage (path : string) : list string :=
  let ns := filepath.names path in
  if filepath.is_rooted path then
    match ns with
    | [] => ["/"]
    | _ => (λ k, "/" +:+ filepath.join_elements (take k ns)) <$> rev (seq 1 (length ns))
    end
  else
    (λ k, filepath.join_elements (take k ns)) <$> rev (seq 1 (length ns)).

(** [os.Mkdir]: the directory is made when nothing is at the path and the
    system lets it. *)
Definition Mkdir (ok : bool) (fs : gmap string entry) (name : string)
    : option error * gmap string entry :=
  match fs !! name with
  | None => if ok then (None, <[name := Directory]> fs) else (Some ErrMkdir, fs)
  | Some _ => (Some ErrMkdir, fs)
  end.

(** The recursion of [os.MkdirAll] on a path and the directories above
    it: a directory that is there ends it with success and a file that is
    no directory with an error; otherwise the directories above are dealt
    with first, and then the path is made. *)
Fixpoint mkdir_chain (ok : bool) (fs : gmap string entry) (chain : list string)
    : option error * gmap string entry :=
  match chain with
  | [] => (None, fs)
  | path :: above =>
      match fs !! path with
      | Some Directory => (None, fs)
      | Some Regular => (Some ErrMkdir, fs)
      | _ =>
          match mkdir_chain ok fs above with
          | (Some e, fs') => (Some e, fs')
          | (None, fs') => Mkdir ok fs' path
          end
      end
  end.

(** [os.MkdirAll]; on the empty path [os.Stat] and [os.Mkdir] both
    fail. *)
Definition MkdirAll (ok : bool) (fs : gmap string entry) (path : string)
    : option error * gmap string entry :=
  if bool_decide (path = "") then (Some ErrMkdir, fs)
  else mkdir_chain ok fs (lineage path).

(** *** The external tools *)

(** Modelled from the spec: the external tools behind [cmd.Run] ([ffmpeg]
    and [vipsthumbnail]), the Transcoder of the spec, which produces the
    scaled image or fails: a run that returns without error has written its
    output file.  What a run that fails leaves at its output path is not
    for [main.go] to say, which removes nothing after it: the environment
    decides ([leaves_output]). *)
Definition run_command (o : outcome) (t : tool) (input output : string)
    (fs : gmap string entry) : option error * gmap string entry * list command :=
  if run_ok o then (None, <[output := Regular]> fs, [Command t input output true])
  else
    (Some ErrRun,
     if leaves_output o then <[output := Regular]> fs else fs,
     [Command t input output false]).

(** ** [generateThumbnail] *)

Definition generateThumbnail (o : outcome) (fs : gmap string entry)
    (imagePath : string) : option error * gmap string entry * list command :=
  let thumbnailPath := getThumbnailPath imagePath in
  let thumbnailDir := filepath.Dir thumbnailPath in
  if is_nil (Stat fs thumbnailPath) then (None, fs, [])
  else
    match MkdirAll (mkdir_ok o) fs thumbnailDir with
    | (Some _, fs') => (Some ErrMkdir, fs', [])
    | (None, fs') =>
        let ext := strings.ToLower (filepath.Ext imagePath) in
        if index movieExtensions ext then
          run_command o Ffmpeg imagePath thumbnailPath fs'
        else if index imageExtensions ext then
          if negb (open_ok o) then (Some ErrOpen, fs', [])
          else run_command o Vips imagePath thumbnailPath fs'
        else (Some ErrUnsupported, fs', [])
    end.

(** ** The server *)

Inductive class := Image | Movie.

Inductive response :=
| NotFound                           (* 404, File not found *)
| InternalServerError (err : error)  (* 500, Failed to generate thumbnail *)
| ServeFile (thumbnailPath : string).

(** Where a goroutine serving [/api/thumbnail/] stands, from the first
    [os.Stat] of [handleThumbnail] on; [done] is the channel that
    [LoadOrStore] returned, [deadline] the time at which the timer of
    [time.After] fires. *)
Inductive handler_pc :=
| HStatSource (fullPath : string)
    (* handleThumbnail, before os.Stat(fullPath) *)
| HStatThumbnail (fullPath : string)
    (* handleThumbnail, before os.Stat(thumbnailPath) *)
| QLoadOrStore (imagePath : string)
    (* queueAndWaitForThumbnail, before pendingThumbs.LoadOrStore *)
| QSelectQueue (imagePath : string) (done : nat)
    (* the starter, before the select that sends to its class queue *)
| QGenerate (imagePath : string) (done : nat)
    (* the starter in the default case, before generateThumbnail *)
| QClose (imagePath : string) (done : nat) (err : option error)
    (* before close(done) *)
| QDelete (imagePath : string) (err : option error)
    (* before pendingThumbs.Delete(thumbnailPath) *)
| QSelectDone (imagePath : string) (done : nat)
    (* before the final select starts its timer *)
| QWait (imagePath : string) (done : nat) (deadline : nat)
    (* in the final select *)
| QStatThumbnail (imagePath : string)
    (* woken by done, before os.Stat(thumbnailPath) *)
| HDone (r : response).

(** Where a worker goroutine stands in one round of its loop. *)
Inductive worker_pc :=
| WReceive
    (* in the range over its queue *)
| WGenerate (imagePath : string)
    (* before generateThumbnail *)
| WLoadAndDelete (imagePath : string) (err : option error)
    (* before pendingThumbs.LoadAndDelete *)
| WClose (imagePath : string) (doneChan : nat) (err : option error).
    (* before close(doneChan) *)

Record worker := Worker { w_class : class; w_pc : worker_pc }.

(** The [Server] struct with the state it shares with the environment.
    Channels are numbered in the order of their [make]; [closed] holds the
    channels that have been closed; [now] is the time in seconds;
    [commands] lists the runs of the external tools, latest first;
    [logged] the failures that the workers have logged; [panicked] says
    that a channel has been closed twice. *)
Record Server := MkServer {
  fs : gmap string entry;
  pendingThumbs : gmap string nat;
  closed : gset nat;
  next_chan : nat;
  queueSize : nat;
  imageThumbnailQueue : list string;
  movieThumbnailQueue : list string;
  now : nat;
  commands : list command;
  logged : list (class * string * error);
  panicked : bool;
  handlers : list handler_pc;
  workers : list worker;
}.

Definition set_fs (s : Server) (x : gmap string entry) (c : list command) : Server :=
  MkServer x (pendingThumbs s) (closed s) (next_chan s) (queueSize s)
    (imageThumbnailQueue s) (movieThumbnailQueue s) (now s) (c ++ commands s)
    (logged s) (panicked s) (handlers s) (workers s).

Definition set_pendingThumbs (s : Server) (x : gmap string nat) : Server :=
  MkServer (fs s) x (closed s) (next_chan s) (queueSize s)
    (imageThumbnailQueue s) (movieThumbnailQueue s) (now s) (commands s)
    (logged s) (panicked s) (handlers s) (workers s).

Definition set_closed (s : Server) (x : gset nat) (p : bool) : Server :=
  MkServer (fs s) (pendingThumbs s) x (next_chan s) (queueSize s)
    (imageThumbnailQueue s) (movieThumbnailQueue s) (now s) (commands s)
    (logged s) p (handlers s) (workers s).

Definition set_next_chan (s : Server) (x : nat) : Server :=
  MkServer (fs s) (pendingThumbs s) (closed s) x (queueSize s)
    (imageThumbnailQueue s) (movieThumbnailQueue s) (now s) (commands s)
    (logged s) (panicked s) (handlers s) (workers s).

Definition queue (c : class) (s : Server) : list string :=
  match c with
  | Image => imageThumbnailQueue s
  | Movie => movieThumbnailQueue s
  end.

Definition set_queue (c : class) (s : Server) (x : list string) : Server :=
  match c with
  | Image =>
      MkServer (fs s) (pendingThumbs s) (closed s) (next_chan s) (queueSize s)
        x (movieThumbnailQueue s) (now s) (commands s)
        (logged s) (panicked s) (handlers s) (workers s)
  | Movie =>
      MkServer (fs s) (pendingThumbs s) (closed s) (next_chan s) (queueSize s)
        (imageThumbnailQueue s) x (now s) (commands s)
        (logged s) (panicked s) (handlers s) (workers s)
  end.

Definition set_now (s : Server) (x : nat) : Server :=
  MkServer (fs s) (pendingThumbs s) (closed s) (next_chan s) (queueSize s)
    (imageThumbnailQueue s) (movieThumbnailQueue s) x (commands s)
    (logged s) (panicked s) (handlers s) (workers s).

Definition set_logged (s : Server) (x : list (class * string * error)) : Server :=
  MkServer (fs s) (pendingThumbs s) (closed s) (next_chan s) (queueSize s)
    (imageThumbnailQueue s) (movieThumbnailQueue s) (now s) (commands s)
    x (panicked s) (handlers s) (workers s).

Definition set_handlers (s : Server) (x : list handler_pc) : Server :=
  MkServer (fs s) (pendingThumbs s) (closed s) (next_chan s) (queueSize s)
    (imageThumbnailQueue s) (movieThumbnailQueue s) (now s) (commands s)
    (logged s) (panicked s) x (workers s).

Definition set_workers (s : Server) (x : list worker) : Server :=
  MkServer (fs s) (pendingThumbs s) (closed s) (next_chan s) (queueSize s)
    (imageThumbnailQueue s) (movieThumbnailQueue s) (now s) (commands s)
    (logged s) (panicked s) (handlers s) x.

(** Handler [i] moves to [pc]; worker [w] moves to [pc]. *)
Definition goto (i : nat) (pc : handler_pc) (s : Server) : Server :=
  set_handlers s (<[i := pc]> (handlers s)).

Definition wgoto (w : nat) (c : class) (pc : worker_pc) (s : Server) : Server :=
  set_workers s (<[w := Worker c pc]> (workers s)).

(** *** The registry: [sync.Map] *)

Definition LoadOrStore (m : gmap string nat) (key : string) (value : nat)
    : gmap string nat * nat * bool :=
  match m !! key with
  | Some actual => (m, actual, true)
  | None => (<[key := value]> m, value, false)
  end.

Definition LoadAndDelete (m : gmap string nat) (key : string)
    : gmap string nat * option nat :=
  (delete key m, m !! key).

Definition Delete (m : gmap string nat) (key : string) : gmap string nat :=
  delete key m.

(** *** Channels *)

(** [close(ch)]: closing a channel twice panics. *)
Definition close (ch : nat) (s : Server) : Server :=
  if bool_decide (ch ∈ closed s) then set_closed s (closed s) true
  else set_closed s ({[ch]} ∪ closed s) (panicked s).

(** [select { case q <- v: ...; default: ... }] on a buffered channel. *)
Definition try_send (cap : nat) (q : list string) (v : string) : option (list string) :=
  if bool_decide (length q < cap) then Some (q ++ [v]) else None.

(** *** One step of a handler *)

(** The value that [handleThumbnail] makes of what
    [queueAndWaitForThumbnail] returns. *)
Definition respond (imagePath : string) (err : option error) : handler_pc :=
  match err with
  | Some e => HDone (InternalServerError e)
  | None => HDone (ServeFile (getThumbnailPath imagePath))
  end.

(** The wait of the final [select], in seconds. *)
Definition waitTimeout : nat := 30.

Definition handler_step (s : Server) (i : nat) (o : outcome) : option Server :=
  match handlers s !! i with
  | None => None
  | Some (HStatSource fullPath) =>
      if IsNotExist (Stat (fs s) fullPath) then Some (goto i (HDone NotFound) s)
      else Some (goto i (HStatThumbnail fullPath) s)
  | Some (HStatThumbnail fullPath) =>
      let thumbnailPath := getThumbnailPath fullPath in
      if IsNotExist (Stat (fs s) thumbnailPath) then Some (goto i (QLoadOrStore fullPath) s)
      else Some (goto i (HDone (ServeFile thumbnailPath)) s)
  | Some (QLoadOrStore imagePath) =>
      let thumbnailPath := getThumbnailPath imagePath in
      let '(m, done, alreadyGenerating) :=
        LoadOrStore (pendingThumbs s) thumbnailPath (next_chan s) in
      let s' := set_next_chan (set_pendingThumbs s m) (S (next_chan s)) in
      if alreadyGenerating then Some (goto i (QSelectDone imagePath done) s')
      else Some (goto i (QSelectQueue imagePath done) s')
  | Some (QSelectQueue imagePath done) =>
      let ext := strings.ToLower (filepath.Ext imagePath) in
      if index movieExtensions ext then
        match try_send (queueSize s) (movieThumbnailQueue s) imagePath with
        | Some q => Some (goto i (QSelectDone imagePath done) (set_queue Movie s q))
        | None => Some (goto i (QGenerate imagePath done) s)
        end
      else if index imageExtensions ext then
        match try_send (queueSize s) (imageThumbnailQueue s) imagePath with
        | Some q => Some (goto i (QSelectDone imagePath done) (set_queue Image s q))
        | None => Some (goto i (QGenerate imagePath done) s)
        end
      else Some (goto i (HDone (InternalServerError ErrUnsupported)) s)
  | Some (QGenerate imagePath done) =>
      let '(err, fs', cmds) := generateThumbnail o (fs s) imagePath in
      Some (goto i (QClose imagePath done err) (set_fs s fs' cmds))
  | Some (QClose imagePath done err) =>
      Some (goto i (QDelete imagePath err) (close done s))
  | Some (QDelete imagePath err) =>
      let thumbnailPath := getThumbnailPath imagePath in
      Some (goto i (respond imagePath err)
              (set_pendingThumbs s (Delete (pendingThumbs s) thumbnailPath)))
  | Some (QSelectDone imagePath done) =>
      Some (goto i (QWait imagePath done (now s + waitTimeout)) s)
  | Some (QWait imagePath done deadline) =>
      if bool_decide (done ∈ closed s) then Some (goto i (QStatThumbnail imagePath) s)
      else None
  | Some (QStatThumbnail imagePath) =>
      let thumbnailPath := getThumbnailPath imagePath in
      if IsNotExist (Stat (fs s) thumbnailPath)
      then Some (goto i (respond imagePath (Some ErrNotFound)) s)
      else Some (goto i (respond imagePath None) s)
  | Some (HDone _) => None
  end.

(** The other case of the final [select]: the timer has fired. *)
Definition handler_timeout (s : Server) (i : nat) : option Server :=
  match handlers s !! i with
  | Some (QWait imagePath done deadline) =>
      if bool_decide (deadline ≤ now s)
      then Some (goto i (respond imagePath (Some ErrTimeout)) s)
      else None
  | _ => None
  end.

(** *** One step of a worker *)

(** A call of [generateThumbnail] is one step, for a worker as for a
    starter in the fallback: what the other goroutines do between its
    [os.Stat] and its tool touches neither the registry entry of its key
    nor its thumbnail path. *)

Definition log_failure (c : class) (imagePath : string) (err : option error)
    (s : Server) : Server :=
  match err with
  | Some e => set_logged s ((c, imagePath, e) :: logged s)
  | None => s
  end.

Definition worker_step (s : Server) (w : nat) (o : outcome) : option Server :=
  match workers s !! w with
  | None => None
  | Some (Worker c WReceive) =>
      match queue c s with
      | imagePath :: rest => Some (wgoto w c (WGenerate imagePath) (set_queue c s rest))
      | [] => None
      end
  | Some (Worker c (WGenerate imagePath)) =>
      let '(err, fs', cmds) := generateThumbnail o (fs s) imagePath in
      Some (wgoto w c (WLoadAndDelete imagePath err) (set_fs s fs' cmds))
  | Some (Worker c (WLoadAndDelete imagePath err)) =>
      let thumbnailPath := getThumbnailPath imagePath in
      let '(m, doneChan) := LoadAndDelete (pendingThumbs s) thumbnailPath in
      match doneChan with
      | Some ch => Some (wgoto w c (WClose imagePath ch err) (set_pendingThumbs s m))
      | None => Some (wgoto w c WReceive (log_failure c imagePath err (set_pendingThumbs s m)))
      end
  | Some (Worker c (WClose imagePath doneChan err)) =>
      Some (wgoto w c WReceive (log_failure c imagePath err (close doneChan s)))
  end.

(** *** The system *)

(** What can happen next: a request enters [handleThumbnail] with the
    full path that passed the security check, a handler or a worker takes
    its next step, a waiting handler's timer fires, or time passes. *)
Inductive action :=
| Request (fullPath : string)
| Handle (i : nat) (o : outcome)
| Timeout (i : nat)
| Work (w : nat) (o : outcome)
| Tick (d : nat).

(** [None]: the goroutine is blocked or has returned, or the process has
    died of a panic. *)
Definition step (s : Server) (a : action) : option Server :=
  if panicked s then None
  else match a with
       | Request fullPath => Some (set_handlers s (handlers s ++ [HStatSource fullPath]))
       | Handle i o => handler_step s i o
       | Timeout i => handler_timeout s i
       | Work w o => worker_step s w o
       | Tick d => Some (set_now s (now s + d))
       end.

Fixpoint run (s : Server) (acts : list action) : option Server :=
  match acts with
  | [] => Some s
  | a :: rest =>
      match step s a with
      | Some s' => run s' rest
      | None => None
      end
  end.

(** [main]: the server over a disk [files], with two image workers and one
    movie worker waiting on their queues. *)
Definition newServer (size : nat) (files : gmap string entry) : Server :=
  MkServer files ∅ ∅ 0 size [] [] 0 [] [] false []
    [Worker Image WReceive; Worker Image WReceive; Worker Movie WReceive].

Definition main (files : gmap string entry) : Server := newServer 250 files.

Inductive reachable : Server → Prop :=
| reachable_main files : reachable (main files)
| reachable_step s a s' : reachable s → step s a = Some s' → reachable s'.

(** ** Cleaned absolute paths *)

Fixpoint has_separator (s : string) : bool :=
  match s with
  | "" => false
  | String c s' => filepath.IsPathSeparator c || has_separator s'
  end.

(** A directory name: not empty, not [.] or [..], and free of separators. *)
Definition is_name (e : string) : bool :=
  negb (bool_decide (e = "")) && negb (bool_decide (e = "."))
  && negb (bool_decide (e = "..")) && negb (has_separator e).

(** The absolute path [/e1/.../en]; the root directory is the empty list. *)
Fixpoint absolute (es : list string) : string :=
  match es with
  | [] => ""
  | e :: es' => "/" +:+ e +:+ absolute es'
  end.

(** The test that both [queueAndWaitForThumbnail] and [generateThumbnail]
    make on a source path, as a value. *)
Definition media_class (imagePath : string) : option class :=
  let ext := strings.ToLower (filepath.Ext imagePath) in
  if index movieExtensions ext then Some Movie
  else if index imageExtensions ext then Some Image
  else None.

(** The branch of [generateThumbnail] that runs an external tool, by
    media class. *)
Definition transcode (o : outcome) (fs : gmap string entry) (imagePath : string)
    (c : option class) : option error * gmap string entry * list command :=
  match c with
  | Some Movie => run_command o Ffmpeg imagePath (getThumbnailPath imagePath) fs
  | Some Image =>
      if negb (open_ok o) then (Some ErrOpen, fs, [])
      else run_command o Vips imagePath (getThumbnailPath imagePath) fs
  | None => (Some ErrUnsupported, fs, [])
  end.

(** The routing of a starter in [queueAndWaitForThumbnail], by media class. *)
Definition select_queue (s : Server) (i : nat) (imagePath : string) (done : nat)
    (c : option class) : Server :=
  match c with
  | Some c =>
      match try_send (queueSize s) (queue c s) imagePath with
      | Some q => goto i (QSelectDone imagePath done) (set_queue c s q)
      | None => goto i (QGenerate imagePath done) s
      end
  | None => goto i (HDone (InternalServerError ErrUnsupported)) s
  end.

(** ** Generation tasks and their owners *)

(** The registry key of a source path is its thumbnail path. *)
Definition has_key (k : string) (imagePath : string) : nat :=
  if bool_decide (getThumbnailPath imagePath = k) then 1 else 0.

(** Source paths with key [k] that wait in one of the two queues. *)
Definition queued (k : string) (s : Server) : nat :=
  sum_list_with (has_key k) (imageThumbnailQueue s)
  + sum_list_with (has_key k) (movieThumbnailQueue s).




(** Who is in charge of the registry entry of [k]: the starter until it has
    queued the path or finished the fallback, the queued path, and the
    worker until its [LoadAndDelete]. *)
Definition handler_owns (k : string) (pc : handler_pc) : nat :=
  match pc with
  | QSelectQueue p _ | QGenerate p _ | QClose p _ _ | QDelete p _ => has_key k p
  | _ => 0
  end.

Definition worker_owns (k : string) (w : worker) : nat :=
  match w_pc w with
  | WGenerate p | WLoadAndDelete p _ => has_key k p
  | _ => 0
  end.

Definition owners (k : string) (s : Server) : nat :=
  queued k s
  + sum_list_with (handler_owns k) (handlers s)
  + sum_list_with (worker_owns k) (workers s).

(** The starter holds the channel it stored and has not closed it yet. *)
Definition holds_open (pc : handler_pc) (p : string) (done : nat) : Prop :=
  pc = QSelectQueue p done ∨ pc = QGenerate p done ∨ ∃ err, pc = QClose p done err.

(** Runs of an external tool with output [k]. *)
Definition ran (k : string) (c : command) : nat :=
  if bool_decide (cmd_output c = k) then 1 else 0.

Definition transcoder_runs (k : string) (s : Server) : nat :=
  sum_list_with (ran k) (commands s).





(** What holds of every state that the server reaches. *)
Record invariant (s : Server) : Prop := Invariant {
  inv_panicked : panicked s = false;
  inv_owners : ∀ k, owners k s ≤ 1;
  inv_entry : ∀ k, 0 < owners k s → is_Some (pendingThumbs s !! k);
  inv_fresh : ∀ k ch, pendingThumbs s !! k = Some ch → ch < next_chan s;
  inv_inj : ∀ k1 k2 ch,
    pendingThumbs s !! k1 = Some ch → pendingThumbs s !! k2 = Some ch → k1 = k2;
  inv_done : ∀ i pc p done,
    handlers s !! i = Some pc → holds_open pc p done →
    pendingThumbs s !! getThumbnailPath p = Some done ∧ done ∉ closed s;
  inv_wclose : ∀ w c p ch e,
    workers s !! w = Some (Worker c (WClose p ch e)) →
    ch < next_chan s ∧ (ch ∉ closed s) ∧ (∀ k, pendingThumbs s !! k ≠ Some ch);
  inv_wclose_inj : ∀ w1 w2 c1 c2 p1 p2 ch e1 e2,
    workers s !! w1 = Some (Worker c1 (WClose p1 ch e1)) →
    workers s !! w2 = Some (Worker c2 (WClose p2 ch e2)) → w1 = w2;
  inv_closed_fresh : ∀ ch, ch ∈ closed s → ch < next_chan s;
  inv_closed_entry : ∀ k ch,
    pendingThumbs s !! k = Some ch → ch ∈ closed s →
    ∃ i p e, handlers s !! i = Some (QDelete p e) ∧ getThumbnailPath p = k;
}.

(** ** Inside the coordinator *)

(** The handler is in [queueAndWaitForThumbnail], or has answered with the
    error that it returned. *)
Definition in_coordinator (pc : handler_pc) : Prop :=
  match pc with
  | HStatSource _ | HStatThumbnail _ | HDone NotFound | HDone (ServeFile _) => False
  | _ => True
  end.

(** Earlier in the run [acts], handler [i] stood before the existence
    check of a thumbnail that was not on disk. *)
Definition missed (files : gmap string entry) (acts : list action) (i : nat) : Prop :=
  ∃ acts1 acts2 s1 p,
    acts = acts1 ++ acts2
    ∧ run (main files) acts1 = Some s1
    ∧ handlers s1 !! i = Some (HStatThumbnail p)
    ∧ Stat (fs s1) (getThumbnailPath p) = StatNotExist.

(** ** Schedules *)

(** The steps of worker [w], and of handler [i], in a list of actions. *)
Definition is_work (w : nat) (a : action) : nat :=
  match a with
  | Work v _ => if bool_decide (v = w) then 1 else 0
  | _ => 0
  end.

Definition is_handle (i : nat) (a : action) : nat :=
  match a with
  | Handle j _ => if bool_decide (j = i) then 1 else 0
  | _ => 0
  end.

Definition work_steps (w : nat) (acts : list action) : nat :=
  sum_list_with (is_work w) acts.

Definition handle_steps (i : nat) (acts : list action) : nat :=
  sum_list_with (is_handle i) acts.

(** How far worker [w] of class [c] has come with the path [p] it received
    while the entry of its key held channel [ch], after [n] of its steps. *)
Definition worker_phase (w : nat) (c : class) (p : string) (ch : nat)
    (n : nat) (s : Server) : Prop :=
  match n with
  | 0 => workers s !! w = Some (Worker c (WGenerate p))
         ∧ pendingThumbs s !! getThumbnailPath p = Some ch
  | 1 => (∃ err, workers s !! w = Some (Worker c (WLoadAndDelete p err)))
         ∧ pendingThumbs s !! getThumbnailPath p = Some ch
  | 2 => ∃ err, workers s !! w = Some (Worker c (WClose p ch err))
  | _ => ch ∈ closed s ∧ ch < next_chan s ∧ ∀ k, pendingThumbs s !! k ≠ Some ch
  end.

(** How far the starter [i] has come in the fallback for [p], from the
    [close] of its channel [done] on, after [n] of its steps; [err] is what
    its generation returned. *)
Definition fallback_phase (i : nat) (p : string) (done : nat) (err : option error)
    (n : nat) (s : Server) : Prop :=
  match n with
  | 0 => handlers s !! i = Some (QClose p done err)
  | 1 => handlers s !! i = Some (QDelete p err)
         ∧ done ∈ closed s
         ∧ pendingThumbs s !! getThumbnailPath p = Some done
  | _ => handlers s !! i = Some (respond p err)
         ∧ done ∈ closed s ∧ done < next_chan s
         ∧ ∀ k, pendingThumbs s !! k ≠ Some done
  end.

(** An entry that no goroutine is in charge of, with its channel open. *)
Definition orphan (k : string) (ch : nat) (s : Server) : Prop :=
  pendingThumbs s !! k = Some ch ∧ (ch ∉ closed s) ∧ owners k s = 0.

(** ** Outcomes and disks used in the examples *)

Definition all_ok : outcome := Outcome true true true false.

Definition tool_fails : outcome := Outcome true true false false.

(** The tool fails and leaves a file at its output path. *)
Definition tool_fails_midway : outcome := Outcome true true false true.

(** The system refuses to make a directory. *)
Definition mkdir_fails : outcome := Outcome false true true false.

(** The string of the bytes [l]. *)
Definition bytes (l : list Z) : string := foldr (λ b, String (utf8.char b)) "" l.

(** The Kelvin sign U+212A and the capital I with a dot U+0130, in
    UTF-8: the two runes above ASCII whose lower case is an ASCII
    letter. *)
Definition kelvin : string := bytes [0xE2; 0x84; 0xAA]%Z.

Definition dotted_I : string := bytes [0xC4; 0xB0]%Z.

(** The disk with the regular files [names], the directories above them
    and the root directory. *)
Definition disk (names : list string) : gmap string entry :=
  list_to_map ((λ n, (n, Regular)) <$> names)
  ∪ list_to_map ((λ d, (d, Directory))
                 <$> "/" :: (names ≫= λ n, lineage (filepath.Dir n))).

(** Two requests for the same uncached image that are inside the
    coordinator at the same time, with a tool that fails once: the first
    request stores the entry and its generation fails; the second reaches
    [LoadOrStore] after the worker has removed the entry, stores a fresh
    one, and the tool runs a second time. *)
Definition two_requests_enter : list action :=
  [ Request "/srv/a.jpg"; Request "/srv/a.jpg";
    Handle 0 all_ok; Handle 0 all_ok; Handle 1 all_ok; Handle 1 all_ok ].

Definition first_fails_second_restarts : list action :=
  [ Handle 0 all_ok; Handle 0 all_ok; Handle 0 all_ok;
    Work 0 all_ok; Work 0 tool_fails; Work 0 all_ok; Work 0 all_ok;
    Handle 0 all_ok; Handle 0 all_ok;
    Handle 1 all_ok; Handle 1 all_ok; Handle 1 all_ok;
    Work 1 all_ok; Work 1 all_ok; Work 1 all_ok; Work 1 all_ok;
    Handle 1 all_ok; Handle 1 all_ok ].


(** One request for an uncached image, up to the worker that has received
    the path. *)
Definition request_received : list action :=
  [ Request "/srv/a.jpg"; Handle 0 all_ok; Handle 0 all_ok; Handle 0 all_ok;
    Handle 0 all_ok; Handle 0 all_ok; Work 0 all_ok ].

(** A request for an uncached image whose tool fails after it has left a
    file at the thumbnail path, and a second request for the same image
    after the first has been answered. *)
Definition failure_left_behind : list action :=
  request_received
  ++ [ Work 0 tool_fails_midway; Work 0 all_ok; Work 0 all_ok;
       Handle 0 all_ok; Handle 0 all_ok;
       Request "/srv/a.jpg"; Handle 1 all_ok; Handle 1 all_ok ].

(** A request for a file of neither class, and a second one for the same
    file after the first has returned. *)
Definition unsupported_request : list action :=
  [ Request "/srv/notes.txt"; Handle 0 all_ok; Handle 0 all_ok;
    Handle 0 all_ok; Handle 0 all_ok ].

Definition unsupported_again : list action :=
  [ Request "/srv/notes.txt"; Handle 1 all_ok; Handle 1 all_ok;
    Handle 1 all_ok; Handle 1 all_ok ].

(** A burst of [n] requests for [n] different uncached images, each taken
    up to its routing and none received by a worker yet. *)
Definition photo (n : nat) : string := "/srv/" +:+ pretty n +:+ ".jpg".

Definition burst (n : nat) : list action :=
  mjoin ((λ i, [ Request (photo i); Handle i all_ok; Handle i all_ok;
                 Handle i all_ok; Handle i all_ok ]) <$> seq 0 n).

(** 250 requests fill the image queue; request 250 has stored its entry
    and is about to route. *)
Definition saturate : list action :=
  burst 250 ++ [ Request (photo 250); Handle 250 all_ok; Handle 250 all_ok;
                 Handle 250 all_ok ].

(** The worker finishes its round while a second request comes in. *)
Definition worker_round_interleaved : list action :=
  [ Work 0 tool_fails; Request "/srv/b.jpg"; Work 0 all_ok; Handle 1 all_ok;
    Tick 5; Work 0 all_ok ].

(** The starter of the saturated queue goes through the fallback while a
    worker takes a path from the queue. *)
Definition fallback_interleaved : list action :=
  [ Handle 250 all_ok; Work 0 all_ok; Handle 250 all_ok ].

(** ** The base path *)

(** [urlWithBasePath], for a server with base path [basePath]. *)
Definition urlWithBasePath (basePath path : string) : string :=
  if bool_decide (basePath = "") then path
  else
    let path := if negb (strings.HasPrefix path "/") then "/" +:+ path else path in
    basePath +:+ path.

(** The base path that [main] makes of the flag [-base-path] and stores in
    the server. *)
Definition normalizedBasePath (basePath : string) : string :=
  if negb (bool_decide (basePath = "")) then
    let normalized :=
      if negb (strings.HasPrefix basePath "/") then "/" +:+ basePath
      else basePath in
    strings.TrimSuffix normalized "/"
  else basePath.

(** ** The handlers up to their answer *)

Module DirEntry.
(** What [handleList] reads of an [os.DirEntry]. *)
Record t := mk { Name : string; IsDir : bool }.
End DirEntry.

Module FileInfo.
Record t := mk {
  Name : string;
  Path : string;
  IsDir : bool;
  IsImage : bool;
  IsMovie : bool;
  Thumbnail : string;
  CanonicalMovie : string;
}.
End FileInfo.

Module DirectoryResponse.
Record t := mk { Path : string; Files : list FileInfo.t }.
End DirectoryResponse.

(** What a handler answers, when it is not the thumbnail that
    [handleThumbnail] serves after its first [os.Stat]. *)
Inductive reply :=
| PathRequired                          (* 400, Path required *)
| AccessDenied                          (* 403, Access denied *)
| FileNotFound                          (* 404, File not found *)
| NotMedia                              (* 400, Not an image or movie file *)
| OpenFailed                            (* 500, Failed to open file *)
| ReadDirFailed                         (* 500, the error of os.ReadDir *)
| Listing (r : DirectoryResponse.t)     (* 200, the directory as JSON *)
| Stream (contentType : string) (t : tool) (input : string)
                                        (* 200, the output of the tool *)
| File (fullPath : string).             (* http.ServeFile *)

(** The security check of the four handlers: [true] when the request is
    refused. *)
Definition access_denied (rootDir fullPath : string) : bool :=
  match filepath.Rel rootDir fullPath with
  | None => true
  | Some relPath => strings.HasPrefix relPath ".."
  end.

(** [handleThumbnail] and [handlePreview] from the URL path of the request
    to the security check; the two differ in their route
    ([/api/thumbnail], [/api/preview]) only. *)
Definition resolve (route rootDir urlPath : string) : reply + string :=
  let rawPath := strings.TrimPrefix urlPath route in
  let rawPath := strings.TrimPrefix rawPath "/" in
  if bool_decide (rawPath = "") then inl PathRequired
  else
    let path := filepath.FromSlash rawPath in
    let path := filepath.Clean path in
    let path := if bool_decide (path = ".") then "/" else path in
    let fullPath :=
      if bool_decide (path = "/") || bool_decide (path = "") then rootDir
      else filepath.Join [rootDir; path] in
    if access_denied rootDir fullPath then inl AccessDenied
    else inr fullPath.

(** [handleThumbnail] up to its first [os.Stat]: it answers at once, or
    the request goes on with its full path. *)
Definition handleThumbnail (rootDir urlPath : string) : reply + action :=
  match resolve "/api/thumbnail" rootDir urlPath with
  | inl r => inl r
  | inr fullPath => inr (Request fullPath)
  end.

(** [handlePreview]; [fs] is the disk and [open_ok] says whether [os.Open]
    succeeds.  A tool that fails after the headers are written is logged
    and changes nothing of the answer. *)
Definition handlePreview (rootDir : string) (fs : gmap string entry) (open_ok : bool)
    (urlPath : string) : reply :=
  match resolve "/api/preview" rootDir urlPath with
  | inl r => r
  | inr fullPath =>
      if IsNotExist (Stat fs fullPath) then FileNotFound
      else
        let ext := strings.ToLower (filepath.Ext fullPath) in
        let isImage := index imageExtensions ext in
        let isMovie := index movieExtensions ext in
        if negb isImage && negb isMovie then NotMedia
        else if isMovie then Stream "video/mp2t" Ffmpeg fullPath
        else if negb open_ok then OpenFailed
        else Stream "image/jpeg" Vips fullPath
  end.

(** [handleStatic]. *)
Definition handleStatic (rootDir : string) (fs : gmap string entry)
    (urlPath : string) : reply :=
  let path := strings.TrimPrefix urlPath "/static/" in
  if bool_decide (path = "") then PathRequired
  else
    let path := filepath.Clean path in
    let path := if bool_decide (path = ".") then "/" else path in
    let fullPath := filepath.Join [rootDir; path] in
    let fullPath := if bool_decide (path = "/") then rootDir else fullPath in
    if access_denied rootDir fullPath then AccessDenied
    else if IsNotExist (Stat fs fullPath) then FileNotFound
    else File fullPath.

Definition backslash : string := String "092"%char "".

(** The body of the loop of [handleList] on one entry of the directory
    [path]: [None] when the entry is skipped. *)
Definition fileInfo (basePath path : string) (entry : DirEntry.t) : option FileInfo.t :=
  if strings.HasPrefix (DirEntry.Name entry) "." then None
  else
    let relEntryPath :=
      if bool_decide (path = "/") then "/" +:+ DirEntry.Name entry
      else filepath.Join [path; DirEntry.Name entry] in
    let urlPath := strings.ReplaceAll relEntryPath backslash "/" in
    let ext := strings.ToLower (filepath.Ext (DirEntry.Name entry)) in
    if index imageExtensions ext || index movieExtensions ext then
      let thumbPath :=
        if negb (strings.HasPrefix urlPath "/") then "/" +:+ urlPath else urlPath in
      Some (FileInfo.mk (DirEntry.Name entry) urlPath (DirEntry.IsDir entry)
              (index imageExtensions ext) (index movieExtensions ext)
              (urlWithBasePath basePath ("/api/thumbnail" +:+ thumbPath)) "")
    else
      Some (FileInfo.mk (DirEntry.Name entry) urlPath (DirEntry.IsDir entry)
              false false "" "").

(** [handleList] on the value [query] of the parameter [path]; [readDir] is
    [os.ReadDir], which has no entries for a path that it cannot read. *)
Definition handleList (rootDir basePath : string)
    (readDir : gmap string (list DirEntry.t)) (query : string) : reply :=
  let path := if bool_decide (query = "") then "/" else query in
  let path := filepath.Clean path in
  let path := if bool_decide (path = ".") then "/" else path in
  let fullPath := filepath.Join [rootDir; path] in
  let fullPath := if bool_decide (path = "/") then rootDir else fullPath in
  if access_denied rootDir fullPath then AccessDenied
  else
    match readDir !! fullPath with
    | None => ReadDirFailed
    | Some entries =>
        Listing (DirectoryResponse.mk path (omap (fileInfo basePath path) entries))
    end.

(** ** Paths below a root *)

(** The cleaned absolute path of the elements [es]; the root is [/]. *)
Definition abs_path (es : list string) : string :=
  match es with
  | [] => "/"
  | _ => absolute es
  end.

(** Whether the byte [c] occurs in [s]. *)
Fixpoint occurs (c : ascii) (s : string) : bool :=
  match s with
  | "" => false
  | String d s' => bool_decide (d = c) || occurs c s'
  end.

(** The path that [handleList] puts in its answer for the parameter
    [query], and the directory that it reads. *)
Definition listed_path (query : string) : string :=
  let path := if bool_decide (query = "") then "/" else query in
  let path := filepath.Clean path in
  if bool_decide (path = ".") then "/" else path.

Definition listed_dir (rootDir query : string) : string :=
  if bool_decide (listed_path query = "/") then rootDir
  else filepath.Join [rootDir; listed_path query].

(** A name that [handleList] skips. *)
Definition hidden (name : string) : bool := strings.HasPrefix name ".".

(** ** More of what holds of every state *)

(** The steps that a handler needs at most to its answer, when it leaves
    the final [select] by its timer. *)
Definition rank (pc : handler_pc) : nat :=
  match pc with
  | HStatSource _ => 7
  | HStatThumbnail _ => 6
  | QLoadOrStore _ => 5
  | QSelectQueue _ _ => 4
  | QGenerate _ _ => 3
  | QClose _ _ _ => 2
  | QDelete _ _ => 1
  | QSelectDone _ _ => 3
  | QWait _ _ _ => 2
  | QStatThumbnail _ => 1
  | HDone _ => 0
  end.

(** A step of handler [i], or the passing of at most the time of its
    timer. *)
Definition own_action (i : nat) (a : action) : Prop :=
  match a with
  | Handle j _ | Timeout j => j = i
  | Tick d => d ≤ waitTimeout
  | _ => False
  end.

(** The waits in a list of actions, and the seconds that pass in them. *)
Definition is_tick (a : action) : nat :=
  match a with Tick _ => 1 | _ => 0 end.

Definition seconds (a : action) : nat :=
  match a with Tick d => d | _ => 0 end.

Definition ticks (acts : list action) : nat := sum_list_with is_tick acts.

Definition elapsed (acts : list action) : nat := sum_list_with seconds acts.

(** No timer is set further ahead than its 30 seconds. *)
Definition timely (s : Server) : Prop :=
  ∀ i p done deadline,
    handlers s !! i = Some (QWait p done deadline) → deadline ≤ now s + waitTimeout.

(** Handler [i] stood before the final [select] at time [t0] and has not
    gone further than its answer since. *)
Definition waited (t0 i : nat) (s : Server) : Prop :=
  t0 ≤ now s
  ∧ match handlers s !! i with
    | Some (QSelectDone _ _) | Some (QStatThumbnail _) => True
    | Some (QWait _ _ deadline) => t0 + waitTimeout ≤ deadline
    | Some (HDone (InternalServerError ErrTimeout)) => t0 + waitTimeout ≤ now s
    | Some (HDone _) => True
    | _ => False
    end.

(** The source path that a handler or a worker holds. *)
Definition handler_path (pc : handler_pc) : option string :=
  match pc with
  | HStatSource p | HStatThumbnail p | QLoadOrStore p | QSelectQueue p _
  | QGenerate p _ | QClose p _ _ | QDelete p _ | QSelectDone p _ | QWait p _ _
  | QStatThumbnail p => Some p
  | HDone _ => None
  end.

Definition worker_path (pc : worker_pc) : option string :=
  match pc with
  | WReceive => None
  | WGenerate p | WLoadAndDelete p _ | WClose p _ _ => Some p
  end.

(** Every source path that the server holds satisfies [P]. *)
Record paths_satisfy (P : string → Prop) (s : Server) : Prop := PathsSatisfy {
  ps_handlers : ∀ i pc p,
    handlers s !! i = Some pc → handler_path pc = Some p → P p;
  ps_image : Forall P (imageThumbnailQueue s);
  ps_movie : Forall P (movieThumbnailQueue s);
  ps_workers : ∀ w c pc p,
    workers s !! w = Some (Worker c pc) → worker_path pc = Some p → P p;
  ps_commands : Forall (λ c, P (cmd_input c)) (commands s);
}.

(** The class whose files a tool reads. *)
Definition tool_class (t : tool) : class :=
  match t with
  | Ffmpeg => Movie
  | Vips => Image
  end.

(** A worker holds a path of its class, and its generation has not
    returned the unsupported-type error. *)
Definition worker_routed (w : worker) : Prop :=
  match w_pc w with
  | WReceive => True
  | WGenerate p => media_class p = Some (w_class w)
  | WLoadAndDelete p err | WClose p _ err =>
      media_class p = Some (w_class w) ∧ err ≠ Some ErrUnsupported
  end.

Record routed (s : Server) : Prop := Routed {
  routed_image : Forall (λ p, media_class p = Some Image) (imageThumbnailQueue s);
  routed_movie : Forall (λ p, media_class p = Some Movie) (movieThumbnailQueue s);
  routed_image_length : length (imageThumbnailQueue s) ≤ queueSize s;
  routed_movie_length : length (movieThumbnailQueue s) ≤ queueSize s;
  routed_workers : Forall worker_routed (workers s);
  routed_logged :
    Forall (λ l, media_class l.1.2 = Some l.1.1 ∧ l.2 ≠ ErrUnsupported) (logged s);
  routed_commands :
    Forall (λ c, media_class (cmd_input c) = Some (tool_class (cmd_tool c))
                 ∧ cmd_output c = getThumbnailPath (cmd_input c)) (commands s);
}.

(** A handler that is to answer with a thumbnail, or has done so, and the
    disk [d]. *)
Definition serves_existing (d : gmap string entry) (pc : handler_pc) : Prop :=
  match pc with
  | QClose p _ None | QDelete p None => is_Some (d !! getThumbnailPath p)
  | HDone (ServeFile thumbnailPath) =>
      is_Some (d !! thumbnailPath) ∧ ∃ p, thumbnailPath = getThumbnailPath p
  | _ => True
  end.

(** The server is idle: every request is answered, the queues are empty
    and the workers wait. *)
Definition idle (s : Server) : Prop :=
  (∀ i pc, handlers s !! i = Some pc → ∃ r, pc = HDone r)
  ∧ imageThumbnailQueue s = [] ∧ movieThumbnailQueue s = []
  ∧ ∀ w wk, workers s !! w = Some wk → w_pc wk = WReceive.

(** The regular file [k] is at a path that [os.Stat] could not read on the
    disk [files] at the start: it was left there since by a run of the tool
    of the class of a source path, as the thumbnail of that path. *)
Definition written (files : gmap string entry) (s : Server) (k : string) : Prop :=
  fs s !! k = Some Regular
  ∧ Stat files k ≠ StatOK
  ∧ ∃ t p ok, Command t p k ok ∈ commands s
      ∧ k = getThumbnailPath p
      ∧ media_class p = Some (tool_class t).

(** The directory [k] is at a path where nothing was on the disk [files]
    at the start: [os.MkdirAll] has made it since, on its way to the
    directory of the thumbnail of a source path that satisfies [P], and
    nothing that [os.Stat] could read was between that directory and
    [k]. *)
Definition made (P : string → Prop) (files : gmap string entry) (s : Server)
    (k : string) : Prop :=
  fs s !! k = Some Directory
  ∧ files !! k = None
  ∧ ∃ p l1 l2, P p
      ∧ lineage (filepath.Dir (getThumbnailPath p)) = l1 ++ k :: l2
      ∧ Forall (λ x, Stat files x ≠ StatOK) l1.

(** The source paths for which a goroutine is about to call
    [generateThumbnail]. *)
Definition generating (s : Server) (p : string) : Prop :=
  (∃ i d, handlers s !! i = Some (QGenerate p d))
  ∨ (∃ w c, workers s !! w = Some (Worker c (WGenerate p))).

(** ** A directory used in the examples *)

Definition album : gmap string (list DirEntry.t) :=
  {[ "/srv/pics/2024" :=
       [ DirEntry.mk ".small" true; DirEntry.mk "beach.jpg" false;
         DirEntry.mk "notes.txt" false ] ]}.

(** What [handleList] answers for it, with the base path [/gallery]. *)
Definition album_2024 : DirectoryResponse.t :=
  DirectoryResponse.mk "/2024"
    [ FileInfo.mk "beach.jpg" "/2024/beach.jpg" false true false
        "/gallery/api/thumbnail/2024/beach.jpg" "";
      FileInfo.mk "notes.txt" "/2024/notes.txt" false false false "" "" ].

(** One request for an uncached image whose generation by the worker
    fails, up to the worker back at its queue. *)
Definition failed_round : list action :=
  request_received ++ [ Work 0 tool_fails; Work 0 all_ok; Work 0 all_ok ].

(** The state after the schedule [acts] from a disk with the one file
    [/srv/a.jpg]. *)
Definition after (acts : list action) : Server :=
  default (main ∅) (run (main (disk ["/srv/a.jpg"])) acts).

(** One request for an uncached image that the worker generates, up to
    the answer. *)
Definition served_round : list action :=
  request_received
  ++ [ Work 0 all_ok; Work 0 all_ok; Work 0 all_ok; Handle 0 all_ok; Handle 0 all_ok ].

(** * Properties *)

(** ** The path functions on the test vectors of Go's [path/filepath] *)

Example Clean_vectors :
  filepath.Clean <$>
    [ "abc"; "abc/def"; "."; ".."; "../.."; "../../abc"; "/abc"; "/"; "";
      "abc/"; "./"; "../"; "/abc/"; "abc//def//ghi"; "//abc"; "///abc";
      "//abc//"; "abc/./def"; "/./abc/def"; "abc/."; "abc/def/ghi/../jkl";
      "abc/def/../ghi/../jkl"; "abc/def/.."; "abc/def/../.."; "/abc/def/../..";
      "abc/def/../../.."; "/abc/def/../../..";
      "abc/def/../../../ghi/jkl/../../../mno"; "/../abc"; "abc/./../def";
      "abc//./../def"; "abc/../../././../def" ]
  = [ "abc"; "abc/def"; "."; ".."; "../.."; "../../abc"; "/abc"; "/"; ".";
      "abc"; "."; ".."; "/abc"; "abc/def/ghi"; "/abc"; "/abc";
      "/abc"; "abc/def"; "/abc/def"; "abc"; "abc/def/jkl";
      "abc/jkl"; "abc"; "."; "/";
      ".."; "/";
      "../../mno"; "/abc"; "def";
      "def"; "../../def" ].
Proof. reflexivity. Qed.

Example Base_vectors :
  filepath.Base <$>
    [ ""; "."; "/."; "/"; "////"; "x/"; "abc"; "abc/def"; "a/b/.x"; "a/b/c.";
      "a/b/c.x" ]
  = [ "."; "."; "."; "/"; "/"; "x"; "abc"; "def"; ".x"; "c."; "c.x" ].
Proof. reflexivity. Qed.

Example Dir_vectors :
  filepath.Dir <$>
    [ ""; "."; "/."; "/"; "/foo"; "x/"; "abc"; "abc/def"; "a/b/.x"; "a/b/c.";
      "a/b/c.x" ]
  = [ "."; "."; "/"; "/"; "/"; "x"; "."; "abc"; "a/b"; "a/b"; "a/b" ].
Proof. reflexivity. Qed.

Example Ext_vectors :
  filepath.Ext <$> [ "path.go"; "path.pb.go"; "a.dir/b"; "a.dir/b.go"; "a.dir/" ]
  = [ ".go"; ".go"; ""; ".go"; "" ].
Proof. reflexivity. Qed.

Example Join_vectors :
  filepath.Join <$>
    [ []; [""]; ["a"]; ["a"; "b"]; ["a"; ""]; [""; "b"]; ["/"; "a"]; ["/"; "a/b"];
      ["/"; ""]; ["/a"; "b"]; ["a"; "/b"]; ["/a"; "/b"]; ["a/"; "b"]; ["a/"; ""];
      [""; ""] ]
  = [ ""; ""; "a"; "a/b"; "a"; "b"; "/a"; "/a/b";
      "/"; "/a/b"; "a/b"; "/a/b"; "a/b"; "a";
      "" ].
Proof. reflexivity. Qed.

Example ToLower_vectors :
  strings.ToLower <$>
    [ ""; "abc"; "AbC123"; "azAZ09_"; ".JPG"; ".HeIc"; ".mp4"; "@[`{AZaz09";
      "LONG" +:+ bytes [0xE2; 0xB1; 0xAF]%Z +:+ "STRING";
      bytes [0xE2; 0xB1; 0xAD; 0xE2; 0xB1; 0xAD]%Z;
      "A" +:+ bytes [0xC2; 0x80; 0xF4; 0x8F; 0xBF; 0xBF]%Z;
      bytes [0xC3; 0x89]%Z +:+ "T" +:+ bytes [0xC3; 0x89]%Z;
      ".m" +:+ kelvin +:+ "v"; ".AV" +:+ dotted_I;
      ".JP" +:+ bytes [0xFF]%Z; bytes [0xED; 0xA0; 0x80]%Z +:+ "G" ]
  = [ ""; "abc"; "abc123"; "azaz09_"; ".jpg"; ".heic"; ".mp4"; "@[`{azaz09";
      "long" +:+ bytes [0xC9; 0x90]%Z +:+ "string";
      bytes [0xC9; 0x91; 0xC9; 0x91]%Z;
      "a" +:+ bytes [0xC2; 0x80; 0xF4; 0x8F; 0xBF; 0xBF]%Z;
      bytes [0xC3; 0xA9]%Z +:+ "t" +:+ bytes [0xC3; 0xA9]%Z;
      ".mkv"; ".avi";
      ".jp" +:+ bytes [0xEF; 0xBF; 0xBD]%Z;
      bytes [0xEF; 0xBF; 0xBD; 0xEF; 0xBF; 0xBD; 0xEF; 0xBF; 0xBD]%Z +:+ "g" ].
Proof. vm_compute. reflexivity. Qed.

Example MkdirAll_vectors :
  (MkdirAll true (disk ["/srv/a.jpg"]) "/srv/.small",
   MkdirAll false (disk ["/srv/a.jpg"]) "/srv/.small",
   MkdirAll false {[ "/srv/.small" := Directory ]} "/srv/.small",
   MkdirAll true {[ "/srv" := Directory ]} "/srv/pics/.small",
   MkdirAll true {[ "/srv" := Directory; "/srv/pics" := Regular ]} "/srv/pics/.small",
   MkdirAll true ∅ "pics/.small",
   MkdirAll true ∅ "/srv/.small",
   MkdirAll true {[ "/srv" := Inaccessible ]} "/srv/.small")
  = ((None, {[ "/" := Directory; "/srv" := Directory; "/srv/.small" := Directory;
               "/srv/a.jpg" := Regular ]}),
     (Some ErrMkdir, {[ "/" := Directory; "/srv" := Directory;
                        "/srv/a.jpg" := Regular ]}),
     (None, {[ "/srv/.small" := Directory ]}),
     (None, {[ "/srv" := Directory; "/srv/pics" := Directory;
               "/srv/pics/.small" := Directory ]}),
     (Some ErrMkdir, {[ "/srv" := Directory; "/srv/pics" := Regular ]}),
     (None, {[ "pics" := Directory; "pics/.small" := Directory ]}),
     (None, {[ "/srv" := Directory; "/srv/.small" := Directory ]}),
     (Some ErrMkdir, {[ "/srv" := Inaccessible ]})).
Proof. vm_compute. reflexivity. Qed.

(** ** Strings *)

Lemma string_app_nil_l (s : string) : "" +:+ s = s.
Proof. reflexivity. Qed.

Lemma string_app_cons (c : ascii) (s t : string) : String c s +:+ t = String c (s +:+ t).
Proof. reflexivity. Qed.

Lemma string_app_nil_r (s : string) : s +:+ "" = s.
Proof. induction s as [|c s IH]; [done|]. by rewrite string_app_cons, IH. Qed.

Lemma string_app_assoc (s t u : string) : (s +:+ t) +:+ u = s +:+ t +:+ u.
Proof. induction s as [|c s IH]; [done|]. by rewrite !string_app_cons, IH. Qed.

Lemma string_app_inv_head (s t u : string) : s +:+ t = s +:+ u → t = u.
Proof. apply (inj (String.app s)). Qed.

Lemma has_separator_app (s t : string) :
  has_separator (s +:+ t) = has_separator s || has_separator t.
Proof.
  induction s as [|c s IH]; [done|].
  rewrite string_app_cons. simpl. rewrite IH. by rewrite orb_assoc.
Qed.

(** ** Paths *)

Lemma elements_not_nil (s : string) : filepath.elements s ≠ [].
Proof.
  induction s as [|c s IH]; [done|]. simpl.
  destruct (filepath.IsPathSeparator c); [done|].
  by destruct (filepath.elements s).
Qed.

Lemma elements_separator (s : string) :
  filepath.elements ("/" +:+ s) = "" :: filepath.elements s.
Proof. reflexivity. Qed.

Lemma elements_app (e s : string) :
  has_separator e = false →
  filepath.elements (e +:+ s) =
    match filepath.elements s with
    | e' :: es => (e +:+ e') :: es
    | [] => [e]
    end.
Proof.
  induction e as [|c e IH]; intros He.
  - rewrite string_app_nil_l. pose proof (elements_not_nil s).
    by destruct (filepath.elements s).
  - simpl in He. apply orb_false_elim in He as [Hc He].
    rewrite string_app_cons. simpl. rewrite Hc, (IH He).
    by destruct (filepath.elements s).
Qed.

Lemma elements_no_separator (e : string) :
  has_separator e = false → filepath.elements e = [e].
Proof.
  intros He. rewrite <- (string_app_nil_r e) at 1.
  rewrite (elements_app e "" He). simpl. by rewrite string_app_nil_r.
Qed.

Lemma elements_absolute (es : list string) (t : string) :
  Forall (λ e, has_separator e = false) es →
  filepath.elements (absolute es +:+ "/" +:+ t) = "" :: es ++ filepath.elements t.
Proof.
  induction 1 as [|e es He _ IH]; [done|].
  cbn [absolute]. rewrite !string_app_assoc, elements_separator.
  rewrite (elements_app _ _ He), IH. by rewrite string_app_nil_r.
Qed.

Lemma is_name_spec (e : string) :
  is_name e = true ↔ e ≠ "" ∧ e ≠ "." ∧ e ≠ ".." ∧ has_separator e = false.
Proof.
  unfold is_name. rewrite !andb_true_iff, !negb_true_iff, !bool_decide_eq_false.
  tauto.
Qed.

Lemma clean_elements_names (rooted : bool) (es stack rest : list string) :
  Forall (λ e, is_name e = true) es →
  filepath.clean_elements rooted stack (es ++ rest) =
  filepath.clean_elements rooted (rev es ++ stack) rest.
Proof.
  intros Hes. revert stack.
  induction Hes as [|e es He _ IH]; intros stack; [done|].
  apply is_name_spec in He as (H1 & H2 & H3 & _).
  cbn [app filepath.clean_elements].
  rewrite !bool_decide_eq_false_2 by done. cbn [orb].
  rewrite IH. cbn [rev]. by rewrite <- List.app_assoc.
Qed.

Lemma join_elements_absolute (e : string) (es : list string) :
  "/" +:+ filepath.join_elements (e :: es) = absolute (e :: es).
Proof.
  revert e. induction es as [|e' es IH]; intros e.
  - cbn. by rewrite string_app_nil_r.
  - change (filepath.join_elements (e :: e' :: es))
      with (e +:+ "/" +:+ filepath.join_elements (e' :: es)).
    change (absolute (e :: e' :: es)) with ("/" +:+ e +:+ absolute (e' :: es)).
    by rewrite IH.
Qed.

Lemma absolute_app (es fs : list string) :
  absolute (es ++ fs) = absolute es +:+ absolute fs.
Proof.
  induction es as [|e es IH]; [done|].
  cbn [app absolute]. by rewrite IH, !string_app_assoc.
Qed.

Lemma is_rooted_absolute (es : list string) (t : string) :
  filepath.is_rooted (absolute es +:+ "/" +:+ t) = true.
Proof. by destruct es. Qed.

(** Cleaning a cleaned absolute path followed by one more name adds the
    name; followed by a bare separator it gives the path back. *)
Lemma Clean_absolute_name (es : list string) (t : string) :
  Forall (λ e, is_name e = true) es → is_name t = true →
  filepath.Clean (absolute es +:+ "/" +:+ t) = absolute (es ++ [t]).
Proof.
  intros Hes Ht. unfold filepath.Clean. rewrite is_rooted_absolute.
  assert (Forall (λ e, has_separator e = false) es) as Hsep.
  { eapply Forall_impl; [done|]. intros e He. by apply is_name_spec in He as (_&_&_&?). }
  rewrite (elements_absolute es t Hsep).
  apply is_name_spec in Ht as Ht'. destruct Ht' as (_&_&_&Htsep).
  rewrite (elements_no_separator t Htsep).
  cbn [filepath.clean_elements bool_decide orb]. simpl.
  replace (es ++ [t]) with ((es ++ [t]) ++ []) at 1 by apply List.app_nil_r.
  rewrite clean_elements_names.
  - cbn [filepath.clean_elements]. rewrite List.app_nil_r, rev_involutive.
    destruct es; apply join_elements_absolute.
  - apply Forall_app; split; [done|]. by constructor.
Qed.

Lemma Clean_absolute_dir (es : list string) :
  Forall (λ e, is_name e = true) es →
  filepath.Clean (absolute es +:+ "/") =
    match es with [] => "/" | _ => absolute es end.
Proof.
  intros Hes.
  replace (absolute es +:+ "/") with (absolute es +:+ "/" +:+ "")
    by (by rewrite (string_app_nil_r "/")).
  unfold filepath.Clean. rewrite is_rooted_absolute.
  assert (Forall (λ e, has_separator e = false) es) as Hsep.
  { eapply Forall_impl; [done|]. intros e He. by apply is_name_spec in He as (_&_&_&?). }
  rewrite (elements_absolute es "" Hsep). simpl.
  rewrite clean_elements_names by done. cbn [filepath.clean_elements].
  rewrite List.app_nil_r, rev_involutive.
  destruct es; [done|]. apply join_elements_absolute.
Qed.

Lemma Split_no_separator (f : string) :
  has_separator f = false → filepath.Split f = ("", f).
Proof.
  induction f as [|c f IH]; [done|]. simpl.
  intros [Hc Hf]%orb_false_elim. by rewrite (IH Hf), Hc.
Qed.

Lemma Split_app (d f : string) :
  has_separator f = false →
  filepath.Split (d +:+ "/" +:+ f) = (d +:+ "/", f).
Proof.
  intros Hf. induction d as [|c d IH].
  - rewrite string_app_nil_l. change ("/" +:+ f) with (String "/" f).
    simpl. by rewrite (Split_no_separator f Hf).
  - rewrite string_app_cons. simpl. rewrite IH.
    destruct d; by rewrite ?string_app_cons.
Qed.

Lemma trim_trailing_separators_name (d b : string) :
  b ≠ "" → has_separator b = false →
  filepath.trim_trailing_separators (d +:+ b) = d +:+ b.
Proof.
  intros Hb Hsep. induction d as [|c d IH].
  - rewrite string_app_nil_l. clear Hb. induction b as [|c b IH]; [done|].
    simpl in *. apply orb_false_elim in Hsep as [Hc Hsep].
    rewrite (IH Hsep). rewrite Hc. by destruct b.
  - rewrite string_app_cons. simpl. rewrite IH.
    destruct d; [by destruct b|done].
Qed.

Lemma Base_app (d b : string) :
  b ≠ "" → has_separator b = false →
  filepath.Base (d +:+ "/" +:+ b) = b.
Proof.
  intros Hb Hsep. unfold filepath.Base.
  rewrite bool_decide_eq_false_2 by (by destruct d).
  rewrite <- string_app_assoc, trim_trailing_separators_name by done.
  rewrite string_app_assoc, Split_app by done. simpl.
  by rewrite bool_decide_eq_false_2.
Qed.

Lemma Dir_app (d b : string) :
  has_separator b = false →
  filepath.Dir (d +:+ "/" +:+ b) = filepath.Clean (d +:+ "/").
Proof. intros Hsep. unfold filepath.Dir. by rewrite Split_app. Qed.

Lemma is_name_jpg (b : string) :
  has_separator b = false → is_name (b +:+ ".jpg") = true.
Proof.
  intros Hb. apply is_name_spec. rewrite has_separator_app, Hb.
  destruct b as [|c1 [|c2 [|c3 b]]]; repeat split; done.
Qed.

(** The shape of the result on a file [b] of the cleaned absolute
    directory [es]. *)
Lemma getThumbnailPath_absolute (es : list string) (b : string) :
  Forall (λ e, is_name e = true) es → b ≠ "" → has_separator b = false →
  getThumbnailPath (absolute es +:+ "/" +:+ b) =
  absolute (es ++ [".small"; b +:+ ".jpg"]).
Proof.
  intros Hes Hb Hsep. unfold getThumbnailPath.
  rewrite Base_app, Dir_app, Clean_absolute_dir by done.
  assert (filepath.Join [match es with [] => "/" | _ => absolute es end; ".small"]
          = absolute (es ++ [".small"])) as ->.
  { destruct es as [|e es']; [done|].
    cbn [filepath.Join]. rewrite bool_decide_eq_false_2 by done.
    cbn [filepath.join_elements]. by apply Clean_absolute_name. }
  cbn [filepath.Join].
  rewrite bool_decide_eq_false_2 by (by destruct es).
  cbn [filepath.join_elements].
  rewrite Clean_absolute_name, <- List.app_assoc; [done| |by apply is_name_jpg].
  apply Forall_app; split; [done|]. by constructor.
Qed.

Lemma string_length_app (s t : string) :
  String.length (s +:+ t) = String.length s + String.length t.
Proof. induction s as [|c s IH]; [done|]. rewrite string_app_cons. simpl. by rewrite IH. Qed.

Lemma string_app_inv_tail (s s' t : string) : s +:+ t = s' +:+ t → s = s'.
Proof.
  revert s'. induction s as [|c s IH]; intros [|c' s'] H; [done| | |].
  - apply (f_equal String.length) in H.
    rewrite string_app_nil_l, string_length_app in H. simpl in H. lia.
  - apply (f_equal String.length) in H.
    rewrite string_app_nil_l, string_length_app in H. simpl in H. lia.
  - rewrite !string_app_cons in H. injection H as -> H. f_equal. by apply IH.
Qed.

(** C7. The thumbnail of the file [name.ext] of a cleaned absolute
    directory [dir] is [dir/.small/name.ext.jpg]; the resolver is a total
    function of the path alone (no state is read and no error is returned);
    and two files of one directory that differ only in their extension have
    different thumbnails. *)
Theorem getThumbnailPath_layout (dirs : list string) (name ext ext' : string) :
  Forall (λ e, is_name e = true) dirs →
  has_separator name = false →
  has_separator ext = false →
  has_separator ext' = false →
  getThumbnailPath (absolute dirs +:+ "/" +:+ name +:+ "." +:+ ext)
    = absolute dirs +:+ "/.small/" +:+ name +:+ "." +:+ ext +:+ ".jpg"
  ∧ (ext ≠ ext' →
     getThumbnailPath (absolute dirs +:+ "/" +:+ name +:+ "." +:+ ext)
       ≠ getThumbnailPath (absolute dirs +:+ "/" +:+ name +:+ "." +:+ ext')).
Proof.
  intros Hdirs Hname Hext Hext'.
  assert (∀ e, has_separator e = false →
    getThumbnailPath (absolute dirs +:+ "/" +:+ name +:+ "." +:+ e)
    = absolute dirs +:+ "/.small/" +:+ name +:+ "." +:+ e +:+ ".jpg") as Hshape.
  { intros e He.
    rewrite getThumbnailPath_absolute; [|done|by destruct name|].
    - rewrite absolute_app. cbn [absolute].
      by rewrite !string_app_assoc, string_app_nil_r.
    - rewrite !has_separator_app, Hname, He. done. }
  split; [by apply Hshape|].
  intros Hne Heq. rewrite !Hshape in Heq by done.
  do 4 apply string_app_inv_head in Heq.
  by apply string_app_inv_tail in Heq.
Qed.

Lemma getThumbnailPath_layout_witness :
  getThumbnailPath "/srv/photos/photo.jpg" = "/srv/photos/.small/photo.jpg.jpg"
  ∧ ("jpg" ≠ "png" →
     getThumbnailPath "/srv/photos/photo.jpg" ≠ getThumbnailPath "/srv/photos/photo.png").
Proof.
  apply (getThumbnailPath_layout ["srv"; "photos"] "photo" "jpg" "png").
  - repeat constructor.
  - reflexivity.
  - reflexivity.
  - reflexivity.
Defined.

(** ** Media classes *)

Lemma Split_app_no_separator (s x : string) :
  has_separator x = false →
  filepath.Split (s +:+ x) = (fst (filepath.Split s), snd (filepath.Split s) +:+ x).
Proof.
  intros Hx. induction s as [|c s IH].
  - by rewrite string_app_nil_l, Split_no_separator.
  - rewrite string_app_cons. simpl. rewrite IH.
    destruct (filepath.Split s) as [d f]. simpl.
    destruct d; [|done]. by destruct (filepath.IsPathSeparator c).
Qed.

Lemma last_dot_app (f e : string) :
  filepath.last_dot e = None →
  filepath.last_dot (f +:+ "." +:+ e) = Some ("." +:+ e).
Proof.
  intros He. induction f as [|c f IH].
  - rewrite string_app_nil_l. change ("." +:+ e) with (String "." e).
    simpl. by rewrite He.
  - rewrite string_app_cons. simpl. by rewrite IH.
Qed.

Lemma has_separator_dot (e : string) :
  has_separator e = false → has_separator ("." +:+ e) = false.
Proof. intros He. by rewrite has_separator_app, He. Qed.

Lemma Ext_app (stem e : string) :
  has_separator e = false → filepath.last_dot e = None →
  filepath.Ext (stem +:+ "." +:+ e) = "." +:+ e.
Proof.
  intros Hsep Hdot. unfold filepath.Ext.
  rewrite Split_app_no_separator by by apply has_separator_dot.
  simpl. by rewrite last_dot_app.
Qed.

Lemma lower_byte_cases (c : ascii) :
  (65 ≤ nat_of_ascii c ≤ 90
   ∧ strings.lower_byte c = ascii_of_nat (nat_of_ascii c + 32))
  ∨ (¬ 65 ≤ nat_of_ascii c ≤ 90 ∧ strings.lower_byte c = c).
Proof.
  unfold strings.lower_byte. cbv zeta.
  destruct (decide (65 ≤ nat_of_ascii c ≤ 90)) as [H|H].
  - left. by rewrite bool_decide_eq_true_2.
  - right. by rewrite bool_decide_eq_false_2.
Qed.

Lemma lower_byte_not_upper (c : ascii) :
  ¬ 65 ≤ nat_of_ascii (strings.lower_byte c) ≤ 90.
Proof.
  destruct (lower_byte_cases c) as [[H ->]|[H ->]]; [|done].
  rewrite nat_ascii_embedding by lia. lia.
Qed.

Lemma lower_byte_idemp (c : ascii) :
  strings.lower_byte (strings.lower_byte c) = strings.lower_byte c.
Proof.
  destruct (lower_byte_cases (strings.lower_byte c)) as [[H _]|[_ H]]; [|done].
  by apply lower_byte_not_upper in H.
Qed.

Lemma lower_bytes_idemp (s : string) :
  strings.lower_bytes (strings.lower_bytes s) = strings.lower_bytes s.
Proof. induction s as [|c s IH]; [done|]. simpl. by rewrite lower_byte_idemp, IH. Qed.

Lemma lower_byte_eq (c d : ascii) :
  ¬ 65 ≤ nat_of_ascii d ≤ 90 → ¬ 97 ≤ nat_of_ascii d ≤ 122 →
  bool_decide (strings.lower_byte c = d) = bool_decide (c = d).
Proof.
  intros Hd1 Hd2. destruct (lower_byte_cases c) as [[H ->]|[H ->]]; [|done].
  assert (c ≠ d) as Hcd by (by intros ->).
  assert (ascii_of_nat (nat_of_ascii c + 32) ≠ d) as Hcd'.
  { intros Hc. apply (f_equal nat_of_ascii) in Hc.
    rewrite nat_ascii_embedding in Hc by lia. lia. }
  by rewrite !bool_decide_eq_false_2.
Qed.

Lemma lower_byte_separator (c : ascii) :
  filepath.IsPathSeparator (strings.lower_byte c) = filepath.IsPathSeparator c.
Proof.
  unfold filepath.IsPathSeparator, filepath.Separator.
  apply lower_byte_eq; vm_compute; lia.
Qed.

Lemma lower_byte_dot (c : ascii) :
  bool_decide (strings.lower_byte c = "."%char) = bool_decide (c = "."%char).
Proof. apply lower_byte_eq; vm_compute; lia. Qed.

Lemma Split_lower_bytes (s : string) :
  filepath.Split (strings.lower_bytes s) =
  (strings.lower_bytes (fst (filepath.Split s)),
   strings.lower_bytes (snd (filepath.Split s))).
Proof.
  induction s as [|c s IH]; [done|]. simpl. rewrite IH.
  destruct (filepath.Split s) as [d f]. simpl.
  destruct d; simpl; [|done].
  rewrite lower_byte_separator. by destruct (filepath.IsPathSeparator c).
Qed.

Lemma last_dot_lower_bytes (s : string) :
  filepath.last_dot (strings.lower_bytes s)
  = strings.lower_bytes <$> filepath.last_dot s.
Proof.
  induction s as [|c s IH]; [done|]. simpl. rewrite IH.
  destruct (filepath.last_dot s); [done|]. simpl.
  rewrite lower_byte_dot. by case_bool_decide.
Qed.

Lemma Ext_lower_bytes (p : string) :
  filepath.Ext (strings.lower_bytes p) = strings.lower_bytes (filepath.Ext p).
Proof.
  unfold filepath.Ext. rewrite Split_lower_bytes. simpl. rewrite last_dot_lower_bytes.
  by destruct (filepath.last_dot _).
Qed.

(** *** Strings of ASCII bytes *)

Lemma isASCII_cons (c : ascii) (s : string) :
  strings.isASCII (String c s) = true ↔
  nat_of_ascii c < 128 ∧ strings.isASCII s = true.
Proof.
  destruct c as [b0 b1 b2 b3 b4 b5 b6 b7]. simpl.
  rewrite andb_true_iff, negb_true_iff.
  assert (b7 = false ↔ nat_of_ascii (Ascii b0 b1 b2 b3 b4 b5 b6 b7) < 128) as ->; [|done].
  destruct b0, b1, b2, b3, b4, b5, b6, b7; vm_compute; split; (done || lia).
Qed.

Lemma lower_byte_lt (c : ascii) :
  nat_of_ascii c < 128 → nat_of_ascii (strings.lower_byte c) < 128.
Proof.
  intros Hc. destruct (lower_byte_cases c) as [[H ->]|[H ->]]; [|done].
  rewrite nat_ascii_embedding by lia. lia.
Qed.

Lemma isASCII_lower_bytes (s : string) :
  strings.isASCII s = true → strings.isASCII (strings.lower_bytes s) = true.
Proof.
  induction s as [|c s IH]; [done|]. cbn [strings.lower_bytes].
  rewrite !isASCII_cons. intros [Hc Hs]. split; [by apply lower_byte_lt|by apply IH].
Qed.

Lemma isASCII_Split (s : string) :
  strings.isASCII s = true →
  strings.isASCII (fst (filepath.Split s)) = true
  ∧ strings.isASCII (snd (filepath.Split s)) = true.
Proof.
  induction s as [|c s IH]; [done|]. rewrite isASCII_cons. intros [Hc Hs].
  destruct (IH Hs) as [Hd Hf]. simpl.
  destruct (filepath.Split s) as [d f]. simpl in *.
  destruct d as [|c' d]; [destruct (filepath.IsPathSeparator c)|]; simpl fst; simpl snd.
  - split; [by apply isASCII_cons|done].
  - split; [done|by apply isASCII_cons].
  - split; [by apply isASCII_cons|done].
Qed.

Lemma isASCII_last_dot (s e : string) :
  strings.isASCII s = true → filepath.last_dot s = Some e → strings.isASCII e = true.
Proof.
  induction s as [|c s IH]; [done|]. intros Hcs. pose proof Hcs as Hcs'.
  apply isASCII_cons in Hcs' as [Hc Hs]. simpl.
  destruct (filepath.last_dot s) as [e'|]; [intros [= <-]; by apply IH|].
  case_bool_decide; [|done]. by intros [= <-].
Qed.

Lemma isASCII_Ext (p : string) :
  strings.isASCII p = true → strings.isASCII (filepath.Ext p) = true.
Proof.
  intros Hp. unfold filepath.Ext.
  destruct (isASCII_Split p Hp) as [_ Hf].
  destruct (filepath.last_dot _) as [e|] eqn:He; [|done].
  by eapply isASCII_last_dot.
Qed.

(** On a string of ASCII bytes [strings.ToLower] is its loop over the
    bytes. *)
Lemma ToLower_ascii (s : string) :
  strings.isASCII s = true → strings.ToLower s = strings.lower_bytes s.
Proof. unfold strings.ToLower. by intros ->. Qed.

Lemma ToLower_Ext_ascii (p : string) :
  strings.isASCII p = true →
  strings.ToLower (filepath.Ext (strings.ToLower p)) = strings.ToLower (filepath.Ext p).
Proof.
  intros Hp. pose proof (isASCII_Ext p Hp) as He.
  rewrite (ToLower_ascii p Hp), Ext_lower_bytes.
  rewrite (ToLower_ascii _ (isASCII_lower_bytes _ He)), lower_bytes_idemp.
  by rewrite (ToLower_ascii _ He).
Qed.

(** The two tables have no extension in common. *)
Lemma extensions_disjoint (ext : string) :
  index movieExtensions ext = true → index imageExtensions ext = false.
Proof.
  unfold index. destruct (movieExtensions !! ext) as [b|] eqn:H; [|done].
  intros _. apply elem_of_list_to_map_2 in H.
  repeat (apply elem_of_cons in H as [H|H]; [by injection H as -> _|]).
  by apply elem_of_nil in H.
Qed.

(** Both places that classify a source path make the test of
    [media_class]. *)
Lemma generateThumbnail_class (o : outcome) (fs : gmap string entry) (p : string) :
  generateThumbnail o fs p =
    if is_nil (Stat fs (getThumbnailPath p)) then (None, fs, [])
    else match MkdirAll (mkdir_ok o) fs (filepath.Dir (getThumbnailPath p)) with
         | (Some _, fs') => (Some ErrMkdir, fs', [])
         | (None, fs') => transcode o fs' p (media_class p)
         end.
Proof.
  unfold generateThumbnail, transcode, media_class.
  destruct (is_nil _); [done|]. destruct (MkdirAll _ _ _) as [[e|] fs']; [done|].
  destruct (index movieExtensions _); [done|].
  by destruct (index imageExtensions _).
Qed.

Lemma handler_step_select_queue (s : Server) (i : nat) (o : outcome) (p : string) (done : nat) :
  handlers s !! i = Some (QSelectQueue p done) →
  handler_step s i o = Some (select_queue s i p done (media_class p)).
Proof.
  intros H. unfold handler_step, select_queue, media_class. rewrite H.
  destruct (index movieExtensions _).
  { cbn [queue]. by destruct (try_send _ _ _). }
  destruct (index imageExtensions _); [|done].
  cbn [queue]. by destruct (try_send _ _ _).
Qed.

Lemma media_class_image (p : string) :
  media_class p = Some Image ↔
  index imageExtensions (strings.ToLower (filepath.Ext p)) = true.
Proof.
  unfold media_class.
  destruct (index movieExtensions _) eqn:Hm.
  - rewrite (extensions_disjoint _ Hm). done.
  - destruct (index imageExtensions _); done.
Qed.

Lemma media_class_movie (p : string) :
  media_class p = Some Movie ↔
  index movieExtensions (strings.ToLower (filepath.Ext p)) = true.
Proof.
  unfold media_class.
  destruct (index movieExtensions _); [done|].
  destruct (index imageExtensions _); done.
Qed.

(** The class of a path with the extension [.e]. *)
Lemma media_class_ext (stem e : string) :
  has_separator e = false → filepath.last_dot e = None →
  media_class (stem +:+ "." +:+ e) = media_class ("." +:+ e).
Proof.
  intros Hsep Hdot. unfold media_class.
  pose proof (Ext_app "" e Hsep Hdot) as H0. change ("" +:+ "." +:+ e) with ("." +:+ e) in H0.
  by rewrite Ext_app, H0.
Qed.

(** C9. A path is of the image (movie) class exactly when the lower-case
    form of its extension, as [strings.ToLower] gives it, is in
    [imageExtensions] ([movieExtensions]); two paths whose extensions have
    the same lower-case form have the same class, and a path of ASCII bytes
    has the class of its lower-case form; the routing of a starter and the
    generation routine both follow this class, so [.JPG] and [.jpg], [.MOV]
    and [.mov] are treated alike in both, whatever comes before the
    extension.  The lower case is that of Unicode: an extension written
    with the Kelvin sign for [k], or with the dotted capital I for [i], is
    classified as the ASCII extension is. *)
Theorem media_class_case_insensitive (p q : string) :
  strings.ToLower (filepath.Ext p) = strings.ToLower (filepath.Ext q) →
  (media_class p = Some Image
     ↔ index imageExtensions (strings.ToLower (filepath.Ext p)) = true)
  ∧ (media_class p = Some Movie
     ↔ index movieExtensions (strings.ToLower (filepath.Ext p)) = true)
  ∧ media_class p = media_class q
  ∧ (strings.isASCII p = true → media_class (strings.ToLower p) = media_class p)
  ∧ (∀ o d, generateThumbnail o d p =
       if is_nil (Stat d (getThumbnailPath p)) then (None, d, [])
       else match MkdirAll (mkdir_ok o) d (filepath.Dir (getThumbnailPath p)) with
            | (Some _, d') => (Some ErrMkdir, d', [])
            | (None, d') => transcode o d' p (media_class q)
            end)
  ∧ (∀ s i o done, handlers s !! i = Some (QSelectQueue p done) →
       handler_step s i o = Some (select_queue s i p done (media_class q)))
  ∧ (∀ stem, media_class (stem +:+ ".JPG") = Some Image
           ∧ media_class (stem +:+ ".jpg") = Some Image
           ∧ media_class (stem +:+ ".JpG") = Some Image
           ∧ media_class (stem +:+ ".MOV") = Some Movie
           ∧ media_class (stem +:+ ".mov") = Some Movie
           ∧ media_class (stem +:+ ".mOv") = Some Movie
           ∧ media_class (stem +:+ ".m" +:+ kelvin +:+ "v") = Some Movie
           ∧ media_class (stem +:+ ".AV" +:+ dotted_I) = Some Movie
           ∧ media_class (stem +:+ ".HE" +:+ dotted_I +:+ "C") = Some Image).
Proof.
  intros Hpq.
  assert (media_class p = media_class q) as Hclass.
  { unfold media_class. by rewrite Hpq. }
  split; [apply media_class_image|].
  split; [apply media_class_movie|].
  split; [done|].
  split. { intros Hp. unfold media_class. by rewrite ToLower_Ext_ascii. }
  split. { intros o d. rewrite <- Hclass. apply generateThumbnail_class. }
  split. { intros s i o done H. rewrite <- Hclass. by apply handler_step_select_queue. }
  intros stem.
  change ".JPG" with ("." +:+ "JPG"). change ".jpg" with ("." +:+ "jpg").
  change ".JpG" with ("." +:+ "JpG"). change ".mOv" with ("." +:+ "mOv").
  change ".MOV" with ("." +:+ "MOV"). change ".mov" with ("." +:+ "mov").
  change (".m" +:+ kelvin +:+ "v") with ("." +:+ ("m" +:+ kelvin +:+ "v")).
  change (".AV" +:+ dotted_I) with ("." +:+ ("AV" +:+ dotted_I)).
  change (".HE" +:+ dotted_I +:+ "C") with ("." +:+ ("HE" +:+ dotted_I +:+ "C")).
  rewrite !media_class_ext by (vm_compute; reflexivity).
  repeat apply conj; vm_compute; reflexivity.
Qed.

Lemma media_class_case_insensitive_witness :
  media_class ("/srv/photos/IMG_0001.JpEg") = media_class "/srv/photos/img_0002.jpeg"
  ∧ media_class ("/srv/clips/CLIP.M" +:+ kelvin +:+ "V") = media_class "/srv/clips/clip.mkv".
Proof.
  split.
  - destruct (media_class_case_insensitive
                "/srv/photos/IMG_0001.JpEg" "/srv/photos/img_0002.jpeg")
      as (_ & _ & H & _); [vm_compute; reflexivity|exact H].
  - destruct (media_class_case_insensitive
                ("/srv/clips/CLIP.M" +:+ kelvin +:+ "V") "/srv/clips/clip.mkv")
      as (_ & _ & H & _); [vm_compute; reflexivity|exact H].
Defined.

(** ** Counting over threads and queues *)

Section sums.
Context {A : Type} (f : A → nat).

Lemma sum_list_with_insert (l : list A) (i : nat) (x y : A) :
  l !! i = Some x →
  sum_list_with f (<[i := y]> l) + f x = sum_list_with f l + f y.
Proof.
  revert i. induction l as [|z l IH]; intros [|i] H; simplify_eq/=; [lia|].
  specialize (IH _ H). lia.
Qed.

Lemma sum_list_with_lookup (l : list A) (i : nat) (x : A) :
  l !! i = Some x → f x ≤ sum_list_with f l.
Proof.
  revert i. induction l as [|z l IH]; intros [|i] H; simplify_eq/=; [lia|].
  specialize (IH _ H). lia.
Qed.

Lemma sum_list_with_lookup2 (l : list A) (i j : nat) (x y : A) :
  i ≠ j → l !! i = Some x → l !! j = Some y →
  f x + f y ≤ sum_list_with f l.
Proof.
  revert i j. induction l as [|z l IH]; intros [|i] [|j] Hij Hi Hj; simplify_eq/=.
  - pose proof (sum_list_with_lookup _ _ _ Hj). lia.
  - pose proof (sum_list_with_lookup _ _ _ Hi). lia.
  - assert (i ≠ j) as Hij' by lia. specialize (IH _ _ Hij' Hi Hj). lia.
Qed.

Lemma sum_list_with_snoc (l : list A) (x : A) :
  sum_list_with f (l ++ [x]) = sum_list_with f l + f x.
Proof. rewrite sum_list_with_app. simpl. lia. Qed.

End sums.

Lemma has_key_eq (p : string) : has_key (getThumbnailPath p) p = 1.
Proof. unfold has_key. by rewrite bool_decide_eq_true_2. Qed.

Lemma has_key_ne (k p : string) : getThumbnailPath p ≠ k → has_key k p = 0.
Proof. intros H. unfold has_key. by rewrite bool_decide_eq_false_2. Qed.

Lemma has_key_pos (k p : string) : 0 < has_key k p → getThumbnailPath p = k.
Proof. unfold has_key. case_bool_decide; [done|lia]. Qed.

Lemma has_key_le (k p : string) : has_key k p ≤ 1.
Proof. unfold has_key. case_bool_decide; lia. Qed.

(** ** The fields of a state after a step *)

Lemma close_open (ch : nat) (s : Server) :
  ch ∉ closed s → close ch s = set_closed s ({[ch]} ∪ closed s) (panicked s).
Proof. intros H. unfold close. by rewrite bool_decide_eq_false_2. Qed.

Lemma handler_owns_respond (k p : string) (err : option error) :
  handler_owns k (respond p err) = 0.
Proof. by destruct err. Qed.

Lemma holds_open_respond (p p' : string) (err : option error) (done : nat) :
  ¬ holds_open (respond p err) p' done.
Proof. destruct err; intros [?|[?|[? ?]]]; done. Qed.

Lemma owners_goto (k : string) (i : nat) (pc pc' : handler_pc) (s : Server) :
  handlers s !! i = Some pc →
  owners k (goto i pc' s) + handler_owns k pc = owners k s + handler_owns k pc'.
Proof.
  intros H. unfold owners, queued. simpl.
  pose proof (sum_list_with_insert (handler_owns k) _ _ _ pc' H). lia.
Qed.

Lemma owners_wgoto (k : string) (w : nat) (c c' : class) (pc pc' : worker_pc) (s : Server) :
  workers s !! w = Some (Worker c pc) →
  owners k (wgoto w c' pc' s) + worker_owns k (Worker c pc)
  = owners k s + worker_owns k (Worker c' pc').
Proof.
  intros H. unfold owners, queued. simpl.
  pose proof (sum_list_with_insert (worker_owns k) _ _ _ (Worker c' pc') H). lia.
Qed.

Lemma owners_send (k : string) (c : class) (s : Server) (p : string) :
  owners k (set_queue c s (queue c s ++ [p])) = owners k s + has_key k p.
Proof.
  unfold owners, queued. destruct c; simpl; rewrite sum_list_with_snoc; lia.
Qed.

Lemma owners_receive (k : string) (c : class) (s : Server) (p : string) (rest : list string) :
  queue c s = p :: rest →
  owners k (set_queue c s rest) + has_key k p = owners k s.
Proof.
  unfold owners, queued. destruct c; simpl; intros ->; simpl; lia.
Qed.

Lemma owners_handler (k : string) (i : nat) (pc : handler_pc) (s : Server) :
  handlers s !! i = Some pc → handler_owns k pc ≤ owners k s.
Proof.
  intros H. unfold owners.
  pose proof (sum_list_with_lookup (handler_owns k) _ _ _ H). lia.
Qed.

Lemma owners_worker (k : string) (w : nat) (wk : worker) (s : Server) :
  workers s !! w = Some wk → worker_owns k wk ≤ owners k s.
Proof.
  intros H. unfold owners.
  pose proof (sum_list_with_lookup (worker_owns k) _ _ _ H). lia.
Qed.

Lemma owners_handler_handler (k : string) (i j : nat) (pc pc' : handler_pc) (s : Server) :
  i ≠ j → handlers s !! i = Some pc → handlers s !! j = Some pc' →
  handler_owns k pc + handler_owns k pc' ≤ owners k s.
Proof.
  intros Hij Hi Hj. unfold owners.
  pose proof (sum_list_with_lookup2 (handler_owns k) _ _ _ _ _ Hij Hi Hj). lia.
Qed.

Lemma owners_handler_worker (k : string) (i w : nat) (pc : handler_pc) (wk : worker) (s : Server) :
  handlers s !! i = Some pc → workers s !! w = Some wk →
  handler_owns k pc + worker_owns k wk ≤ owners k s.
Proof.
  intros Hi Hw. unfold owners.
  pose proof (sum_list_with_lookup (handler_owns k) _ _ _ Hi).
  pose proof (sum_list_with_lookup (worker_owns k) _ _ _ Hw). lia.
Qed.

Lemma holds_open_owns (pc : handler_pc) (p : string) (done : nat) :
  holds_open pc p done → handler_owns (getThumbnailPath p) pc = 1.
Proof. intros [->|[->|[e ->]]]; apply has_key_eq. Qed.

(** ** The invariant *)

Arguments getThumbnailPath : simpl never.
Arguments generateThumbnail : simpl never.
Arguments media_class : simpl never.

Lemma invariant_main (files : gmap string entry) : invariant (main files).
Proof.
  split; simpl; try done.
  - intros k. unfold owners, queued. simpl. lia.
  - intros k. unfold owners, queued. simpl. lia.
  - intros [|[|[|w]]] c p ch e H; simplify_eq/=.
  - intros [|[|[|w1]]] w2 c1 c2 p1 p2 ch e1 e2 H; simplify_eq/=.
Qed.

(** A handler that moves on without touching the shared state, and
    without taking or giving up a registry entry. *)
Lemma invariant_goto (s : Server) (i : nat) (pc pc' : handler_pc) :
  invariant s → handlers s !! i = Some pc →
  (∀ k, handler_owns k pc' ≤ handler_owns k pc) →
  (∀ p d, holds_open pc' p d → holds_open pc p d) →
  (∀ p e, pc ≠ QDelete p e) →
  invariant (goto i pc' s).
Proof.
  intros [] Hpc Howns Hopen Hdel.
  assert (∀ k, owners k (goto i pc' s) ≤ owners k s) as Hsame.
  { intros k. pose proof (owners_goto k i pc pc' s Hpc). specialize (Howns k). lia. }
  split; simpl; try done.
  - intros k. specialize (Hsame k). specialize (inv_owners0 k). lia.
  - intros k Hk. apply inv_entry0. specialize (Hsame k). lia.
  - intros j pc0 p d Hj Hd.
    apply list_lookup_insert_Some in Hj as [(<- & <- & _)|[Hij Hj]]; eauto.
  - intros k ch Hk Hch.
    destruct (inv_closed_entry0 k ch Hk Hch) as (j & p & e & Hj & Hp).
    exists j, p, e. split; [|done].
    rewrite list_lookup_insert_ne; [done|]. intros <-. simplify_eq.
    by destruct (Hdel p e).
Qed.

Lemma invariant_wgoto (s : Server) (w : nat) (c : class) (pc pc' : worker_pc) :
  invariant s → workers s !! w = Some (Worker c pc) →
  (∀ k, worker_owns k (Worker c pc') = worker_owns k (Worker c pc)) →
  (∀ p ch e, pc' ≠ WClose p ch e) →
  invariant (wgoto w c pc' s).
Proof.
  intros [] Hpc Howns Hclose.
  assert (∀ k, owners k (wgoto w c pc' s) = owners k s) as Hsame.
  { intros k. pose proof (owners_wgoto k w c c pc pc' s Hpc). rewrite Howns in *. lia. }
  assert (∀ v c0 p ch e,
    <[w := Worker c pc']> (workers s) !! v = Some (Worker c0 (WClose p ch e)) →
    workers s !! v = Some (Worker c0 (WClose p ch e))) as Hold.
  { intros v c0 p ch e Hv. destruct (decide (w = v)) as [->|Hwv].
    - rewrite list_lookup_insert_eq in Hv by by eapply lookup_lt_Some.
      simplify_eq. by destruct (Hclose p ch e).
    - by rewrite list_lookup_insert_ne in Hv. }
  split; simpl; try done.
  - intros k. rewrite Hsame. auto.
  - intros k. rewrite Hsame. auto.
  - intros v c0 p ch e Hv. eauto.
  - intros w1 w2 c1 c2 p1 p2 ch e1 e2 H1 H2. eauto.
Qed.

Lemma invariant_set_next_chan (s : Server) (n : nat) :
  invariant s → next_chan s ≤ n → invariant (set_next_chan s n).
Proof.
  intros [] Hn. split; simpl; try done.
  - intros k ch H. specialize (inv_fresh0 _ _ H). lia.
  - intros w c p ch e H. destruct (inv_wclose0 _ _ _ _ _ H) as (?&?&?).
    split; [lia|done].
  - intros ch H. specialize (inv_closed_fresh0 _ H). lia.
Qed.

Lemma invariant_set_now (s : Server) (n : nat) :
  invariant s → invariant (set_now s n).
Proof. by intros []. Qed.

Lemma invariant_log_failure (s : Server) (c : class) (p : string) (err : option error) :
  invariant s → invariant (log_failure c p err s).
Proof. intros []. by destruct err. Qed.

Lemma invariant_request (s : Server) (p : string) :
  invariant s → invariant (set_handlers s (handlers s ++ [HStatSource p])).
Proof.
  intros [].
  assert (∀ k, owners k (set_handlers s (handlers s ++ [HStatSource p])) = owners k s)
    as Hsame.
  { intros k. unfold owners, queued. simpl. rewrite sum_list_with_snoc. simpl. lia. }
  split; simpl; try done.
  - intros k. rewrite Hsame. auto.
  - intros k. rewrite Hsame. auto.
  - intros j pc0 q d Hj Hd.
    apply lookup_app_Some in Hj as [Hj|[_ Hj]]; [eauto|].
    apply list_lookup_singleton_Some in Hj as [_ <-].
    destruct Hd as [?|[?|[? ?]]]; done.
  - intros k ch Hk Hch.
    destruct (inv_closed_entry0 k ch Hk Hch) as (j & q & e & Hj & Hq).
    exists j, q, e. split; [|done]. by apply lookup_app_l_Some.
Qed.

(** *** [os.MkdirAll] *)

(** [os.MkdirAll] changes nothing that is on disk: it only makes
    directories at paths where nothing was, on the way to its path. *)
Lemma mkdir_chain_extends (ok : bool) (chain : list string) (fs fs1 : gmap string entry)
    (e : option error) (k : string) :
  mkdir_chain ok fs chain = (e, fs1) →
  fs1 !! k = fs !! k
  ∨ (fs !! k = None ∧ fs1 !! k = Some Directory ∧ k ∈ chain).
Proof.
  revert fs1 e. induction chain as [|path above IH]; intros fs1 e H.
  { simplify_eq/=. by left. }
  simpl in H.
  assert (match mkdir_chain ok fs above with
          | (Some e0, fs') => (Some e0, fs')
          | (None, fs') => Mkdir ok fs' path
          end = (e, fs1) →
          fs1 !! k = fs !! k
          ∨ (fs !! k = None ∧ fs1 !! k = Some Directory ∧ k ∈ path :: above)) as Hrec.
  { destruct (mkdir_chain ok fs above) as [[e0|] fs0] eqn:Habove; intros H'.
    - simplify_eq. destruct (IH _ _ eq_refl) as [?|(?&?&?)]; [by left|right].
      split; [done|]. split; [done|]. by apply list_elem_of_further.
    - specialize (IH _ _ eq_refl). unfold Mkdir in H'.
      destruct (fs0 !! path) as [x|] eqn:Hpath; simplify_eq.
      { destruct IH as [?|(?&?&?)]; [by left|right].
        split; [done|]. split; [done|]. by apply list_elem_of_further. }
      destruct ok; simplify_eq.
      2: { destruct IH as [?|(?&?&?)]; [by left|right].
           split; [done|]. split; [done|]. by apply list_elem_of_further. }
      destruct (decide (k = path)) as [->|Hne].
      + right. rewrite lookup_insert_eq.
        destruct IH as [Heq|(_ & Hdir & _)]; [|congruence].
        split; [congruence|]. split; [done|]. apply list_elem_of_here.
      + rewrite lookup_insert_ne by done.
        destruct IH as [?|(?&?&?)]; [by left|right].
        split; [done|]. split; [done|]. by apply list_elem_of_further. }
  destruct (fs !! path) as [[]|]; [simplify_eq; by left| simplify_eq; by left|..];
    by apply Hrec.
Qed.

Lemma MkdirAll_extends (ok : bool) (path : string) (fs fs1 : gmap string entry)
    (e : option error) (k : string) :
  MkdirAll ok fs path = (e, fs1) →
  fs1 !! k = fs !! k
  ∨ (fs !! k = None ∧ fs1 !! k = Some Directory ∧ k ∈ lineage path).
Proof.
  unfold MkdirAll. case_bool_decide; [intros [= <- <-]; by left|].
  apply mkdir_chain_extends.
Qed.

Lemma MkdirAll_mono (ok : bool) (path : string) (fs fs1 : gmap string entry)
    (e : option error) (k : string) (x : entry) :
  MkdirAll ok fs path = (e, fs1) → fs !! k = Some x → fs1 !! k = Some x.
Proof.
  intros H Hk. destruct (MkdirAll_extends _ _ _ _ _ k H) as [->|(?&?&?)]; congruence.
Qed.

(** When [os.MkdirAll] returns without error the directory is there. *)
Lemma mkdir_chain_made (ok : bool) (path : string) (above : list string)
    (fs fs1 : gmap string entry) :
  mkdir_chain ok fs (path :: above) = (None, fs1) → fs1 !! path = Some Directory.
Proof.
  simpl. intros H.
  assert (match mkdir_chain ok fs above with
          | (Some e0, fs') => (Some e0, fs')
          | (None, fs') => Mkdir ok fs' path
          end = (None, fs1) → fs1 !! path = Some Directory) as Hrec.
  { destruct (mkdir_chain ok fs above) as [[e0|] fs0]; [done|].
    unfold Mkdir. destruct (fs0 !! path); [done|]. destruct ok; [|done].
    intros [= <-]. apply lookup_insert_eq. }
  destruct (fs !! path) as [[]|] eqn:Hpath; simplify_eq; auto.
Qed.

(** *** [generateThumbnail] *)

Lemma run_command_cases (o : outcome) (t : tool) (p k : string) (fs : gmap string entry) :
  run_command o t p k fs = (None, <[k := Regular]> fs, [Command t p k true])
  ∨ run_command o t p k fs = (Some ErrRun, fs, [Command t p k false])
  ∨ run_command o t p k fs = (Some ErrRun, <[k := Regular]> fs, [Command t p k false]).
Proof. unfold run_command. destruct (run_ok o), (leaves_output o); auto. Qed.

(** What one call of [generateThumbnail] can do.  With the thumbnail on
    disk: nothing.  Otherwise [os.MkdirAll] has gone over the directory of
    the thumbnail, and then: no tool has run and an error is returned, or
    the tool of the class of the path has run once, and it has failed and
    left nothing, or it has written the thumbnail, with or without an
    error. *)
Lemma generateThumbnail_cases (o : outcome) (fs : gmap string entry) (p : string) :
  let k := getThumbnailPath p in
  (Stat fs k = StatOK ∧ generateThumbnail o fs p = (None, fs, []))
  ∨ (Stat fs k ≠ StatOK
     ∧ ∃ e fs1,
         MkdirAll (mkdir_ok o) fs (filepath.Dir k) = (e, fs1)
         ∧ ((∃ err, generateThumbnail o fs p = (Some err, fs1, []))
            ∨ (∃ t, e = None ∧ media_class p = Some (tool_class t)
                  ∧ generateThumbnail o fs p
                    = (Some ErrRun, fs1, [Command t p k false]))
            ∨ (∃ t (ok : bool), e = None ∧ media_class p = Some (tool_class t)
                  ∧ generateThumbnail o fs p
                    = ((if ok then None else Some ErrRun),
                       <[k := Regular]> fs1, [Command t p k ok])))).
Proof.
  intros k. rewrite generateThumbnail_class. fold k.
  destruct (Stat fs k) eqn:Hstat; simpl; [left; by split|right|right].
  all: split; [done|].
  all: destruct (MkdirAll (mkdir_ok o) fs (filepath.Dir k)) as [[e|] fs1] eqn:Hmk;
    eexists _, fs1; (split; [reflexivity|]); [left; by eexists|].
  all: unfold transcode; fold k; destruct (media_class p) as [[]|] eqn:Hclass;
    [destruct (open_ok o); simpl; [|left; by eexists]| |left; by eexists].
  all: match goal with |- context [run_command ?o ?t ?p ?k ?fs] =>
         destruct (run_command_cases o t p k fs) as [-> | [-> | ->]] end.
  all: right.
  all: first [ right; eexists _, true; split; [done|]; split; [|reflexivity]; done
             | left; eexists; split; [done|]; split; [|reflexivity]; done
             | right; eexists _, false; split; [done|]; split; [|reflexivity]; done ].
Qed.

Lemma Stat_OK (fs : gmap string entry) (k : string) :
  Stat fs k = StatOK ↔ fs !! k = Some Regular ∨ fs !! k = Some Directory.
Proof.
  unfold Stat. destruct (fs !! k) as [[]|]; (split; [intros H|intros [H|H]]);
    first [done | by left | by right].
Qed.

Lemma Stat_Regular (fs : gmap string entry) (k : string) :
  fs !! k = Some Regular → Stat fs k = StatOK.
Proof. intros H. apply Stat_OK. by left. Qed.

(** A call of [generateThumbnail] leaves what is on disk as it is, but
    for a thumbnail path on which [os.Stat] failed. *)
Lemma generateThumbnail_mono (o : outcome) (fs fs' : gmap string entry) (p : string)
    (err : option error) (cmds : list command) (k : string) (x : entry) :
  generateThumbnail o fs p = (err, fs', cmds) →
  fs !! k = Some x → x ≠ Inaccessible → fs' !! k = Some x.
Proof.
  intros Hgen Hk Hx.
  destruct (generateThumbnail_cases o fs p) as
    [[_ Hg]|(Hstat & e & fs1 & Hmk & [(e' & Hg)|[(t & _ & _ & Hg)|(t & ok & _ & _ & Hg)]])];
    rewrite Hg in Hgen; simplify_eq; try done.
  - by eapply MkdirAll_mono.
  - by eapply MkdirAll_mono.
  - destruct (decide (getThumbnailPath p = k)) as [<-|Hne].
    + rewrite Stat_OK in Hstat. destruct x; naive_solver.
    + rewrite lookup_insert_ne by done. by eapply MkdirAll_mono.
Qed.

Lemma invariant_set_fs (s : Server) (o : outcome) (p : string)
    (err : option error) (fs' : gmap string entry) (cmds : list command) :
  invariant s → generateThumbnail o (fs s) p = (err, fs', cmds) →
  invariant (set_fs s fs' cmds).
Proof. intros [] Hgen. by split. Qed.

(** *** The steps that touch the registry, a queue or a channel *)

Lemma handlers_set_queue (c : class) (s : Server) (q : list string) :
  handlers (set_queue c s q) = handlers s.
Proof. by destruct c. Qed.

Lemma workers_set_queue (c : class) (s : Server) (q : list string) :
  workers (set_queue c s q) = workers s.
Proof. by destruct c. Qed.

(** A queue operation that hands the entry of a key from a thread to the
    queue or back leaves everything else as it was. *)
Lemma invariant_set_queue (c : class) (s : Server) (q : list string)
    (hs : list handler_pc) (ws : list worker) :
  let s' := set_workers (set_handlers (set_queue c s q) hs) ws in
  invariant s →
  (∀ k, owners k s' = owners k s) →
  (∀ j pc p d, hs !! j = Some pc → holds_open pc p d →
     ∃ pc0, handlers s !! j = Some pc0 ∧ holds_open pc0 p d) →
  (∀ j p e, handlers s !! j = Some (QDelete p e) → hs !! j = Some (QDelete p e)) →
  (∀ v c0 p ch e, ws !! v = Some (Worker c0 (WClose p ch e)) →
     workers s !! v = Some (Worker c0 (WClose p ch e))) →
  invariant s'.
Proof.
  intros s' [] Hsame Hopen Hdel Hclose. subst s'.
  split; destruct c; simpl in *; try done.
  all: try (intros k; rewrite Hsame; auto).
  all: try (intros j pc p d Hj Hd; destruct (Hopen _ _ _ _ Hj Hd) as (pc0 & ? & ?); eauto).
  all: try (intros v c0 p ch e Hv; eauto).
  all: try (intros w1 w2 c1 c2 p1 p2 ch e1 e2 H1 H2; eauto).
  all: intros k ch Hk Hch;
    destruct (inv_closed_entry0 k ch Hk Hch) as (j & p & e & Hj & Hp); eauto 10.
Qed.

Lemma invariant_send (s : Server) (i : nat) (c : class) (p : string) (d : nat) :
  invariant s → handlers s !! i = Some (QSelectQueue p d) →
  invariant (goto i (QSelectDone p d) (set_queue c s (queue c s ++ [p]))).
Proof.
  intros Hinv Hpc.
  change (goto i (QSelectDone p d) (set_queue c s (queue c s ++ [p])))
    with (set_handlers (set_queue c s (queue c s ++ [p]))
            (<[i := QSelectDone p d]> (handlers (set_queue c s (queue c s ++ [p]))))).
  rewrite handlers_set_queue.
  replace (set_handlers (set_queue c s (queue c s ++ [p])) (<[i := QSelectDone p d]> (handlers s)))
    with (set_workers (set_handlers (set_queue c s (queue c s ++ [p]))
            (<[i := QSelectDone p d]> (handlers s))) (workers s)) by by destruct c.
  apply invariant_set_queue; [done|..].
  - intros k.
    pose proof (sum_list_with_insert (handler_owns k) _ _ _ (QSelectDone p d) Hpc) as H.
    unfold owners, queued. destruct c; simpl in *; rewrite sum_list_with_snoc; lia.
  - intros j pc q d' Hj Hd.
    apply list_lookup_insert_Some in Hj as [(<- & <- & _)|[Hij Hj]]; [|eauto].
    destruct Hd as [?|[?|[? ?]]]; done.
  - intros j q e Hj. rewrite list_lookup_insert_ne; [done|]. intros <-. simplify_eq.
  - done.
Qed.

Lemma invariant_receive (s : Server) (w : nat) (c : class) (p : string) (rest : list string) :
  invariant s → workers s !! w = Some (Worker c WReceive) → queue c s = p :: rest →
  invariant (wgoto w c (WGenerate p) (set_queue c s rest)).
Proof.
  intros Hinv Hpc Hq.
  change (wgoto w c (WGenerate p) (set_queue c s rest))
    with (set_workers (set_queue c s rest)
            (<[w := Worker c (WGenerate p)]> (workers (set_queue c s rest)))).
  rewrite workers_set_queue.
  replace (set_workers (set_queue c s rest) (<[w := Worker c (WGenerate p)]> (workers s)))
    with (set_workers (set_handlers (set_queue c s rest) (handlers s))
            (<[w := Worker c (WGenerate p)]> (workers s))) by by destruct c.
  apply invariant_set_queue; [done|..].
  - intros k.
    pose proof (sum_list_with_insert (worker_owns k) _ _ _ (Worker c (WGenerate p)) Hpc) as H.
    unfold owners, queued, worker_owns in *.
    destruct c; simpl in *; rewrite Hq; simpl; lia.
  - eauto.
  - done.
  - intros v c0 q ch e Hv.
    by apply list_lookup_insert_Some in Hv as [(<- & ? & _)|[Hij Hj]].
Qed.

Lemma invariant_store (s : Server) (i : nat) (p : string) :
  invariant s → handlers s !! i = Some (QLoadOrStore p) →
  pendingThumbs s !! getThumbnailPath p = None →
  invariant
    (goto i (QSelectQueue p (next_chan s))
       (set_next_chan
          (set_pendingThumbs s (<[getThumbnailPath p := next_chan s]> (pendingThumbs s)))
          (S (next_chan s)))).
Proof.
  intros Hinv Hpc Hnone. pose proof Hinv as [].
  set (kp := getThumbnailPath p) in *.
  assert (∀ k, owners k (goto i (QSelectQueue p (next_chan s)) (set_next_chan
    (set_pendingThumbs s (<[kp := next_chan s]> (pendingThumbs s))) (S (next_chan s))))
    = owners k s + has_key k p) as Hown.
  { intros k.
    pose proof (sum_list_with_insert (handler_owns k) _ _ _ (QSelectQueue p (next_chan s)) Hpc).
    unfold owners, queued in *. simpl in *. lia. }
  assert (owners kp s = 0) as Hzero.
  { destruct (owners kp s) eqn:Hk; [done|].
    destruct (inv_entry0 kp) as [? ?]; [lia|congruence]. }
  split; simpl; try done.
  - intros k. rewrite Hown. destruct (decide (kp = k)) as [<-|Hk].
    + rewrite Hzero. pose proof (has_key_le kp p). lia.
    + rewrite has_key_ne by done. specialize (inv_owners0 k). lia.
  - intros k. rewrite Hown. destruct (decide (kp = k)) as [<-|Hk].
    + rewrite lookup_insert_eq. eauto.
    + rewrite has_key_ne, lookup_insert_ne by done. intros. apply inv_entry0. lia.
  - intros k ch. rewrite lookup_insert_Some. intros [[_ <-]|[_ H]]; [lia|].
    specialize (inv_fresh0 _ _ H). lia.
  - intros k1 k2 ch. rewrite !lookup_insert_Some.
    intros [[<- <-]|[? H1]] [[<- ?]|[? H2]]; try done.
    + specialize (inv_fresh0 _ _ H2). lia.
    + specialize (inv_fresh0 _ _ H1). lia.
    + eauto.
  - intros j pc q d Hj Hd.
    apply list_lookup_insert_Some in Hj as [(<- & <- & _)|[Hij Hj]].
    + destruct Hd as [?|[?|[? ?]]]; simplify_eq. fold kp.
      rewrite lookup_insert_eq. split; [done|].
      intros H. specialize (inv_closed_fresh0 _ H). lia.
    + destruct (inv_done0 _ _ _ _ Hj Hd) as [H1 H2]. split; [|done].
      rewrite lookup_insert_ne; [done|]. intros Heq. rewrite <- Heq in H1. congruence.
  - intros w c q ch e H. destruct (inv_wclose0 _ _ _ _ _ H) as (?&?&Hr).
    split; [lia|]. split; [done|].
    intros k. rewrite lookup_insert_Some. intros [[_ ?]|[_ ?]]; [lia|]. by eapply Hr.
  - intros ch H. specialize (inv_closed_fresh0 _ H). lia.
  - intros k ch. rewrite lookup_insert_Some. intros [[_ <-]|[_ H]] Hch.
    + specialize (inv_closed_fresh0 _ Hch). lia.
    + destruct (inv_closed_entry0 k ch H Hch) as (j & q & e & Hj & Hq).
      exists j, q, e. split; [|done].
      rewrite list_lookup_insert_ne; [done|]. intros <-. simplify_eq.
Qed.

Lemma invariant_close (s : Server) (i : nat) (p : string) (d : nat) (err : option error) :
  invariant s → handlers s !! i = Some (QClose p d err) →
  invariant (goto i (QDelete p err) (close d s)).
Proof.
  intros Hinv Hpc. pose proof Hinv as [].
  destruct (inv_done0 i _ p d Hpc) as [Hd Hopen]; [right; right; eauto|].
  rewrite close_open by done.
  assert (∀ k, owners k (goto i (QDelete p err)
            (set_closed s ({[d]} ∪ closed s) (panicked s))) = owners k s) as Hown.
  { intros k.
    pose proof (sum_list_with_insert (handler_owns k) _ _ _ (QDelete p err) Hpc).
    unfold owners, queued in *. simpl in *. lia. }
  split; simpl; try done.
  - intros k. rewrite Hown. auto.
  - intros k. rewrite Hown. auto.
  - intros j pc q d' Hj Hd'.
    apply list_lookup_insert_Some in Hj as [(<- & <- & _)|[Hij Hj]].
    { destruct Hd' as [?|[?|[? ?]]]; done. }
    destruct (inv_done0 _ _ _ _ Hj Hd') as [H1 H2]. split; [done|].
    intros [->%elem_of_singleton|?]%elem_of_union; [|done].
    pose proof (inv_inj0 _ _ _ Hd H1) as Hk.
    pose proof (owners_handler_handler (getThumbnailPath p) i j _ _ s Hij Hpc Hj) as Hle.
    rewrite Hk in Hle at 2. rewrite (holds_open_owns _ _ _ Hd') in Hle.
    simpl in Hle. rewrite has_key_eq in Hle.
    specialize (inv_owners0 (getThumbnailPath p)). lia.
  - intros w c q ch e H. destruct (inv_wclose0 _ _ _ _ _ H) as (?&?&Hr).
    split; [done|]. split; [|done].
    intros [->%elem_of_singleton|?]%elem_of_union; [|done]. by eapply Hr.
  - intros ch [->%elem_of_singleton|?]%elem_of_union; eauto.
  - intros k ch Hk [->%elem_of_singleton|Hch]%elem_of_union.
    + exists i, p, err. split; [by apply list_lookup_insert_eq, lookup_lt_is_Some|].
      eauto.
    + destruct (inv_closed_entry0 k ch Hk Hch) as (j & q & e & Hj & Hq).
      exists j, q, e. split; [|done].
      rewrite list_lookup_insert_ne; [done|]. intros <-. simplify_eq.
Qed.

Lemma invariant_delete (s : Server) (i : nat) (p : string) (err : option error) :
  invariant s → handlers s !! i = Some (QDelete p err) →
  invariant (goto i (respond p err)
               (set_pendingThumbs s (Delete (pendingThumbs s) (getThumbnailPath p)))).
Proof.
  intros Hinv Hpc. pose proof Hinv as [].
  set (kp := getThumbnailPath p) in *. unfold Delete.
  assert (has_key kp p = 1) as Hkey by apply has_key_eq.
  assert (∀ k, owners k (goto i (respond p err)
            (set_pendingThumbs s (delete kp (pendingThumbs s)))) + has_key k p
            = owners k s) as Hown.
  { intros k.
    pose proof (sum_list_with_insert (handler_owns k) _ _ _ (respond p err) Hpc) as H.
    rewrite handler_owns_respond in H.
    unfold owners, queued in *. simpl in *. lia. }
  assert (∀ j pc, i ≠ j → handlers s !! j = Some pc → handler_owns kp pc = 0) as Hother.
  { intros j pc Hij Hj.
    pose proof (owners_handler_handler kp i j _ _ s Hij Hpc Hj) as Hle.
    simpl in Hle. rewrite Hkey in Hle.
    specialize (inv_owners0 kp). lia. }
  split; simpl; try done.
  - intros k. specialize (Hown k). specialize (inv_owners0 k). lia.
  - intros k Hk. destruct (decide (kp = k)) as [<-|Hne].
    + specialize (Hown kp). rewrite Hkey in Hown.
      specialize (inv_owners0 kp). lia.
    + rewrite lookup_delete_ne by done. apply inv_entry0.
      specialize (Hown k). lia.
  - intros k ch [_ H]%lookup_delete_Some. eauto.
  - intros k1 k2 ch [_ H1]%lookup_delete_Some [_ H2]%lookup_delete_Some. eauto.
  - intros j pc q d Hj Hd.
    apply list_lookup_insert_Some in Hj as [(<- & <- & _)|[Hij Hj]].
    { by apply holds_open_respond in Hd. }
    destruct (inv_done0 _ _ _ _ Hj Hd) as [H1 H2]. split; [|done].
    rewrite lookup_delete_ne; [done|]. intros Heq.
    pose proof (Hother j pc Hij Hj) as Hz.
    rewrite Heq, (holds_open_owns _ _ _ Hd) in Hz. done.
  - intros w c q ch e H. destruct (inv_wclose0 _ _ _ _ _ H) as (?&?&Hr).
    split; [done|]. split; [done|].
    intros k [_ ?]%lookup_delete_Some. by eapply Hr.
  - intros k ch [Hne Hk]%lookup_delete_Some Hch.
    destruct (inv_closed_entry0 k ch Hk Hch) as (j & q & e & Hj & Hq).
    exists j, q, e. split; [|done].
    rewrite list_lookup_insert_ne; [done|]. intros <-. simplify_eq.
Qed.

Lemma invariant_load_and_delete (s : Server) (w : nat) (c : class) (p : string)
    (err : option error) (ch : nat) :
  invariant s → workers s !! w = Some (Worker c (WLoadAndDelete p err)) →
  pendingThumbs s !! getThumbnailPath p = Some ch →
  invariant (wgoto w c (WClose p ch err)
               (set_pendingThumbs s (delete (getThumbnailPath p) (pendingThumbs s)))).
Proof.
  intros Hinv Hpc Hch. pose proof Hinv as [].
  set (kp := getThumbnailPath p) in *.
  assert (has_key kp p = 1) as Hkey by apply has_key_eq.
  assert (∀ k, owners k (wgoto w c (WClose p ch err)
            (set_pendingThumbs s (delete kp (pendingThumbs s)))) + has_key k p
            = owners k s) as Hown.
  { intros k.
    pose proof (sum_list_with_insert (worker_owns k) _ _ _ (Worker c (WClose p ch err)) Hpc) as H.
    unfold owners, queued, worker_owns in *. simpl in *. lia. }
  assert (∀ j pc, handlers s !! j = Some pc → handler_owns kp pc = 0) as Hother.
  { intros j pc Hj.
    pose proof (owners_handler_worker kp j w _ _ s Hj Hpc) as Hle.
    unfold worker_owns in Hle. simpl in Hle. rewrite Hkey in Hle.
    specialize (inv_owners0 kp). lia. }
  split; simpl; try done.
  - intros k. specialize (Hown k). specialize (inv_owners0 k). lia.
  - intros k Hk. destruct (decide (kp = k)) as [<-|Hne].
    + specialize (Hown kp). rewrite Hkey in Hown.
      specialize (inv_owners0 kp). lia.
    + rewrite lookup_delete_ne by done. apply inv_entry0.
      specialize (Hown k). lia.
  - intros k ch' [_ H]%lookup_delete_Some. eauto.
  - intros k1 k2 ch' [_ H1]%lookup_delete_Some [_ H2]%lookup_delete_Some. eauto.
  - intros j pc q d Hj Hd.
    destruct (inv_done0 _ _ _ _ Hj Hd) as [H1 H2]. split; [|done].
    rewrite lookup_delete_ne; [done|]. intros Heq.
    pose proof (Hother j pc Hj) as Hz.
    rewrite Heq, (holds_open_owns _ _ _ Hd) in Hz. done.
  - intros v c0 q ch' e Hv.
    apply list_lookup_insert_Some in Hv as [(<- & Heq & _)|[Hne Hv]].
    + injection Heq as <- <- <- <-. split; [eauto|]. split.
      * intros Hcl. destruct (inv_closed_entry0 kp ch Hch Hcl) as (j & q & e & Hj & Hq).
        pose proof (Hother j _ Hj) as Hz. simpl in Hz.
        rewrite <- Hq, has_key_eq in Hz. done.
      * intros k [Hne Hk]%lookup_delete_Some. by pose proof (inv_inj0 _ _ _ Hch Hk).
    + destruct (inv_wclose0 _ _ _ _ _ Hv) as (?&?&Hr).
      split; [done|]. split; [done|]. intros k [_ ?]%lookup_delete_Some. by eapply Hr.
  - intros w1 w2 c1 c2 p1 p2 ch' e1 e2 H1 H2.
    apply list_lookup_insert_Some in H1 as [(<- & Heq1 & _)|[Hne1 H1]];
    apply list_lookup_insert_Some in H2 as [(<- & Heq2 & _)|[Hne2 H2]]; [done| | |eauto].
    + injection Heq1 as <- <- <- <-.
      destruct (inv_wclose0 _ _ _ _ _ H2) as (_&_&Hr). by destruct (Hr kp).
    + injection Heq2 as <- <- <- <-.
      destruct (inv_wclose0 _ _ _ _ _ H1) as (_&_&Hr). by destruct (Hr kp).
  - intros k ch' [Hne Hk]%lookup_delete_Some Hcl. eauto.
Qed.

Lemma invariant_wclose (s : Server) (w : nat) (c : class) (p : string)
    (ch : nat) (err : option error) :
  invariant s → workers s !! w = Some (Worker c (WClose p ch err)) →
  invariant (wgoto w c WReceive (log_failure c p err (close ch s))).
Proof.
  intros Hinv Hpc. pose proof Hinv as [].
  destruct (inv_wclose0 _ _ _ _ _ Hpc) as (Hfresh & Hopen & Hrange).
  rewrite close_open by done.
  assert (∀ k, owners k (wgoto w c WReceive (log_failure c p err
            (set_closed s ({[ch]} ∪ closed s) (panicked s)))) = owners k s) as Hown.
  { intros k.
    pose proof (sum_list_with_insert (worker_owns k) _ _ _ (Worker c WReceive) Hpc) as H.
    unfold owners, queued, worker_owns in *. destruct err; simpl in *; lia. }
  split; try (destruct err; simpl; done).
  - intros k. rewrite Hown. auto.
  - intros k. rewrite Hown. destruct err; simpl; auto.
  - intros j pc q d Hj Hd.
    assert (handlers s !! j = Some pc) as Hj' by (by destruct err).
    destruct (inv_done0 _ _ _ _ Hj' Hd) as [H1 H2].
    assert (d ≠ ch) by (intros ->; by destruct (Hrange (getThumbnailPath q))).
    assert (d ∉ ({[ch]} ∪ closed s : gset nat)).
    { rewrite elem_of_union, elem_of_singleton. by intros [?|?]. }
    by destruct err.
  - intros v c0 q ch' e Hv.
    assert (v ≠ w ∧ workers s !! v = Some (Worker c0 (WClose q ch' e))) as [Hne Hv'].
    { destruct err; simpl in Hv;
        by apply list_lookup_insert_Some in Hv as [(<- & ? & _)|[? ?]]. }
    destruct (inv_wclose0 _ _ _ _ _ Hv') as (?&?&Hr).
    assert (ch' ≠ ch).
    { intros ->. by pose proof (inv_wclose_inj0 _ _ _ _ _ _ _ _ _ Hv' Hpc). }
    assert (ch' ∉ ({[ch]} ∪ closed s : gset nat)).
    { rewrite elem_of_union, elem_of_singleton. by intros [?|?]. }
    by destruct err.
  - intros w1 w2 c1 c2 p1 p2 ch' e1 e2 H1 H2.
    assert (workers s !! w1 = Some (Worker c1 (WClose p1 ch' e1))).
    { destruct err; simpl in H1;
        by apply list_lookup_insert_Some in H1 as [(<- & ? & _)|[? ?]]. }
    assert (workers s !! w2 = Some (Worker c2 (WClose p2 ch' e2))).
    { destruct err; simpl in H2;
        by apply list_lookup_insert_Some in H2 as [(<- & ? & _)|[? ?]]. }
    eauto.
  - intros ch' Hch'.
    assert (ch' ∈ ({[ch]} ∪ closed s : gset nat)) as [->%elem_of_singleton|?]%elem_of_union
      by (by destruct err); [|destruct err; simpl; eauto].
    by destruct err.
  - intros k ch' Hk Hch'.
    assert (pendingThumbs s !! k = Some ch') as Hk' by (by destruct err).
    assert (ch' ∈ ({[ch]} ∪ closed s : gset nat)) as [->%elem_of_singleton|?]%elem_of_union
      by (by destruct err); [by destruct (Hrange k)|].
    destruct (inv_closed_entry0 k ch' Hk') as (j & q & e & Hj & Hq); [done|].
    exists j, q, e. by destruct err.
Qed.

Lemma invariant_load (s : Server) :
  invariant s → invariant (set_pendingThumbs s (pendingThumbs s)).
Proof. by intros []. Qed.

Ltac frame_goto :=
  eapply invariant_goto;
  [ try done
  | done
  | intros; simpl; lia
  | intros ?? [?|[?|[? ?]]]; simplify_eq; unfold holds_open; eauto
  | done ].

(** Every step keeps the invariant. *)
Lemma invariant_step (s s' : Server) (a : action) :
  invariant s → step s a = Some s' → invariant s'.
Proof.
  intros Hinv Hstep. unfold step in Hstep.
  rewrite (inv_panicked _ Hinv) in Hstep.
  destruct a as [p|i o|i|w o|d].
  - (* a new request *)
    simplify_eq. by apply invariant_request.
  - (* a handler *)
    destruct (handlers s !! i) as [pc|] eqn:Hpc;
      [|by unfold handler_step in Hstep; rewrite Hpc in Hstep].
    destruct pc as [p|p|p|p done|p done|p done err|p err|p done|p done deadline|p|r].
    + unfold handler_step in Hstep. rewrite Hpc in Hstep.
      destruct (IsNotExist _); simplify_eq; frame_goto.
    + unfold handler_step in Hstep. rewrite Hpc in Hstep.
      destruct (IsNotExist _); simplify_eq; frame_goto.
    + unfold handler_step, LoadOrStore in Hstep. rewrite Hpc in Hstep.
      destruct (pendingThumbs s !! getThumbnailPath p) as [ch|] eqn:Hch; simplify_eq.
      * frame_goto.
        apply invariant_set_next_chan; [by apply invariant_load|simpl; lia].
      * by apply invariant_store.
    + rewrite (handler_step_select_queue _ _ _ _ _ Hpc) in Hstep. simplify_eq.
      unfold select_queue. destruct (media_class p) as [c|].
      * unfold try_send. case_bool_decide.
        -- by apply invariant_send.
        -- frame_goto.
      * frame_goto.
    + unfold handler_step in Hstep. rewrite Hpc in Hstep.
      destruct (generateThumbnail o (fs s) p) as [[err fs'] cmds] eqn:Hgen. simplify_eq.
      frame_goto. by eapply invariant_set_fs.
    + unfold handler_step in Hstep. rewrite Hpc in Hstep. simplify_eq.
      by apply invariant_close.
    + unfold handler_step in Hstep. rewrite Hpc in Hstep. simplify_eq.
      by apply invariant_delete.
    + unfold handler_step in Hstep. rewrite Hpc in Hstep. simplify_eq.
      frame_goto.
    + unfold handler_step in Hstep. rewrite Hpc in Hstep.
      case_bool_decide; simplify_eq.
      frame_goto.
    + unfold handler_step in Hstep. rewrite Hpc in Hstep.
      destruct (IsNotExist _); simplify_eq; frame_goto.
    + unfold handler_step in Hstep. by rewrite Hpc in Hstep.
  - (* a timer *)
    unfold handler_timeout in Hstep.
    destruct (handlers s !! i) as [[]|] eqn:Hpc; try done.
    case_bool_decide; simplify_eq.
    frame_goto.
  - (* a worker *)
    unfold worker_step in Hstep.
    destruct (workers s !! w) as [[c [|p|p err|p ch err]]|] eqn:Hpc; [| | | |done].
    + destruct (queue c s) as [|p rest] eqn:Hq; simplify_eq.
      by apply invariant_receive.
    + destruct (generateThumbnail o (fs s) p) as [[err fs'] cmds] eqn:Hgen. simplify_eq.
      eapply invariant_wgoto.
      * by eapply invariant_set_fs.
      * done.
      * done.
      * done.
    + unfold LoadAndDelete in Hstep.
      destruct (pendingThumbs s !! getThumbnailPath p) as [ch|] eqn:Hch; simplify_eq.
      * by apply invariant_load_and_delete.
      * pose proof (owners_worker (getThumbnailPath p) _ _ _ Hpc) as Hle.
        unfold worker_owns in Hle. simpl in Hle. rewrite has_key_eq in Hle.
        destruct (inv_entry _ Hinv (getThumbnailPath p)) as [? ?]; [lia|congruence].
    + simplify_eq. by apply invariant_wclose.
  - (* time passes *)
    simplify_eq. by apply invariant_set_now.
Qed.

Lemma invariant_run (acts : list action) (s s' : Server) :
  invariant s → run s acts = Some s' → invariant s'.
Proof.
  revert s. induction acts as [|a acts IH]; intros s Hinv Hrun; simplify_eq/=; [done|].
  destruct (step s a) as [s1|] eqn:Hstep; [|done].
  eapply IH; [|done]. by eapply invariant_step.
Qed.

Lemma invariant_reachable (s : Server) : reachable s → invariant s.
Proof.
  induction 1 as [files|s a s' _ IH Hstep]; [apply invariant_main|].
  by eapply invariant_step.
Qed.

Lemma reachable_run (acts : list action) (s s' : Server) :
  reachable s → run s acts = Some s' → reachable s'.
Proof.
  revert s. induction acts as [|a acts IH]; intros s Hs Hrun; simplify_eq/=; [done|].
  destruct (step s a) as [s1|] eqn:Hstep; [|done].
  eapply IH; [|done]. by eapply reachable_step.
Qed.

(** ** Runs *)

(** A run that is known to succeed ends in the state it computes. *)
Lemma run_succeeds (s d : Server) (acts : list action) :
  bool_decide (is_Some (run s acts)) = true →
  run s acts = Some (default d (run s acts)).
Proof. intros [s' ->]%bool_decide_eq_true. reflexivity. Qed.

Lemma run_app (s : Server) (acts acts' : list action) :
  run s (acts ++ acts') = run s acts ≫= λ s1, run s1 acts'.
Proof.
  revert s. induction acts as [|a acts IH]; intros s; simpl; [done|].
  destruct (step s a); simpl; [apply IH|done].
Qed.

Lemma run_snoc (s s' : Server) (acts : list action) (a : action) :
  run s (acts ++ [a]) = Some s' ↔ ∃ s1, run s acts = Some s1 ∧ step s1 a = Some s'.
Proof.
  revert s. induction acts as [|b acts IH]; intros s; simpl.
  - destruct (step s a) as [s1|] eqn:Hstep.
    + split; [intros [= <-]; eauto|]. intros (s2 & [= <-] & H). congruence.
    + split; [done|]. intros (s2 & [= <-] & H). congruence.
  - destruct (step s b) as [s1|]; [apply IH|].
    split; [done|]. by intros (s2 & ? & ?).
Qed.

(** ** One generation at a time *)



(** A handler that is not a starter about to route or to generate leaves
    the queues, the disk and the tools alone. *)
Lemma handler_step_quiet (s s' : Server) (i : nat) (o : outcome) (pc : handler_pc) :
  handlers s !! i = Some pc →
  (∀ p d, pc ≠ QSelectQueue p d) → (∀ p d, pc ≠ QGenerate p d) →
  handler_step s i o = Some s' →
  imageThumbnailQueue s' = imageThumbnailQueue s
  ∧ movieThumbnailQueue s' = movieThumbnailQueue s
  ∧ commands s' = commands s ∧ fs s' = fs s.
Proof.
  intros Hpc Hq Hg Hstep. unfold handler_step in Hstep. rewrite Hpc in Hstep.
  destruct pc as [p|p|p|p d|p d|p d err|p err|p d|p d dl|p|r]; simplify_eq.
  - by destruct (IsNotExist _); simplify_eq.
  - by destruct (IsNotExist _); simplify_eq.
  - unfold LoadOrStore in Hstep.
    by destruct (pendingThumbs s !! _); simplify_eq.
  - by destruct (Hq p d).
  - by destruct (Hg p d).
  - unfold close. by case_bool_decide.
  - done.
  - done.
  - by case_bool_decide; simplify_eq.
  - by destruct (IsNotExist _); simplify_eq.
Qed.

(** The only way into the routing of a starter is a [LoadOrStore] that
    stored, and the only way into the fallback is that routing. *)
Lemma handler_step_starter (s s' : Server) (i : nat) (o : outcome) (p : string) (d : nat) :
  handler_step s i o = Some s' →
  (handlers s' !! i = Some (QSelectQueue p d) →
     handlers s !! i = Some (QLoadOrStore p)
     ∧ pendingThumbs s !! getThumbnailPath p = None
     ∧ pendingThumbs s' !! getThumbnailPath p = Some d)
  ∧ (handlers s' !! i = Some (QGenerate p d) →
     handlers s !! i = Some (QSelectQueue p d)).
Proof.
  intros Hstep.
  destruct (handlers s !! i) as [pc|] eqn:Hpc;
    [|by unfold handler_step in Hstep; rewrite Hpc in Hstep].
  assert (i < length (handlers s)) as Hi by by eapply lookup_lt_Some.
  destruct pc as [q|q|q|q d'|q d'|q d' err|q err|q d'|q d' dl|q|r].
  4: { rewrite (handler_step_select_queue _ _ _ _ _ Hpc) in Hstep. simplify_eq.
       unfold select_queue. destruct (media_class q) as [c|]; [destruct (try_send _ _ _)|].
       all: simpl; rewrite ?handlers_set_queue, list_lookup_insert_eq by done.
       all: split; intros; by simplify_eq. }
  all: unfold handler_step in Hstep; rewrite Hpc in Hstep.
  all: try (repeat case_match; simplify_eq;
            simpl; rewrite list_lookup_insert_eq by done;
            try match goal with |- context [respond _ ?e] => destruct e end;
            split; intros; by simplify_eq).
  - unfold LoadOrStore in Hstep.
    destruct (pendingThumbs s !! getThumbnailPath q) as [ch|] eqn:Hch; simplify_eq;
      simpl; rewrite list_lookup_insert_eq by done; (split; intros; simplify_eq; try done).
    by rewrite lookup_insert_eq.
  - simplify_eq. simpl.
    rewrite list_lookup_insert_eq by (by unfold close; case_bool_decide).
    split; intros; by simplify_eq.
Qed.


(** ** Threads and the steps of the others *)

Ltac step_cases H :=
  unfold handler_step, handler_timeout, worker_step, LoadOrStore, LoadAndDelete,
    try_send in H;
  repeat case_match; simplify_eq.

Lemma workers_close (ch : nat) (s : Server) : workers (close ch s) = workers s.
Proof. unfold close. by case_bool_decide. Qed.

Lemma handlers_close (ch : nat) (s : Server) : handlers (close ch s) = handlers s.
Proof. unfold close. by case_bool_decide. Qed.

Lemma handlers_log_failure (c : class) (p : string) (err : option error) (s : Server) :
  handlers (log_failure c p err s) = handlers s.
Proof. by destruct err. Qed.

Lemma closed_set_queue (c : class) (s : Server) (q : list string) :
  closed (set_queue c s q) = closed s.
Proof. by destruct c. Qed.

Lemma closed_close (ch ch' : nat) (s : Server) :
  ch ∈ closed s → ch ∈ closed (close ch' s).
Proof.
  intros H. unfold close. case_bool_decide; simpl; [done|].
  apply elem_of_union. by right.
Qed.

Lemma handler_step_workers (s s' : Server) (i : nat) (o : outcome) :
  handler_step s i o = Some s' → workers s' = workers s.
Proof.
  intros H. step_cases H; simpl; rewrite ?workers_set_queue, ?workers_close; done.
Qed.

Lemma handler_timeout_workers (s s' : Server) (i : nat) :
  handler_timeout s i = Some s' → workers s' = workers s.
Proof. intros H. by step_cases H. Qed.

Lemma worker_step_handlers (s s' : Server) (w : nat) (o : outcome) :
  worker_step s w o = Some s' → handlers s' = handlers s.
Proof.
  intros H. step_cases H; simpl;
    rewrite ?handlers_log_failure, ?handlers_set_queue, ?handlers_close; done.
Qed.

Lemma worker_step_other (s s' : Server) (w v : nat) (o : outcome) :
  worker_step s w o = Some s' → w ≠ v → workers s' !! v = workers s !! v.
Proof.
  intros H Hne. step_cases H; simpl;
    try match goal with |- context [log_failure _ _ ?e _] => destruct e end; simpl;
    rewrite list_lookup_insert_ne by done;
    rewrite ?workers_set_queue, ?workers_close; done.
Qed.

Lemma handler_step_other (s s' : Server) (i j : nat) (o : outcome) :
  handler_step s i o = Some s' → i ≠ j → handlers s' !! j = handlers s !! j.
Proof.
  intros H Hne. step_cases H; simpl;
    rewrite list_lookup_insert_ne by done;
    rewrite ?handlers_set_queue, ?handlers_close; done.
Qed.

Lemma handler_timeout_other (s s' : Server) (i j : nat) :
  handler_timeout s i = Some s' → i ≠ j → handlers s' !! j = handlers s !! j.
Proof.
  intros H Hne. step_cases H; simpl; by rewrite list_lookup_insert_ne.
Qed.

(** The steps of the other goroutines leave a worker where it is. *)
Lemma step_other_worker (s s' : Server) (a : action) (w : nat) :
  step s a = Some s' → (∀ o, a ≠ Work w o) → workers s' !! w = workers s !! w.
Proof.
  intros Hstep Hne. unfold step in Hstep. destruct (panicked s); [done|].
  destruct a as [p|i o|i|v o|d]; simplify_eq; try done.
  - by rewrite (handler_step_workers _ _ _ _ Hstep).
  - by rewrite (handler_timeout_workers _ _ _ Hstep).
  - apply (worker_step_other _ _ _ _ _ Hstep). intros ->. by destruct (Hne o).
Qed.

(** The steps of the other goroutines leave a handler where it is. *)
Lemma step_other_handler (s s' : Server) (a : action) (i : nat) (pc : handler_pc) :
  step s a = Some s' → handlers s !! i = Some pc →
  (∀ o, a ≠ Handle i o) → a ≠ Timeout i →
  handlers s' !! i = Some pc.
Proof.
  intros Hstep Hpc Hne Hne'. unfold step in Hstep. destruct (panicked s); [done|].
  destruct a as [p|j o|j|v o|d]; simplify_eq; try done.
  - simpl. by apply lookup_app_l_Some.
  - rewrite (handler_step_other _ _ _ _ _ Hstep); [done|]. intros ->. by destruct (Hne o).
  - rewrite (handler_timeout_other _ _ _ _ Hstep); [done|]. by intros ->.
  - by rewrite (worker_step_handlers _ _ _ _ Hstep).
Qed.

(** A channel that has been closed stays closed. *)
Lemma step_closed (s s' : Server) (a : action) (ch : nat) :
  step s a = Some s' → ch ∈ closed s → ch ∈ closed s'.
Proof.
  intros Hstep Hch. unfold step in Hstep. destruct (panicked s); [done|].
  destruct a as [p|j o|j|v o|d]; simplify_eq; try done.
  - step_cases Hstep; simpl; rewrite ?closed_set_queue; try done.
    all: by apply closed_close.
  - by step_cases Hstep.
  - step_cases Hstep; simpl; rewrite ?closed_set_queue; try done.
    all: try match goal with |- context [log_failure _ _ ?e _] => destruct e end; simpl;
         try done.
    all: by apply closed_close.
Qed.

(** ** What a step does to the registry and to the channels *)

Lemma pendingThumbs_set_queue (c : class) (s : Server) (q : list string) :
  pendingThumbs (set_queue c s q) = pendingThumbs s.
Proof. by destruct c. Qed.

Lemma pendingThumbs_close (ch : nat) (s : Server) :
  pendingThumbs (close ch s) = pendingThumbs s.
Proof. unfold close. by case_bool_decide. Qed.

Lemma pendingThumbs_log_failure (c : class) (p : string) (err : option error) (s : Server) :
  pendingThumbs (log_failure c p err s) = pendingThumbs s.
Proof. by destruct err. Qed.

Lemma closed_log_failure (c : class) (p : string) (err : option error) (s : Server) :
  closed (log_failure c p err s) = closed s.
Proof. by destruct err. Qed.

(** The registry changes in two ways only: a [LoadOrStore] that finds no
    entry stores one, and [Delete] and [LoadAndDelete] remove the entry of
    the path that the goroutine holds. *)
Lemma step_pendingThumbs (s s' : Server) (a : action) :
  step s a = Some s' →
  pendingThumbs s' = pendingThumbs s
  ∨ (∃ i o p, a = Handle i o ∧ handlers s !! i = Some (QLoadOrStore p)
       ∧ pendingThumbs s !! getThumbnailPath p = None
       ∧ pendingThumbs s' = <[getThumbnailPath p := next_chan s]> (pendingThumbs s))
  ∨ (∃ i o p e, a = Handle i o ∧ handlers s !! i = Some (QDelete p e)
       ∧ pendingThumbs s' = delete (getThumbnailPath p) (pendingThumbs s))
  ∨ (∃ w o c p e, a = Work w o
       ∧ workers s !! w = Some (Worker c (WLoadAndDelete p e))
       ∧ pendingThumbs s' = delete (getThumbnailPath p) (pendingThumbs s)).
Proof.
  intros Hstep. unfold step in Hstep. destruct (panicked s); [done|].
  destruct a as [q|i o|i|w o|d]; simplify_eq; try (by left).
  - destruct (handlers s !! i) as [pc|] eqn:Hpc;
      [|by unfold handler_step in Hstep; rewrite Hpc in Hstep].
    destruct pc as [q|q|q|q d'|q d'|q d' err|q err|q d'|q d' dl|q|r].
    4: { rewrite (handler_step_select_queue _ _ _ _ _ Hpc) in Hstep. simplify_eq.
         left. unfold select_queue.
         destruct (media_class q) as [c|]; [destruct (try_send _ _ _)|]; simpl;
           by rewrite ?pendingThumbs_set_queue. }
    all: unfold handler_step, LoadOrStore in Hstep; rewrite Hpc in Hstep.
    all: try (left; repeat case_match; simplify_eq; simpl;
              by rewrite ?pendingThumbs_close).
    + destruct (pendingThumbs s !! getThumbnailPath q) eqn:Hq; simplify_eq;
        [by left|]. right; left. by exists i, o, q.
    + simplify_eq. right; right; left. by exists i, o, q, err.
  - left. by step_cases Hstep.
  - unfold worker_step, LoadAndDelete in Hstep.
    destruct (workers s !! w) as [[c [|q|q err|q ch err]]|] eqn:Hpc; [| | | |done].
    + left. destruct (queue c s); simplify_eq. simpl. by rewrite pendingThumbs_set_queue.
    + left. destruct (generateThumbnail _ _ _) as [[? ?] ?]. by simplify_eq.
    + right; right; right. exists w, o, c, q, err.
      destruct (pendingThumbs s !! getThumbnailPath q); simplify_eq; simpl;
        by rewrite ?pendingThumbs_log_failure.
    + left. simplify_eq. simpl. by rewrite pendingThumbs_log_failure, pendingThumbs_close.
Qed.

(** A channel is closed by the starter that holds it in the fallback, or
    by the worker that took it out of the registry. *)
Lemma step_closes (s s' : Server) (a : action) (ch : nat) :
  step s a = Some s' → ch ∉ closed s → ch ∈ closed s' →
  (∃ i o p e, a = Handle i o ∧ handlers s !! i = Some (QClose p ch e))
  ∨ (∃ w o c p e, a = Work w o ∧ workers s !! w = Some (Worker c (WClose p ch e))).
Proof.
  intros Hstep Hopen Hclosed. unfold step in Hstep. destruct (panicked s); [done|].
  assert (∀ d s0, closed s0 = closed s → ch ∈ closed (close d s0) → d = ch) as Hclose.
  { intros d s0 Hs0. unfold close. case_bool_decide; simpl; rewrite Hs0; [done|].
    intros [?%elem_of_singleton|?]%elem_of_union; done. }
  destruct a as [q|i o|i|w o|d]; simplify_eq; try done.
  - destruct (handlers s !! i) as [pc|] eqn:Hpc;
      [|by unfold handler_step in Hstep; rewrite Hpc in Hstep].
    destruct pc as [q|q|q|q d'|q d'|q d' err|q err|q d'|q d' dl|q|r].
    4: { rewrite (handler_step_select_queue _ _ _ _ _ Hpc) in Hstep. simplify_eq.
         unfold select_queue in Hclosed.
         destruct (media_class q) as [c|]; [destruct (try_send _ _ _)|];
           simpl in Hclosed; by rewrite ?closed_set_queue in Hclosed. }
    all: unfold handler_step, LoadOrStore in Hstep; rewrite Hpc in Hstep.
    all: try (repeat case_match; simplify_eq; by simpl in Hclosed).
    simplify_eq. simpl in Hclosed. apply Hclose in Hclosed as ->; [|done].
    left. by exists i, o, q, err.
  - by step_cases Hstep.
  - unfold worker_step, LoadAndDelete in Hstep.
    destruct (workers s !! w) as [[c [|q|q err|q d' err]]|] eqn:Hpc; [| | | |done].
    + destruct (queue c s); simplify_eq. simpl in Hclosed.
      by rewrite closed_set_queue in Hclosed.
    + destruct (generateThumbnail _ _ _) as [[? ?] ?]. by simplify_eq.
    + destruct (pendingThumbs s !! getThumbnailPath q); simplify_eq;
        simpl in Hclosed; by rewrite ?closed_log_failure in Hclosed.
    + simplify_eq. simpl in Hclosed. rewrite closed_log_failure in Hclosed.
      apply Hclose in Hclosed as ->; [|done].
      right. by exists w, o, c, q, err.
Qed.

Lemma next_chan_set_queue (c : class) (s : Server) (q : list string) :
  next_chan (set_queue c s q) = next_chan s.
Proof. by destruct c. Qed.

Lemma next_chan_close (ch : nat) (s : Server) : next_chan (close ch s) = next_chan s.
Proof. unfold close. by case_bool_decide. Qed.

Lemma next_chan_log_failure (c : class) (p : string) (err : option error) (s : Server) :
  next_chan (log_failure c p err s) = next_chan s.
Proof. by destruct err. Qed.

(** Channels are never numbered twice. *)
Lemma step_next_chan (s s' : Server) (a : action) :
  step s a = Some s' → next_chan s ≤ next_chan s'.
Proof.
  intros Hstep. unfold step in Hstep. destruct (panicked s); [done|].
  destruct a as [q|i o|i|w o|d]; simplify_eq; try done.
  - destruct (handlers s !! i) as [pc|] eqn:Hpc;
      [|by unfold handler_step in Hstep; rewrite Hpc in Hstep].
    destruct pc as [q|q|q|q d'|q d'|q d' err|q err|q d'|q d' dl|q|r].
    4: { rewrite (handler_step_select_queue _ _ _ _ _ Hpc) in Hstep. simplify_eq.
         unfold select_queue.
         destruct (media_class q) as [c|]; [destruct (try_send _ _ _)|]; simpl;
           by rewrite ?next_chan_set_queue. }
    all: unfold handler_step, LoadOrStore in Hstep; rewrite Hpc in Hstep.
    all: repeat case_match; simplify_eq; simpl; rewrite ?next_chan_close; lia.
  - by step_cases Hstep.
  - unfold worker_step, LoadAndDelete in Hstep.
    destruct (workers s !! w) as [[c [|q|q err|q d' err]]|] eqn:Hpc; [| | | |done].
    all: repeat case_match; simplify_eq; simpl;
      rewrite ?next_chan_log_failure, ?next_chan_set_queue, ?next_chan_close; done.
Qed.

(** A channel that has left the registry does not come back. *)
Lemma step_keeps_removed (s s' : Server) (a : action) (ch : nat) :
  step s a = Some s' → ch < next_chan s →
  (∀ k, pendingThumbs s !! k ≠ Some ch) → ∀ k, pendingThumbs s' !! k ≠ Some ch.
Proof.
  intros Hstep Hfresh Hgone k.
  destruct (step_pendingThumbs _ _ _ Hstep) as
    [->|[(i & o & q & -> & Hpc & Hnone & ->)|[(i & o & q & e & -> & Hpc & ->)
       |(v & o & c & q & e & -> & Hpc & ->)]]]; [done|..].
  - rewrite lookup_insert_Some. intros [[_ ?]|[_ ?]]; [lia|by eapply Hgone].
  - intros [_ ?]%lookup_delete_Some. by eapply Hgone.
  - intros [_ ?]%lookup_delete_Some. by eapply Hgone.
Qed.

(** ** Unsupported files *)

(** C3 fails on the code.  A request for [/srv/notes.txt] is answered with
    the unsupported-type error, but only after [LoadOrStore] has stored an
    entry for its key; the entry stays, with an open channel and no
    goroutine in charge of it, and nothing is queued.  A second request for
    the same file joins that entry, blocks, and returns the timeout error
    once its 30 seconds have passed. *)
Theorem unsupported_request_leaves_entry :
  ∃ s1 s2 s3,
    run (main (disk ["/srv/notes.txt"])) unsupported_request = Some s1
    ∧ handlers s1 = [HDone (InternalServerError ErrUnsupported)]
    ∧ pendingThumbs s1 !! getThumbnailPath "/srv/notes.txt" = Some 0
    ∧ closed s1 = ∅
    ∧ owners (getThumbnailPath "/srv/notes.txt") s1 = 0
    ∧ imageThumbnailQueue s1 = [] ∧ movieThumbnailQueue s1 = []
    ∧ run s1 unsupported_again = Some s2
    ∧ handlers s2 !! 1 = Some (QWait "/srv/notes.txt" 0 30)
    ∧ step s2 (Handle 1 all_ok) = None
    ∧ step s2 (Timeout 1) = None
    ∧ run s2 [Tick 30; Timeout 1] = Some s3
    ∧ handlers s3 !! 1 = Some (HDone (InternalServerError ErrTimeout))
    ∧ pendingThumbs s3 !! getThumbnailPath "/srv/notes.txt" = Some 0.
Proof.
  set (s1 := default (main ∅) (run (main (disk ["/srv/notes.txt"])) unsupported_request)).
  set (s2 := default (main ∅) (run s1 unsupported_again)).
  set (s3 := default (main ∅) (run s2 [Tick 30; Timeout 1])).
  exists s1, s2, s3. repeat apply conj; vm_compute; reflexivity.
Qed.

(** ** Any schedule *)

Lemma owners_worker_worker (k : string) (v w : nat) (wk wk' : worker) (s : Server) :
  v ≠ w → workers s !! v = Some wk → workers s !! w = Some wk' →
  worker_owns k wk + worker_owns k wk' ≤ owners k s.
Proof.
  intros Hne Hv Hw. unfold owners.
  pose proof (sum_list_with_lookup2 (worker_owns k) _ _ _ _ _ Hne Hv Hw). lia.
Qed.

(** While a worker is in charge of a key, no other goroutine touches the
    entry of the key. *)
Lemma step_keeps_worker_entry (s s' : Server) (a : action) (w : nat) (wk : worker)
    (k : string) (ch : nat) :
  invariant s → step s a = Some s' → is_work w a = 0 →
  workers s !! w = Some wk → worker_owns k wk = 1 →
  pendingThumbs s !! k = Some ch → pendingThumbs s' !! k = Some ch.
Proof.
  intros Hinv Hstep Ha Hw Hown Hk.
  pose proof (inv_owners _ Hinv k) as Hone.
  destruct (step_pendingThumbs _ _ _ Hstep) as
    [->|[(i & o & q & -> & Hpc & Hnone & ->)|[(i & o & q & e & -> & Hpc & ->)
       |(v & o & c & q & e & -> & Hpc & ->)]]]; [done|..].
  - rewrite lookup_insert_ne; [done|]. intros Heq. congruence.
  - rewrite lookup_delete_ne; [done|]. intros Heq.
    pose proof (owners_handler_worker k _ _ _ _ _ Hpc Hw) as Hle.
    simpl in Hle. rewrite <- Heq, has_key_eq, Heq in Hle. lia.
  - rewrite lookup_delete_ne; [done|]. intros Heq.
    assert (v ≠ w) as Hne.
    { intros ->. simpl in Ha. by rewrite bool_decide_eq_true_2 in Ha. }
    pose proof (owners_worker_worker k _ _ _ _ _ Hne Hpc Hw) as Hle.
    unfold worker_owns at 1 in Hle. simpl in Hle.
    rewrite <- Heq, has_key_eq, Heq in Hle. lia.
Qed.

Lemma worker_phase_step (s s' : Server) (a : action) (w : nat) (c : class)
    (p : string) (ch n : nat) :
  invariant s → step s a = Some s' →
  worker_phase w c p ch n s → worker_phase w c p ch (n + is_work w a) s'.
Proof.
  intros Hinv Hstep Hphase.
  pose proof (inv_panicked _ Hinv) as Hpanic.
  destruct (decide (is_work w a = 0)) as [Hother|Hmine].
  - (* another goroutine *)
    rewrite Hother, Nat.add_0_r.
    assert (∀ o, a ≠ Work w o) as Hne.
    { intros o ->. simpl in Hother. by rewrite bool_decide_eq_true_2 in Hother. }
    pose proof (step_other_worker _ _ _ w Hstep Hne) as Hw.
    destruct n as [|[|[|n]]]; simpl in Hphase |- *.
    + destruct Hphase as [Hpc Hk]. split; [by rewrite Hw|].
      eapply (step_keeps_worker_entry _ _ _ _ _ _ _ Hinv Hstep Hother Hpc); [|done].
      unfold worker_owns. simpl. apply has_key_eq.
    + destruct Hphase as [[e Hpc] Hk]. split; [exists e; by rewrite Hw|].
      eapply (step_keeps_worker_entry _ _ _ _ _ _ _ Hinv Hstep Hother Hpc); [|done].
      unfold worker_owns. simpl. apply has_key_eq.
    + destruct Hphase as [e Hpc]. exists e. by rewrite Hw.
    + destruct Hphase as (Hcl & Hfresh & Hgone). split; [by eapply step_closed|].
      split; [pose proof (step_next_chan _ _ _ Hstep); lia|].
      by eapply step_keeps_removed.
  - (* the worker itself *)
    destruct a as [q|i o|i|v o|d]; simpl in Hmine; try done.
    case_bool_decide; [subst v|done]. simpl. rewrite bool_decide_eq_true_2 by done.
    pose proof Hstep as Hstep0.
    unfold step in Hstep. rewrite Hpanic in Hstep. unfold worker_step in Hstep.
    destruct n as [|[|[|n]]]; simpl in Hphase |- *.
    + destruct Hphase as [Hpc Hk]. rewrite Hpc in Hstep.
      destruct (generateThumbnail _ _ _) as [[err ?] ?]. simplify_eq. simpl.
      split; [|done]. exists err. apply list_lookup_insert_eq. by eapply lookup_lt_Some.
    + destruct Hphase as [[e Hpc] Hk]. rewrite Hpc in Hstep.
      unfold LoadAndDelete in Hstep. rewrite Hk in Hstep. simplify_eq. simpl.
      exists e. apply list_lookup_insert_eq. by eapply lookup_lt_Some.
    + destruct Hphase as [e Hpc]. rewrite Hpc in Hstep. simplify_eq. simpl.
      rewrite closed_log_failure.
      rewrite next_chan_log_failure, next_chan_close.
      destruct (inv_wclose _ Hinv _ _ _ _ _ Hpc) as (Hfresh & Hopen & Hgone).
      split; [|split; [done|]].
      * rewrite close_open by done. simpl.
        apply elem_of_union. left. by apply elem_of_singleton.
      * intros k. rewrite pendingThumbs_log_failure, pendingThumbs_close. apply Hgone.
    + destruct Hphase as (Hcl & Hfresh & Hgone). split; [by eapply step_closed|].
      split; [pose proof (step_next_chan _ _ _ Hstep0); lia|].
      by eapply step_keeps_removed.
Qed.

Lemma worker_phase_run (acts : list action) (s s' : Server) (w : nat) (c : class)
    (p : string) (ch n : nat) :
  invariant s → run s acts = Some s' →
  worker_phase w c p ch n s → worker_phase w c p ch (n + work_steps w acts) s'.
Proof.
  revert s n. induction acts as [|a acts IH]; intros s n Hinv Hrun Hphase; simplify_eq/=.
  - by rewrite Nat.add_0_r.
  - destruct (step s a) as [s1|] eqn:Hstep; [|done].
    unfold work_steps. simpl. rewrite Nat.add_assoc.
    apply (IH s1); [by eapply invariant_step|done|].
    by eapply worker_phase_step.
Qed.

(** While a handler is in charge of a key, no other goroutine touches the
    entry of the key. *)
Lemma step_keeps_handler_entry (s s' : Server) (a : action) (i : nat) (pc : handler_pc)
    (k : string) (ch : nat) :
  invariant s → step s a = Some s' → is_handle i a = 0 →
  handlers s !! i = Some pc → handler_owns k pc = 1 →
  pendingThumbs s !! k = Some ch → pendingThumbs s' !! k = Some ch.
Proof.
  intros Hinv Hstep Ha Hi Hown Hk.
  pose proof (inv_owners _ Hinv k) as Hone.
  destruct (step_pendingThumbs _ _ _ Hstep) as
    [->|[(j & o & q & -> & Hpc & Hnone & ->)|[(j & o & q & e & -> & Hpc & ->)
       |(v & o & c & q & e & -> & Hpc & ->)]]]; [done|..].
  - rewrite lookup_insert_ne; [done|]. intros Heq. congruence.
  - rewrite lookup_delete_ne; [done|]. intros Heq.
    assert (j ≠ i) as Hne.
    { intros ->. simpl in Ha. by rewrite bool_decide_eq_true_2 in Ha. }
    pose proof (owners_handler_handler k _ _ _ _ _ Hne Hpc Hi) as Hle.
    simpl in Hle. rewrite <- Heq, has_key_eq, Heq in Hle. lia.
  - rewrite lookup_delete_ne; [done|]. intros Heq.
    pose proof (owners_handler_worker k _ _ _ _ _ Hi Hpc) as Hle.
    unfold worker_owns in Hle. simpl in Hle.
    rewrite <- Heq, has_key_eq, Heq in Hle. lia.
Qed.

(** A handler outside the final [select] is moved by its own steps only. *)
Lemma step_other_handler' (s s' : Server) (a : action) (i : nat) (pc : handler_pc) :
  step s a = Some s' → handlers s !! i = Some pc → is_handle i a = 0 →
  (∀ p d dl, pc ≠ QWait p d dl) →
  handlers s' !! i = Some pc.
Proof.
  intros Hstep Hpc Ha Hwait.
  apply (step_other_handler _ _ _ _ _ Hstep Hpc).
  - intros o ->. simpl in Ha. by rewrite bool_decide_eq_true_2 in Ha.
  - intros ->. unfold step in Hstep. destruct (panicked s); [done|].
    unfold handler_timeout in Hstep. rewrite Hpc in Hstep.
    destruct pc; try done. by destruct (Hwait imagePath done deadline).
Qed.

Lemma respond_not_wait (p q : string) (err : option error) (d dl : nat) :
  respond p err ≠ QWait q d dl.
Proof. by destruct err. Qed.

Lemma fallback_phase_step (s s' : Server) (a : action) (i : nat) (p : string)
    (done : nat) (err : option error) (n : nat) :
  invariant s → step s a = Some s' →
  fallback_phase i p done err n s → fallback_phase i p done err (n + is_handle i a) s'.
Proof.
  intros Hinv Hstep Hphase.
  pose proof (inv_panicked _ Hinv) as Hpanic.
  destruct (decide (is_handle i a = 0)) as [Hother|Hmine].
  - (* another goroutine *)
    rewrite Hother, Nat.add_0_r.
    destruct n as [|[|n]]; simpl in Hphase |- *.
    + by eapply step_other_handler'.
    + destruct Hphase as (Hpc & Hcl & Hk).
      split; [by eapply step_other_handler'|]. split; [by eapply step_closed|].
      eapply (step_keeps_handler_entry _ _ _ _ _ _ _ Hinv Hstep Hother Hpc); [|done].
      simpl. apply has_key_eq.
    + destruct Hphase as (Hpc & Hcl & Hfresh & Hgone).
      split. { eapply step_other_handler'; [done..|]. intros ???. apply respond_not_wait. }
      split; [by eapply step_closed|].
      split; [pose proof (step_next_chan _ _ _ Hstep); lia|].
      by eapply step_keeps_removed.
  - (* the handler itself *)
    destruct a as [q|j o|j|v o|d]; simpl in Hmine; try done.
    case_bool_decide; [subst j|done]. simpl. rewrite bool_decide_eq_true_2 by done.
    unfold step in Hstep. rewrite Hpanic in Hstep. unfold handler_step in Hstep.
    destruct n as [|[|n]]; simpl in Hphase |- *.
    + rewrite Hphase in Hstep. simplify_eq.
      destruct (inv_done _ Hinv i _ p done Hphase) as [Hk Hopen]; [right; right; eauto|].
      rewrite close_open by done. simpl.
      split; [apply list_lookup_insert_eq; by eapply lookup_lt_Some|].
      split; [|done]. apply elem_of_union. left. by apply elem_of_singleton.
    + destruct Hphase as (Hpc & Hcl & Hk). rewrite Hpc in Hstep. simplify_eq. simpl.
      split; [apply list_lookup_insert_eq; by eapply lookup_lt_Some|].
      split; [done|]. split; [by eapply (inv_fresh _ Hinv)|].
      intros k. unfold Delete. intros [Hne Hk']%lookup_delete_Some.
      by pose proof (inv_inj _ Hinv _ _ _ Hk Hk').
    + destruct Hphase as (Hpc & _). rewrite Hpc in Hstep. by destruct err.
Qed.

Lemma fallback_phase_run (acts : list action) (s s' : Server) (i : nat) (p : string)
    (done : nat) (err : option error) (n : nat) :
  invariant s → run s acts = Some s' →
  fallback_phase i p done err n s →
  fallback_phase i p done err (n + handle_steps i acts) s'.
Proof.
  revert s n. induction acts as [|a acts IH]; intros s n Hinv Hrun Hphase; simplify_eq/=.
  - by rewrite Nat.add_0_r.
  - destruct (step s a) as [s1|] eqn:Hstep; [|done].
    unfold handle_steps. simpl. rewrite Nat.add_assoc.
    apply (IH s1); [by eapply invariant_step|done|].
    by eapply fallback_phase_step.
Qed.

(** ** Waiting *)

(** C5.  A handler enters the final [select] with a deadline 30 seconds
    after the present.  While the channel is open and the deadline has not
    come, it is blocked; as soon as the deadline has come it can leave by
    the timer, so it is never held longer.  When the channel is closed it
    goes on to stat the thumbnail and returns success unless the file does
    not exist, in which case it returns the generation-failure error.  When
    it leaves by the timer it returns the timeout error, and nothing but its
    own program counter changes: the registry, the channels, the queues,
    the disk, the tools and the workers are as before. *)
Theorem wait_for_done (s : Server) (i : nat) (p : string) (done deadline : nat) (o : outcome) :
  panicked s = false →
  handlers s !! i = Some (QWait p done deadline) →
  (∀ s0, panicked s0 = false → handlers s0 !! i = Some (QSelectDone p done) →
     step s0 (Handle i o) = Some (goto i (QWait p done (now s0 + 30)) s0))
  ∧ (done ∉ closed s → now s < deadline →
     step s (Handle i o) = None ∧ step s (Timeout i) = None)
  ∧ (done ∈ closed s →
     step s (Handle i o) = Some (goto i (QStatThumbnail p) s))
  ∧ (∀ s1, panicked s1 = false → handlers s1 !! i = Some (QStatThumbnail p) →
     step s1 (Handle i o)
     = Some (goto i (if IsNotExist (Stat (fs s1) (getThumbnailPath p))
                     then HDone (InternalServerError ErrNotFound)
                     else HDone (ServeFile (getThumbnailPath p))) s1))
  ∧ (deadline ≤ now s →
     ∃ s', step s (Timeout i) = Some s'
       ∧ s' = goto i (HDone (InternalServerError ErrTimeout)) s
       ∧ pendingThumbs s' = pendingThumbs s
       ∧ closed s' = closed s
       ∧ imageThumbnailQueue s' = imageThumbnailQueue s
       ∧ movieThumbnailQueue s' = movieThumbnailQueue s
       ∧ fs s' = fs s
       ∧ commands s' = commands s
       ∧ workers s' = workers s
       ∧ (∀ j, j ≠ i → handlers s' !! j = handlers s !! j)).
Proof.
  intros Hpanic Hpc.
  split; [|split; [|split; [|split]]].
  - intros s0 Hpanic0 Hpc0. unfold step, handler_step. by rewrite Hpanic0, Hpc0.
  - intros Hopen Hnow. unfold step, handler_step, handler_timeout.
    rewrite Hpanic, Hpc. rewrite !bool_decide_eq_false_2; [done|lia|done].
  - intros Hclosed. unfold step, handler_step.
    by rewrite Hpanic, Hpc, bool_decide_eq_true_2.
  - intros s1 Hpanic1 Hpc1. unfold step, handler_step. rewrite Hpanic1, Hpc1.
    by destruct (IsNotExist _).
  - intros Hnow. eexists. split.
    { unfold step, handler_timeout. by rewrite Hpanic, Hpc, bool_decide_eq_true_2. }
    repeat apply conj; try done.
    intros j Hj. simpl. by rewrite list_lookup_insert_ne.
Qed.

Lemma wait_for_done_witness :
  ∃ s, run (main (disk ["/srv/a.jpg"]))
         [ Request "/srv/a.jpg"; Handle 0 all_ok; Handle 0 all_ok; Handle 0 all_ok;
           Handle 0 all_ok; Handle 0 all_ok; Tick 30 ] = Some s
       ∧ handlers s !! 0 = Some (QWait "/srv/a.jpg" 0 30)
       ∧ ∃ s', step s (Timeout 0) = Some s'
               ∧ pendingThumbs s' = pendingThumbs s
               ∧ imageThumbnailQueue s' = imageThumbnailQueue s.
Proof.
  set (acts := [ Request "/srv/a.jpg"; Handle 0 all_ok; Handle 0 all_ok; Handle 0 all_ok;
                 Handle 0 all_ok; Handle 0 all_ok; Tick 30 ]).
  set (s := default (main ∅) (run (main (disk ["/srv/a.jpg"])) acts)).
  assert (run (main (disk ["/srv/a.jpg"])) acts = Some s) as Hs
    by (apply run_succeeds; vm_compute; reflexivity).
  clearbody s. exists s. split; [done|].
  assert ((λ s, (handlers s !! 0, panicked s, now s))
            <$> run (main (disk ["/srv/a.jpg"])) acts
          = Some (Some (QWait "/srv/a.jpg" 0 30), false, 30)) as Hobs
    by (vm_compute; reflexivity).
  rewrite Hs in Hobs. simpl in Hobs. injection Hobs as Hpc Hpanic Hnow.
  split; [done|].
  destruct (wait_for_done s 0 "/srv/a.jpg" 0 30 all_ok Hpanic Hpc)
    as (_ & _ & _ & _ & H).
  destruct H as (s' & Hstep & _ & Hpending & _ & Hqueue & _); [lia|].
  exists s'. by repeat apply conj.
Defined.

(** ** Tool runs and the disk *)

Lemma fs_set_queue (c : class) (s : Server) (q : list string) :
  fs (set_queue c s q) = fs s ∧ commands (set_queue c s q) = commands s.
Proof. by destruct c. Qed.

Lemma fs_close (ch : nat) (s : Server) :
  fs (close ch s) = fs s ∧ commands (close ch s) = commands s.
Proof. unfold close. by case_bool_decide. Qed.

Lemma fs_log_failure (c : class) (p : string) (err : option error) (s : Server) :
  fs (log_failure c p err s) = fs s
  ∧ commands (log_failure c p err s) = commands s.
Proof. by destruct err. Qed.

(** The disk and the list of tool runs change in one way only: by a call of
    [generateThumbnail], from a worker or from a starter in the fallback. *)
Lemma step_fs (s s' : Server) (a : action) :
  step s a = Some s' →
  (fs s' = fs s ∧ commands s' = commands s)
  ∨ ∃ o p err cmds,
      generateThumbnail o (fs s) p = (err, fs s', cmds)
      ∧ commands s' = cmds ++ commands s.
Proof.
  intros Hstep. unfold step in Hstep. destruct (panicked s); [done|].
  destruct a as [q|i o|i|w o|d]; simplify_eq; try (by left).
  - destruct (handlers s !! i) as [pc|] eqn:Hpc;
      [|by unfold handler_step in Hstep; rewrite Hpc in Hstep].
    assert ((∃ p d, pc = QSelectQueue p d) ∨ (∃ p d, pc = QGenerate p d)
            ∨ ((∀ p d, pc ≠ QSelectQueue p d) ∧ (∀ p d, pc ≠ QGenerate p d)))
      as [(p & d & ->)|[(p & d & ->)|[Hq Hg]]] by (destruct pc; eauto 6).
    + left. rewrite (handler_step_select_queue _ _ _ _ _ Hpc) in Hstep. simplify_eq.
      unfold select_queue.
      destruct (media_class _) as [c|]; [destruct (try_send _ _ _)|]; simpl;
        try done; apply fs_set_queue.
    + right. unfold handler_step in Hstep. rewrite Hpc in Hstep.
      destruct (generateThumbnail o (fs s) p) as [[err d'] cmds] eqn:Hgen.
      simplify_eq. by exists o, p, err, cmds.
    + left. by destruct (handler_step_quiet _ _ _ _ _ Hpc Hq Hg Hstep) as (_ & _ & ? & ?).
  - left. by step_cases Hstep.
  - unfold worker_step, LoadAndDelete in Hstep.
    destruct (workers s !! w) as [[c [|q|q err|q d' err]]|] eqn:Hpc; [| | | |done].
    + left. destruct (queue c s); simplify_eq. simpl. apply fs_set_queue.
    + right. destruct (generateThumbnail o (fs s) q) as [[err d'] cmds] eqn:Hgen.
      simplify_eq. by exists o, q, err, cmds.
    + left. destruct (pendingThumbs s !! getThumbnailPath q); simplify_eq; simpl;
        [done|]. by destruct err.
    + left. simplify_eq. simpl.
      destruct (fs_log_failure c q err (close d' s)) as [-> ->]. apply fs_close.
Qed.

(** The goroutine that changes the disk holds the path it generates
    for. *)
Lemma step_fs_who (s s' : Server) (a : action) :
  step s a = Some s' →
  (fs s' = fs s ∧ commands s' = commands s)
  ∨ ∃ o p err cmds,
      generating s p
      ∧ generateThumbnail o (fs s) p = (err, fs s', cmds)
      ∧ commands s' = cmds ++ commands s.
Proof.
  intros Hstep. unfold step in Hstep. destruct (panicked s); [done|].
  destruct a as [q|i o|i|w o|d]; simplify_eq; try (by left).
  2: { left. by step_cases Hstep. }
  - destruct (handlers s !! i) as [pc|] eqn:Hpc;
      [|by unfold handler_step in Hstep; rewrite Hpc in Hstep].
    assert ((∃ p d, pc = QGenerate p d) ∨ (∀ p d, pc ≠ QGenerate p d))
      as [(p & d & ->)|Hg] by (destruct pc; eauto).
    + right. unfold handler_step in Hstep. rewrite Hpc in Hstep.
      destruct (generateThumbnail o (fs s) p) as [[err d'] cmds] eqn:Hgen.
      simplify_eq. exists o, p, err, cmds. split; [left; eauto|done].
    + left.
      assert ((∃ p d, pc = QSelectQueue p d) ∨ (∀ p d, pc ≠ QSelectQueue p d))
        as [(p & d & ->)|Hq] by (destruct pc; eauto).
      * rewrite (handler_step_select_queue _ _ _ _ _ Hpc) in Hstep. simplify_eq.
        unfold select_queue.
        destruct (media_class _) as [c|]; [destruct (try_send _ _ _)|]; simpl;
          try done; apply fs_set_queue.
      * by destruct (handler_step_quiet _ _ _ _ _ Hpc Hq Hg Hstep) as (_ & _ & ? & ?).
  - unfold worker_step, LoadAndDelete in Hstep.
    destruct (workers s !! w) as [[c [|q|q err|q d' err]]|] eqn:Hpc; [| | | |done].
    + left. destruct (queue c s); simplify_eq. simpl. apply fs_set_queue.
    + right. destruct (generateThumbnail o (fs s) q) as [[err d'] cmds] eqn:Hgen.
      simplify_eq. exists o, q, err, cmds. split; [right; eauto|done].
    + left. destruct (pendingThumbs s !! getThumbnailPath q); simplify_eq; simpl;
        [done|]. by destruct err.
    + left. simplify_eq. simpl.
      destruct (fs_log_failure c q err (close d' s)) as [-> ->]. apply fs_close.
Qed.

(** What [os.Stat] can read stays on disk as it is. *)
Lemma step_keeps_entry (s s' : Server) (a : action) (k : string) (x : entry) :
  step s a = Some s' → fs s !! k = Some x → x ≠ Inaccessible → fs s' !! k = Some x.
Proof.
  intros Hstep Hk Hx.
  destruct (step_fs _ _ _ Hstep) as [[-> _]|(o & p & err & cmds & Hgen & _)]; [done|].
  by eapply generateThumbnail_mono.
Qed.

Lemma run_keeps_entry (acts : list action) (s s' : Server) (k : string) (x : entry) :
  run s acts = Some s' → fs s !! k = Some x → x ≠ Inaccessible → fs s' !! k = Some x.
Proof.
  revert s. induction acts as [|a acts IH]; intros s Hrun Hk Hx; simplify_eq/=; [done|].
  destruct (step s a) as [s1|] eqn:Hstep; [|done].
  apply (IH s1); [done| |done]. by eapply step_keeps_entry.
Qed.

Lemma run_keeps_Stat (acts : list action) (s s' : Server) (k : string) :
  run s acts = Some s' → Stat (fs s) k = StatOK → Stat (fs s') k = StatOK.
Proof.
  intros Hrun. rewrite !Stat_OK. intros [Hk|Hk]; [left|right];
    by eapply run_keeps_entry.
Qed.

(** A call of [generateThumbnail] that returns no error leaves the
    thumbnail on disk. *)
Lemma generateThumbnail_nil (o : outcome) (d d' : gmap string entry) (p : string)
    (cmds : list command) :
  generateThumbnail o d p = (None, d', cmds) → Stat d' (getThumbnailPath p) = StatOK.
Proof.
  intros Hgen.
  destruct (generateThumbnail_cases o d p) as
    [[Hok Hg]|(_ & e & fs1 & _ & [(e' & Hg)|[(t & _ & _ & Hg)|(t & ok & _ & _ & Hg)]])];
    rewrite Hg in Hgen; simplify_eq; [done|].
  apply Stat_Regular, lookup_insert_eq.
Qed.

(** *** Starters in the fallback *)

(** A starter reaches the fallback only with a path of a media class. *)
Lemma generating_has_class (files : gmap string entry) (acts : list action)
    (s : Server) (i : nat) (p : string) (d : nat) :
  run (main files) acts = Some s →
  handlers s !! i = Some (QGenerate p d) → is_Some (media_class p).
Proof.
  revert s. induction acts as [|a acts IH] using rev_ind; intros s Hrun Hpc.
  { simplify_eq/=. }
  apply run_snoc in Hrun as (s1 & Hrun & Hstep).
  specialize (IH _ Hrun).
  unfold step in Hstep. destruct (panicked s1); [done|].
  destruct a as [q|j o|j|w o|n]; simplify_eq.
  - simpl in Hpc. apply lookup_app_Some in Hpc as [Hpc|[_ Hpc]]; [auto|].
    by apply list_lookup_singleton_Some in Hpc as [_ ?].
  - destruct (decide (j = i)) as [->|Hne].
    + destruct (handler_step_starter _ _ _ _ p d Hstep) as [_ Hfrom].
      specialize (Hfrom Hpc).
      rewrite (handler_step_select_queue _ _ _ _ _ Hfrom) in Hstep. simplify_eq.
      destruct (media_class p) as [c|]; [by eexists|].
      simpl in Hpc. rewrite list_lookup_insert_eq in Hpc by by eapply lookup_lt_Some.
      done.
    + rewrite (handler_step_other _ _ _ _ _ Hstep) in Hpc by done. auto.
  - destruct (decide (j = i)) as [->|Hne].
    + unfold handler_timeout in Hstep.
      destruct (handlers s1 !! i) as [[]|] eqn:Hi; try done.
      case_bool_decide; simplify_eq. simpl in Hpc.
      rewrite list_lookup_insert_eq in Hpc by by eapply lookup_lt_Some.
      done.
    + rewrite (handler_timeout_other _ _ _ _ Hstep) in Hpc by done. auto.
  - rewrite (worker_step_handlers _ _ _ _ Hstep) in Hpc. auto.
  - auto.
Qed.

(** ** Workers complete what they receive, under any schedule *)

(** C2.  In every state that the server reaches, whatever the other
    goroutines have done in between: a worker that has received a path
    runs the generation (the key still has its entry); once the generation
    has returned, with or without an error, its next step finds the entry
    of the key, whose channel is still open, and removes it; its step after
    that closes this channel without a panic and takes the worker back to
    its queue, and every handler that waits on the channel can then go on;
    no other goroutine moves the worker, and a closed channel stays closed.
    So under every schedule, once the worker has taken three steps after
    receiving the path, the channel that the entry of the key held is
    closed and out of the registry for good, and every handler waiting on
    it can go on. *)
Theorem worker_completes (files : gmap string entry) (acts : list action)
    (s : Server) (w : nat) (c : class) (p : string) :
  run (main files) acts = Some s →
  (∀ o, workers s !! w = Some (Worker c (WGenerate p)) →
     is_Some (pendingThumbs s !! getThumbnailPath p)
     ∧ ∃ err fs' cmds,
         generateThumbnail o (fs s) p = (err, fs', cmds)
         ∧ step s (Work w o)
           = Some (wgoto w c (WLoadAndDelete p err) (set_fs s fs' cmds)))
  ∧ (∀ o err, workers s !! w = Some (Worker c (WLoadAndDelete p err)) →
     ∃ ch,
       pendingThumbs s !! getThumbnailPath p = Some ch
       ∧ (ch ∉ closed s)
       ∧ step s (Work w o)
         = Some (wgoto w c (WClose p ch err)
                   (set_pendingThumbs s
                      (delete (getThumbnailPath p) (pendingThumbs s)))))
  ∧ (∀ o ch err, workers s !! w = Some (Worker c (WClose p ch err)) →
     (ch ∉ closed s)
     ∧ ∃ s',
         step s (Work w o) = Some s'
         ∧ closed s' = {[ch]} ∪ closed s
         ∧ panicked s' = false
         ∧ pendingThumbs s' = pendingThumbs s
         ∧ workers s' !! w = Some (Worker c WReceive)
         ∧ (∀ j q deadline o', handlers s !! j = Some (QWait q ch deadline) →
              step s' (Handle j o') = Some (goto j (QStatThumbnail q) s')))
  ∧ (∀ a s', step s a = Some s' → (∀ o, a ≠ Work w o) →
       workers s' !! w = workers s !! w)
  ∧ (∀ a s' ch, step s a = Some s' → ch ∈ closed s → ch ∈ closed s')
  ∧ (∀ ch acts' s', workers s !! w = Some (Worker c (WGenerate p)) →
       pendingThumbs s !! getThumbnailPath p = Some ch →
       run s acts' = Some s' → 3 ≤ work_steps w acts' →
       ch ∈ closed s'
       ∧ (∀ k, pendingThumbs s' !! k ≠ Some ch)
       ∧ panicked s' = false
       ∧ (∀ j q deadline o', handlers s' !! j = Some (QWait q ch deadline) →
            step s' (Handle j o') = Some (goto j (QStatThumbnail q) s'))).
Proof.
  intros Hrun.
  pose proof (invariant_run _ _ _ (invariant_main files) Hrun) as Hinv.
  pose proof (inv_panicked _ Hinv) as Hpanic.
  split; [|split; [|split; [|split; [|split]]]].
  - intros o Hw. split.
    + apply (inv_entry _ Hinv).
      pose proof (owners_worker (getThumbnailPath p) _ _ _ Hw) as Hle.
      unfold worker_owns in Hle. simpl in Hle. rewrite has_key_eq in Hle. lia.
    + destruct (generateThumbnail o (fs s) p) as [[err fs'] cmds] eqn:Hgen.
      exists err, fs', cmds. split; [done|].
      unfold step, worker_step. by rewrite Hpanic, Hw, Hgen.
  - intros o err Hw.
    destruct (inv_entry _ Hinv (getThumbnailPath p)) as [ch Hch].
    { pose proof (owners_worker (getThumbnailPath p) _ _ _ Hw) as Hle.
      unfold worker_owns in Hle. simpl in Hle. rewrite has_key_eq in Hle. lia. }
    assert (step s (Work w o)
            = Some (wgoto w c (WClose p ch err)
                      (set_pendingThumbs s
                         (delete (getThumbnailPath p) (pendingThumbs s))))) as Hstep.
    { unfold step, worker_step, LoadAndDelete. by rewrite Hpanic, Hw, Hch. }
    exists ch. split; [done|]. split; [|done].
    pose proof (invariant_step _ _ _ Hinv Hstep) as Hinv'.
    eapply (inv_wclose _ Hinv' w c p ch err).
    simpl. apply list_lookup_insert_eq. by eapply lookup_lt_Some.
  - intros o ch err Hw.
    destruct (inv_wclose _ Hinv _ _ _ _ _ Hw) as (_ & Hopen & _).
    split; [done|].
    exists (wgoto w c WReceive (log_failure c p err (close ch s))).
    split. { unfold step, worker_step. by rewrite Hpanic, Hw. }
    rewrite close_open by done.
    assert (w < length (workers s)) as Hlen by by eapply lookup_lt_Some.
    destruct err as [e|]; simpl.
    all: rewrite list_lookup_insert_eq by done.
    all: repeat split; try done.
    all: intros j q deadline o' Hj; unfold step, handler_step; simpl; rewrite Hpanic, Hj.
    all: rewrite bool_decide_eq_true_2; [done|].
    all: apply elem_of_union; left; by apply elem_of_singleton.
  - intros a s' Hstep Hne. by eapply step_other_worker.
  - intros a s' ch Hstep Hch. by eapply step_closed.
  - intros ch acts' s' Hw Hk Hrun' Hsteps.
    pose proof (worker_phase_run acts' s s' w c p ch 0 Hinv Hrun' (conj Hw Hk)) as Hphase.
    pose proof (invariant_run _ _ _ Hinv Hrun') as Hinv'.
    simpl in Hphase. destruct (work_steps w acts') as [|[|[|n]]]; [lia..|].
    destruct Hphase as (Hcl & _ & Hgone).
    split; [done|]. split; [done|]. split; [apply (inv_panicked _ Hinv')|].
    intros j q deadline o' Hj. unfold step, handler_step.
    by rewrite (inv_panicked _ Hinv'), Hj, bool_decide_eq_true_2.
Qed.

Lemma worker_completes_witness :
  ∃ s s', run (main (disk ["/srv/a.jpg"])) request_received = Some s
       ∧ workers s !! 0 = Some (Worker Image (WGenerate "/srv/a.jpg"))
       ∧ pendingThumbs s !! getThumbnailPath "/srv/a.jpg" = Some 0
       ∧ run s worker_round_interleaved = Some s'
       ∧ 0 ∈ closed s'
       ∧ (∀ k, pendingThumbs s' !! k ≠ Some 0).
Proof.
  set (files := disk ["/srv/a.jpg"]).
  set (s := default (main ∅) (run (main files) request_received)).
  set (s' := default (main ∅)
               (run (main files) (request_received ++ worker_round_interleaved))).
  assert (run (main files) request_received = Some s) as Hs
    by (apply run_succeeds; vm_compute; reflexivity).
  assert (run (main files) (request_received ++ worker_round_interleaved) = Some s')
    as Hs' by (apply run_succeeds; vm_compute; reflexivity).
  clearbody s s'. rewrite run_app, Hs in Hs'. simpl in Hs'.
  assert ((λ s, (workers s !! 0, pendingThumbs s !! getThumbnailPath "/srv/a.jpg"))
            <$> run (main files) request_received
          = Some (Some (Worker Image (WGenerate "/srv/a.jpg")), Some 0)) as Hobs
    by (vm_compute; reflexivity).
  rewrite Hs in Hobs. simpl in Hobs. injection Hobs as Hw Hk.
  destruct (worker_completes files request_received s 0 Image "/srv/a.jpg" Hs)
    as (_ & _ & _ & _ & _ & H).
  destruct (H 0 worker_round_interleaved s' Hw Hk Hs') as (Hclosed & Hgone & _).
  { vm_compute. lia. }
  exists s, s'. exact (conj Hs (conj Hw (conj Hk (conj Hs' (conj Hclosed Hgone))))).
Defined.

(** ** The synchronous fallback *)

(** From the generation of a starter in the fallback to its answer, under
    any schedule. *)
Lemma fallback_from_generate (acts : list action) (s s' : Server) (i : nat) (p : string)
    (done : nat) :
  invariant s → handlers s !! i = Some (QGenerate p done) →
  run s acts = Some s' → 3 ≤ handle_steps i acts →
  ∃ err,
    handlers s' !! i = Some (respond p err)
    ∧ (err = None → Stat (fs s') (getThumbnailPath p) = StatOK)
    ∧ done ∈ closed s'
    ∧ (∀ k, pendingThumbs s' !! k ≠ Some done)
    ∧ panicked s' = false.
Proof.
  revert s. induction acts as [|a acts IH]; intros s Hinv Hpc Hrun Hsteps.
  { unfold handle_steps in Hsteps. simpl in Hsteps. lia. }
  simpl in Hrun. destruct (step s a) as [s1|] eqn:Hstep; [|done].
  pose proof (invariant_step _ _ _ Hinv Hstep) as Hinv1.
  unfold handle_steps in Hsteps. simpl in Hsteps. fold (handle_steps i acts) in Hsteps.
  destruct (decide (is_handle i a = 0)) as [Hother|Hmine].
  - apply (IH s1); [done| |done|lia].
    by eapply step_other_handler'.
  - destruct a as [q|j o|j|v o|d]; simpl in Hmine; try done.
    case_bool_decide; [subst j|done]. simpl in Hsteps.
    rewrite bool_decide_eq_true_2 in Hsteps by done.
    unfold step in Hstep. rewrite (inv_panicked _ Hinv) in Hstep.
    unfold handler_step in Hstep. rewrite Hpc in Hstep.
    destruct (generateThumbnail o (fs s) p) as [[err d1] cmds] eqn:Hgen. simplify_eq.
    assert (fallback_phase i p done err 0
              (goto i (QClose p done err) (set_fs s d1 cmds))) as Hphase.
    { simpl. apply list_lookup_insert_eq. by eapply lookup_lt_Some. }
    pose proof (fallback_phase_run acts _ s' i p done err 0 Hinv1 Hrun Hphase) as Hend.
    pose proof (invariant_run _ _ _ Hinv1 Hrun) as Hinv'.
    simpl in Hend. destruct (handle_steps i acts) as [|[|n]]; [lia..|].
    destruct Hend as (Hpc' & Hcl & _ & Hgone).
    exists err. split; [done|]. split; [|by split; [|split; [|apply (inv_panicked _ Hinv')]]].
    intros ->. apply (run_keeps_Stat _ _ _ _ Hrun). simpl.
    by eapply generateThumbnail_nil.
Qed.

(** C4.  In every state that the server reaches, whatever the other
    goroutines have done in between: a starter whose class queue is full
    sends nothing and turns to the generation, without blocking; it then
    runs [generateThumbnail] itself, for a path that has a media class: a
    thumbnail that has come on disk meanwhile is left alone, otherwise the
    directory is made and the tool of the class runs, and when these
    succeed the call returns no error; a call that returns no error leaves
    the thumbnail on disk, written by that one run when it was missing.
    The starter then closes the channel it stored, which is still open and
    still the entry of its key; it then deletes the entry and returns what
    the generation returned; and no other goroutine moves it meanwhile.
    So under every schedule, once the starter has taken three steps from
    the generation on, its channel is closed and out of the registry for
    good and the request is answered: with the thumbnail, which is on disk,
    when the generation returned no error, and with the error of the
    generation otherwise. *)
Theorem fallback_on_full_queue (files : gmap string entry) (acts : list action)
    (s : Server) (i : nat) (p : string) (done : nat) :
  run (main files) acts = Some s →
  (∀ o c, handlers s !! i = Some (QSelectQueue p done) →
     media_class p = Some c → queueSize s ≤ length (queue c s) →
     step s (Handle i o) = Some (goto i (QGenerate p done) s))
  ∧ (∀ o, handlers s !! i = Some (QGenerate p done) →
     ∃ c err fs' cmds,
       media_class p = Some c
       ∧ generateThumbnail o (fs s) p = (err, fs', cmds)
       ∧ step s (Handle i o)
         = Some (goto i (QClose p done err) (set_fs s fs' cmds))
       ∧ (err = None → Stat fs' (getThumbnailPath p) = StatOK)
       ∧ (Stat (fs s) (getThumbnailPath p) = StatOK →
            err = None ∧ fs' = fs s ∧ cmds = [])
       ∧ (Stat (fs s) (getThumbnailPath p) ≠ StatOK → err = None →
            fs' !! getThumbnailPath p = Some Regular
            ∧ ∃ t, tool_class t = c
                   ∧ cmds = [Command t p (getThumbnailPath p) true])
       ∧ (Stat (fs s) (getThumbnailPath p) ≠ StatOK →
            (MkdirAll (mkdir_ok o) (fs s)
               (filepath.Dir (getThumbnailPath p))).1 = None →
            (c = Image → open_ok o = true) → run_ok o = true →
            err = None))
  ∧ (∀ o err, handlers s !! i = Some (QClose p done err) →
     pendingThumbs s !! getThumbnailPath p = Some done
     ∧ (done ∉ closed s)
     ∧ step s (Handle i o)
       = Some (goto i (QDelete p err)
                 (set_closed s ({[done]} ∪ closed s) false)))
  ∧ (∀ o err, handlers s !! i = Some (QDelete p err) →
     step s (Handle i o)
     = Some (goto i (respond p err)
               (set_pendingThumbs s
                  (delete (getThumbnailPath p) (pendingThumbs s)))))
  ∧ (∀ a s' pc, step s a = Some s' → handlers s !! i = Some pc →
       (∀ o, a ≠ Handle i o) → a ≠ Timeout i → handlers s' !! i = Some pc)
  ∧ (∀ err acts' s', handlers s !! i = Some (QClose p done err) →
       run s acts' = Some s' → 2 ≤ handle_steps i acts' →
       handlers s' !! i = Some (respond p err)
       ∧ done ∈ closed s'
       ∧ (∀ k, pendingThumbs s' !! k ≠ Some done)
       ∧ panicked s' = false)
  ∧ (∀ acts' s', handlers s !! i = Some (QGenerate p done) →
       run s acts' = Some s' → 3 ≤ handle_steps i acts' →
       ∃ err,
         handlers s' !! i
         = Some (match err with
                 | None => HDone (ServeFile (getThumbnailPath p))
                 | Some e => HDone (InternalServerError e)
                 end)
         ∧ (err = None → Stat (fs s') (getThumbnailPath p) = StatOK)
         ∧ done ∈ closed s'
         ∧ (∀ k, pendingThumbs s' !! k ≠ Some done)
         ∧ panicked s' = false).
Proof.
  intros Hrun.
  pose proof (invariant_run _ _ _ (invariant_main files) Hrun) as Hinv.
  pose proof (inv_panicked _ Hinv) as Hpanic.
  split; [|split; [|split; [|split; [|split; [|split]]]]].
  - intros o c Hpc Hclass Hfull. unfold step. rewrite Hpanic.
    rewrite (handler_step_select_queue _ _ _ _ _ Hpc), Hclass.
    unfold select_queue, try_send. by rewrite bool_decide_eq_false_2 by lia.
  - intros o Hpc.
    destruct (generating_has_class _ _ _ _ _ _ Hrun Hpc) as [c Hclass].
    destruct (generateThumbnail o (fs s) p) as [[err fs'] cmds] eqn:Hgen.
    exists c, err, fs', cmds. split; [done|]. split; [done|].
    split. { unfold step, handler_step. by rewrite Hpanic, Hpc, Hgen. }
    split. { intros ->. by eapply generateThumbnail_nil. }
    assert (Stat (fs s) (getThumbnailPath p) ≠ StatOK →
            (MkdirAll (mkdir_ok o) (fs s) (filepath.Dir (getThumbnailPath p))).1 = None →
            (c = Image → open_ok o = true) → run_ok o = true → err = None) as Hgood.
    { intros Hmiss Hmk Hopen Hrun'. rewrite generateThumbnail_class in Hgen.
      destruct (Stat (fs s) (getThumbnailPath p)); [done|..]; simpl in Hgen.
      all: destruct (MkdirAll _ _ _) as [[e|] fs1]; simpl in Hmk; [done|].
      all: rewrite Hclass in Hgen; unfold transcode, run_command in Hgen.
      all: rewrite Hrun' in Hgen.
      all: destruct c; [rewrite Hopen in Hgen by done|]; simpl in Hgen; congruence. }
    destruct (generateThumbnail_cases o (fs s) p) as
      [[Hok Hg]|(Hmiss & e & fs1 & Hmk & [(e' & Hg)|[(t & _ & Ht & Hg)|(t & ok & _ & Ht & Hg)]])];
      rewrite Hg in Hgen; simplify_eq.
    + split; [done|]. split; [intros Hne; by destruct Hne|exact Hgood].
    + split; [intros Hok; by destruct Hmiss|]. split; [by intros _ [=]|exact Hgood].
    + split; [intros Hok; by destruct Hmiss|]. split; [by intros _ [=]|exact Hgood].
    + split; [intros Hok; by destruct Hmiss|]. split; [|exact Hgood].
      intros _ Hnil. destruct ok; [|done]. split; [apply lookup_insert_eq|].
      exists t. split; [congruence|done].
  - intros o err Hpc.
    destruct (inv_done _ Hinv i _ p done Hpc) as [Hentry Hopen];
      [right; right; eauto|].
    split; [done|]. split; [done|].
    unfold step, handler_step. rewrite Hpanic, Hpc.
    by rewrite close_open, Hpanic.
  - intros o err Hpc. unfold step, handler_step. by rewrite Hpanic, Hpc.
  - intros a s' pc Hstep Hpc Hne Hne'. by eapply step_other_handler.
  - intros err acts' s' Hpc Hrun' Hsteps.
    pose proof (fallback_phase_run acts' s s' i p done err 0 Hinv Hrun' Hpc) as Hphase.
    pose proof (invariant_run _ _ _ Hinv Hrun') as Hinv'.
    simpl in Hphase. destruct (handle_steps i acts') as [|[|n]]; [lia..|].
    destruct Hphase as (Hpc' & Hcl & _ & Hgone).
    split; [done|]. split; [done|]. split; [done|]. apply (inv_panicked _ Hinv').
  - intros acts' s' Hpc Hrun' Hsteps.
    destruct (fallback_from_generate acts' s s' i p done Hinv Hpc Hrun' Hsteps)
      as (err & Hpc' & Hstat & Hrest).
    exists err. split; [by destruct err|]. by split.
Qed.

Lemma fallback_on_full_queue_witness :
  ∃ s s',
    run (main (disk (photo <$> seq 0 251))) saturate = Some s
    ∧ length (imageThumbnailQueue s) = 250
    ∧ step s (Handle 250 all_ok) = Some (goto 250 (QGenerate (photo 250) 250) s)
    ∧ run (main (disk (photo <$> seq 0 251)))
        (saturate ++ [Handle 250 all_ok; Handle 250 all_ok] ++ fallback_interleaved)
      = Some s'
    ∧ handlers s' !! 250 = Some (HDone (ServeFile (getThumbnailPath (photo 250))))
    ∧ Stat (fs s') (getThumbnailPath (photo 250)) = StatOK
    ∧ head (commands s')
      = Some (Command Vips (photo 250) (getThumbnailPath (photo 250)) true)
    ∧ 250 ∈ closed s'.
Proof.
  set (files := disk (photo <$> seq 0 251)).
  set (s := default (main ∅) (run (main files) saturate)).
  set (s1 := default (main ∅) (run (main files) (saturate ++ [Handle 250 all_ok]))).
  set (s' := default (main ∅)
               (run (main files)
                  (saturate ++ [Handle 250 all_ok; Handle 250 all_ok]
                     ++ fallback_interleaved))).
  assert (run (main files) saturate = Some s) as Hs
    by (apply run_succeeds; vm_compute; reflexivity).
  assert (run (main files) (saturate ++ [Handle 250 all_ok]) = Some s1)
    as Hs1 by (apply run_succeeds; vm_compute; reflexivity).
  assert (run (main files)
            (saturate ++ [Handle 250 all_ok; Handle 250 all_ok] ++ fallback_interleaved)
          = Some s') as Hs' by (apply run_succeeds; vm_compute; reflexivity).
  assert ((λ s, (length (imageThumbnailQueue s), handlers s !! 250, queueSize s))
            <$> run (main files) saturate
          = Some (250, Some (QSelectQueue (photo 250) 250), 250)) as Hobs
    by (vm_compute; reflexivity).
  assert ((λ s, handlers s !! 250) <$> run (main files) (saturate ++ [Handle 250 all_ok])
          = Some (Some (QGenerate (photo 250) 250))) as Hobs1
    by (vm_compute; reflexivity).
  assert ((λ s, (handlers s !! 250, head (commands s)))
            <$> run (main files)
                  (saturate ++ [Handle 250 all_ok; Handle 250 all_ok]
                     ++ fallback_interleaved)
          = Some (Some (HDone (ServeFile (getThumbnailPath (photo 250)))),
                  Some (Command Vips (photo 250) (getThumbnailPath (photo 250)) true)))
    as Hobs' by (vm_compute; reflexivity).
  clearbody s s1 s'. exists s, s'.
  rewrite Hs in Hobs. simpl in Hobs. injection Hobs as Hlen Hpc Hsize.
  rewrite Hs1 in Hobs1. simpl in Hobs1. injection Hobs1 as Hpc1.
  rewrite Hs' in Hobs'. simpl in Hobs'. injection Hobs' as Hpc' Hcmd.
  destruct (fallback_on_full_queue files saturate s 250 (photo 250) 250 Hs) as (H & _).
  destruct (fallback_on_full_queue files (saturate ++ [Handle 250 all_ok]) s1 250
              (photo 250) 250 Hs1) as (_ & _ & _ & _ & _ & _ & H1).
  pose proof Hs' as Hrun.
  change (saturate ++ [Handle 250 all_ok; Handle 250 all_ok] ++ fallback_interleaved)
    with (saturate ++ [Handle 250 all_ok] ++ Handle 250 all_ok :: fallback_interleaved)
    in Hrun.
  rewrite List.app_assoc, run_app, Hs1 in Hrun. simpl in Hrun.
  destruct (H1 (Handle 250 all_ok :: fallback_interleaved) s' Hpc1 Hrun)
    as (err & Hdone & Hstat & Hclosed & _).
  { vm_compute. lia. }
  assert (err = None) as ->.
  { rewrite Hpc' in Hdone. by destruct err. }
  assert (step s (Handle 250 all_ok) = Some (goto 250 (QGenerate (photo 250) 250) s))
    as Hstep.
  { apply (H all_ok Image Hpc); [vm_compute; reflexivity|].
    cbn [queue]. rewrite Hsize, Hlen. lia. }
  exact (conj Hs (conj Hlen (conj Hstep (conj Hs' (conj Hpc'
           (conj (Hstat eq_refl) (conj Hcmd Hclosed))))))).
Defined.

(** ** Cache hits *)

(** C8.  When the thumbnail of a source path is on disk, a direct call of
    [generateThumbnail] returns no error, runs no tool and leaves the disk
    as it is; a request for it is served from [handleThumbnail] without a
    step into the coordinator, and the registry, the queues, the disk and
    the tools are as before; the generation step of a worker that holds
    the path runs no tool and changes no file; and a generation that
    follows one that returned no error is a no-op. *)
Theorem existing_thumbnail_is_kept (s : Server) (p : string) (o : outcome) :
  panicked s = false →
  Stat (fs s) (getThumbnailPath p) = StatOK →
  generateThumbnail o (fs s) p = (None, fs s, [])
  ∧ (∀ i, handlers s !! i = Some (HStatThumbnail p) →
       ∃ s', step s (Handle i o) = Some s'
             ∧ s' = goto i (HDone (ServeFile (getThumbnailPath p))) s
             ∧ fs s' = fs s ∧ commands s' = commands s
             ∧ pendingThumbs s' = pendingThumbs s
             ∧ imageThumbnailQueue s' = imageThumbnailQueue s
             ∧ movieThumbnailQueue s' = movieThumbnailQueue s)
  ∧ (∀ i, handlers s !! i = Some (HStatSource p) →
       Stat (fs s) p ≠ StatNotExist →
       run s [Handle i o; Handle i o]
       = Some (goto i (HDone (ServeFile (getThumbnailPath p)))
                 (goto i (HStatThumbnail p) s)))
  ∧ (∀ w c, workers s !! w = Some (Worker c (WGenerate p)) →
       ∃ s', step s (Work w o) = Some s'
             ∧ workers s' !! w = Some (Worker c (WLoadAndDelete p None))
             ∧ fs s' = fs s ∧ commands s' = commands s)
  ∧ (∀ o1 o2 d d' cmds, generateThumbnail o1 d p = (None, d', cmds) →
       generateThumbnail o2 d' p = (None, d', [])).
Proof.
  intros Hpanic Hhit.
  assert (generateThumbnail o (fs s) p = (None, fs s, [])) as Hgen.
  { rewrite generateThumbnail_class. by rewrite Hhit. }
  split; [done|].
  split.
  { intros i Hpc. eexists. split.
    { unfold step, handler_step. by rewrite Hpanic, Hpc, Hhit. }
    by repeat apply conj. }
  split.
  { intros i Hpc Hsrc. cbn [run].
    assert (step s (Handle i o) = Some (goto i (HStatThumbnail p) s)) as ->.
    { unfold step, handler_step. rewrite Hpanic, Hpc.
      by destruct (Stat (fs s) p). }
    unfold step, handler_step. simpl. rewrite Hpanic.
    rewrite list_lookup_insert_eq by by eapply lookup_lt_Some.
    by rewrite Hhit. }
  split.
  { intros w c Hpc. eexists. split.
    { unfold step, worker_step. by rewrite Hpanic, Hpc, Hgen. }
    repeat apply conj; try done.
    simpl. apply list_lookup_insert_eq. by eapply lookup_lt_Some. }
  intros o1 o2 d d' cmds Hgen1.
  rewrite (generateThumbnail_class o2).
  destruct (generateThumbnail_cases o1 d p) as
    [[Hok Hg]|(_ & e & fs1 & _ & [(e' & Hg)|[(t & _ & _ & Hg)|(t & ok & _ & _ & Hg)]])];
    rewrite Hg in Hgen1; simplify_eq.
  - by rewrite Hok.
  - destruct ok; [|done]. simplify_eq. unfold Stat. by rewrite lookup_insert_eq.
Qed.

Lemma existing_thumbnail_is_kept_witness :
  generateThumbnail all_ok (disk ["/srv/a.jpg"; "/srv/.small/a.jpg.jpg"]) "/srv/a.jpg"
  = (None, disk ["/srv/a.jpg"; "/srv/.small/a.jpg.jpg"], []).
Proof.
  assert (panicked (main (disk ["/srv/a.jpg"; "/srv/.small/a.jpg.jpg"])) = false)
    as Hpanic by reflexivity.
  assert (Stat (fs (main (disk ["/srv/a.jpg"; "/srv/.small/a.jpg.jpg"])))
            (getThumbnailPath "/srv/a.jpg") = StatOK) as Hhit
    by (vm_compute; reflexivity).
  destruct (existing_thumbnail_is_kept _ "/srv/a.jpg" all_ok Hpanic Hhit) as (H & _).
  exact H.
Defined.

(** ** Entries left behind *)

Lemma owners_set_fs (k : string) (s : Server) (d : gmap string entry) (c : list command) :
  owners k (set_fs s d c) = owners k s.
Proof. reflexivity. Qed.

Lemma owners_close (k : string) (ch : nat) (s : Server) :
  owners k (close ch s) = owners k s.
Proof. unfold close. by case_bool_decide. Qed.

Lemma owners_log_failure (k : string) (c : class) (p : string) (err : option error)
    (s : Server) :
  owners k (log_failure c p err s) = owners k s.
Proof. by destruct err. Qed.

(** The owners of a key grow in one way only: a [LoadOrStore] for the key
    that finds no entry. *)
Lemma step_owners (s s' : Server) (a : action) (k : string) :
  step s a = Some s' →
  owners k s' ≤ owners k s ∨ pendingThumbs s !! k = None.
Proof.
  intros Hstep. unfold step in Hstep. destruct (panicked s); [done|].
  destruct a as [q|i o|i|w o|d]; simplify_eq.
  - left. unfold owners, queued. simpl. rewrite sum_list_with_snoc. simpl. lia.
  - destruct (handlers s !! i) as [pc|] eqn:Hpc;
      [|by unfold handler_step in Hstep; rewrite Hpc in Hstep].
    destruct pc as [q|q|q|q d'|q d'|q d' err|q err|q d'|q d' dl|q|r].
    4: { rewrite (handler_step_select_queue _ _ _ _ _ Hpc) in Hstep. simplify_eq.
         left. unfold select_queue.
         destruct (media_class q) as [c|]; [unfold try_send; case_bool_decide|].
         - assert (handlers (set_queue c s (queue c s ++ [q])) !! i
                   = Some (QSelectQueue q d')) as Hpc' by by rewrite handlers_set_queue.
           pose proof (owners_goto k i _ (QSelectDone q d') _ Hpc') as Hown.
           rewrite owners_send in Hown. simpl in Hown. lia.
         - pose proof (owners_goto k i _ (QGenerate q d') _ Hpc) as Hown. simpl in Hown. lia.
         - pose proof (owners_goto k i _ (HDone (InternalServerError ErrUnsupported)) _
                         Hpc) as Hown. simpl in Hown. lia. }
    all: unfold handler_step, LoadOrStore in Hstep; rewrite Hpc in Hstep.
    all: repeat case_match; simplify_eq.
    all: try (left;
      match goal with
      | |- owners ?k0 (goto ?i0 ?pc' ?s0) ≤ _ =>
          let H := fresh in
          assert (handlers s0 !! i0 = Some _) as H
            by (rewrite ?handlers_close; exact Hpc);
          pose proof (owners_goto k0 i0 _ pc' s0 H);
          rewrite ?owners_close in *; unfold owners, queued in *; simpl in *;
          rewrite ?handler_owns_respond in *; lia
      end).
    (* the store *)
    destruct (decide (getThumbnailPath q = k)) as [<-|Hne]; [by right|left].
    match goal with
    | |- owners k (goto i ?pc' ?s0) ≤ _ =>
        pose proof (owners_goto k i _ pc' s0 Hpc) as Hown
    end.
    simpl in Hown. rewrite (has_key_ne _ _ Hne) in Hown.
    unfold owners, queued in *. simpl in *. lia.
  - left. unfold handler_timeout in Hstep.
    destruct (handlers s !! i) as [[]|] eqn:Hpc; try done.
    case_bool_decide; simplify_eq.
    pose proof (owners_goto k i _ (respond imagePath (Some ErrTimeout)) _ Hpc) as Hown.
    simpl in Hown. simpl. lia.
  - left. unfold worker_step, LoadAndDelete in Hstep.
    destruct (workers s !! w) as [[c [|q|q err|q d' err]]|] eqn:Hpc; [| | | |done].
    + destruct (queue c s) as [|q rest] eqn:Hq; simplify_eq.
      assert (workers (set_queue c s rest) !! w = Some (Worker c WReceive)) as Hpc'
        by by rewrite workers_set_queue.
      pose proof (owners_wgoto k w c c _ (WGenerate q) _ Hpc') as Hown.
      pose proof (owners_receive k c s q rest Hq).
      unfold worker_owns in Hown. simpl in Hown. lia.
    + destruct (generateThumbnail _ _ _) as [[? ?] ?]. simplify_eq.
      pose proof (owners_wgoto k w c c _ (WLoadAndDelete q o0) (set_fs s g l) Hpc) as Hown.
      unfold worker_owns in Hown. simpl in Hown. rewrite owners_set_fs in Hown. lia.
    + destruct (pendingThumbs s !! getThumbnailPath q); simplify_eq.
      * pose proof (owners_wgoto k w c c _ (WClose q n err)
                      (set_pendingThumbs s (delete (getThumbnailPath q) (pendingThumbs s)))
                      Hpc) as Hown.
        unfold worker_owns in Hown. simpl in Hown.
        change (owners k (set_pendingThumbs s _)) with (owners k s) in Hown. lia.
      * assert (workers (log_failure c q err (set_pendingThumbs s
                  (delete (getThumbnailPath q) (pendingThumbs s)))) !! w
                = Some (Worker c (WLoadAndDelete q err))) as Hpc' by by destruct err.
        pose proof (owners_wgoto k w c c _ WReceive _ Hpc') as Hown.
        unfold worker_owns in Hown. simpl in Hown. rewrite owners_log_failure in Hown.
        change (owners k (set_pendingThumbs s _)) with (owners k s) in Hown. lia.
    + simplify_eq.
      assert (workers (log_failure c q err (close d' s)) !! w
              = Some (Worker c (WClose q d' err))) as Hpc'
        by (destruct err; simpl; by rewrite workers_close).
      pose proof (owners_wgoto k w c c _ WReceive _ Hpc') as Hown.
      unfold worker_owns in Hown. simpl in Hown.
      rewrite owners_log_failure, owners_close in Hown. lia.
  - by left.
Qed.

Lemma orphan_step (s s' : Server) (a : action) (k : string) (ch : nat) :
  invariant s → orphan k ch s → step s a = Some s' → orphan k ch s'.
Proof.
  intros Hinv (Hk & Hopen & Hzero) Hstep. split; [|split].
  - destruct (step_pendingThumbs _ _ _ Hstep) as
      [->|[(i & o & q & -> & Hpc & Hnone & ->)|[(i & o & q & e & -> & Hpc & ->)
         |(v & o & c & q & e & -> & Hpc & ->)]]]; [done|..].
    + rewrite lookup_insert_ne; [done|]. intros Heq. congruence.
    + rewrite lookup_delete_ne; [done|]. intros Heq.
      pose proof (owners_handler k _ _ _ Hpc) as Hle. simpl in Hle.
      rewrite <- Heq, has_key_eq, Heq in Hle. lia.
    + rewrite lookup_delete_ne; [done|]. intros Heq.
      pose proof (owners_worker k _ _ _ Hpc) as Hle.
      unfold worker_owns in Hle. simpl in Hle.
      rewrite <- Heq, has_key_eq, Heq in Hle. lia.
  - intros Hclosed.
    destruct (step_closes _ _ _ _ Hstep Hopen Hclosed) as
      [(i & o & q & e & -> & Hpc)|(w & o & c & q & e & -> & Hpc)].
    + destruct (inv_done _ Hinv i _ q ch Hpc) as [Hq _]; [right; right; eauto|].
      pose proof (inv_inj _ Hinv _ _ _ Hk Hq) as ->.
      pose proof (owners_handler (getThumbnailPath q) _ _ _ Hpc) as Hle.
      simpl in Hle. rewrite has_key_eq in Hle. lia.
    + destruct (inv_wclose _ Hinv _ _ _ _ _ Hpc) as (_ & _ & Hgone).
      by destruct (Hgone k).
  - destruct (step_owners _ _ _ k Hstep) as [Hle|Hnone]; [lia|congruence].
Qed.

Lemma orphan_run (acts : list action) (s s' : Server) (k : string) (ch : nat) :
  invariant s → orphan k ch s → run s acts = Some s' → orphan k ch s'.
Proof.
  revert s. induction acts as [|a acts IH]; intros s Hinv Horphan Hrun; simplify_eq/=.
  - done.
  - destruct (step s a) as [s1|] eqn:Hstep; [|done].
    apply (IH s1); [by eapply invariant_step|by eapply orphan_step|done].
Qed.

(** What the unsupported-type return of a starter leaves behind, in
    general: the entry that the starter stored stays in the registry with
    its channel open under every schedule, and a handler that waits on it
    can only leave by its timer. *)
Lemma unsupported_entry_is_never_removed (files : gmap string entry)
    (acts acts' : list action) (s s1 s' : Server) (i : nat) (p : string)
    (done : nat) (o : outcome) :
  run (main files) acts = Some s →
  handlers s !! i = Some (QSelectQueue p done) → media_class p = None →
  step s (Handle i o) = Some s1 → run s1 acts' = Some s' →
  handlers s1 !! i = Some (HDone (InternalServerError ErrUnsupported))
  ∧ pendingThumbs s' !! getThumbnailPath p = Some done
  ∧ (done ∉ closed s')
  ∧ (∀ j q deadline o', handlers s' !! j = Some (QWait q done deadline) →
       step s' (Handle j o') = None).
Proof.
  intros Hrun Hpc Hclass Hstep Hrun'.
  pose proof (invariant_run _ _ _ (invariant_main files) Hrun) as Hinv.
  pose proof (invariant_step _ _ _ Hinv Hstep) as Hinv1.
  pose proof (invariant_run _ _ _ Hinv1 Hrun') as Hinv'.
  unfold step in Hstep. rewrite (inv_panicked _ Hinv) in Hstep.
  rewrite (handler_step_select_queue _ _ _ _ _ Hpc), Hclass in Hstep.
  simpl in Hstep. injection Hstep as <-.
  destruct (inv_done _ Hinv i _ p done Hpc) as [Hk Hopen]; [by left|].
  assert (orphan (getThumbnailPath p) done
            (goto i (HDone (InternalServerError ErrUnsupported)) s)) as Horphan.
  { split; [done|]. split; [done|].
    pose proof (owners_goto (getThumbnailPath p) i _
                  (HDone (InternalServerError ErrUnsupported)) s Hpc) as Hown.
    simpl in Hown. rewrite has_key_eq in Hown.
    pose proof (inv_owners _ Hinv (getThumbnailPath p)). lia. }
  destruct (orphan_run _ _ _ _ _ Hinv1 Horphan Hrun') as (Hk' & Hopen' & _).
  split. { simpl. apply list_lookup_insert_eq. by eapply lookup_lt_Some. }
  split; [done|]. split; [done|].
  intros j q deadline o' Hj. unfold step, handler_step.
  by rewrite (inv_panicked _ Hinv'), Hj, bool_decide_eq_false_2.
Qed.

(** ** The cache-hit path *)

Lemma IsNotExist_true (r : stat_result) : IsNotExist r = true → r = StatNotExist.
Proof. by destruct r. Qed.

(** The coordinator is entered from the existence check of
    [handleThumbnail], on a miss, and from nowhere else. *)
Lemma handler_step_enters (s s' : Server) (i : nat) (o : outcome) (pc pc' : handler_pc) :
  handler_step s i o = Some s' →
  handlers s !! i = Some pc → handlers s' !! i = Some pc' → in_coordinator pc' →
  in_coordinator pc
  ∨ ∃ p, pc = HStatThumbnail p ∧ Stat (fs s) (getThumbnailPath p) = StatNotExist.
Proof.
  intros Hstep Hpc Hpc' Hin.
  assert (i < length (handlers s)) as Hi by by eapply lookup_lt_Some.
  destruct pc as [q|q|q|q d'|q d'|q d' err|q err|q d'|q d' dl|q|r];
    try (by left).
  - unfold handler_step in Hstep. rewrite Hpc in Hstep.
    destruct (IsNotExist _); simplify_eq; simpl in Hpc';
      rewrite list_lookup_insert_eq in Hpc' by done; by simplify_eq.
  - unfold handler_step in Hstep. rewrite Hpc in Hstep.
    destruct (IsNotExist _) eqn:Hmiss; simplify_eq; simpl in Hpc';
      rewrite list_lookup_insert_eq in Hpc' by done; simplify_eq; [|done].
    right. exists q. split; [done|]. by apply IsNotExist_true.
  - unfold handler_step in Hstep. by rewrite Hpc in Hstep.
Qed.

Lemma step_enters (s s' : Server) (a : action) (i : nat) (pc' : handler_pc) :
  step s a = Some s' → handlers s' !! i = Some pc' → in_coordinator pc' →
  (∃ pc, handlers s !! i = Some pc ∧ in_coordinator pc)
  ∨ ∃ p, handlers s !! i = Some (HStatThumbnail p)
         ∧ Stat (fs s) (getThumbnailPath p) = StatNotExist.
Proof.
  intros Hstep Hpc' Hin. unfold step in Hstep. destruct (panicked s); [done|].
  destruct a as [q|j o|j|v o|d]; simplify_eq.
  - simpl in Hpc'. apply lookup_app_Some in Hpc' as [?|[_ H]]; [left; eauto|].
    apply list_lookup_singleton_Some in H as [_ <-]. done.
  - destruct (decide (j = i)) as [->|Hne].
    + destruct (handlers s !! i) as [pc|] eqn:Hpc;
        [|by unfold handler_step in Hstep; rewrite Hpc in Hstep].
      destruct (handler_step_enters _ _ _ _ _ _ Hstep Hpc Hpc' Hin) as [?|(p & -> & ?)].
      * left. eauto.
      * right. eauto.
    + rewrite (handler_step_other _ _ _ _ _ Hstep Hne) in Hpc'. left. eauto.
  - destruct (decide (j = i)) as [->|Hne].
    + unfold handler_timeout in Hstep.
      destruct (handlers s !! i) as [[]|] eqn:Hpc; try done.
      left. eexists. by split.
    + rewrite (handler_timeout_other _ _ _ _ Hstep Hne) in Hpc'. left. eauto.
  - rewrite (worker_step_handlers _ _ _ _ Hstep) in Hpc'. left. eauto.
  - simpl in Hpc'. left. eauto.
Qed.

Lemma coordinator_after_miss (files : gmap string entry) (acts : list action)
    (s : Server) (i : nat) (pc : handler_pc) :
  run (main files) acts = Some s →
  handlers s !! i = Some pc → in_coordinator pc → missed files acts i.
Proof.
  revert s i pc. induction acts as [|a acts IH] using rev_ind; intros s i pc Hrun Hpc Hin.
  - simplify_eq/=.
  - apply run_snoc in Hrun as (s1 & Hrun & Hstep).
    destruct (step_enters _ _ _ _ _ Hstep Hpc Hin) as [(pc0 & Hpc0 & Hin0)|(p & Hp & Hmiss)].
    + destruct (IH _ _ _ Hrun Hpc0 Hin0) as (acts1 & acts2 & s0 & p & -> & ? & ? & ?).
      exists acts1, (acts2 ++ [a]), s0, p. by rewrite <- List.app_assoc.
    + by exists acts, [a], s1, p.
Qed.

(** C10.  In every state that the server reaches, a handler that stands
    before the existence check of a thumbnail that exists is answered with
    that file; the source path is arbitrary and its class is not looked at.
    A handler is answered with an error of the coordinator, the
    unsupported-type error among them, only if earlier in the run it stood
    before that check with the thumbnail missing. *)
Theorem cache_hit_skips_class_check (files : gmap string entry) (acts : list action)
    (s : Server) (i : nat) :
  run (main files) acts = Some s →
  (∀ p o, handlers s !! i = Some (HStatThumbnail p) →
     Stat (fs s) (getThumbnailPath p) ≠ StatNotExist →
     step s (Handle i o) = Some (goto i (HDone (ServeFile (getThumbnailPath p))) s))
  ∧ (∀ p o, handlers s !! i = Some (HStatSource p) →
     Stat (fs s) p ≠ StatNotExist →
     Stat (fs s) (getThumbnailPath p) ≠ StatNotExist →
     run s [Handle i o; Handle i o]
     = Some (goto i (HDone (ServeFile (getThumbnailPath p)))
               (goto i (HStatThumbnail p) s)))
  ∧ (∀ e, handlers s !! i = Some (HDone (InternalServerError e)) →
     missed files acts i).
Proof.
  intros Hrun.
  pose proof (invariant_run _ _ _ (invariant_main files) Hrun) as Hinv.
  pose proof (inv_panicked _ Hinv) as Hpanic.
  assert (∀ s0 p o, panicked s0 = false → handlers s0 !! i = Some (HStatThumbnail p) →
     Stat (fs s0) (getThumbnailPath p) ≠ StatNotExist →
     step s0 (Handle i o) = Some (goto i (HDone (ServeFile (getThumbnailPath p))) s0))
    as Hhit.
  { intros s0 p o Hpanic0 Hpc Hstat. unfold step, handler_step. rewrite Hpanic0, Hpc.
    by destruct (Stat (fs s0) (getThumbnailPath p)). }
  split; [by auto|]. split.
  - intros p o Hpc Hsrc Hthumb. cbn [run].
    assert (step s (Handle i o) = Some (goto i (HStatThumbnail p) s)) as ->.
    { unfold step, handler_step. rewrite Hpanic, Hpc. by destruct (Stat (fs s) p). }
    rewrite (Hhit _ p o); [done|done| |done].
    simpl. apply list_lookup_insert_eq. by eapply lookup_lt_Some.
  - intros e Hpc. by eapply coordinator_after_miss.
Qed.

Lemma cache_hit_skips_class_check_witness :
  media_class "/srv/notes.txt" = None
  ∧ ∃ s, run (main (disk ["/srv/notes.txt"; "/srv/.small/notes.txt.jpg"]))
           [Request "/srv/notes.txt"; Handle 0 all_ok] = Some s
         ∧ step s (Handle 0 all_ok)
           = Some (goto 0 (HDone (ServeFile (getThumbnailPath "/srv/notes.txt"))) s).
Proof.
  split; [vm_compute; reflexivity|].
  set (files := disk ["/srv/notes.txt"; "/srv/.small/notes.txt.jpg"]).
  set (acts := [Request "/srv/notes.txt"; Handle 0 all_ok]).
  set (s := default (main ∅) (run (main files) acts)).
  assert (run (main files) acts = Some s) as Hs
    by (apply run_succeeds; vm_compute; reflexivity).
  clearbody s. exists s. split; [done|].
  assert ((λ s, (handlers s !! 0, Stat (fs s) (getThumbnailPath "/srv/notes.txt")))
            <$> run (main files) acts
          = Some (Some (HStatThumbnail "/srv/notes.txt"), StatOK)) as Hobs
    by (vm_compute; reflexivity).
  rewrite Hs in Hobs. simpl in Hobs. injection Hobs as Hpc Hstat.
  destruct (cache_hit_skips_class_check files acts s 0 Hs) as (H & _).
  apply H; [done|]. by rewrite Hstat.
Defined.

(** *** Tool runs and entries *)








Lemma transcoder_runs_close (k : string) (ch : nat) (s : Server) :
  transcoder_runs k (close ch s) = transcoder_runs k s.
Proof. unfold close. by case_bool_decide. Qed.

Lemma transcoder_runs_log_failure (k : string) (c : class) (p : string)
    (err : option error) (s : Server) :
  transcoder_runs k (log_failure c p err s) = transcoder_runs k s.
Proof. by destruct err. Qed.








(** ** One generation per key *)



(** * The other handlers *)

(** ** [filepath.Rel] and the functions of [strings] on the test vectors of Go *)

Example Rel_vectors :
  zip_with filepath.Rel
    [ "a/b"; "a/b/."; "a/b"; "./a/b"; "a/b"; "ab/cd"; "ab/cd"; "a/b"; "a/b";
      "a/b/../c"; "a/b/c"; "a/b"; "a/b/c/d"; "a/b/c/d"; "a/b/c/d/"; "a/b/c/d/";
      "../../a/b"; "/a/b"; "/a/b/."; "/a/b"; "/ab/cd"; "/ab/cd"; "/a/b"; "/a/b";
      "/a/b/../c"; "/a/b/c"; "/a/b"; "/a/b/c/d"; "/a/b/c/d"; "/a/b/c/d/";
      "/a/b/c/d/"; "/../../a/b"; "."; "."; ".."; ".."; "a"; "/a" ]
    [ "a/b"; "a/b"; "a/b/."; "a/b"; "./a/b"; "ab/cde"; "ab/c"; "a/b/c/d"; "a/b/../c";
      "a/b"; "a/c/d"; "c/d"; "a/b"; "a/b/"; "a/b"; "a/b/";
      "../../a/b/c/d"; "/a/b"; "/a/b"; "/a/b/."; "/ab/cde"; "/ab/c"; "/a/b/c/d";
      "/a/b/../c"; "/a/b"; "/a/c/d"; "/c/d"; "/a/b"; "/a/b/"; "/a/b";
      "/a/b/"; "/../../a/b/c/d"; "a/b"; ".."; "."; "a"; "/a"; "a" ]
  = [ Some "."; Some "."; Some "."; Some "."; Some "."; Some "../cde"; Some "../c";
      Some "c/d"; Some "../c"; Some "../b"; Some "../../c/d"; Some "../../c/d";
      Some "../.."; Some "../.."; Some "../.."; Some "../.."; Some "c/d"; Some ".";
      Some "."; Some "."; Some "../cde"; Some "../c"; Some "c/d"; Some "../c";
      Some "../b"; Some "../../c/d"; Some "../../c/d"; Some "../.."; Some "../..";
      Some "../.."; Some "../.."; Some "c/d"; Some "a/b"; Some ".."; None; None;
      None; None ].
Proof. reflexivity. Qed.

Example ReplaceAll_vectors :
  [ strings.ReplaceAll "banana" "a" "<>"; strings.ReplaceAll "banana" "an" "<>";
    strings.ReplaceAll "banana" "ana" "<>"; strings.ReplaceAll "banana" "" "<>";
    strings.ReplaceAll "hello" "l" "L"; strings.ReplaceAll "hello" "x" "X";
    strings.ReplaceAll "" "x" "X"; strings.ReplaceAll "radar" "r" "<r>";
    strings.ReplaceAll "" "" "<>"; strings.ReplaceAll "oink oink oink" "oink" "moo" ]
  = [ "b<>n<>n<>"; "b<><>a"; "b<>na"; "<>b<>a<>n<>a<>n<>a<>"; "heLLo"; "hello"; "";
      "<r>ada<r>"; "<>"; "moo moo moo" ].
Proof. reflexivity. Qed.

Example Trim_vectors :
  [ strings.TrimPrefix "/api/thumbnail/a/b.jpg" "/api/thumbnail";
    strings.TrimPrefix "/a" "/"; strings.TrimPrefix "a" "/";
    strings.TrimSuffix "/gallery/" "/"; strings.TrimSuffix "/" "/";
    strings.TrimSuffix "abc" "bc"; strings.TrimSuffix "abc" "abcd";
    strings.TrimSuffix "a//" "/" ]
  = [ "/a/b.jpg"; "a"; "a"; "/gallery"; ""; "a"; "abc"; "a/" ].
Proof. reflexivity. Qed.

(** ** Strings *)

Lemma HasPrefix_app (s t : string) : strings.HasPrefix (s +:+ t) s = true.
Proof.
  induction s as [|c s IH]; [done|].
  rewrite string_app_cons. simpl. by rewrite bool_decide_eq_true_2, IH.
Qed.

Lemma slice_from_app (s t : string) : strings.slice_from (String.length s) (s +:+ t) = t.
Proof. induction s as [|c s IH]; [by destruct t|]. by rewrite string_app_cons. Qed.

Lemma TrimPrefix_app (s t : string) : strings.TrimPrefix (s +:+ t) s = t.
Proof. unfold strings.TrimPrefix. by rewrite HasPrefix_app, slice_from_app. Qed.

Lemma HasPrefix_head (c : ascii) (s : string) :
  strings.HasPrefix s (String c "") = match s with String d _ => bool_decide (d = c) | "" => false end.
Proof. destruct s as [|d s]; [done|]. simpl. by rewrite andb_true_r. Qed.

Lemma HasPrefix_slash (s : string) : strings.HasPrefix s "/" = filepath.is_rooted s.
Proof. by rewrite HasPrefix_head. Qed.

(** ** Elements *)

Lemma elements_no_sep (s : string) :
  Forall (λ e, has_separator e = false) (filepath.elements s).
Proof.
  induction s as [|c s IH]; [by repeat constructor|].
  simpl. destruct (filepath.IsPathSeparator c) eqn:Hc; [by constructor|].
  destruct IH as [|e es He Hes].
  - constructor; [|done]. simpl. by rewrite Hc.
  - constructor; [|done]. simpl. by rewrite Hc.
Qed.

Lemma elements_app_sep (a b : string) :
  filepath.elements (a +:+ "/" +:+ b) = filepath.elements a ++ filepath.elements b.
Proof.
  induction a as [|c a IH]; [done|].
  rewrite string_app_cons. simpl. rewrite IH.
  destruct (filepath.IsPathSeparator c); [done|].
  pose proof (elements_not_nil a). by destruct (filepath.elements a).
Qed.

Lemma elements_join (es : list string) :
  es ≠ [] → Forall (λ e, has_separator e = false) es →
  filepath.elements (filepath.join_elements es) = es.
Proof.
  intros Hne Hes. induction Hes as [|e es He Hes IH]; [done|].
  destruct es as [|e' es]; [by apply elements_no_separator|].
  change (filepath.join_elements (e :: e' :: es))
    with (e +:+ "/" +:+ filepath.join_elements (e' :: es)).
  rewrite elements_app_sep, IH by done. by rewrite elements_no_separator.
Qed.

Lemma is_name_no_sep (es : list string) :
  Forall (λ e, is_name e = true) es → Forall (λ e, has_separator e = false) es.
Proof.
  intros H. eapply Forall_impl; [done|].
  intros e He. by apply is_name_spec in He as (_&_&_&?).
Qed.

(** ** The stack of [Clean] *)

Lemma clean_elements_rooted (es stack : list string) :
  Forall (λ e, is_name e = true) stack →
  Forall (λ e, has_separator e = false) es →
  Forall (λ e, is_name e = true) (filepath.clean_elements true stack es).
Proof.
  intros Hstack Hes. revert stack Hstack.
  induction Hes as [|e es He Hes IH]; intros stack Hstack.
  { simpl. by apply Forall_rev. }
  cbn [filepath.clean_elements].
  destruct (decide (e = "")) as [->|H1]; [by apply IH|].
  destruct (decide (e = ".")) as [->|H2]; [by apply IH|].
  rewrite !(bool_decide_eq_false_2 (e = "")), !(bool_decide_eq_false_2 (e = ".")) by done.
  cbn [orb].
  destruct (decide (e = "..")) as [->|H3].
  - cbn [bool_decide decide_rel]. rewrite bool_decide_eq_true_2 by done.
    destruct Hstack as [|top below Htop Hbelow]; [by apply IH|].
    rewrite bool_decide_eq_false_2; [by apply IH|].
    intros ->. done.
  - rewrite bool_decide_eq_false_2 by done. apply IH. constructor; [|done].
    by apply is_name_spec.
Qed.

Lemma rev_replicate {A} (n : nat) (x : A) : rev (replicate n x) = replicate n x.
Proof.
  induction n as [|n IH]; [done|].
  simpl. rewrite IH. symmetry. apply replicate_cons_app.
Qed.

Lemma clean_elements_relative (es ns : list string) (k : nat) :
  Forall (λ e, is_name e = true) ns →
  Forall (λ e, has_separator e = false) es →
  ∃ k' ns', Forall (λ e, is_name e = true) ns'
    ∧ filepath.clean_elements false (ns ++ replicate k "..") es
      = replicate k' ".." ++ ns'.
Proof.
  intros Hns Hes. revert ns k Hns.
  induction Hes as [|e es He Hes IH]; intros ns k Hns.
  { exists k, (rev ns). split.
    - by apply Forall_rev.
    - simpl. by rewrite rev_app_distr, rev_replicate. }
  cbn [filepath.clean_elements].
  destruct (decide (e = "")) as [->|H1]; [by apply IH|].
  destruct (decide (e = ".")) as [->|H2]; [by apply IH|].
  rewrite !(bool_decide_eq_false_2 (e = "")), !(bool_decide_eq_false_2 (e = ".")) by done.
  cbn [orb].
  destruct (decide (e = "..")) as [->|H3].
  - rewrite bool_decide_eq_true_2 by done.
    destruct Hns as [|top below Htop Hbelow].
    + destruct k as [|k]; simpl.
      * apply (IH [] 1). constructor.
      * apply (IH [] (S (S k))). constructor.
    + cbn [app]. rewrite bool_decide_eq_false_2; [by apply IH|].
      intros ->. done.
  - rewrite bool_decide_eq_false_2 by done.
    apply (IH (e :: ns) k). constructor; [|done]. by apply is_name_spec.
Qed.

(** ** Cleaned absolute paths *)

Lemma abs_path_join (ns : list string) :
  "/" +:+ filepath.join_elements ns = abs_path ns.
Proof. destruct ns; [done|]. apply join_elements_absolute. Qed.

Lemma Clean_rooted (p : string) :
  filepath.is_rooted p = true →
  filepath.Clean p = abs_path (filepath.clean_elements true [] (filepath.elements p)).
Proof. intros H. unfold filepath.Clean. rewrite H. apply abs_path_join. Qed.

Lemma Clean_rooted_names (p : string) :
  Forall (λ e, is_name e = true) (filepath.clean_elements true [] (filepath.elements p)).
Proof. apply clean_elements_rooted; [constructor|apply elements_no_sep]. Qed.

Lemma elements_abs_path (ns : list string) :
  Forall (λ e, is_name e = true) ns →
  filepath.elements (abs_path ns) = "" :: match ns with [] => [""] | _ => ns end.
Proof.
  intros Hns. destruct ns as [|n ns]; [done|].
  unfold abs_path. rewrite <- join_elements_absolute, elements_separator.
  by rewrite elements_join by (done || by apply is_name_no_sep).
Qed.

Lemma filter_names (ns : list string) :
  Forall (λ e, is_name e = true) ns → filter (λ e, e ≠ "") ns = ns.
Proof.
  induction 1 as [|n ns Hn _ IH]; [done|].
  rewrite filter_cons_True, IH; [done|]. by apply is_name_spec in Hn as (?&_).
Qed.

Lemma names_abs_path (ns : list string) :
  Forall (λ e, is_name e = true) ns → filepath.names (abs_path ns) = ns.
Proof.
  intros Hns. unfold filepath.names. rewrite elements_abs_path by done.
  rewrite filter_cons_False by naive_solver.
  destruct ns as [|n ns]; [done|]. by apply filter_names.
Qed.

Lemma is_rooted_abs_path (ns : list string) : filepath.is_rooted (abs_path ns) = true.
Proof. by destruct ns. Qed.

Lemma clean_elements_empty (rooted : bool) (stack es : list string) :
  filepath.clean_elements rooted stack ("" :: es) = filepath.clean_elements rooted stack es.
Proof. cbn [filepath.clean_elements]. by rewrite bool_decide_eq_true_2. Qed.

Lemma clean_elements_abs_path (ns rest stack : list string) :
  Forall (λ e, is_name e = true) ns →
  filepath.clean_elements true stack (filepath.elements (abs_path ns) ++ rest)
  = filepath.clean_elements true (rev ns ++ stack) rest.
Proof.
  intros Hns. rewrite elements_abs_path by done.
  destruct ns as [|n ns].
  - cbn [app]. by rewrite !clean_elements_empty.
  - by rewrite <- app_comm_cons, clean_elements_empty, clean_elements_names.
Qed.

Lemma Clean_abs_path (ns : list string) :
  Forall (λ e, is_name e = true) ns → filepath.Clean (abs_path ns) = abs_path ns.
Proof.
  intros Hns. rewrite Clean_rooted by apply is_rooted_abs_path.
  rewrite <- (List.app_nil_r (filepath.elements _)), clean_elements_abs_path by done.
  simpl. by rewrite List.app_nil_r, rev_involutive.
Qed.

Lemma abs_path_inj (ns ms : list string) :
  Forall (λ e, is_name e = true) ns → Forall (λ e, is_name e = true) ms →
  abs_path ns = abs_path ms → ns = ms.
Proof.
  intros Hns Hms H. apply (f_equal filepath.names) in H.
  by rewrite !names_abs_path in H.
Qed.

Lemma abs_path_not_nil (ns : list string) : abs_path ns ≠ "".
Proof. by destruct ns. Qed.

(** Joining a path to a cleaned absolute directory runs the stack of
    [Clean] over the elements of the path, starting from the directory. *)
Lemma Join_abs_path (dirs : list string) (p : string) :
  Forall (λ e, is_name e = true) dirs →
  filepath.Join [abs_path dirs; p]
  = abs_path (filepath.clean_elements true (rev dirs) (filepath.elements p)).
Proof.
  intros Hdirs. cbn [filepath.Join].
  rewrite bool_decide_eq_false_2 by apply abs_path_not_nil.
  change (filepath.join_elements [abs_path dirs; p]) with (abs_path dirs +:+ "/" +:+ p).
  rewrite Clean_rooted by (by destruct dirs).
  rewrite elements_app_sep, clean_elements_abs_path by done.
  by rewrite List.app_nil_r.
Qed.

Lemma Join_abs_path_names (dirs : list string) (p : string) :
  Forall (λ e, is_name e = true) dirs →
  Forall (λ e, is_name e = true)
    (filepath.clean_elements true (rev dirs) (filepath.elements p)).
Proof.
  intros Hdirs. apply clean_elements_rooted; [by apply Forall_rev|apply elements_no_sep].
Qed.

(** ** [Rel] and the security check on cleaned absolute paths *)

Lemma Rel_abs_path (dirs fs : list string) :
  Forall (λ e, is_name e = true) dirs → Forall (λ e, is_name e = true) fs →
  filepath.Rel (abs_path dirs) (abs_path fs)
  = if bool_decide (fs = dirs) then Some "."
    else filepath.join_elements <$> filepath.rel_elements dirs fs.
Proof.
  intros Hdirs Hfs. unfold filepath.Rel. rewrite !Clean_abs_path by done.
  case_bool_decide as Heq.
  - apply abs_path_inj in Heq; [|done..]. by rewrite bool_decide_eq_true_2.
  - rewrite (bool_decide_eq_false_2 (fs = dirs)) by (by intros ->).
    rewrite (bool_decide_eq_false_2 (abs_path dirs = ".")).
    2: { intros H. pose proof (is_rooted_abs_path dirs) as Hr. by rewrite H in Hr. }
    rewrite !is_rooted_abs_path. simpl. by rewrite !names_abs_path.
Qed.

(** Below a directory whose elements are names, [Rel] has no error: the
    target continues the directory, or the result begins with [..]. *)
Lemma rel_elements_names (dirs fs : list string) :
  Forall (λ e, is_name e = true) dirs →
  (∃ rest, fs = dirs ++ rest ∧ filepath.rel_elements dirs fs = Some rest)
  ∨ (∃ l, filepath.rel_elements dirs fs = Some (".." :: l)
        ∧ ∀ rest, fs ≠ dirs ++ rest).
Proof.
  intros Hdirs. revert fs. induction Hdirs as [|d dirs Hd _ IH]; intros fs.
  { left. by exists fs. }
  destruct fs as [|f fs]; [right; by eexists|].
  cbn [filepath.rel_elements]. case_bool_decide as Hdf.
  - subst f. destruct (IH fs) as [(rest & -> & Hrel)|(l & Hrel & Hno)].
    + left. by exists rest.
    + right. exists l. split; [done|]. intros rest Heq. simplify_eq/=. by eapply Hno.
  - right. rewrite bool_decide_eq_false_2 by (by intros ->).
    eexists. split; [done|]. intros rest Heq. by simplify_eq/=.
Qed.

Lemma HasPrefix_join_dotdot (l : list string) :
  strings.HasPrefix (filepath.join_elements (".." :: l)) ".." = true.
Proof. by destruct l. Qed.

Lemma HasPrefix_join_name (r : string) (rest : list string) :
  is_name r = true →
  strings.HasPrefix (filepath.join_elements (r :: rest)) ".." = strings.HasPrefix r "..".
Proof.
  intros Hr. destruct rest as [|r' rest]; [done|].
  change (filepath.join_elements (r :: r' :: rest))
    with (r +:+ "/" +:+ filepath.join_elements (r' :: rest)).
  destruct r as [|c [|c' r]]; [done| |].
  - simpl. case_bool_decide; [by subst|done].
  - by rewrite !string_app_cons.
Qed.

(** The check lets through the directory itself and what lies below it,
    unless the first name below it begins with two dots. *)
Lemma access_denied_abs_path (dirs fs : list string) :
  Forall (λ e, is_name e = true) dirs → Forall (λ e, is_name e = true) fs →
  access_denied (abs_path dirs) (abs_path fs) = false
  ↔ ∃ rest, fs = dirs ++ rest
      ∧ match rest with r :: _ => strings.HasPrefix r ".." = false | [] => True end.
Proof.
  intros Hdirs Hfs. unfold access_denied. rewrite Rel_abs_path by done.
  case_bool_decide as Heq.
  { subst fs. split; [|done]. intros _. exists []. by rewrite List.app_nil_r. }
  destruct (rel_elements_names dirs fs Hdirs) as [(rest & -> & ->)|(l & -> & Hno)].
  - apply Forall_app in Hfs as [_ Hrest]. cbn [fmap option_fmap option_map].
    destruct rest as [|r rest]; [by rewrite List.app_nil_r in Heq|].
    apply Forall_cons in Hrest as [Hr _]. rewrite HasPrefix_join_name by done.
    split.
    + intros H. by exists (r :: rest).
    + intros (rest' & Heq' & H). by apply app_inv_head in Heq' as <-.
  - cbn [fmap option_fmap option_map]. rewrite HasPrefix_join_dotdot. split; [done|].
    intros (rest & -> & _). by destruct (Hno rest).
Qed.

(** ** The security check of the handlers *)

Lemma access_denied_root (rootDir : string) : access_denied rootDir rootDir = false.
Proof. unfold access_denied, filepath.Rel. by rewrite bool_decide_eq_true_2. Qed.

(** A full path that is the root or is joined to it, and that passes the
    check, continues the root with names, the first of which does not
    begin with two dots. *)
Lemma below_root (dirs : list string) (p fullPath : string) :
  Forall (λ e, is_name e = true) dirs →
  fullPath = abs_path dirs ∨ fullPath = filepath.Join [abs_path dirs; p] →
  access_denied (abs_path dirs) fullPath = false →
  ∃ rest, Forall (λ e, is_name e = true) rest
    ∧ fullPath = abs_path (dirs ++ rest)
    ∧ match rest with r :: _ => strings.HasPrefix r ".." = false | [] => True end.
Proof.
  intros Hdirs [->| ->] Hcheck.
  { exists []. by rewrite List.app_nil_r. }
  rewrite Join_abs_path in Hcheck |- * by done.
  pose proof (Join_abs_path_names dirs p Hdirs) as Hnames.
  apply access_denied_abs_path in Hcheck as (rest & Heq & Hrest); [|done..].
  rewrite Heq in Hnames |- *. apply Forall_app in Hnames as [_ Hnames].
  by exists rest.
Qed.

Lemma resolve_below_root (route : string) (dirs : list string) (urlPath fullPath : string) :
  Forall (λ e, is_name e = true) dirs →
  resolve route (abs_path dirs) urlPath = inr fullPath →
  ∃ rest, Forall (λ e, is_name e = true) rest
    ∧ fullPath = abs_path (dirs ++ rest)
    ∧ match rest with r :: _ => strings.HasPrefix r ".." = false | [] => True end.
Proof.
  intros Hdirs. unfold resolve. cbv zeta.
  case_bool_decide; [done|].
  destruct (access_denied _ _) eqn:Hcheck; [done|]. intros [= <-].
  eapply below_root; [done| |done].
  destruct (_ || _); [by left|by right].
Qed.

(** The thumbnail of a file below the root lies below the root. *)
Lemma getThumbnailPath_below (dirs init : list string) (b : string) :
  Forall (λ e, is_name e = true) dirs → Forall (λ e, is_name e = true) init →
  is_name b = true →
  getThumbnailPath (abs_path (dirs ++ init ++ [b]))
  = abs_path (dirs ++ init ++ [".small"; b +:+ ".jpg"]).
Proof.
  intros Hdirs Hinit Hb. apply is_name_spec in Hb as (Hb & _ & _ & Hsep).
  rewrite !List.app_assoc.
  assert (∀ l x, abs_path (l ++ [x]) = absolute (l ++ [x])) as Habs
    by (intros l x; by destruct l).
  rewrite Habs, absolute_app. cbn [absolute]. rewrite string_app_nil_r.
  rewrite getThumbnailPath_absolute; [|by apply Forall_app|done..].
  by destruct (dirs ++ init).
Qed.

(** ** Cleaned relative paths *)

Lemma clean_elements_dotdots (k j : nat) (es : list string) :
  filepath.clean_elements false (replicate j "..") (replicate k ".." ++ es)
  = filepath.clean_elements false (replicate (k + j) "..") es.
Proof.
  revert j. induction k as [|k IH]; intros j; [done|].
  cbn [replicate app filepath.clean_elements].
  rewrite (bool_decide_eq_false_2 (".." = "")), (bool_decide_eq_false_2 (".." = ".")),
    (bool_decide_eq_true_2 (".." = "..")) by done.
  cbn [orb]. destruct j as [|j].
  - change (filepath.clean_elements false [".."] ?x)
      with (filepath.clean_elements false (replicate 1 "..") x).
    rewrite (IH 1). by rewrite Nat.add_1_r, Nat.add_0_r.
  - cbn [replicate]. rewrite bool_decide_eq_true_2 by done.
    change (filepath.clean_elements false (".." :: ".." :: replicate j "..") ?x)
      with (filepath.clean_elements false (replicate (S (S j)) "..") x).
    rewrite (IH (S (S j))). f_equal. f_equal. lia.
Qed.

Lemma clean_elements_all_names (rooted : bool) (stack ns : list string) :
  Forall (λ e, is_name e = true) ns →
  filepath.clean_elements rooted stack ns = rev stack ++ ns.
Proof.
  intros Hns. pose proof (clean_elements_names rooted ns stack [] Hns) as Hc.
  rewrite List.app_nil_r in Hc. rewrite Hc. cbn [filepath.clean_elements].
  by rewrite rev_app_distr, rev_involutive.
Qed.

Lemma clean_elements_snoc_name (rooted : bool) (es stack : list string) (n : string) :
  is_name n = true →
  filepath.clean_elements rooted stack (es ++ [n])
  = filepath.clean_elements rooted stack es ++ [n].
Proof.
  intros Hn. revert stack. induction es as [|e es IH]; intros stack.
  { apply is_name_spec in Hn as (H1 & H2 & H3 & _).
    cbn [app filepath.clean_elements]. by rewrite !bool_decide_eq_false_2 by done. }
  cbn [app filepath.clean_elements].
  destruct (_ || _); [apply IH|].
  destruct (bool_decide (e = "..")); [|apply IH].
  destruct stack as [|top below]; [destruct rooted; apply IH|].
  destruct (bool_decide (top = "..")); apply IH.
Qed.

Lemma dotdots_names_no_sep (k : nat) (ns : list string) :
  Forall (λ e, is_name e = true) ns →
  Forall (λ e, has_separator e = false) (replicate k ".." ++ ns).
Proof.
  intros Hns. apply Forall_app. split; [|by apply is_name_no_sep].
  by apply Forall_replicate.
Qed.

Lemma is_rooted_no_sep (e : string) : has_separator e = false → filepath.is_rooted e = false.
Proof. destruct e as [|c e]; [done|]. simpl. by intros [? _]%orb_false_elim. Qed.

Lemma is_rooted_app (e s : string) : e ≠ "" → filepath.is_rooted (e +:+ s) = filepath.is_rooted e.
Proof. by destruct e. Qed.

Lemma is_rooted_join (e : string) (es : list string) :
  e ≠ "" → filepath.is_rooted (filepath.join_elements (e :: es)) = filepath.is_rooted e.
Proof.
  intros He. destruct es as [|e' es]; [done|].
  change (filepath.join_elements (e :: e' :: es))
    with (e +:+ "/" +:+ filepath.join_elements (e' :: es)).
  by apply is_rooted_app.
Qed.

Lemma join_elements_not_nil (e : string) (es : list string) :
  e ≠ "" → filepath.join_elements (e :: es) ≠ "".
Proof. intros He. by destruct es, e. Qed.

(** The normal form of a relative path: [..] elements, then names. *)
Lemma hd_dotdots_names (k : nat) (ns : list string) :
  Forall (λ e, is_name e = true) ns → 0 < k + length ns →
  ∃ e es, replicate k ".." ++ ns = e :: es ∧ e ≠ "" ∧ has_separator e = false.
Proof.
  intros Hns Hlen. destruct k as [|k].
  - destruct Hns as [|n ns Hn Hns]; [simpl in Hlen; lia|].
    apply is_name_spec in Hn as (? & _ & _ & ?). by exists n, ns.
  - by exists "..", (replicate k ".." ++ ns).
Qed.

Lemma Clean_dotdots_names (k : nat) (ns : list string) :
  Forall (λ e, is_name e = true) ns → 0 < k + length ns →
  filepath.Clean (filepath.join_elements (replicate k ".." ++ ns))
  = filepath.join_elements (replicate k ".." ++ ns).
Proof.
  intros Hns Hlen.
  destruct (hd_dotdots_names k ns Hns Hlen) as (e & es & Heq & He & Hsep).
  assert (filepath.is_rooted (filepath.join_elements (replicate k ".." ++ ns)) = false)
    as Hr by (by rewrite Heq, is_rooted_join, is_rooted_no_sep).
  assert (filepath.join_elements (replicate k ".." ++ ns) ≠ "") as Hne
    by (rewrite Heq; by apply join_elements_not_nil).
  unfold filepath.Clean. rewrite Hr.
  rewrite elements_join; [|by rewrite Heq|by apply dotdots_names_no_sep].
  pose proof (clean_elements_dotdots k 0 ns) as Hd. cbn [replicate] in Hd.
  rewrite Hd. clear Hd.
  rewrite clean_elements_all_names by done.
  rewrite rev_replicate, Nat.add_0_r.
  by rewrite bool_decide_eq_false_2.
Qed.

Lemma Clean_relative (p : string) :
  filepath.is_rooted p = false →
  filepath.Clean p = "."
  ∨ ∃ k ns, Forall (λ e, is_name e = true) ns ∧ 0 < k + length ns
      ∧ filepath.Clean p = filepath.join_elements (replicate k ".." ++ ns).
Proof.
  intros Hp. unfold filepath.Clean. rewrite Hp.
  destruct (clean_elements_relative (filepath.elements p) [] 0)
    as (k & ns & Hns & Heq); [constructor|apply elements_no_sep|].
  cbn [replicate app] in Heq. rewrite Heq.
  case_bool_decide as Hnil; [by left|]. right. exists k, ns.
  split; [done|]. split; [|done].
  destruct k, ns; simpl in *; done || lia.
Qed.

(** A cleaned relative path joined to a cleaned absolute directory. *)
Lemma Join_dotdots_names (dirs : list string) (k : nat) (ns : list string) :
  Forall (λ e, is_name e = true) dirs → Forall (λ e, is_name e = true) ns →
  0 < k + length ns →
  filepath.Join [abs_path dirs; filepath.join_elements (replicate k ".." ++ ns)]
  = abs_path (filepath.clean_elements true (rev dirs) (replicate k ".." ++ ns)).
Proof.
  intros Hdirs Hns Hlen. rewrite Join_abs_path by done.
  destruct (hd_dotdots_names k ns Hns Hlen) as (e & es & Heq & _).
  rewrite elements_join; [done|by rewrite Heq|by apply dotdots_names_no_sep].
Qed.

Lemma Join_names (dirs ns : list string) :
  Forall (λ e, is_name e = true) dirs → Forall (λ e, is_name e = true) ns →
  ns ≠ [] →
  filepath.Join [abs_path dirs; filepath.join_elements ns] = abs_path (dirs ++ ns).
Proof.
  intros Hdirs Hns Hne.
  assert (0 < 0 + length ns) as Hlen by (destruct ns; simpl; done || lia).
  pose proof (Join_dotdots_names dirs 0 ns Hdirs Hns Hlen) as HJ.
  cbn [replicate app] in HJ. rewrite HJ, clean_elements_all_names by done.
  by rewrite rev_involutive.
Qed.

(** A name joined to a cleaned relative path. *)
Lemma Join_relative_name (k : nat) (ns : list string) (n : string) :
  Forall (λ e, is_name e = true) ns → 0 < k + length ns → is_name n = true →
  filepath.Join [filepath.join_elements (replicate k ".." ++ ns); n]
  = filepath.join_elements (replicate k ".." ++ ns ++ [n]).
Proof.
  intros Hns Hlen Hn.
  destruct (hd_dotdots_names k ns Hns Hlen) as (e & es & Heq & He & Hsep).
  cbn [filepath.Join]. rewrite bool_decide_eq_false_2
    by (rewrite Heq; by apply join_elements_not_nil).
  change (filepath.join_elements [?a; n]) with (a +:+ "/" +:+ n).
  assert (filepath.join_elements (replicate k ".." ++ ns) +:+ "/" +:+ n
          = filepath.join_elements (replicate k ".." ++ ns ++ [n])) as ->.
  { rewrite List.app_assoc, Heq. clear. revert e.
    induction es as [|e' es IH]; intros e; [done|].
    change (filepath.join_elements (e :: e' :: es))
      with (e +:+ "/" +:+ filepath.join_elements (e' :: es)).
    cbn [app].
    change (filepath.join_elements (e :: e' :: es ++ [n]))
      with (e +:+ "/" +:+ filepath.join_elements ((e' :: es) ++ [n])).
    by rewrite !string_app_assoc, <- IH. }
  apply Clean_dotdots_names; [|rewrite length_app; simpl; lia].
  apply Forall_app. split; [done|]. by constructor.
Qed.

(** ** The directories that [os.MkdirAll] goes through *)

Lemma Dir_abs_path_snoc (ns : list string) (x : string) :
  Forall (λ e, is_name e = true) ns → is_name x = true →
  filepath.Dir (abs_path (ns ++ [x])) = abs_path ns.
Proof.
  intros Hns Hx. apply is_name_spec in Hx as (_ & _ & _ & Hsep).
  assert (abs_path (ns ++ [x]) = absolute ns +:+ "/" +:+ x) as ->.
  { assert (abs_path (ns ++ [x]) = absolute (ns ++ [x])) as -> by (by destruct ns).
    rewrite absolute_app. cbn [absolute]. by rewrite string_app_nil_r. }
  by rewrite Dir_app, Clean_absolute_dir.
Qed.

Lemma rev_seq_snoc (n : nat) : rev (seq 1 (S n)) = S n :: rev (seq 1 n).
Proof. rewrite seq_S, rev_app_distr. done. Qed.

Lemma lineage_abs_path (ns : list string) :
  Forall (λ e, is_name e = true) ns → ns ≠ [] →
  lineage (abs_path ns) = (λ j, abs_path (take j ns)) <$> rev (seq 1 (length ns)).
Proof.
  intros Hns Hne. unfold lineage. rewrite is_rooted_abs_path, names_abs_path by done.
  destruct ns as [|n ns]; [done|].
  apply list_fmap_ext. intros _ j _. apply abs_path_join.
Qed.

Lemma lineage_abs_path_nil : lineage (abs_path []) = ["/"].
Proof. reflexivity. Qed.

(** The directory itself comes first, and the directories above it
    follow, up to the one below the root directory. *)
Lemma lineage_abs_path_snoc (ns : list string) (x : string) :
  Forall (λ e, is_name e = true) ns → is_name x = true →
  lineage (abs_path (ns ++ [x]))
  = abs_path (ns ++ [x]) :: match ns with [] => [] | _ => lineage (abs_path ns) end.
Proof.
  intros Hns Hx.
  rewrite (lineage_abs_path (ns ++ [x]))
    by ((apply Forall_app; split; [done|by constructor]) || by destruct ns).
  rewrite length_app. cbn [length]. rewrite Nat.add_1_r, rev_seq_snoc. cbn [fmap list_fmap].
  f_equal.
  - f_equal. apply take_ge. rewrite length_app. simpl. lia.
  - destruct ns as [|n ns']; [done|]. rewrite lineage_abs_path by done.
    apply list_fmap_ext. intros i j Hj. f_equal.
    apply list_elem_of_lookup_2 in Hj. apply list_elem_of_In, in_rev, in_seq in Hj.
    rewrite take_app_le by lia. done.
Qed.

(** Below a directory [dirs], the lineage of a directory runs through
    directories below [dirs] before it comes to [dirs]. *)
Lemma lineage_below (dirs rest : list string) (k : string) (l1 l2 : list string) :
  Forall (λ e, is_name e = true) dirs → Forall (λ e, is_name e = true) rest →
  lineage (abs_path (dirs ++ rest)) = l1 ++ k :: l2 →
  abs_path dirs ∉ l1 → k ≠ abs_path dirs →
  ∃ r, r ≠ [] ∧ Forall (λ e, is_name e = true) r ∧ k = abs_path (dirs ++ r).
Proof.
  intros Hdirs. revert l1.
  induction rest as [|x rest IH] using rev_ind; intros l1 Hrest Hl Hnot Hne.
  - rewrite List.app_nil_r in Hl.
    assert (∃ l, lineage (abs_path dirs) = abs_path dirs :: l) as [l Hhd].
    { destruct dirs as [|d dirs _] using rev_ind; [by exists []|].
      apply Forall_app in Hdirs as [Hd Hx]. apply Forall_cons in Hx as [Hx _].
      rewrite lineage_abs_path_snoc by done. by eexists. }
    rewrite Hhd in Hl. destruct l1 as [|y l1]; simplify_eq/=.
    destruct Hnot. apply list_elem_of_here.
  - apply Forall_app in Hrest as [Hrest Hx]. apply Forall_cons in Hx as [Hx _].
    rewrite List.app_assoc, lineage_abs_path_snoc in Hl by (done || by apply Forall_app).
    destruct l1 as [|y l1]; simplify_eq/=.
    + exists (rest ++ [x]). split; [by destruct rest|].
      split; [|by rewrite List.app_assoc].
      apply Forall_app. split; [done|by constructor].
    + destruct (dirs ++ rest) as [|z zs] eqn:Hzs; [by destruct l1|].
      rewrite <- Hzs in *. apply (IH l1); [done|done| |done].
      intros Hin. apply Hnot. by apply list_elem_of_further.
Qed.

(** [os.MkdirAll] makes directories on its way down to its path only
    where nothing was, and not above a path that [os.Stat] can read. *)
Lemma mkdir_chain_made_below (ok : bool) (chain : list string) (fs fs1 : gmap string entry)
    (e : option error) (k : string) :
  mkdir_chain ok fs chain = (e, fs1) → fs1 !! k ≠ fs !! k →
  ∃ l1 l2, chain = l1 ++ k :: l2
    ∧ Forall (λ x, Stat fs x ≠ StatOK) l1
    ∧ fs !! k = None ∧ fs1 !! k = Some Directory.
Proof.
  revert fs1 e. induction chain as [|path above IH]; intros fs1 e H Hk.
  { by simplify_eq/=. }
  simpl in H.
  assert (Stat fs path ≠ StatOK →
          match mkdir_chain ok fs above with
          | (Some e0, fs') => (Some e0, fs')
          | (None, fs') => Mkdir ok fs' path
          end = (e, fs1) →
          ∃ l1 l2, path :: above = l1 ++ k :: l2
            ∧ Forall (λ x, Stat fs x ≠ StatOK) l1
            ∧ fs !! k = None ∧ fs1 !! k = Some Directory) as Hrec.
  { intros Hpath H'.
    assert (fs1 !! k ≠ fs !! k →
            ∀ e0, mkdir_chain ok fs above = (e0, fs1) →
            ∃ l1 l2, path :: above = l1 ++ k :: l2
              ∧ Forall (λ x, Stat fs x ≠ StatOK) l1
              ∧ fs !! k = None ∧ fs1 !! k = Some Directory) as Hup.
    { intros Hne e0 Habove.
      destruct (IH _ _ Habove Hne) as (l1 & l2 & -> & Hl1 & ? & ?).
      exists (path :: l1), l2. split; [done|]. split; [by constructor|done]. }
    destruct (mkdir_chain ok fs above) as [[e0|] fs0] eqn:Habove.
    { simplify_eq. by eapply Hup. }
    unfold Mkdir in H'.
    destruct (fs0 !! path) as [x|] eqn:Hfs0; [simplify_eq; by eapply Hup|].
    destruct ok; [|simplify_eq; by eapply Hup]. simplify_eq.
    destruct (decide (k = path)) as [->|Hne].
    - exists [], above. split; [done|]. split; [constructor|].
      rewrite lookup_insert_eq. split; [|done].
      destruct (mkdir_chain_extends _ _ _ _ _ path Habove) as [<-|(_ & ? & _)]; congruence.
    - rewrite lookup_insert_ne in Hk |- * by done.
      destruct (IH _ _ eq_refl Hk) as (l1 & l2 & -> & Hl1 & ? & ?).
      exists (path :: l1), l2. split; [done|]. split; [by constructor|done]. }
  unfold Stat in Hrec.
  destruct (fs !! path) as [[]|] eqn:Hpath; simplify_eq; try done; by apply Hrec.
Qed.

Lemma MkdirAll_made_below (ok : bool) (path : string) (fs fs1 : gmap string entry)
    (e : option error) (k : string) :
  MkdirAll ok fs path = (e, fs1) → fs1 !! k ≠ fs !! k →
  ∃ l1 l2, lineage path = l1 ++ k :: l2
    ∧ Forall (λ x, Stat fs x ≠ StatOK) l1
    ∧ fs !! k = None ∧ fs1 !! k = Some Directory.
Proof.
  unfold MkdirAll. case_bool_decide; [by intros [= <- <-]|].
  apply mkdir_chain_made_below.
Qed.

(** ** What the handlers let through *)

(** The request for the names [rest] below the root. *)
Lemma resolve_names (route : string) (dirs rest : list string) (r : string)
    (rest' : list string) :
  Forall (λ e, is_name e = true) dirs → Forall (λ e, is_name e = true) rest →
  rest = r :: rest' →
  resolve route (abs_path dirs) (route +:+ "/" +:+ filepath.join_elements rest)
  = if strings.HasPrefix r ".." then inl AccessDenied
    else inr (abs_path (dirs ++ rest)).
Proof.
  intros Hdirs Hrest Heq.
  assert (rest ≠ []) as Hne by (by rewrite Heq).
  assert (0 < 0 + length rest) as Hlen by (rewrite Heq; simpl; lia).
  pose proof (Clean_dotdots_names 0 rest Hrest Hlen) as Hclean.
  destruct (hd_dotdots_names 0 rest Hrest Hlen) as (e & es & Heq' & He & Hsep).
  cbn [replicate app] in Hclean, Heq'.
  set (j := filepath.join_elements rest) in *.
  assert (filepath.is_rooted j = false) as Hrooted
    by (unfold j; by rewrite Heq', is_rooted_join, is_rooted_no_sep).
  assert (j ≠ "") as Hj by (unfold j; rewrite Heq'; by apply join_elements_not_nil).
  assert (j ≠ ".") as Hdot.
  { intros Hj'. pose proof (elements_join rest Hne (is_name_no_sep _ Hrest)) as Hel.
    fold j in Hel. rewrite Hj' in Hel. simpl in Hel. rewrite <- Hel in Hrest.
    apply Forall_cons in Hrest as [Hname _]. by vm_compute in Hname. }
  unfold resolve. cbv zeta. rewrite TrimPrefix_app.
  change ("/" +:+ j) with (String "/" j).
  change (strings.TrimPrefix (String "/" j) "/") with j.
  rewrite (bool_decide_eq_false_2 (j = "")) by done.
  unfold filepath.FromSlash. rewrite Hclean.
  rewrite (bool_decide_eq_false_2 (j = ".")) by done.
  rewrite (bool_decide_eq_false_2 (j = "/")) by (by intros Hj'; rewrite Hj' in Hrooted).
  rewrite (bool_decide_eq_false_2 (j = "")) by done. cbn [orb].
  unfold j. rewrite Join_names by done.
  destruct (access_denied _ _) eqn:Hcheck.
  - destruct (strings.HasPrefix r "..") eqn:Hr; [done|].
    assert (access_denied (abs_path dirs) (abs_path (dirs ++ rest)) = false) as Hno.
    { apply access_denied_abs_path; [done|by apply Forall_app|].
      exists rest. by rewrite Heq. }
    by rewrite Hno in Hcheck.
  - apply access_denied_abs_path in Hcheck as (rest0 & Heq0 & Hhd);
      [|done|by apply Forall_app].
    apply app_inv_head in Heq0 as <-. rewrite Heq in Hhd. by rewrite Hhd.
Qed.

Lemma resolve_reply (route rootDir urlPath : string) (r : reply) :
  resolve route rootDir urlPath = inl r → r = PathRequired ∨ r = AccessDenied.
Proof.
  unfold resolve. cbv zeta. case_bool_decide; [intros [= <-]; by left|].
  destruct (access_denied _ _); [intros [= <-]; by right|done].
Qed.

(** X1.  Below a root directory that is a cleaned absolute path, a request
    that [handleThumbnail] lets through goes on with the root or with a
    cleaned path below it, whose first name below the root does not begin
    with two dots; and the thumbnail of a path below the root lies below
    the root, in the [.small] directory beside the file. *)
Theorem handleThumbnail_below_root (dirs : list string) (urlPath : string) (a : action) :
  Forall (λ e, is_name e = true) dirs →
  handleThumbnail (abs_path dirs) urlPath = inr a →
  ∃ rest, Forall (λ e, is_name e = true) rest
    ∧ a = Request (abs_path (dirs ++ rest))
    ∧ match rest with r :: _ => strings.HasPrefix r ".." = false | [] => True end
    ∧ ∀ init b, rest = init ++ [b] →
        getThumbnailPath (abs_path (dirs ++ rest))
        = abs_path (dirs ++ init ++ [".small"; b +:+ ".jpg"]).
Proof.
  intros Hdirs. unfold handleThumbnail.
  destruct (resolve _ _ _) as [r|fullPath] eqn:Hres; [done|]. intros [= <-].
  destruct (resolve_below_root _ _ _ _ Hdirs Hres) as (rest & Hrest & -> & Hhd).
  exists rest. repeat apply conj; try done.
  intros init b ->. apply Forall_app in Hrest as [Hinit Hb].
  apply Forall_cons in Hb as [Hb _]. by apply getThumbnailPath_below.
Qed.

Lemma handleThumbnail_below_root_witness :
  ∃ rest, Forall (λ e, is_name e = true) rest
    ∧ Request "/srv/pics/2024/beach.jpg" = Request (abs_path (["srv"; "pics"] ++ rest))
    ∧ match rest with r :: _ => strings.HasPrefix r ".." = false | [] => True end
    ∧ ∀ init b, rest = init ++ [b] →
        getThumbnailPath (abs_path (["srv"; "pics"] ++ rest))
        = abs_path (["srv"; "pics"] ++ init ++ [".small"; b +:+ ".jpg"]).
Proof.
  apply (handleThumbnail_below_root ["srv"; "pics"] "/api/thumbnail/2024/beach.jpg").
  - repeat constructor.
  - reflexivity.
Defined.

(** X2.  [handleThumbnail] on the names [rest] below the root: the request
    goes on with the path of these names below the root, unless the first
    of them begins with two dots; then it is refused, although the file
    lies below the root. *)
Theorem handleThumbnail_names (dirs rest : list string) (r : string) (rest' : list string) :
  Forall (λ e, is_name e = true) dirs → Forall (λ e, is_name e = true) rest →
  rest = r :: rest' →
  handleThumbnail (abs_path dirs) ("/api/thumbnail/" +:+ filepath.join_elements rest)
  = if strings.HasPrefix r ".." then inl AccessDenied
    else inr (Request (abs_path (dirs ++ rest))).
Proof.
  intros Hdirs Hrest Heq. unfold handleThumbnail.
  change ("/api/thumbnail/" +:+ ?x) with ("/api/thumbnail" +:+ "/" +:+ x).
  rewrite (resolve_names _ _ _ _ _ Hdirs Hrest Heq).
  by destruct (strings.HasPrefix r "..").
Qed.

Lemma handleThumbnail_names_witness :
  handleThumbnail "/srv/pics" "/api/thumbnail/..old/beach.jpg" = inl AccessDenied.
Proof.
  apply (handleThumbnail_names ["srv"; "pics"] ["..old"; "beach.jpg"] "..old" ["beach.jpg"]).
  - repeat constructor.
  - repeat constructor.
  - reflexivity.
Defined.

(** X3.  A request whose path cleans to [.] is let through by
    [handleThumbnail] as a request for the root directory itself, whatever
    the root is; the thumbnail that is looked up for the root [dirs/d]
    is [dirs/.small/d.jpg], beside the root and not below it. *)
Theorem handleThumbnail_root (rootDir rawPath : string) :
  rawPath ≠ "" → filepath.Clean rawPath = "." →
  handleThumbnail rootDir ("/api/thumbnail/" +:+ rawPath) = inr (Request rootDir)
  ∧ ∀ dirs d, Forall (λ e, is_name e = true) (dirs ++ [d]) →
      rootDir = abs_path (dirs ++ [d]) →
      getThumbnailPath rootDir = abs_path (dirs ++ [".small"; d +:+ ".jpg"]).
Proof.
  intros Hraw Hclean. split.
  - unfold handleThumbnail, resolve. cbv zeta.
    change ("/api/thumbnail/" +:+ rawPath) with ("/api/thumbnail" +:+ String "/" rawPath).
    rewrite TrimPrefix_app.
    change (strings.TrimPrefix (String "/" rawPath) "/") with rawPath.
    rewrite (bool_decide_eq_false_2 (rawPath = "")) by done.
    unfold filepath.FromSlash. rewrite Hclean.
    rewrite (bool_decide_eq_true_2 ("." = ".")), (bool_decide_eq_true_2 ("/" = "/")) by done.
    cbn [orb]. by rewrite access_denied_root.
  - intros dirs d Hnames ->. apply Forall_app in Hnames as [Hdirs Hd].
    apply Forall_cons in Hd as [Hd _].
    apply (getThumbnailPath_below [] dirs d); [constructor|done..].
Qed.

Lemma handleThumbnail_root_witness :
  handleThumbnail "/srv/pics" "/api/thumbnail/." = inr (Request "/srv/pics")
  ∧ ∀ dirs d, Forall (λ e, is_name e = true) (dirs ++ [d]) →
      "/srv/pics" = abs_path (dirs ++ [d]) →
      getThumbnailPath "/srv/pics" = abs_path (dirs ++ [".small"; d +:+ ".jpg"]).
Proof. apply (handleThumbnail_root "/srv/pics" "."); [discriminate|reflexivity]. Defined.

(** X4.  [handlePreview] runs a tool only on a file that is the root or lies
    below it and that [os.Stat] does not report missing, and whose lower-case
    extension is in the table of the tool: [ffmpeg], with a video content
    type, for a movie, and [vipsthumbnail], with a JPEG content type and
    after the file was opened, for an image. *)
Theorem handlePreview_stream (dirs : list string) (d : gmap string entry) (open_ok : bool)
    (urlPath contentType : string) (t : tool) (input : string) :
  Forall (λ e, is_name e = true) dirs →
  handlePreview (abs_path dirs) d open_ok urlPath = Stream contentType t input →
  (∃ rest, Forall (λ e, is_name e = true) rest
     ∧ input = abs_path (dirs ++ rest)
     ∧ match rest with r :: _ => strings.HasPrefix r ".." = false | [] => True end)
  ∧ d !! input ≠ None
  ∧ media_class input = Some (match t with Ffmpeg => Movie | Vips => Image end)
  ∧ contentType = match t with Ffmpeg => "video/mp2t" | Vips => "image/jpeg" end
  ∧ (t = Vips → open_ok = true).
Proof.
  intros Hdirs. unfold handlePreview.
  destruct (resolve _ _ _) as [r|fullPath] eqn:Hres.
  { intros ->. by destruct (resolve_reply _ _ _ _ Hres). }
  pose proof (resolve_below_root _ _ _ _ Hdirs Hres) as Hbelow.
  destruct (IsNotExist (Stat d fullPath)) eqn:Hstat; [done|].
  assert (d !! fullPath ≠ None) as Hd.
  { intros Hd. unfold Stat in Hstat. by rewrite Hd in Hstat. }
  cbv zeta.
  destruct (index movieExtensions _) eqn:Hm.
  - rewrite andb_false_r. intros [= <- <- <-].
    repeat apply conj; try done; by apply media_class_movie.
  - rewrite andb_true_r.
    destruct (index imageExtensions _) eqn:Hi; [|done]. cbn [negb].
    destruct open_ok; [|done]. intros [= <- <- <-].
    repeat apply conj; try done; by apply media_class_image.
Qed.

Lemma handlePreview_stream_witness :
  (∃ rest, Forall (λ e, is_name e = true) rest
     ∧ "/srv/pics/clip.MOV" = abs_path (["srv"; "pics"] ++ rest)
     ∧ match rest with r :: _ => strings.HasPrefix r ".." = false | [] => True end)
  ∧ disk ["/srv/pics/clip.MOV"] !! "/srv/pics/clip.MOV" ≠ None
  ∧ media_class "/srv/pics/clip.MOV" = Some Movie
  ∧ "video/mp2t" = "video/mp2t"
  ∧ (Ffmpeg = Vips → true = true).
Proof.
  apply (handlePreview_stream ["srv"; "pics"] (disk ["/srv/pics/clip.MOV"]) true
           "/api/preview/clip.MOV" "video/mp2t" Ffmpeg "/srv/pics/clip.MOV").
  - repeat constructor.
  - reflexivity.
Defined.

(** X5.  [handleStatic] serves only a file that is the root or lies below
    it, and that [os.Stat] does not report missing. *)
Theorem handleStatic_below_root (dirs : list string) (d : gmap string entry)
    (urlPath fullPath : string) :
  Forall (λ e, is_name e = true) dirs →
  handleStatic (abs_path dirs) d urlPath = File fullPath →
  (∃ rest, Forall (λ e, is_name e = true) rest
     ∧ fullPath = abs_path (dirs ++ rest)
     ∧ match rest with r :: _ => strings.HasPrefix r ".." = false | [] => True end)
  ∧ d !! fullPath ≠ None.
Proof.
  intros Hdirs. unfold handleStatic. cbv zeta.
  case_bool_decide; [done|].
  match goal with |- context [access_denied _ ?p] => set (fp := p) end.
  destruct (access_denied _ fp) eqn:Hcheck; [done|].
  destruct (IsNotExist (Stat d fp)) eqn:Hstat; [done|]. intros [= <-]. split.
  - eapply (below_root dirs); [done| |done].
    unfold fp. case_bool_decide; [by left|by right].
  - intros Hd. unfold Stat in Hstat. by rewrite Hd in Hstat.
Qed.

Lemma handleStatic_below_root_witness :
  (∃ rest, Forall (λ e, is_name e = true) rest
     ∧ "/srv/pics/css/site.css" = abs_path (["srv"; "pics"] ++ rest)
     ∧ match rest with r :: _ => strings.HasPrefix r ".." = false | [] => True end)
  ∧ disk ["/srv/pics/css/site.css"] !! "/srv/pics/css/site.css" ≠ None.
Proof.
  apply (handleStatic_below_root ["srv"; "pics"] (disk ["/srv/pics/css/site.css"])
           "/static/css/site.css").
  - repeat constructor.
  - reflexivity.
Defined.

(** ** The thumbnail path of any source path *)

Lemma Split_snd_no_sep (s : string) : has_separator (snd (filepath.Split s)) = false.
Proof.
  induction s as [|c s IH]; [done|]. simpl.
  destruct (filepath.Split s) as [d f]. simpl in IH.
  destruct d; [|done].
  destruct (filepath.IsPathSeparator c) eqn:Hc; [done|]. simpl. by rewrite Hc.
Qed.

(** [Base] answers the root, or an element of the path. *)
Lemma Base_cases (p : string) :
  filepath.Base p = "/"
  ∨ (filepath.Base p ≠ "" ∧ has_separator (filepath.Base p) = false).
Proof.
  unfold filepath.Base. case_bool_decide; [by right|].
  case_bool_decide; [by left|]. right. split; [done|apply Split_snd_no_sep].
Qed.

Lemma clean_elements_app_empty (rooted : bool) (stack es rest : list string) :
  filepath.clean_elements rooted stack (es ++ "" :: rest)
  = filepath.clean_elements rooted stack (es ++ rest).
Proof.
  revert stack. induction es as [|e es IH]; intros stack.
  { cbn [app]. apply clean_elements_empty. }
  cbn [app filepath.clean_elements].
  destruct (_ || _); [apply IH|].
  destruct (bool_decide (e = "..")); [|apply IH].
  destruct stack as [|top below]; [destruct rooted; apply IH|].
  destruct (bool_decide (top = "..")); apply IH.
Qed.

Lemma Clean_skip_separator (t x : string) :
  t ≠ "" → filepath.Clean (t +:+ "/" +:+ "/" +:+ x) = filepath.Clean (t +:+ "/" +:+ x).
Proof.
  intros Ht. unfold filepath.Clean. rewrite !is_rooted_app by done.
  rewrite !elements_app_sep.
  change (filepath.elements ("/" +:+ x)) with ("" :: filepath.elements x).
  by rewrite clean_elements_app_empty.
Qed.

Lemma Clean_trailing_separator (t : string) :
  t ≠ "" → filepath.Clean (t +:+ "/") = filepath.Clean t.
Proof.
  intros Ht. unfold filepath.Clean. rewrite !is_rooted_app by done.
  rewrite <- (string_app_nil_r (t +:+ "/")), string_app_assoc, elements_app_sep.
  change (filepath.elements "") with [""].
  by rewrite clean_elements_app_empty, List.app_nil_r.
Qed.

Lemma Join_skip_separator (t x : string) :
  t ≠ "" → filepath.Join [t; "/" +:+ x] = filepath.Join [t; x].
Proof.
  intros Ht. cbn [filepath.Join]. rewrite bool_decide_eq_false_2 by done.
  change (filepath.join_elements [t; "/" +:+ x]) with (t +:+ "/" +:+ "/" +:+ x).
  change (filepath.join_elements [t; x]) with (t +:+ "/" +:+ x).
  by apply Clean_skip_separator.
Qed.

(** [Dir] answers a cleaned path. *)
Lemma Dir_cases (p : string) :
  (∃ ns, Forall (λ e, is_name e = true) ns ∧ filepath.Dir p = abs_path ns)
  ∨ filepath.Dir p = "."
  ∨ ∃ k ns, Forall (λ e, is_name e = true) ns ∧ 0 < k + length ns
      ∧ filepath.Dir p = filepath.join_elements (replicate k ".." ++ ns).
Proof.
  unfold filepath.Dir. destruct (filepath.is_rooted (filepath.Split p).1) eqn:Hr.
  - left. eexists. split; [apply Clean_rooted_names|by apply Clean_rooted].
  - right. by apply Clean_relative.
Qed.

Lemma join_elements_snoc (es : list string) (x : string) :
  es ≠ [] →
  filepath.join_elements (es ++ [x]) = filepath.join_elements es +:+ "/" +:+ x.
Proof.
  intros Hne. induction es as [|e es IH]; [done|].
  destruct es as [|e' es]; [done|].
  change (filepath.join_elements ((e :: e' :: es) ++ [x]))
    with (e +:+ "/" +:+ filepath.join_elements ((e' :: es) ++ [x])).
  rewrite IH by done.
  change (filepath.join_elements (e :: e' :: es))
    with (e +:+ "/" +:+ filepath.join_elements (e' :: es)).
  by rewrite !string_app_assoc.
Qed.

Lemma join_dotdots_names_not_nil (k : nat) (ns : list string) :
  Forall (λ e, is_name e = true) ns → 0 < k + length ns →
  filepath.join_elements (replicate k ".." ++ ns) ≠ "".
Proof.
  intros Hns Hlen. destruct (hd_dotdots_names k ns Hns Hlen) as (e & es & -> & He & _).
  by apply join_elements_not_nil.
Qed.

(** The thumbnail path of any source path is a cleaned path that ends in
    a name, in the directory [.small]. *)
Lemma getThumbnailPath_cases (p : string) :
  ∃ x, is_name x = true
    ∧ ((∃ ns, Forall (λ e, is_name e = true) ns
          ∧ getThumbnailPath p = abs_path ((ns ++ [".small"]) ++ [x]))
       ∨ (∃ k ns, Forall (λ e, is_name e = true) ns
            ∧ getThumbnailPath p
              = filepath.join_elements (replicate k ".." ++ (ns ++ [".small"]) ++ [x]))).
Proof.
  assert (∃ x, is_name x = true
            ∧ ∀ t, t ≠ "" → filepath.Join [t; filepath.Base p +:+ ".jpg"]
                            = filepath.Join [t; x]) as (x & Hx & HJ).
  { destruct (Base_cases p) as [->|[_ Hsep]].
    - exists ".jpg". split; [done|]. intros t Ht. by apply Join_skip_separator.
    - exists (filepath.Base p +:+ ".jpg"). split; [by apply is_name_jpg|done]. }
  exists x. split; [done|]. unfold getThumbnailPath.
  assert (is_name ".small" = true) as Hsmall by done.
  destruct (Dir_cases p) as [(ns & Hns & ->)|[->|(k & ns & Hns & Hlen & ->)]].
  - left. exists ns. split; [done|].
    pose proof (Join_names ns [".small"] Hns) as H1. cbn [filepath.join_elements] in H1.
    rewrite H1 by (by repeat constructor).
    rewrite HJ by apply abs_path_not_nil.
    pose proof (Join_names (ns ++ [".small"]) [x]) as H2.
    cbn [filepath.join_elements] in H2. apply H2; [|by repeat constructor|done].
    apply Forall_app. split; [done|by repeat constructor].
  - right. exists 0, []. split; [done|].
    change (filepath.Join ["."; ".small"]) with ".small".
    rewrite HJ by done.
    by apply (Join_relative_name 0 [".small"] x); [repeat constructor|simpl; lia|].
  - right. exists k, ns. split; [done|].
    rewrite (Join_relative_name k ns ".small") by done.
    assert (Forall (λ e, is_name e = true) (ns ++ [".small"])) as Hns'
      by (apply Forall_app; split; [done|by repeat constructor]).
    assert (0 < k + length (ns ++ [".small"])) as Hlen'
      by (rewrite length_app; simpl; lia).
    rewrite HJ by (by apply join_dotdots_names_not_nil).
    by apply Join_relative_name.
Qed.

Lemma Dir_join_snoc (k : nat) (ns : list string) (x : string) :
  Forall (λ e, is_name e = true) ns → 0 < k + length ns → is_name x = true →
  filepath.Dir (filepath.join_elements (replicate k ".." ++ ns ++ [x]))
  = filepath.join_elements (replicate k ".." ++ ns).
Proof.
  intros Hns Hlen Hx. apply is_name_spec in Hx as (_ & _ & _ & Hsep).
  assert (replicate k ".." ++ ns ≠ []) as Hne
    by (destruct k, ns; simpl in *; done || lia).
  rewrite List.app_assoc, join_elements_snoc, Dir_app by done.
  rewrite Clean_trailing_separator by (by apply join_dotdots_names_not_nil).
  by apply Clean_dotdots_names.
Qed.

Lemma lineage_relative (k : nat) (ns : list string) :
  Forall (λ e, is_name e = true) ns → 0 < k + length ns →
  lineage (filepath.join_elements (replicate k ".." ++ ns))
  = (λ j, filepath.join_elements (take j (replicate k ".." ++ ns)))
    <$> rev (seq 1 (length (replicate k ".." ++ ns))).
Proof.
  intros Hns Hlen.
  destruct (hd_dotdots_names k ns Hns Hlen) as (e & es & Heq & He & Hsep).
  assert (filepath.names (filepath.join_elements (replicate k ".." ++ ns))
          = replicate k ".." ++ ns) as Hnames.
  { unfold filepath.names.
    rewrite elements_join; [|by rewrite Heq|by apply dotdots_names_no_sep].
    rewrite filter_app, (filter_names ns Hns). f_equal.
    clear. induction k as [|k IH]; [done|]. simpl.
    by rewrite filter_cons_True, IH. }
  unfold lineage. rewrite Hnames.
  by rewrite Heq, is_rooted_join, is_rooted_no_sep, <- Heq.
Qed.

(** [os.MkdirAll] on the directory of a thumbnail does not come to the
    thumbnail path itself. *)
Lemma thumbnail_not_in_lineage (p : string) :
  getThumbnailPath p ∉ lineage (filepath.Dir (getThumbnailPath p)).
Proof.
  destruct (getThumbnailPath_cases p)
    as (x & Hx & [(ns & Hns & ->)|(k & ns & Hns & ->)]).
  - assert (Forall (λ e, is_name e = true) (ns ++ [".small"])) as Hns'
      by (apply Forall_app; split; [done|by repeat constructor]).
    rewrite Dir_abs_path_snoc, lineage_abs_path by (done || by destruct ns).
    intros (j & Hj & _)%list_elem_of_fmap.
    apply abs_path_inj in Hj;
      [|apply Forall_app; split; [done|by repeat constructor]|by apply Forall_take].
    apply (f_equal length) in Hj. rewrite length_app, length_take in Hj.
    simpl in Hj. lia.
  - assert (Forall (λ e, is_name e = true) (ns ++ [".small"])) as Hns'
      by (apply Forall_app; split; [done|by repeat constructor]).
    assert (0 < k + length (ns ++ [".small"])) as Hlen
      by (rewrite length_app; simpl; lia).
    rewrite Dir_join_snoc, lineage_relative by done.
    intros (j & Hj & Hin)%list_elem_of_fmap.
    apply list_elem_of_In, in_rev, in_seq in Hin.
    pose proof (dotdots_names_no_sep k _ Hns') as Hsep.
    assert (has_separator x = false) as Hxsep
      by (by apply is_name_spec in Hx as (_ & _ & _ & ?)).
    apply (f_equal filepath.elements) in Hj.
    rewrite List.app_assoc in Hj.
    rewrite !elements_join in Hj.
    + apply (f_equal length) in Hj. rewrite length_app, length_take in Hj.
      simpl in Hj. lia.
    + intros Hnil. apply (f_equal length) in Hnil. rewrite length_take in Hnil.
      simpl in Hnil. lia.
    + by apply Forall_take.
    + by destruct (replicate k ".." ++ ns ++ [".small"]).
    + apply Forall_app. split; [done|by repeat constructor].
Qed.

(** ** Failed generations *)

(** C6, as stated, fails: [generateThumbnail] removes nothing after a
    failed [cmd.Run], so a tool that fails after it has written to the
    thumbnail path leaves a file there.  The waiting request and the next
    request for the same image are then answered with that file, and the
    tool does not run again. *)
Lemma failed_generation_leaves_thumbnail :
  ∃ s,
    Stat (disk ["/srv/a.jpg"]) (getThumbnailPath "/srv/a.jpg") = StatNotExist
    ∧ generateThumbnail tool_fails_midway (disk ["/srv/a.jpg"]) "/srv/a.jpg"
      = (Some ErrRun,
         <["/srv/.small/a.jpg.jpg" := Regular]>
           (<["/srv/.small" := Directory]> (disk ["/srv/a.jpg"])),
         [Command Vips "/srv/a.jpg" "/srv/.small/a.jpg.jpg" false])
    ∧ generateThumbnail all_ok
        (<["/srv/.small/a.jpg.jpg" := Regular]>
           (<["/srv/.small" := Directory]> (disk ["/srv/a.jpg"])))
        "/srv/a.jpg"
      = (None,
         <["/srv/.small/a.jpg.jpg" := Regular]>
           (<["/srv/.small" := Directory]> (disk ["/srv/a.jpg"])),
         [])
    ∧ run (main (disk ["/srv/a.jpg"])) failure_left_behind = Some s
    ∧ logged s = [(Image, "/srv/a.jpg", ErrRun)]
    ∧ Stat (fs s) (getThumbnailPath "/srv/a.jpg") = StatOK
    ∧ handlers s = [HDone (ServeFile "/srv/.small/a.jpg.jpg");
                    HDone (ServeFile "/srv/.small/a.jpg.jpg")]
    ∧ commands s = [Command Vips "/srv/a.jpg" "/srv/.small/a.jpg.jpg" false].
Proof.
  set (s := default (main ∅) (run (main (disk ["/srv/a.jpg"])) failure_left_behind)).
  exists s. repeat apply conj; vm_compute; reflexivity.
Qed.

(** The shape of a call of [generateThumbnail] that returns an error:
    after [os.MkdirAll], either no tool has run, or the tool of the class
    has failed, with or without a file at the thumbnail path. *)
Lemma generateThumbnail_failed (o : outcome) (d d' : gmap string entry) (p : string)
    (err : error) (cmds : list command) :
  generateThumbnail o d p = (Some err, d', cmds) →
  ∃ e fs1,
    MkdirAll (mkdir_ok o) d (filepath.Dir (getThumbnailPath p)) = (e, fs1)
    ∧ ((cmds = [] ∧ d' = fs1)
       ∨ (∃ t, e = None ∧ media_class p = Some (tool_class t) ∧ err = ErrRun
            ∧ cmds = [Command t p (getThumbnailPath p) false]
            ∧ d' = if leaves_output o
                   then <[getThumbnailPath p := Regular]> fs1 else fs1)).
Proof.
  rewrite generateThumbnail_class. destruct (is_nil _); [done|].
  destruct (MkdirAll _ _ _) as [[e|] fs1] eqn:Hmk.
  { intros [= <- <- <-]. exists (Some e), fs1. split; [done|]. by left. }
  intros H. exists None, fs1. split; [done|].
  unfold transcode, run_command in H.
  destruct (media_class p) as [[]|] eqn:Hc.
  - destruct (open_ok o); simpl in H; [|simplify_eq; by left].
    destruct (run_ok o); simplify_eq. right. by exists Vips.
  - destruct (run_ok o); simplify_eq. right. by exists Ffmpeg.
  - simplify_eq. by left.
Qed.

(** Once [os.MkdirAll] has returned without error, it finds the directory
    and makes nothing. *)
Lemma MkdirAll_again (ok ok' : bool) (path : string) (fs fs1 : gmap string entry) :
  MkdirAll ok fs path = (None, fs1) → MkdirAll ok' fs1 path = (None, fs1).
Proof.
  unfold MkdirAll. case_bool_decide; [done|].
  destruct (lineage path) as [|x above]; [by intros [= <-]|].
  intros Hch%mkdir_chain_made. simpl. by rewrite Hch.
Qed.

(** C6, amended.  A call of [generateThumbnail] that returns an error,
    the thumbnail missing before it, has changed the disk in two ways at
    most: [os.MkdirAll] has made directories on the way to the directory of
    the thumbnail, and the tool, when it has run and failed, may have left a
    file at the thumbnail path; [generateThumbnail] removes neither.  When
    the tool has left nothing, nothing is at the thumbnail path afterwards:
    the next request takes the miss branch of [handleThumbnail], the next
    call of [generateThumbnail] does not stop at the existence check, and
    after a failure of the tool it finds the directory and runs the tool
    of the class again.  When the tool has left a file, the next request is
    answered with it and the next call of [generateThumbnail] returns at the
    existence check.  The generation step of a worker is this call. *)
Theorem failed_generation_leaves_no_thumbnail (o : outcome) (d d' : gmap string entry)
    (p : string) (err : error) (cmds : list command) :
  generateThumbnail o d p = (Some err, d', cmds) →
  Stat d (getThumbnailPath p) = StatNotExist →
  (∀ k, d' !! k = d !! k
        ∨ (d !! k = None ∧ d' !! k = Some Directory
           ∧ k ∈ lineage (filepath.Dir (getThumbnailPath p)))
        ∨ (k = getThumbnailPath p ∧ d' !! k = Some Regular
           ∧ leaves_output o = true ∧ err = ErrRun
           ∧ ∃ t, media_class p = Some (tool_class t)
                  ∧ cmds = [Command t p k false]))
  ∧ (cmds = [] ∨ leaves_output o = false →
       d' !! getThumbnailPath p = None
       ∧ Stat d' (getThumbnailPath p) = StatNotExist
       ∧ (∀ s i o', panicked s = false → fs s = d' →
            handlers s !! i = Some (HStatThumbnail p) →
            step s (Handle i o') = Some (goto i (QLoadOrStore p) s))
       ∧ (∀ o', generateThumbnail o' d' p =
                match MkdirAll (mkdir_ok o') d' (filepath.Dir (getThumbnailPath p)) with
                | (Some _, fs') => (Some ErrMkdir, fs', [])
                | (None, fs') => transcode o' fs' p (media_class p)
                end)
       ∧ (cmds ≠ [] →
            ∃ t, media_class p = Some (tool_class t) ∧ err = ErrRun
              ∧ cmds = [Command t p (getThumbnailPath p) false]
              ∧ ∀ o', open_ok o' = true →
                  generateThumbnail o' d' p
                  = run_command o' t p (getThumbnailPath p) d'))
  ∧ (cmds ≠ [] → leaves_output o = true →
       d' !! getThumbnailPath p = Some Regular
       ∧ Stat d' (getThumbnailPath p) = StatOK
       ∧ (∀ s i o', panicked s = false → fs s = d' →
            handlers s !! i = Some (HStatThumbnail p) →
            step s (Handle i o')
            = Some (goto i (HDone (ServeFile (getThumbnailPath p))) s))
       ∧ ∀ o', generateThumbnail o' d' p = (None, d', []))
  ∧ (∀ s w c, panicked s = false → fs s = d →
       workers s !! w = Some (Worker c (WGenerate p)) →
       ∃ s', step s (Work w o) = Some s'
             ∧ workers s' !! w = Some (Worker c (WLoadAndDelete p (Some err)))
             ∧ fs s' = d'
             ∧ commands s' = cmds ++ commands s).
Proof.
  intros Hgen Hmiss.
  assert (d !! getThumbnailPath p = None) as Hnone.
  { unfold Stat in Hmiss. by destruct (d !! _) as [[]|]. }
  pose proof (thumbnail_not_in_lineage p) as Hnot.
  destruct (generateThumbnail_failed _ _ _ _ _ _ Hgen)
    as (e & fs1 & Hmk & [[-> ->]|(t & -> & Hclass & -> & -> & ->)]).
  - (* no tool has run *)
    assert (fs1 !! getThumbnailPath p = None) as Hnone1.
    { destruct (MkdirAll_extends _ _ _ _ _ (getThumbnailPath p) Hmk)
        as [->|(_ & _ & Hin)]; done. }
    assert (Stat fs1 (getThumbnailPath p) = StatNotExist) as Hmiss1
      by (unfold Stat; by rewrite Hnone1).
    split.
    { intros k. destruct (MkdirAll_extends _ _ _ _ _ k Hmk) as [?|?]; auto. }
    split.
    { intros _. split; [done|]. split; [done|]. split.
      { intros s i o' Hpanic Hfs Hpc. unfold step, handler_step.
        by rewrite Hpanic, Hpc, Hfs, Hmiss1. }
      split; [|done].
      intros o'. rewrite generateThumbnail_class. by rewrite Hmiss1. }
    split; [done|].
    intros s w c Hpanic Hfs Hpc. eexists. split.
    { unfold step, worker_step. by rewrite Hpanic, Hpc, Hfs, Hgen. }
    split; [|done].
    simpl. apply list_lookup_insert_eq. by eapply lookup_lt_Some.
  - (* the tool has failed *)
    assert (fs1 !! getThumbnailPath p = None) as Hnone1.
    { destruct (MkdirAll_extends _ _ _ _ _ (getThumbnailPath p) Hmk)
        as [->|(_ & _ & Hin)]; done. }
    split.
    { intros k. destruct (leaves_output o) eqn:Hleft.
      - destruct (decide (k = getThumbnailPath p)) as [->|Hne].
        + right. right. rewrite lookup_insert_eq. repeat split; try done. by exists t.
        + rewrite lookup_insert_ne by done.
          destruct (MkdirAll_extends _ _ _ _ _ k Hmk) as [?|?]; auto.
      - destruct (MkdirAll_extends _ _ _ _ _ k Hmk) as [?|?]; auto. }
    split.
    { intros [?|Hleft]; [done|]. rewrite Hleft in *.
      assert (Stat fs1 (getThumbnailPath p) = StatNotExist) as Hmiss1
        by (unfold Stat; by rewrite Hnone1).
      split; [done|]. split; [done|]. split.
      { intros s i o' Hpanic Hfs Hpc. unfold step, handler_step.
        by rewrite Hpanic, Hpc, Hfs, Hmiss1. }
      split. { intros o'. rewrite generateThumbnail_class. by rewrite Hmiss1. }
      intros _. exists t. repeat split; try done.
      intros o' Hopen. rewrite generateThumbnail_class, Hmiss1. simpl.
      rewrite (MkdirAll_again _ (mkdir_ok o') _ _ _ Hmk), Hclass.
      unfold transcode. destruct t; simpl; [done|]. by rewrite Hopen. }
    split.
    { intros _ Hleft. rewrite Hleft in *.
      assert (Stat (<[getThumbnailPath p := Regular]> fs1) (getThumbnailPath p) = StatOK)
        as Hhit by (unfold Stat; by rewrite lookup_insert_eq).
      split; [apply lookup_insert_eq|]. split; [done|]. split.
      { intros s i o' Hpanic Hfs Hpc. unfold step, handler_step.
        by rewrite Hpanic, Hpc, Hfs, Hhit. }
      intros o'. rewrite generateThumbnail_class. by rewrite Hhit. }
    intros s w c Hpanic Hfs Hpc. eexists. split.
    { unfold step, worker_step. by rewrite Hpanic, Hpc, Hfs, Hgen. }
    split; [|done].
    simpl. apply list_lookup_insert_eq. by eapply lookup_lt_Some.
Qed.

Lemma failed_generation_leaves_no_thumbnail_witness :
  Stat (disk ["/srv/a.jpg"]) (getThumbnailPath "/srv/a.jpg") = StatNotExist
  ∧ generateThumbnail tool_fails (disk ["/srv/a.jpg"]) "/srv/a.jpg"
    = (Some ErrRun, <["/srv/.small" := Directory]> (disk ["/srv/a.jpg"]),
       [Command Vips "/srv/a.jpg" "/srv/.small/a.jpg.jpg" false])
  ∧ Stat (<["/srv/.small" := Directory]> (disk ["/srv/a.jpg"]))
      (getThumbnailPath "/srv/a.jpg") = StatNotExist
  ∧ generateThumbnail all_ok (<["/srv/.small" := Directory]> (disk ["/srv/a.jpg"]))
      "/srv/a.jpg"
    = run_command all_ok Vips "/srv/a.jpg" (getThumbnailPath "/srv/a.jpg")
        (<["/srv/.small" := Directory]> (disk ["/srv/a.jpg"])).
Proof.
  assert (generateThumbnail tool_fails (disk ["/srv/a.jpg"]) "/srv/a.jpg"
          = (Some ErrRun, <["/srv/.small" := Directory]> (disk ["/srv/a.jpg"]),
             [Command Vips "/srv/a.jpg" "/srv/.small/a.jpg.jpg" false])) as Hgen
    by (vm_compute; reflexivity).
  assert (Stat (disk ["/srv/a.jpg"]) (getThumbnailPath "/srv/a.jpg") = StatNotExist)
    as Hmiss by (vm_compute; reflexivity).
  split; [done|]. split; [done|].
  destruct (failed_generation_leaves_no_thumbnail _ _ _ _ _ _ Hgen Hmiss)
    as (_ & Hnothing & _).
  destruct Hnothing as (_ & Hstat & _ & _ & Hagain); [by right|].
  split; [done|].
  destruct Hagain as (t & Hclass & _ & Hcmds & Hrun); [done|].
  injection Hcmds as <-. by apply Hrun.
Defined.

(** ** Bytes that do not occur *)

Lemma occurs_app (c : ascii) (s t : string) :
  occurs c (s +:+ t) = occurs c s || occurs c t.
Proof.
  induction s as [|d s IH]; [done|].
  rewrite string_app_cons. simpl. by rewrite IH, orb_assoc.
Qed.

Lemma occurs_elements (c : ascii) (s : string) :
  occurs c s = false → Forall (λ e, occurs c e = false) (filepath.elements s).
Proof.
  induction s as [|d s IH]; [by repeat constructor|].
  simpl. intros [Hd Hs]%orb_false_elim. specialize (IH Hs).
  destruct (filepath.IsPathSeparator d); [by constructor|].
  destruct IH as [|e es He Hes]; constructor; try done; simpl; by rewrite Hd.
Qed.

Lemma Forall_clean_elements (P : string → Prop) (rooted : bool) (es stack : list string) :
  Forall P stack → Forall P es → Forall P (filepath.clean_elements rooted stack es).
Proof.
  intros Hstack Hes. revert stack Hstack.
  induction Hes as [|e es He Hes IH]; intros stack Hstack; [by apply Forall_rev|].
  cbn [filepath.clean_elements].
  destruct (_ || _); [by apply IH|].
  destruct (bool_decide (e = "..")); [|apply IH; by constructor].
  destruct Hstack as [|top below Htop Hbelow].
  - destruct rooted; apply IH; by repeat constructor.
  - destruct (bool_decide (top = "..")); apply IH; by repeat constructor.
Qed.

Lemma occurs_join_elements (c : ascii) (es : list string) :
  c ≠ "/"%char → Forall (λ e, occurs c e = false) es →
  occurs c (filepath.join_elements es) = false.
Proof.
  intros Hc. induction 1 as [|e es He Hes IH]; [done|].
  destruct es as [|e' es]; [done|].
  change (filepath.join_elements (e :: e' :: es))
    with (e +:+ "/" +:+ filepath.join_elements (e' :: es)).
  rewrite !occurs_app, He, IH. simpl. by rewrite bool_decide_eq_false_2.
Qed.

Lemma occurs_Clean (c : ascii) (p : string) :
  c ≠ "/"%char → c ≠ "."%char → occurs c p = false →
  occurs c (filepath.Clean p) = false.
Proof.
  intros Hsep Hdot Hp. unfold filepath.Clean.
  assert (occurs c (filepath.join_elements
            (filepath.clean_elements (filepath.is_rooted p) [] (filepath.elements p)))
          = false) as Hjoin.
  { apply occurs_join_elements; [done|].
    apply Forall_clean_elements; [constructor|by apply occurs_elements]. }
  destruct (filepath.is_rooted p).
  - rewrite occurs_app, Hjoin. simpl. by rewrite bool_decide_eq_false_2.
  - case_bool_decide; [|done]. simpl. by rewrite bool_decide_eq_false_2.
Qed.

Lemma occurs_Join (c : ascii) (a b : string) :
  c ≠ "/"%char → c ≠ "."%char → occurs c a = false → occurs c b = false →
  occurs c (filepath.Join [a; b]) = false.
Proof.
  intros Hsep Hdot Ha Hb. cbn [filepath.Join].
  case_bool_decide.
  - case_bool_decide; [done|]. by apply occurs_Clean.
  - apply occurs_Clean; [done..|].
    change (filepath.join_elements [a; b]) with (a +:+ "/" +:+ b).
    rewrite !occurs_app, Ha, Hb. simpl. by rewrite bool_decide_eq_false_2.
Qed.

Lemma replace_from_absent (c : ascii) (s new : string) :
  occurs c s = false → strings.replace_from 0 s (String c "") new = s.
Proof.
  induction s as [|d s IH]; [done|].
  simpl. intros [Hd Hs]%orb_false_elim. by rewrite Hd, IH.
Qed.

Lemma ReplaceAll_backslash (s : string) :
  occurs "092" s = false → strings.ReplaceAll s backslash "/" = s.
Proof. intros Hs. unfold strings.ReplaceAll, backslash. simpl. by apply replace_from_absent. Qed.

(** ** The base path *)

Lemma urlWithBasePath_rooted (basePath path : string) :
  filepath.is_rooted path = true → urlWithBasePath basePath path = basePath +:+ path.
Proof.
  intros Hpath. unfold urlWithBasePath. rewrite HasPrefix_slash, Hpath.
  case_bool_decide; [by subst|done].
Qed.

Lemma TrimPrefix_urlWithBasePath (basePath path : string) :
  filepath.is_rooted path = true →
  strings.TrimPrefix (urlWithBasePath basePath path) basePath = path.
Proof. intros Hpath. by rewrite urlWithBasePath_rooted, TrimPrefix_app. Qed.

(** ** [handleList] *)

Lemma handleList_eq (rootDir basePath : string) (readDir : gmap string (list DirEntry.t))
    (query : string) :
  handleList rootDir basePath readDir query
  = if access_denied rootDir (listed_dir rootDir query) then AccessDenied
    else match readDir !! listed_dir rootDir query with
         | None => ReadDirFailed
         | Some entries =>
             Listing (DirectoryResponse.mk (listed_path query)
                        (omap (fileInfo basePath (listed_path query)) entries))
         end.
Proof. reflexivity. Qed.

Lemma join_dotdots_names_not_dot (k : nat) (ns : list string) :
  Forall (λ e, is_name e = true) ns → 0 < k + length ns →
  filepath.join_elements (replicate k ".." ++ ns) ≠ ".".
Proof.
  intros Hns Hlen Heq.
  destruct (hd_dotdots_names k ns Hns Hlen) as (e & es & Heq' & _).
  pose proof (elements_join (replicate k ".." ++ ns)) as Hel.
  rewrite Heq in Hel. simpl in Hel.
  specialize (Hel ltac:(by rewrite Heq') (dotdots_names_no_sep k ns Hns)).
  destruct k as [|k]; [|done]. cbn [replicate app] in Hel. subst ns.
  apply Forall_cons in Hns as [Hname _]. by vm_compute in Hname.
Qed.

(** The request for a cleaned relative path. *)
Lemma resolve_relative (route : string) (dirs : list string) (k : nat) (ns : list string) :
  Forall (λ e, is_name e = true) dirs → Forall (λ e, is_name e = true) ns →
  0 < k + length ns →
  resolve route (abs_path dirs)
    (route +:+ "/" +:+ filepath.join_elements (replicate k ".." ++ ns))
  = if access_denied (abs_path dirs)
         (abs_path (filepath.clean_elements true (rev dirs) (replicate k ".." ++ ns)))
    then inl AccessDenied
    else inr (abs_path (filepath.clean_elements true (rev dirs) (replicate k ".." ++ ns))).
Proof.
  intros Hdirs Hns Hlen.
  pose proof (Clean_dotdots_names k ns Hns Hlen) as Hclean.
  pose proof (join_dotdots_names_not_dot k ns Hns Hlen) as Hdot.
  pose proof (Join_dotdots_names dirs k ns Hdirs Hns Hlen) as Hjoin.
  destruct (hd_dotdots_names k ns Hns Hlen) as (e & es & Heq' & He & Hsep).
  set (j := filepath.join_elements (replicate k ".." ++ ns)) in *.
  assert (filepath.is_rooted j = false) as Hrooted
    by (unfold j; by rewrite Heq', is_rooted_join, is_rooted_no_sep).
  assert (j ≠ "") as Hj by (unfold j; rewrite Heq'; by apply join_elements_not_nil).
  unfold resolve. cbv zeta. rewrite TrimPrefix_app.
  change ("/" +:+ j) with (String "/" j).
  change (strings.TrimPrefix (String "/" j) "/") with j.
  rewrite (bool_decide_eq_false_2 (j = "")) by done.
  unfold filepath.FromSlash. rewrite Hclean.
  rewrite (bool_decide_eq_false_2 (j = ".")) by done.
  rewrite (bool_decide_eq_false_2 (j = "/")) by (by intros Hj'; rewrite Hj' in Hrooted).
  rewrite (bool_decide_eq_false_2 (j = "")) by done. cbn [orb].
  by rewrite Hjoin.
Qed.

Lemma Join_abs_abs (dirs ps : list string) :
  Forall (λ e, is_name e = true) dirs → Forall (λ e, is_name e = true) ps →
  filepath.Join [abs_path dirs; abs_path ps] = abs_path (dirs ++ ps).
Proof.
  intros Hdirs Hps. rewrite Join_abs_path by done.
  rewrite <- (List.app_nil_r (filepath.elements _)), clean_elements_abs_path by done.
  cbn [filepath.clean_elements]. by rewrite rev_app_distr, !rev_involutive.
Qed.

(** What the security check of [handleList] has let through: the elements
    of the listed path, [k] times [..] and then the names [ms], lead from
    the root to a directory at or below it. *)
Lemma listed_shape (dirs : list string) (query : string) :
  Forall (λ e, is_name e = true) dirs →
  access_denied (abs_path dirs) (listed_dir (abs_path dirs) query) = false →
  ∃ k ms rest,
    Forall (λ e, is_name e = true) ms ∧ Forall (λ e, is_name e = true) rest
    ∧ match rest with r :: _ => strings.HasPrefix r ".." = false | [] => True end
    ∧ filepath.clean_elements true (rev dirs) (replicate k ".." ++ ms) = dirs ++ rest
    ∧ listed_dir (abs_path dirs) query = abs_path (dirs ++ rest)
    ∧ ((listed_path query = "/" ∧ k = 0 ∧ ms = [])
       ∨ (listed_path query ≠ "/" ∧ k = 0 ∧ ms ≠ [] ∧ listed_path query = abs_path ms)
       ∨ (listed_path query ≠ "/" ∧ 0 < k + length ms
          ∧ listed_path query = filepath.join_elements (replicate k ".." ++ ms))).
Proof.
  intros Hdirs Hcheck. unfold listed_dir in *.
  case_bool_decide as Hroot.
  { exists 0, [], []. cbn [replicate app filepath.clean_elements].
    rewrite List.app_nil_r, rev_involutive. repeat apply conj; try done. by left. }
  unfold listed_path in Hroot, Hcheck |- *. cbv zeta in Hroot, Hcheck |- *.
  set (path0 := if bool_decide (query = "") then "/" else query) in *.
  case_bool_decide as Hdot; [done|].
  destruct (filepath.is_rooted path0) eqn:Hrooted.
  - pose proof (Clean_rooted path0 Hrooted) as Hclean.
    pose proof (Clean_rooted_names path0) as Hps.
    set (ps := filepath.clean_elements true [] (filepath.elements path0)) in *.
    rewrite Hclean in Hroot, Hcheck |- *.
    rewrite Join_abs_abs in Hcheck |- * by done.
    apply access_denied_abs_path in Hcheck as (rest & Heq & Hhd);
      [|done|by apply Forall_app].
    apply app_inv_head in Heq as <-.
    exists 0, ps, ps. cbn [replicate app].
    rewrite clean_elements_all_names, rev_involutive by done.
    repeat apply conj; try done. right. left.
    repeat apply conj; try done. by intros Hnil; rewrite Hnil in Hroot.
  - destruct (Clean_relative path0 Hrooted) as [?|(k & ns & Hns & Hlen & Hclean)]; [done|].
    rewrite Hclean in Hroot, Hcheck |- *.
    rewrite Join_dotdots_names in Hcheck |- * by done.
    pose proof (Join_abs_path_names dirs
                  (filepath.join_elements (replicate k ".." ++ ns)) Hdirs) as Hnames.
    destruct (hd_dotdots_names k ns Hns Hlen) as (e & es & Heq' & _).
    rewrite elements_join in Hnames;
      [|by rewrite Heq'|by apply dotdots_names_no_sep].
    apply access_denied_abs_path in Hcheck as (rest & Heq & Hhd); [|done..].
    rewrite Heq in Hnames |- *. apply Forall_app in Hnames as [_ Hrest].
    exists k, ns, rest. repeat apply conj; try done. right. right. done.
Qed.

Lemma media_class_none (p : string) :
  media_class p = None ↔
  index movieExtensions (strings.ToLower (filepath.Ext p)) = false
  ∧ index imageExtensions (strings.ToLower (filepath.Ext p)) = false.
Proof.
  unfold media_class.
  destruct (index movieExtensions _); [by split; [|intros [? ?]]|].
  destruct (index imageExtensions _); [by split; [|intros [? ?]]|done].
Qed.

Lemma urlWithBasePath_not_nil (basePath path : string) :
  urlWithBasePath basePath ("/api/thumbnail" +:+ path) ≠ "".
Proof.
  unfold urlWithBasePath. case_bool_decide; [done|]. by destruct basePath.
Qed.

Lemma fileInfo_Some (basePath path : string) (entry : DirEntry.t) (fi : FileInfo.t) :
  fileInfo basePath path entry = Some fi →
  hidden (DirEntry.Name entry) = false
  ∧ FileInfo.Name fi = DirEntry.Name entry
  ∧ FileInfo.IsDir fi = DirEntry.IsDir entry
  ∧ (FileInfo.IsImage fi = true ↔ media_class (DirEntry.Name entry) = Some Image)
  ∧ (FileInfo.IsMovie fi = true ↔ media_class (DirEntry.Name entry) = Some Movie)
  ∧ (FileInfo.Thumbnail fi = "" ↔ media_class (DirEntry.Name entry) = None)
  ∧ FileInfo.CanonicalMovie fi = "".
Proof.
  unfold fileInfo, hidden. destruct (strings.HasPrefix _ ".") eqn:Hhidden; [done|].
  cbv zeta. rewrite media_class_image, media_class_movie, media_class_none.
  destruct (index imageExtensions _) eqn:Himg; destruct (index movieExtensions _) eqn:Hmov;
    cbn [orb]; intros [= <-];
    cbn [FileInfo.Name FileInfo.IsDir FileInfo.IsImage FileInfo.IsMovie
         FileInfo.Thumbnail FileInfo.CanonicalMovie].
  all: repeat apply conj; try done.
  all: try (intros Hurl; by apply urlWithBasePath_not_nil in Hurl).
  all: by intros [? ?].
Qed.

Lemma omap_fileInfo_names (basePath path : string) (entries : list DirEntry.t) :
  FileInfo.Name <$> omap (fileInfo basePath path) entries
  = filter (λ n, hidden n = false) (DirEntry.Name <$> entries).
Proof.
  induction entries as [|e entries IH]; [done|].
  cbn [omap list_omap fmap list_fmap].
  destruct (fileInfo basePath path e) as [fi|] eqn:Hfi.
  - apply fileInfo_Some in Hfi as (Hh & Hn & _).
    rewrite filter_cons_True by done. cbn [fmap list_fmap]. by rewrite IH, Hn.
  - rewrite filter_cons_False; [done|].
    unfold fileInfo, hidden in *. destruct (strings.HasPrefix _ "."); [done|].
    cbv zeta in Hfi. by destruct (_ || _).
Qed.

(** X6.  [handleList] reads the root or a directory below it, and no other.
    When that directory can be read, the answer holds, in the order of
    [os.ReadDir], exactly the entries whose name does not begin with a dot
    (so never [.small], where the thumbnails are): an entry is flagged as
    image or movie by the class of its name, it has a thumbnail URL exactly
    when it has a class, and its canonical movie is never set. *)
Theorem handleList_listing (dirs : list string) (basePath : string)
    (readDir : gmap string (list DirEntry.t)) (query : string) (r : DirectoryResponse.t) :
  Forall (λ e, is_name e = true) dirs →
  handleList (abs_path dirs) basePath readDir query = Listing r →
  ∃ rest entries,
    Forall (λ e, is_name e = true) rest
    ∧ match rest with e :: _ => strings.HasPrefix e ".." = false | [] => True end
    ∧ readDir !! abs_path (dirs ++ rest) = Some entries
    ∧ FileInfo.Name <$> DirectoryResponse.Files r
      = filter (λ n, hidden n = false) (DirEntry.Name <$> entries)
    ∧ Forall (λ fi,
        FileInfo.Name fi ≠ ".small"
        ∧ (FileInfo.IsImage fi = true ↔ media_class (FileInfo.Name fi) = Some Image)
        ∧ (FileInfo.IsMovie fi = true ↔ media_class (FileInfo.Name fi) = Some Movie)
        ∧ (FileInfo.Thumbnail fi = "" ↔ media_class (FileInfo.Name fi) = None)
        ∧ FileInfo.CanonicalMovie fi = "") (DirectoryResponse.Files r).
Proof.
  intros Hdirs. rewrite handleList_eq.
  destruct (access_denied _ _) eqn:Hcheck; [done|].
  destruct (listed_shape dirs query Hdirs Hcheck)
    as (k & ms & rest & _ & Hrest & Hhd & _ & Hdir & _).
  rewrite Hdir. destruct (readDir !! _) as [entries|] eqn:Hread; [|done].
  intros [= <-]. exists rest, entries. cbn [DirectoryResponse.Files].
  repeat apply conj; try done; [apply omap_fileInfo_names|].
  apply Forall_forall. intros fi (entry & _ & Hfi)%list_elem_of_omap.
  apply fileInfo_Some in Hfi as (Hh & Hn & _ & Hi & Hm & Ht & Hc).
  rewrite Hn. refine (conj _ (conj Hi (conj Hm (conj Ht Hc)))).
  intros Heq. by rewrite Heq in Hh.
Qed.

Lemma handleList_listing_witness :
  ∃ rest entries,
    Forall (λ e, is_name e = true) rest
    ∧ match rest with e :: _ => strings.HasPrefix e ".." = false | [] => True end
    ∧ ({[ "/srv/pics/2024" :=
            [DirEntry.mk ".small" true; DirEntry.mk "beach.jpg" false;
             DirEntry.mk "notes.txt" false] ]} : gmap string (list DirEntry.t))
        !! abs_path (["srv"; "pics"] ++ rest) = Some entries
    ∧ ["beach.jpg"; "notes.txt"] = filter (λ n, hidden n = false) (DirEntry.Name <$> entries)
    ∧ Forall (λ fi,
        FileInfo.Name fi ≠ ".small"
        ∧ (FileInfo.IsImage fi = true ↔ media_class (FileInfo.Name fi) = Some Image)
        ∧ (FileInfo.IsMovie fi = true ↔ media_class (FileInfo.Name fi) = Some Movie)
        ∧ (FileInfo.Thumbnail fi = "" ↔ media_class (FileInfo.Name fi) = None)
        ∧ FileInfo.CanonicalMovie fi = "")
        [ FileInfo.mk "beach.jpg" "/2024/beach.jpg" false true false
            "/gallery/api/thumbnail/2024/beach.jpg" "";
          FileInfo.mk "notes.txt" "/2024/notes.txt" false false false "" "" ].
Proof.
  apply (handleList_listing ["srv"; "pics"] "/gallery"
           {[ "/srv/pics/2024" :=
                [DirEntry.mk ".small" true; DirEntry.mk "beach.jpg" false;
                 DirEntry.mk "notes.txt" false] ]} "/2024"
           (DirectoryResponse.mk "/2024"
              [ FileInfo.mk "beach.jpg" "/2024/beach.jpg" false true false
                  "/gallery/api/thumbnail/2024/beach.jpg" "";
                FileInfo.mk "notes.txt" "/2024/notes.txt" false false false "" "" ])).
  - repeat constructor.
  - reflexivity.
Defined.

(** X7.  The empty parameter, and every parameter that cleans to [.] or to
    [/], list the root directory itself under the path [/], whatever the
    root is: the security check never refuses the root. *)
Theorem handleList_root (rootDir basePath : string)
    (readDir : gmap string (list DirEntry.t)) (query : string) :
  query = "" ∨ filepath.Clean query = "." ∨ filepath.Clean query = "/" →
  handleList rootDir basePath readDir query
  = match readDir !! rootDir with
    | None => ReadDirFailed
    | Some entries =>
        Listing (DirectoryResponse.mk "/" (omap (fileInfo basePath "/") entries))
    end.
Proof.
  intros Hquery. rewrite handleList_eq.
  assert (listed_path query = "/") as Hpath.
  { unfold listed_path. cbv zeta.
    destruct (decide (query = "")) as [->|Hq]; [done|].
    rewrite (bool_decide_eq_false_2 (query = "")) by done.
    destruct Hquery as [?|[H|H]]; [done|by rewrite H..]. }
  unfold listed_dir. rewrite Hpath, bool_decide_eq_true_2 by done.
  by rewrite access_denied_root.
Qed.

Lemma handleList_root_witness :
  handleList "/srv/pics" "" {[ "/srv/pics" := [DirEntry.mk "a.png" false] ]} ""
  = Listing (DirectoryResponse.mk "/"
               [FileInfo.mk "a.png" "/a.png" false true false "/api/thumbnail/a.png" ""]).
Proof.
  etrans.
  - apply (handleList_root "/srv/pics" "" {[ "/srv/pics" := [DirEntry.mk "a.png" false] ]} "").
    left. reflexivity.
  - reflexivity.
Defined.

(** ** From the listing to the thumbnail *)

Lemma abs_path_snoc (es : list string) (n : string) :
  abs_path (es ++ [n]) = absolute es +:+ "/" +:+ n.
Proof.
  assert (abs_path (es ++ [n]) = absolute (es ++ [n])) as -> by (by destruct es).
  rewrite absolute_app. cbn [absolute]. by rewrite string_app_nil_r.
Qed.

Lemma Join_abs_name (es : list string) (n : string) :
  Forall (λ e, is_name e = true) es → is_name n = true →
  filepath.Join [abs_path es; n] = abs_path (es ++ [n]).
Proof.
  intros Hes Hn. change n with (filepath.join_elements [n]) at 1.
  apply Join_names; [done|by constructor|done].
Qed.

Lemma Ext_abs_name (es : list string) (n : string) :
  is_name n = true → filepath.Ext (abs_path (es ++ [n])) = filepath.Ext n.
Proof.
  intros (_ & _ & _ & Hsep)%is_name_spec. rewrite abs_path_snoc. unfold filepath.Ext.
  by rewrite Split_app, Split_no_separator.
Qed.

Lemma media_class_abs_name (es : list string) (n : string) :
  is_name n = true → media_class (abs_path (es ++ [n])) = media_class n.
Proof. intros Hn. unfold media_class. by rewrite Ext_abs_name. Qed.

Lemma hidden_dotdot (n : string) : hidden n = false → strings.HasPrefix n ".." = false.
Proof.
  unfold hidden. destruct n as [|c n]; [done|]. simpl.
  rewrite andb_true_r. by intros ->.
Qed.

Lemma occurs_listed_path (c : ascii) (query : string) :
  c ≠ "/"%char → c ≠ "."%char → occurs c query = false →
  occurs c (listed_path query) = false.
Proof.
  intros Hsep Hdot Hq. unfold listed_path. cbv zeta.
  assert (occurs c "/" = false) as Hroot by (simpl; by rewrite bool_decide_eq_false_2).
  case_bool_decide; [done|]. apply occurs_Clean; [done..|]. by case_bool_decide.
Qed.

(** The thumbnail path that [fileInfo] makes for the entry [n] of a listed
    directory: a slash, and the elements of the listed path followed by
    [n]. *)
Lemma thumbPath_shape (query n : string) (k : nat) (ms : list string) :
  Forall (λ e, is_name e = true) ms → is_name n = true →
  occurs "092" query = false → occurs "092" n = false →
  (listed_path query = "/" ∧ k = 0 ∧ ms = [])
  ∨ (listed_path query ≠ "/" ∧ k = 0 ∧ ms ≠ [] ∧ listed_path query = abs_path ms)
  ∨ (listed_path query ≠ "/" ∧ 0 < k + length ms
     ∧ listed_path query = filepath.join_elements (replicate k ".." ++ ms)) →
  let relEntryPath :=
    if bool_decide (listed_path query = "/") then "/" +:+ n
    else filepath.Join [listed_path query; n] in
  let urlPath := strings.ReplaceAll relEntryPath backslash "/" in
  (if negb (strings.HasPrefix urlPath "/") then "/" +:+ urlPath else urlPath)
  = "/" +:+ filepath.join_elements (replicate k ".." ++ ms ++ [n]).
Proof.
  intros Hms Hn Hquery Hname Hshape relEntryPath urlPath.
  assert (urlPath = relEntryPath) as ->.
  { apply ReplaceAll_backslash. unfold relEntryPath. case_bool_decide.
    - by rewrite occurs_app, Hname.
    - apply occurs_Join; [done..| |done]. by apply occurs_listed_path. }
  unfold relEntryPath. rewrite HasPrefix_slash.
  destruct Hshape as [(Hp & -> & ->)|[(Hp & -> & Hne & Heq)|(Hp & Hlen & Heq)]].
  - by rewrite Hp, bool_decide_eq_true_2.
  - rewrite bool_decide_eq_false_2 by done.
    rewrite Heq, Join_abs_name by done.
    cbn [replicate app]. by rewrite is_rooted_abs_path, abs_path_join.
  - rewrite bool_decide_eq_false_2 by done.
    rewrite Heq, Join_relative_name by done.
    assert (Forall (λ e, is_name e = true) (ms ++ [n])) as Hms'
      by (apply Forall_app; split; [done|by constructor]).
    assert (0 < k + length (ms ++ [n])) as Hlen' by (rewrite length_app; simpl; lia).
    destruct (hd_dotdots_names k (ms ++ [n]) Hms' Hlen') as (e & es & Heq' & He & Hsep).
    by rewrite Heq', is_rooted_join, is_rooted_no_sep.
Qed.

Lemma fileInfo_Thumbnail (basePath path : string) (entry : DirEntry.t) (fi : FileInfo.t) :
  fileInfo basePath path entry = Some fi → FileInfo.Thumbnail fi ≠ "" →
  let relEntryPath :=
    if bool_decide (path = "/") then "/" +:+ DirEntry.Name entry
    else filepath.Join [path; DirEntry.Name entry] in
  let urlPath := strings.ReplaceAll relEntryPath backslash "/" in
  FileInfo.Thumbnail fi
  = urlWithBasePath basePath
      ("/api/thumbnail"
       +:+ (if negb (strings.HasPrefix urlPath "/") then "/" +:+ urlPath else urlPath)).
Proof.
  unfold fileInfo. destruct (strings.HasPrefix _ "."); [done|]. cbv zeta.
  destruct (_ || _); intros [= <-]; by cbn [FileInfo.Thumbnail].
Qed.

(** X8.  The thumbnail URL that [handleList] gives for an entry of a
    directory leads [handleThumbnail] to that entry: once the base path is
    taken off, the request passes the security check and goes on with the
    path of the entry in the directory that was read, and the class of that
    path is the class by which the entry was flagged, so the generation
    does not refuse it as unsupported.  The names are those of directory
    entries, and neither they nor the parameter hold a backslash, which
    [handleList] would turn into a slash. *)
Theorem listed_thumbnail_resolves (dirs : list string) (basePath : string)
    (readDir : gmap string (list DirEntry.t)) (query : string) (r : DirectoryResponse.t) :
  Forall (λ e, is_name e = true) dirs →
  occurs "092" query = false →
  handleList (abs_path dirs) basePath readDir query = Listing r →
  ∃ fullPath entries,
    readDir !! fullPath = Some entries
    ∧ DirectoryResponse.Files r
      = omap (fileInfo basePath (DirectoryResponse.Path r)) entries
    ∧ ∀ entry fi,
        entry ∈ entries →
        is_name (DirEntry.Name entry) = true →
        occurs "092" (DirEntry.Name entry) = false →
        fileInfo basePath (DirectoryResponse.Path r) entry = Some fi →
        FileInfo.Thumbnail fi ≠ "" →
        handleThumbnail (abs_path dirs)
          (strings.TrimPrefix (FileInfo.Thumbnail fi) basePath)
        = inr (Request (filepath.Join [fullPath; DirEntry.Name entry]))
        ∧ media_class (filepath.Join [fullPath; DirEntry.Name entry])
          = media_class (DirEntry.Name entry)
        ∧ media_class (DirEntry.Name entry) ≠ None.
Proof.
  intros Hdirs Hquery. rewrite handleList_eq.
  destruct (access_denied _ _) eqn:Hcheck; [done|].
  destruct (listed_shape dirs query Hdirs Hcheck)
    as (k & ms & rest & Hms & Hrest & Hhd & Hclean & Hdir & Hshape).
  destruct (readDir !! _) as [entries|] eqn:Hread; [|done].
  intros [= <-]. cbn [DirectoryResponse.Files DirectoryResponse.Path].
  exists (listed_dir (abs_path dirs) query), entries.
  split; [done|]. split; [done|].
  intros entry fi _ Hn Hname Hfi Hthumb.
  pose proof (thumbPath_shape query _ k ms Hms Hn Hquery Hname Hshape) as Hpath.
  cbv zeta in Hpath.
  apply fileInfo_Some in Hfi as Hfi'. destruct Hfi' as (Hh & _ & _ & _ & _ & Hnone & _).
  assert (Forall (λ e, is_name e = true) (dirs ++ rest)) as Hfull
    by (by apply Forall_app).
  rewrite Hdir, Join_abs_name, media_class_abs_name by done.
  split; [|split; [done|by rewrite <- Hnone]].
  pose proof (fileInfo_Thumbnail _ _ _ _ Hfi Hthumb) as Hurl. cbv zeta in Hurl.
  rewrite Hurl, Hpath, TrimPrefix_urlWithBasePath by done.
  assert (Forall (λ e, is_name e = true) (ms ++ [DirEntry.Name entry])) as Hms'
    by (apply Forall_app; split; [done|by constructor]).
  assert (0 < k + length (ms ++ [DirEntry.Name entry])) as Hlen
    by (rewrite length_app; simpl; lia).
  unfold handleThumbnail.
  rewrite (resolve_relative "/api/thumbnail" dirs k _ Hdirs Hms' Hlen).
  rewrite List.app_assoc, clean_elements_snoc_name, Hclean by done.
  assert (access_denied (abs_path dirs) (abs_path ((dirs ++ rest) ++ [DirEntry.Name entry]))
          = false) as Hno; [|by rewrite Hno].
  apply access_denied_abs_path; [done|apply Forall_app; split; [done|by constructor]|].
  exists (rest ++ [DirEntry.Name entry]). split; [by rewrite List.app_assoc|].
  destruct rest; [by apply hidden_dotdot|done].
Qed.

Lemma listed_thumbnail_resolves_witness :
  ∃ fullPath entries,
    album !! fullPath = Some entries
    ∧ DirectoryResponse.Files album_2024
      = omap (fileInfo "/gallery" (DirectoryResponse.Path album_2024)) entries
    ∧ ∀ entry fi,
        entry ∈ entries →
        is_name (DirEntry.Name entry) = true →
        occurs "092" (DirEntry.Name entry) = false →
        fileInfo "/gallery" (DirectoryResponse.Path album_2024) entry = Some fi →
        FileInfo.Thumbnail fi ≠ "" →
        handleThumbnail (abs_path ["srv"; "pics"])
          (strings.TrimPrefix (FileInfo.Thumbnail fi) "/gallery")
        = inr (Request (filepath.Join [fullPath; DirEntry.Name entry]))
        ∧ media_class (filepath.Join [fullPath; DirEntry.Name entry])
          = media_class (DirEntry.Name entry)
        ∧ media_class (DirEntry.Name entry) ≠ None.
Proof.
  apply (listed_thumbnail_resolves ["srv"; "pics"] "/gallery" album "/2024" album_2024).
  - repeat constructor.
  - reflexivity.
  - reflexivity.
Defined.

(** ** The thumbnail path as a key *)

(** X9.  Two cleaned absolute paths other than [/] that have the same
    thumbnail path are the same path, so requests for different files never
    meet on one registry entry; and no such path is its own thumbnail path,
    so a tool is never asked to write over the file that it reads. *)
Theorem getThumbnailPath_inj (ps qs : list string) :
  Forall (λ e, is_name e = true) ps → Forall (λ e, is_name e = true) qs →
  ps ≠ [] → qs ≠ [] →
  (getThumbnailPath (abs_path ps) = getThumbnailPath (abs_path qs) → ps = qs)
  ∧ getThumbnailPath (abs_path ps) ≠ abs_path ps.
Proof.
  intros Hps Hqs Hp Hq.
  destruct (exists_last Hp) as (ps' & b & ->). destruct (exists_last Hq) as (qs' & c & ->).
  apply Forall_app in Hps as [Hps Hb]. apply Forall_cons in Hb as [Hb _].
  apply Forall_app in Hqs as [Hqs Hc]. apply Forall_cons in Hc as [Hc _].
  pose proof (getThumbnailPath_below [] ps' b) as Hpb.
  pose proof (getThumbnailPath_below [] qs' c) as Hqc.
  cbn [app] in Hpb, Hqc. rewrite Hpb, Hqc by (done || constructor).
  assert (∀ l x, Forall (λ e, is_name e = true) l → is_name x = true →
            Forall (λ e, is_name e = true) (l ++ [".small"; x +:+ ".jpg"])) as Hnames.
  { intros l x Hl Hx. apply Forall_app. split; [done|].
    apply is_name_spec in Hx as (_ & _ & _ & Hsep).
    repeat constructor. by apply is_name_jpg. }
  split.
  - intros Heq. apply abs_path_inj in Heq; [|by apply Hnames..].
    change [".small"; b +:+ ".jpg"] with ([".small"] ++ [b +:+ ".jpg"]) in Heq.
    change [".small"; c +:+ ".jpg"] with ([".small"] ++ [c +:+ ".jpg"]) in Heq.
    rewrite !List.app_assoc in Heq.
    apply app_inj_tail in Heq as [Heq Hbc]. apply app_inj_tail in Heq as [-> _].
    by apply string_app_inv_tail in Hbc as ->.
  - intros Heq. apply abs_path_inj in Heq;
      [|by apply Hnames|apply Forall_app; split; [done|by constructor]].
    apply (f_equal length) in Heq. rewrite !length_app in Heq. simpl in Heq. lia.
Qed.

Lemma getThumbnailPath_inj_witness :
  (getThumbnailPath "/srv/pics/a.jpg" = getThumbnailPath "/srv/pics/a.png" →
   ["srv"; "pics"; "a.jpg"] = ["srv"; "pics"; "a.png"])
  ∧ getThumbnailPath "/srv/pics/a.jpg" ≠ "/srv/pics/a.jpg".
Proof.
  apply (getThumbnailPath_inj ["srv"; "pics"; "a.jpg"] ["srv"; "pics"; "a.png"]).
  - repeat constructor.
  - repeat constructor.
  - discriminate.
  - discriminate.
Defined.

(** ** The base path *)

Lemma slice_to_from (n : nat) (s : string) :
  strings.slice_to n s +:+ strings.slice_from n s = s.
Proof.
  revert n. induction s as [|c s IH]; intros [|n]; try done.
  cbn [strings.slice_to strings.slice_from]. rewrite string_app_cons. f_equal. apply IH.
Qed.

Lemma HasSuffix_inv (s t : string) :
  strings.HasSuffix s t = true →
  s = strings.slice_to (String.length s - String.length t) s +:+ t.
Proof.
  unfold strings.HasSuffix. intros [_ Ht%bool_decide_eq_true]%andb_true_iff.
  set (k := String.length s - String.length t) in *.
  rewrite <- (slice_to_from k s) at 1. by rewrite Ht.
Qed.

Lemma HasSuffix_app (s t : string) : strings.HasSuffix (s +:+ t) t = true.
Proof.
  unfold strings.HasSuffix. rewrite string_length_app.
  replace (String.length s + String.length t - String.length t) with (String.length s)
    by lia.
  rewrite slice_from_app. rewrite !bool_decide_eq_true_2; [done..|lia].
Qed.

Lemma TrimSuffix_cases (s t : string) :
  (strings.HasSuffix s t = true ∧ s = strings.TrimSuffix s t +:+ t)
  ∨ (strings.HasSuffix s t = false ∧ strings.TrimSuffix s t = s).
Proof.
  unfold strings.TrimSuffix. destruct (strings.HasSuffix s t) eqn:Hs; [|by right].
  left. split; [done|]. by apply HasSuffix_inv.
Qed.

(** X10.  The base path that [main] stores, for every value of the flag: it
    is empty exactly for the empty flag and for [/]; when it is not empty it
    begins with a slash; it ends with a slash only when the flag ended with
    two.  With it, [urlWithBasePath] turns a path that begins with a slash
    into one that begins with a slash, and taking the base path off the
    result gives the path back. *)
Theorem normalizedBasePath_spec (basePath : string) :
  (normalizedBasePath basePath = "" ↔ basePath = "" ∨ basePath = "/")
  ∧ (normalizedBasePath basePath ≠ "" →
     filepath.is_rooted (normalizedBasePath basePath) = true)
  ∧ (strings.HasSuffix (normalizedBasePath basePath) "/" = true →
     strings.HasSuffix basePath "//" = true)
  ∧ ∀ path, filepath.is_rooted path = true →
      filepath.is_rooted (urlWithBasePath (normalizedBasePath basePath) path) = true
      ∧ strings.TrimPrefix (urlWithBasePath (normalizedBasePath basePath) path)
          (normalizedBasePath basePath) = path.
Proof.
  assert (normalizedBasePath basePath ≠ "" →
          filepath.is_rooted (normalizedBasePath basePath) = true) as Hrooted.
  { unfold normalizedBasePath. case_bool_decide as Hb; [done|]. cbn [negb]. cbv zeta.
    rewrite HasPrefix_slash.
    set (n := if negb (filepath.is_rooted basePath) then "/" +:+ basePath else basePath).
    assert (filepath.is_rooted n = true) as Hn
      by (unfold n; by destruct (filepath.is_rooted basePath) eqn:?).
    destruct (TrimSuffix_cases n "/") as [[_ Heq]|[_ ->]]; [|done].
    intros Hne. rewrite Heq in Hn. by rewrite is_rooted_app in Hn. }
  split; [|split; [done|split]].
  - split; [|by intros [->| ->]].
    unfold normalizedBasePath. case_bool_decide as Hb; [by left|]. cbn [negb]. cbv zeta.
    rewrite HasPrefix_slash. intros Hnil. right.
    destruct (filepath.is_rooted basePath) eqn:Hr; cbn [negb] in Hnil.
    + destruct (TrimSuffix_cases basePath "/") as [[_ Heq]|[_ Heq]];
        rewrite Hnil in Heq; [exact Heq|by subst].
    + destruct (TrimSuffix_cases ("/" +:+ basePath) "/") as [[_ Heq]|[_ Heq]];
        rewrite Hnil in Heq; [|done].
      rewrite !string_app_cons, !string_app_nil_l in Heq. by injection Heq as Heq.
  - unfold normalizedBasePath. case_bool_decide as Hb; [by subst|]. cbn [negb]. cbv zeta.
    rewrite HasPrefix_slash.
    set (n := if negb (filepath.is_rooted basePath) then "/" +:+ basePath else basePath).
    intros Hs. apply HasSuffix_inv in Hs as Hbase.
    destruct (TrimSuffix_cases n "/") as [[_ Heq]|[Hno Heq]];
      [|by rewrite Heq, Hno in Hs].
    rewrite Hbase, string_app_assoc in Heq. unfold n in Heq.
    destruct (filepath.is_rooted basePath) eqn:Hr; cbn [negb] in Heq.
    + rewrite Heq. apply HasSuffix_app.
    + destruct (strings.slice_to _ _) as [|c pre].
      * rewrite !string_app_cons, !string_app_nil_l in Heq.
        injection Heq as Heq. by rewrite Heq in Hr.
      * rewrite !string_app_cons, !string_app_nil_l in Heq. injection Heq as _ Heq.
        rewrite Heq. apply HasSuffix_app.
  - intros path Hpath. split; [|by apply TrimPrefix_urlWithBasePath].
    rewrite urlWithBasePath_rooted by done.
    destruct (decide (normalizedBasePath basePath = "")) as [->|Hne]; [done|].
    rewrite is_rooted_app by done. by apply Hrooted.
Qed.

(** * More on the coordinator and the workers *)

(** ** No channel is closed twice *)

(** X11.  Whatever the schedule, the server does not panic: no channel is
    closed twice, although the fallback of a starter and a worker both close
    channels of the registry. *)
Theorem server_never_panics (files : gmap string entry) (acts : list action) (s : Server) :
  run (main files) acts = Some s → panicked s = false.
Proof.
  intros Hrun. apply inv_panicked. eapply invariant_run; [apply invariant_main|done].
Qed.

Lemma server_never_panics_witness :
  panicked (default (main ∅)
              (run (main (disk ["/srv/a.jpg"]))
                 (two_requests_enter ++ first_fails_second_restarts))) = false.
Proof.
  apply (server_never_panics (disk ["/srv/a.jpg"])
           (two_requests_enter ++ first_fails_second_restarts)).
  apply run_succeeds. vm_compute. reflexivity.
Defined.

(** ** The timer *)

Lemma now_set_queue (c : class) (s : Server) (q : list string) :
  now (set_queue c s q) = now s.
Proof. by destruct c. Qed.

Lemma now_close (ch : nat) (s : Server) : now (close ch s) = now s.
Proof. unfold close. by case_bool_decide. Qed.

Lemma step_now (s s' : Server) (a : action) : step s a = Some s' → now s ≤ now s'.
Proof.
  intros Hstep. unfold step in Hstep. destruct (panicked s); [done|].
  destruct a as [p|i o|i|w o|d]; simplify_eq; simpl; try lia.
  - step_cases Hstep; simpl; rewrite ?now_set_queue, ?now_close; done.
  - by step_cases Hstep.
  - step_cases Hstep; simpl;
      try match goal with |- context [log_failure _ _ ?e _] => destruct e end; simpl;
      rewrite ?now_set_queue, ?now_close; done.
Qed.

Lemma handlers_goto (i : nat) (pc pc' : handler_pc) (s : Server) :
  handlers s !! i = Some pc → handlers (goto i pc' s) !! i = Some pc'.
Proof.
  intros Hpc. simpl. apply list_lookup_insert_eq. by eapply lookup_lt_Some.
Qed.

Lemma waited_other (t0 i : nat) (s s' : Server) (a : action) (pc : handler_pc) :
  step s a = Some s' → handlers s !! i = Some pc →
  (∀ o, a ≠ Handle i o) → a ≠ Timeout i →
  waited t0 i s → waited t0 i s'.
Proof.
  intros Hstep Hi Hne Hne' [Hnow Hpc]. pose proof (step_now _ _ _ Hstep) as Hle.
  split; [lia|]. rewrite Hi in Hpc.
  rewrite (step_other_handler _ _ _ _ _ Hstep Hi Hne Hne').
  destruct pc as [| | | | | | |p d|p d dl|p|[|[]|]]; try done. lia.
Qed.

Lemma waited_step (t0 i : nat) (s s' : Server) (a : action) :
  waited t0 i s → step s a = Some s' → waited t0 i s'.
Proof.
  intros Hw Hstep. destruct (handlers s !! i) as [pc|] eqn:Hi;
    [|destruct Hw as [_ Hw]; by rewrite Hi in Hw].
  destruct a as [q|j o|j|w o|d]; try (by eapply waited_other).
  - destruct (decide (j = i)) as [->|Hne];
      [|eapply waited_other; try done; congruence].
    destruct Hw as [Hnow Hpc]. pose proof (step_now _ _ _ Hstep) as Hle.
    split; [lia|]. rewrite Hi in Hpc.
    unfold step in Hstep. destruct (panicked s); [done|].
    unfold handler_step in Hstep. rewrite Hi in Hstep.
    destruct pc as [| | | | | | |p d|p d dl|p|r]; try done.
    + simplify_eq. rewrite (handlers_goto _ _ _ _ Hi). unfold waitTimeout. lia.
    + case_bool_decide; simplify_eq. by rewrite (handlers_goto _ _ _ _ Hi).
    + destruct (IsNotExist _); simplify_eq; by rewrite (handlers_goto _ _ _ _ Hi).
  - destruct (decide (j = i)) as [->|Hne];
      [|eapply waited_other; try done; congruence].
    destruct Hw as [Hnow Hpc]. pose proof (step_now _ _ _ Hstep) as Hle.
    split; [lia|]. rewrite Hi in Hpc.
    unfold step in Hstep. destruct (panicked s); [done|].
    unfold handler_timeout in Hstep. rewrite Hi in Hstep.
    destruct pc as [| | | | | | |p d|p d dl|p|r]; try done.
    case_bool_decide; simplify_eq. rewrite (handlers_goto _ _ _ _ Hi). simpl. lia.
Qed.

Lemma waited_run (t0 i : nat) (acts : list action) (s s' : Server) :
  waited t0 i s → run s acts = Some s' → waited t0 i s'.
Proof.
  revert s. induction acts as [|a acts IH]; intros s Hw Hrun; simplify_eq/=; [done|].
  destruct (step s a) as [s1|] eqn:Hstep; [|done].
  eapply IH; [|done]. by eapply waited_step.
Qed.

(** X12.  A handler that stands before the final [select] is answered with
    the timeout error only when 30 seconds have passed since, whatever the
    other goroutines do meanwhile. *)
Theorem no_timeout_before_deadline (s s' : Server) (acts : list action) (i : nat)
    (p : string) (done : nat) :
  handlers s !! i = Some (QSelectDone p done) →
  run s acts = Some s' →
  handlers s' !! i = Some (HDone (InternalServerError ErrTimeout)) →
  now s + 30 ≤ now s'.
Proof.
  intros Hpc Hrun Hpc'.
  assert (waited (now s) i s) as Hw by (split; [done|by rewrite Hpc]).
  destruct (waited_run _ _ _ _ _ Hw Hrun) as [_ Hw']. by rewrite Hpc' in Hw'.
Qed.

Lemma no_timeout_before_deadline_witness :
  now (default (main ∅) (run (main (disk ["/srv/a.jpg"]))
                           [ Request "/srv/a.jpg"; Handle 0 all_ok; Handle 0 all_ok;
                             Handle 0 all_ok; Handle 0 all_ok ])) + 30
  ≤ now (default (main ∅)
           (run (default (main ∅) (run (main (disk ["/srv/a.jpg"]))
                                     [ Request "/srv/a.jpg"; Handle 0 all_ok;
                                       Handle 0 all_ok; Handle 0 all_ok;
                                       Handle 0 all_ok ]))
              [ Tick 10; Handle 0 all_ok; Tick 30; Timeout 0 ])).
Proof.
  apply (no_timeout_before_deadline _ _ [ Tick 10; Handle 0 all_ok; Tick 30; Timeout 0 ]
           0 "/srv/a.jpg" 0).
  - vm_compute. reflexivity.
  - apply run_succeeds. vm_compute. reflexivity.
  - vm_compute. reflexivity.
Defined.

(** ** Every request is answered *)

Lemma rank_respond (p : string) (err : option error) : rank (respond p err) = 0.
Proof. by destruct err. Qed.

(** Outside the final [select], a handler that has not answered can take
    its next step, which brings it nearer to its answer. *)
Lemma own_step (s : Server) (i : nat) (pc : handler_pc) :
  invariant s → handlers s !! i = Some pc →
  (∀ r, pc ≠ HDone r) → (∀ p d dl, pc ≠ QWait p d dl) →
  ∃ s' pc', step s (Handle i all_ok) = Some s'
    ∧ handlers s' !! i = Some pc' ∧ rank pc' < rank pc.
Proof.
  intros Hinv Hpc Hdone Hwait. unfold step. rewrite (inv_panicked _ Hinv).
  destruct pc as [p|p|p|p d|p d|p d err|p err|p d|p d dl|p|r].
  - unfold handler_step. rewrite Hpc.
    destruct (IsNotExist _); eexists _, _; (split; [done|]);
      rewrite (handlers_goto _ _ _ _ Hpc); (split; [done|simpl; lia]).
  - unfold handler_step. rewrite Hpc.
    destruct (IsNotExist _); eexists _, _; (split; [done|]);
      rewrite (handlers_goto _ _ _ _ Hpc); (split; [done|simpl; lia]).
  - unfold handler_step, LoadOrStore. rewrite Hpc.
    destruct (pendingThumbs s !! _); eexists _, _; (split; [done|]);
      (split; [by apply (handlers_goto i (QLoadOrStore p))|simpl; lia]).
  - rewrite (handler_step_select_queue _ _ _ _ _ Hpc). unfold select_queue.
    destruct (media_class p) as [c|]; [destruct (try_send _ _ _)|];
      eexists _, _; (split; [done|]);
      (split; [apply (handlers_goto i (QSelectQueue p d));
               by rewrite ?handlers_set_queue|simpl; lia]).
  - unfold handler_step. rewrite Hpc.
    destruct (generateThumbnail _ _ _) as [[err d'] cmds].
    eexists _, _. split; [done|].
    split; [by apply (handlers_goto i (QGenerate p d))|simpl; lia].
  - unfold handler_step. rewrite Hpc. eexists _, _. split; [done|].
    split; [apply (handlers_goto i (QClose p d err)); by rewrite handlers_close|simpl; lia].
  - unfold handler_step. rewrite Hpc. eexists _, _. split; [done|].
    split; [by apply (handlers_goto i (QDelete p err))|rewrite rank_respond; simpl; lia].
  - unfold handler_step. rewrite Hpc. eexists _, _. split; [done|].
    split; [by apply (handlers_goto i (QSelectDone p d))|simpl; lia].
  - by destruct (Hwait p d dl).
  - unfold handler_step. rewrite Hpc.
    destruct (IsNotExist _); eexists _, _; (split; [done|]);
      (split; [by apply (handlers_goto i (QStatThumbnail p))|rewrite rank_respond; simpl; lia]).
  - by destruct (Hdone r).
Qed.

Lemma timely_step (s s' : Server) (a : action) :
  timely s → step s a = Some s' → timely s'.
Proof.
  intros Hs Hstep j q ch dl Hj. pose proof (step_now _ _ _ Hstep) as Hle.
  assert (handlers s !! j = Some (QWait q ch dl) → dl ≤ now s' + waitTimeout) as Hkeep
    by (intros Hj'; specialize (Hs _ _ _ _ Hj'); lia).
  unfold step in Hstep. destruct (panicked s); [done|].
  destruct a as [p|i o|i|w o|d]; simplify_eq.
  - simpl in Hj. apply lookup_app_Some in Hj as [Hj|[_ Hj]]; [by apply Hkeep|].
    by apply list_lookup_singleton_Some in Hj as [_ ?].
  - destruct (decide (i = j)) as [->|Hne];
      [|rewrite (handler_step_other _ _ _ _ _ Hstep Hne) in Hj; by apply Hkeep].
    destruct (handlers s !! j) as [pc|] eqn:Hpc;
      [|by unfold handler_step in Hstep; rewrite Hpc in Hstep].
    destruct pc as [p|p|p|p d|p d|p d err|p err|p d|p d dl'|p|r].
    4: { rewrite (handler_step_select_queue _ _ _ _ _ Hpc) in Hstep. simplify_eq.
         unfold select_queue in Hj.
         destruct (media_class p) as [c|]; [destruct (try_send _ _ _)|];
           simpl in Hj; rewrite ?handlers_set_queue in Hj;
           rewrite list_lookup_insert_eq in Hj by (by eapply lookup_lt_Some); done. }
    all: unfold handler_step, LoadOrStore in Hstep; rewrite Hpc in Hstep.
    all: repeat case_match; simplify_eq; simpl in Hj; rewrite ?handlers_close in Hj.
    all: rewrite list_lookup_insert_eq in Hj by (by eapply lookup_lt_Some).
    all: try done.
    all: try (by destruct err).
    injection Hj as <- <- <-. clear. simpl. lia.
  - destruct (decide (i = j)) as [->|Hne];
      [|rewrite (handler_timeout_other _ _ _ _ Hstep Hne) in Hj; by apply Hkeep].
    unfold handler_timeout in Hstep.
    destruct (handlers s !! j) as [[]|] eqn:Hpc; try done.
    case_bool_decide; simplify_eq. simpl in Hj.
    rewrite list_lookup_insert_eq in Hj by (by eapply lookup_lt_Some).
    by destruct (respond_not_wait imagePath q (Some ErrTimeout) ch dl).
  - rewrite (worker_step_handlers _ _ _ _ Hstep) in Hj. by apply Hkeep.
  - simpl in *. specialize (Hs _ _ _ _ Hj). lia.
Qed.

Lemma timely_run (acts : list action) (s s' : Server) :
  timely s → run s acts = Some s' → timely s'.
Proof.
  revert s. induction acts as [|a acts IH]; intros s Hs Hrun; simplify_eq/=; [done|].
  destruct (step s a) as [s1|] eqn:Hstep; [|done].
  eapply IH; [|done]. by eapply timely_step.
Qed.

Lemma handler_progress (n : nat) (s : Server) (i : nat) (pc : handler_pc) :
  invariant s → timely s → handlers s !! i = Some pc → rank pc ≤ n →
  ∃ acts s', run s acts = Some s'
    ∧ (∃ r, handlers s' !! i = Some (HDone r))
    ∧ Forall (own_action i) acts
    ∧ length acts ≤ n
    ∧ ticks acts ≤ 1
    ∧ elapsed acts ≤ waitTimeout.
Proof.
  revert s pc. induction n as [|n IH]; intros s pc Hinv Htimely Hpc Hrank.
  { exists [], s. destruct pc; simpl in Hrank; try lia.
    repeat apply conj; try done; try (by eexists); unfold ticks, elapsed; simpl; lia. }
  assert ((∃ r, pc = HDone r) ∨ (∃ p d dl, pc = QWait p d dl)
          ∨ ((∀ r, pc ≠ HDone r) ∧ (∀ p d dl, pc ≠ QWait p d dl)))
    as [[r ->]|[(p & d & dl & ->)|[Hdone Hwait]]] by (destruct pc; eauto 6).
  { exists [], s.
    repeat apply conj; try done; try (by eexists); unfold ticks, elapsed; simpl; lia. }
  { simpl in Hrank. specialize (Htimely _ _ _ _ Hpc) as Hdl.
    exists [Tick (dl - now s); Timeout i]. eexists. repeat apply conj.
    - cbn [run]. unfold step at 1. rewrite (inv_panicked _ Hinv).
      unfold step, handler_timeout. cbn [panicked set_now handlers now].
      rewrite (inv_panicked _ Hinv), Hpc, bool_decide_eq_true_2 by lia. done.
    - eexists. by apply (handlers_goto i (QWait p d dl)).
    - constructor; [simpl; lia|]. constructor; [done|constructor].
    - simpl. lia.
    - unfold ticks. simpl. lia.
    - unfold elapsed. simpl. lia. }
  destruct (own_step s i pc Hinv Hpc Hdone Hwait) as (s1 & pc1 & Hstep & Hpc1 & Hlt).
  destruct (IH s1 pc1) as (acts & s' & Hrun & Hr & Hown & Hlen & Hticks & Htime);
    [by eapply invariant_step|by eapply timely_step|done|lia|].
  exists (Handle i all_ok :: acts), s'. repeat apply conj; try done.
  - cbn [run]. by rewrite Hstep.
  - by constructor.
  - simpl. lia.
Qed.

(** X13.  In every state that the server reaches, a request that has not
    been answered can be answered by its own steps and the passing of time
    alone, in at most seven steps of which at most one is a wait, and with
    30 seconds of waiting at most: no handler depends on a worker or on
    another handler for its answer. *)
Theorem every_request_is_answered (files : gmap string entry) (acts : list action)
    (s : Server) (i : nat) (pc : handler_pc) :
  run (main files) acts = Some s →
  handlers s !! i = Some pc →
  ∃ acts' s', run s acts' = Some s'
    ∧ (∃ r, handlers s' !! i = Some (HDone r))
    ∧ Forall (own_action i) acts'
    ∧ length acts' ≤ 7
    ∧ ticks acts' ≤ 1
    ∧ elapsed acts' ≤ waitTimeout.
Proof.
  intros Hrun Hpc.
  apply (handler_progress 7 s i pc); [| |done|by destruct pc; simpl; lia].
  - eapply invariant_run; [apply invariant_main|done].
  - eapply timely_run; [|done]. by intros j p d dl Hj.
Qed.

Lemma every_request_is_answered_witness :
  ∃ acts' s',
    run (default (main ∅) (run (main (disk ["/srv/notes.txt"]))
                             (unsupported_request ++ unsupported_again))) acts' = Some s'
    ∧ (∃ r, handlers s' !! 1 = Some (HDone r))
    ∧ Forall (own_action 1) acts'
    ∧ length acts' ≤ 7
    ∧ ticks acts' ≤ 1
    ∧ elapsed acts' ≤ waitTimeout.
Proof.
  apply (every_request_is_answered (disk ["/srv/notes.txt"])
           (unsupported_request ++ unsupported_again) _ 1 (QWait "/srv/notes.txt" 0 30)).
  - apply run_succeeds. vm_compute. reflexivity.
  - vm_compute. reflexivity.
Defined.

(** ** What is served exists *)

Lemma MkdirAll_is_Some (ok : bool) (path : string) (d d' : gmap string entry)
    (e : option error) (k : string) :
  MkdirAll ok d path = (e, d') → is_Some (d !! k) → is_Some (d' !! k).
Proof.
  intros Hmk Hk.
  destruct (MkdirAll_extends _ _ _ _ _ k Hmk) as [->|(_ & -> & _)]; [done|by eexists].
Qed.

Lemma generateThumbnail_fs (o : outcome) (d d' : gmap string entry) (p : string)
    (err : option error) (cmds : list command) :
  generateThumbnail o d p = (err, d', cmds) →
  (∀ k, is_Some (d !! k) → is_Some (d' !! k))
  ∧ (err = None → is_Some (d' !! getThumbnailPath p)).
Proof.
  intros Hgen. split.
  - intros k Hk.
    destruct (generateThumbnail_cases o d p) as
      [[_ Hg]|(_ & e & fs1 & Hmk & [(e' & Hg)|[(t & _ & _ & Hg)|(t & ok & _ & _ & Hg)]])];
      rewrite Hg in Hgen; simplify_eq; try done; try by eapply MkdirAll_is_Some.
    destruct (decide (getThumbnailPath p = k)) as [<-|Hne].
    + by rewrite lookup_insert_eq.
    + rewrite lookup_insert_ne by done. by eapply MkdirAll_is_Some.
  - intros ->. apply generateThumbnail_nil in Hgen.
    apply Stat_OK in Hgen as [H|H]; by eexists.
Qed.

(** No step makes a path unreadable. *)
Lemma generateThumbnail_unreadable (o : outcome) (d d' : gmap string entry) (p : string)
    (err : option error) (cmds : list command) (k : string) :
  generateThumbnail o d p = (err, d', cmds) →
  d' !! k = Some Inaccessible → d !! k = Some Inaccessible.
Proof.
  intros Hgen Hk.
  assert (∀ fs1 e, MkdirAll (mkdir_ok o) d (filepath.Dir (getThumbnailPath p)) = (e, fs1) →
                   fs1 !! k = Some Inaccessible → d !! k = Some Inaccessible) as Hmk'.
  { intros fs1 e Hmk Hfs1.
    destruct (MkdirAll_extends _ _ _ _ _ k Hmk) as [<-|(_ & Hdir & _)]; congruence. }
  destruct (generateThumbnail_cases o d p) as
    [[_ Hg]|(_ & e & fs1 & Hmk & [(e' & Hg)|[(t & _ & _ & Hg)|(t & ok & _ & _ & Hg)]])];
    rewrite Hg in Hgen; simplify_eq; try done; try by eapply Hmk'.
  destruct (decide (getThumbnailPath p = k)) as [<-|Hne].
  - by rewrite lookup_insert_eq in Hk.
  - rewrite lookup_insert_ne in Hk by done. by eapply Hmk'.
Qed.

Lemma unreadable_from_start (files : gmap string entry) (acts : list action)
    (s : Server) (k : string) :
  run (main files) acts = Some s →
  fs s !! k = Some Inaccessible → files !! k = Some Inaccessible.
Proof.
  revert s. induction acts as [|a acts IH] using rev_ind; intros s Hrun Hk.
  - by simplify_eq/=.
  - apply run_snoc in Hrun as (s1 & Hrun & Hstep). apply (IH _ Hrun).
    destruct (step_fs _ _ _ Hstep) as [[Hfs _]|(o & p & err & cmds & Hgen & _)];
      [by rewrite <- Hfs|].
    by eapply generateThumbnail_unreadable.
Qed.

Lemma step_fs_mono (s s' : Server) (a : action) (k : string) :
  step s a = Some s' → is_Some (fs s !! k) → is_Some (fs s' !! k).
Proof.
  intros Hstep Hk.
  destruct (step_fs _ _ _ Hstep) as [[-> _]|(o & p & err & cmds & Hgen & _)]; [done|].
  by apply (generateThumbnail_fs _ _ _ _ _ _ Hgen).
Qed.

Lemma serves_existing_mono (d d' : gmap string entry) (pc : handler_pc) :
  (∀ k, is_Some (d !! k) → is_Some (d' !! k)) →
  serves_existing d pc → serves_existing d' pc.
Proof.
  intros Hmono. destruct pc as [| | | | |p ch [e|]|p [e|]| | | |[|e|t]]; simpl; try done.
  - apply Hmono.
  - apply Hmono.
  - intros [Ht Hp]. split; [by apply Hmono|done].
Qed.

Lemma Stat_exists (d : gmap string entry) (k : string) :
  IsNotExist (Stat d k) = false → is_Some (d !! k).
Proof. unfold Stat. by destruct (d !! k) as [[]|]. Qed.

Lemma serves_existing_respond (d : gmap string entry) (p : string) (err : option error) :
  (err = None → is_Some (d !! getThumbnailPath p)) →
  serves_existing d (respond p err).
Proof.
  destruct err as [e|]; simpl; [done|]. intros H. split; [by apply H|by eexists].
Qed.

Lemma serves_step (s s' : Server) (a : action) :
  Forall (serves_existing (fs s)) (handlers s) → step s a = Some s' →
  Forall (serves_existing (fs s')) (handlers s').
Proof.
  intros Hs Hstep.
  assert (Forall (serves_existing (fs s')) (handlers s)) as Hs'.
  { eapply Forall_impl; [done|]. intros pc. apply serves_existing_mono.
    intros k. by apply (step_fs_mono _ _ _ _ Hstep). }
  unfold step in Hstep. destruct (panicked s); [done|].
  destruct a as [q|i o|i|w o|d]; simplify_eq.
  - simpl. apply Forall_app. split; [done|]. by repeat constructor.
  - destruct (handlers s !! i) as [pc|] eqn:Hpc;
      [|by unfold handler_step in Hstep; rewrite Hpc in Hstep].
    pose proof (Forall_lookup_1 _ _ _ _ Hs Hpc) as Hserves.
    destruct pc as [p|p|p|p ch|p ch|p ch err|p err|p ch|p ch dl|p|r].
    4: { rewrite (handler_step_select_queue _ _ _ _ _ Hpc) in Hstep. simplify_eq.
         unfold select_queue in *.
         destruct (media_class p) as [c|]; [destruct (try_send _ _ _)|];
           simpl; rewrite ?handlers_set_queue; by apply Forall_insert. }
    all: unfold handler_step, LoadOrStore in Hstep; rewrite Hpc in Hstep.
    + destruct (IsNotExist _); simplify_eq; simpl; by apply Forall_insert.
    + destruct (IsNotExist _) eqn:Hstat; simplify_eq; simpl; apply Forall_insert;
        try done.
      simpl. split; [by apply Stat_exists|by eexists].
    + destruct (pendingThumbs s !! _); simplify_eq; simpl; by apply Forall_insert.
    + destruct (generateThumbnail o (fs s) p) as [[err d'] cmds] eqn:Hgen. simplify_eq.
      simpl in *. apply Forall_insert; [done|].
      destruct err as [e|]; [done|]. simpl.
      by apply (generateThumbnail_fs _ _ _ _ _ _ Hgen).
    + simplify_eq. simpl in *. rewrite handlers_close.
      rewrite (proj1 (fs_close ch s)) in Hs' |- *.
      apply Forall_insert; [done|]. by destruct err.
    + simplify_eq. simpl in *. apply Forall_insert; [done|].
      apply serves_existing_respond. intros ->. done.
    + simplify_eq. simpl. by apply Forall_insert.
    + case_bool_decide; simplify_eq. simpl. by apply Forall_insert.
    + destruct (IsNotExist _) eqn:Hstat; simplify_eq; simpl in *;
        (apply Forall_insert; [done|]).
      * done.
      * split; [by apply Stat_exists|by eexists].
    + done.
  - unfold handler_timeout in Hstep.
    destruct (handlers s !! i) as [[]|] eqn:Hpc; try done.
    case_bool_decide; simplify_eq. simpl. by apply Forall_insert.
  - by rewrite (worker_step_handlers _ _ _ _ Hstep).
  - done.
Qed.

Lemma serves_run (acts : list action) (s s' : Server) :
  Forall (serves_existing (fs s)) (handlers s) → run s acts = Some s' →
  Forall (serves_existing (fs s')) (handlers s').
Proof.
  revert s. induction acts as [|a acts IH]; intros s Hs Hrun; simplify_eq/=; [done|].
  destruct (step s a) as [s1|] eqn:Hstep; [|done].
  eapply IH; [|done]. by eapply serves_step.
Qed.

(** X14.  Whatever the schedule, a request that [handleThumbnail] answers
    with a file is answered with the thumbnail path of a source path that
    [os.Stat] does not report missing: from the existence check of the
    handler, from the check after the wait, or, in the fallback, from a
    generation that returned no error.  The path is on disk, as a file or
    a directory that [os.Stat] can read, unless [os.Stat] has failed on it
    with another error since the start; the server itself makes no path
    unreadable. *)
Theorem served_thumbnail_exists (files : gmap string entry) (acts : list action)
    (s : Server) (i : nat) (thumbnailPath : string) :
  run (main files) acts = Some s →
  handlers s !! i = Some (HDone (ServeFile thumbnailPath)) →
  (∃ p, thumbnailPath = getThumbnailPath p)
  ∧ Stat (fs s) thumbnailPath ≠ StatNotExist
  ∧ (Stat (fs s) thumbnailPath = StatError → files !! thumbnailPath = Some Inaccessible)
  ∧ (files !! thumbnailPath ≠ Some Inaccessible → Stat (fs s) thumbnailPath = StatOK).
Proof.
  intros Hrun Hpc.
  assert (Forall (serves_existing (fs s)) (handlers s)) as Hs
    by (eapply serves_run; [|done]; constructor).
  destruct (Forall_lookup_1 _ _ _ _ Hs Hpc) as [[e He] Hp].
  pose proof (unreadable_from_start files acts s thumbnailPath Hrun) as Hfrom.
  split; [done|]. unfold Stat. rewrite He.
  destruct e; repeat split; try done; auto.
  intros Hne. by destruct Hne; auto.
Qed.

Lemma served_thumbnail_exists_witness :
  (∃ p, "/srv/.small/a.jpg.jpg" = getThumbnailPath p)
  ∧ Stat (fs (after (request_received
                     ++ [ Work 0 all_ok; Work 0 all_ok; Work 0 all_ok;
                          Handle 0 all_ok; Handle 0 all_ok ])))
      "/srv/.small/a.jpg.jpg" = StatOK.
Proof.
  destruct (served_thumbnail_exists (disk ["/srv/a.jpg"])
              (request_received
               ++ [ Work 0 all_ok; Work 0 all_ok; Work 0 all_ok;
                    Handle 0 all_ok; Handle 0 all_ok ])
              (after (request_received
                      ++ [ Work 0 all_ok; Work 0 all_ok; Work 0 all_ok;
                           Handle 0 all_ok; Handle 0 all_ok ]))
              0 "/srv/.small/a.jpg.jpg") as (Hp & _ & _ & Hok).
  - apply run_succeeds. vm_compute. reflexivity.
  - vm_compute. reflexivity.
  - split; [exact Hp|]. apply Hok. vm_compute. discriminate.
Defined.

(** ** The paths that the server holds *)

(** The tool that a generation runs, if any, is the tool of the class of
    the source path; it reads the source path and writes its thumbnail
    path. *)
Lemma generateThumbnail_commands (o : outcome) (d d' : gmap string entry) (p : string)
    (err : option error) (cmds : list command) :
  generateThumbnail o d p = (err, d', cmds) →
  Forall (λ c, cmd_input c = p ∧ cmd_output c = getThumbnailPath p
               ∧ media_class p = Some (tool_class (cmd_tool c))) cmds
  ∧ (media_class p ≠ None → err ≠ Some ErrUnsupported).
Proof.
  rewrite generateThumbnail_class.
  destruct (is_nil _); [by intros [= <- <- <-]|].
  destruct (MkdirAll _ _ _) as [[e|] fs1]; [by intros [= <- <- <-]|].
  unfold transcode, run_command.
  destruct (media_class p) as [[]|]; [destruct (negb (open_ok o))| |];
    try destruct (run_ok o); intros [= <- <- <-]; split; try done;
    by repeat constructor.
Qed.

Section paths.
Variable P : string → Prop.

Lemma paths_goto (s : Server) (i : nat) (pc' : handler_pc) :
  paths_satisfy P s → (∀ p, handler_path pc' = Some p → P p) →
  paths_satisfy P (goto i pc' s).
Proof.
  intros [Hh Hi Hm Hw Hc] Hpc'. split; try done.
  intros j pc p Hj Hp. simpl in Hj.
  apply list_lookup_insert_Some in Hj as [(-> & <- & _)|[_ Hj]]; [by apply Hpc'|].
  by eapply Hh.
Qed.

Lemma paths_wgoto (s : Server) (w : nat) (c : class) (pc' : worker_pc) :
  paths_satisfy P s → (∀ p, worker_path pc' = Some p → P p) →
  paths_satisfy P (wgoto w c pc' s).
Proof.
  intros [Hh Hi Hm Hw Hc] Hpc'. split; try done.
  intros v c' pc p Hv Hp. simpl in Hv.
  apply list_lookup_insert_Some in Hv as [(-> & [= <- <-] & _)|[_ Hv]]; [by apply Hpc'|].
  by eapply Hw.
Qed.

Lemma paths_set_queue (s : Server) (c : class) (q : list string) :
  paths_satisfy P s → Forall P q → paths_satisfy P (set_queue c s q).
Proof. intros [Hh Hi Hm Hw Hc] Hq. by destruct c. Qed.

Lemma paths_queue (s : Server) (c : class) : paths_satisfy P s → Forall P (queue c s).
Proof. intros [Hh Hi Hm Hw Hc]. by destruct c. Qed.

Lemma paths_set_fs (s : Server) (d : gmap string entry) (cmds : list command) :
  paths_satisfy P s → Forall (λ c, P (cmd_input c)) cmds →
  paths_satisfy P (set_fs s d cmds).
Proof. intros [Hh Hi Hm Hw Hc] Hcmds. split; try done. simpl. by apply Forall_app. Qed.

Lemma paths_close (s : Server) (ch : nat) : paths_satisfy P s → paths_satisfy P (close ch s).
Proof. intros [Hh Hi Hm Hw Hc]. unfold close. by case_bool_decide. Qed.

Lemma paths_log_failure (s : Server) (c : class) (p : string) (err : option error) :
  paths_satisfy P s → paths_satisfy P (log_failure c p err s).
Proof. intros [Hh Hi Hm Hw Hc]. by destruct err. Qed.

Lemma paths_generate (s : Server) (o : outcome) (p : string) (err : option error)
    (d' : gmap string entry) (cmds : list command) :
  paths_satisfy P s → P p → generateThumbnail o (fs s) p = (err, d', cmds) →
  paths_satisfy P (set_fs s d' cmds).
Proof.
  intros Hs Hp Hgen. apply paths_set_fs; [done|].
  eapply Forall_impl; [apply (generateThumbnail_commands _ _ _ _ _ _ Hgen)|].
  by intros c (-> & _).
Qed.

Lemma paths_respond (p : string) (err : option error) (q : string) :
  handler_path (respond p err) = Some q → P q.
Proof. by destruct err. Qed.

Lemma paths_step (s s' : Server) (a : action) :
  paths_satisfy P s → (∀ p, a = Request p → P p) → step s a = Some s' →
  paths_satisfy P s'.
Proof.
  intros Hs Ha Hstep. unfold step in Hstep. destruct (panicked s); [done|].
  destruct a as [q|i o|i|w o|d]; simplify_eq.
  - destruct Hs as [Hh Hi Hm Hw Hc]. split; try done.
    intros j pc p Hj Hp. simpl in Hj.
    apply lookup_app_Some in Hj as [Hj|[_ Hj]]; [by eapply Hh|].
    apply list_lookup_singleton_Some in Hj as [_ <-]. simplify_eq/=. by apply Ha.
  - destruct (handlers s !! i) as [pc|] eqn:Hpc;
      [|by unfold handler_step in Hstep; rewrite Hpc in Hstep].
    assert (∀ p, handler_path pc = Some p → P p) as Hp
      by (intros p; by apply (ps_handlers _ _ Hs i)).
    destruct pc as [p|p|p|p ch|p ch|p ch err|p err|p ch|p ch dl|p|r].
    4: { rewrite (handler_step_select_queue _ _ _ _ _ Hpc) in Hstep. simplify_eq.
         unfold select_queue.
         destruct (media_class p) as [c|]; [unfold try_send; case_bool_decide|];
           apply paths_goto; try done.
         apply paths_set_queue; [done|]. apply Forall_app. split.
         - by apply paths_queue.
         - constructor; [by apply Hp|done]. }
    all: unfold handler_step, LoadOrStore in Hstep; rewrite Hpc in Hstep.
    + destruct (IsNotExist _); simplify_eq; by apply paths_goto.
    + destruct (IsNotExist _); simplify_eq; by apply paths_goto.
    + destruct (pendingThumbs s !! _); simplify_eq; apply paths_goto; try done;
        by destruct Hs.
    + destruct (generateThumbnail o (fs s) p) as [[err d'] cmds] eqn:Hgen. simplify_eq.
      apply paths_goto; [|done]. eapply paths_generate; [done| |done]. by apply Hp.
    + simplify_eq. apply paths_goto; [by apply paths_close|done].
    + simplify_eq. apply paths_goto; [by destruct Hs|apply paths_respond].
    + simplify_eq. by apply paths_goto.
    + case_bool_decide; simplify_eq. by apply paths_goto.
    + destruct (IsNotExist _); simplify_eq; (apply paths_goto; [done|apply paths_respond]).
    + done.
  - unfold handler_timeout in Hstep.
    destruct (handlers s !! i) as [[]|] eqn:Hpc; try done.
    case_bool_decide; simplify_eq. apply paths_goto; [done|apply paths_respond].
  - unfold worker_step, LoadAndDelete in Hstep.
    destruct (workers s !! w) as [[c [|p|p err|p ch err]]|] eqn:Hpc; [| | | |done].
    + destruct (queue c s) as [|p rest] eqn:Hq; simplify_eq.
      pose proof (paths_queue s c Hs) as Hqueue. rewrite Hq in Hqueue.
      apply Forall_cons in Hqueue as [Hp Hrest].
      apply paths_wgoto; [by apply paths_set_queue|]. by intros ? [= <-].
    + destruct (generateThumbnail o (fs s) p) as [[err d'] cmds] eqn:Hgen. simplify_eq.
      assert (P p) as Hp by (by apply (ps_workers _ _ Hs w c (WGenerate p))).
      apply paths_wgoto; [by eapply paths_generate|]. by intros ? [= <-].
    + assert (P p) as Hp by (by apply (ps_workers _ _ Hs w c (WLoadAndDelete p err))).
      destruct (pendingThumbs s !! _); simplify_eq.
      * apply paths_wgoto; [by destruct Hs|]. by intros ? [= <-].
      * apply paths_wgoto; [apply paths_log_failure; by destruct Hs|done].
    + simplify_eq. apply paths_wgoto; [|done].
      apply paths_log_failure. by apply paths_close.
  - by destruct Hs.
Qed.

Lemma paths_run (acts : list action) (s s' : Server) :
  paths_satisfy P s → (∀ p, Request p ∈ acts → P p) → run s acts = Some s' →
  paths_satisfy P s'.
Proof.
  revert s. induction acts as [|a acts IH]; intros s Hs Hacts Hrun; simplify_eq/=; [done|].
  destruct (step s a) as [s1|] eqn:Hstep; [|done].
  eapply IH; [|by intros p Hp; apply Hacts; right|done].
  eapply paths_step; [done| |done]. intros p ->. apply Hacts. by left.
Qed.

Lemma paths_main (files : gmap string entry) : paths_satisfy P (main files).
Proof.
  split; try done.
  intros w c pc p Hw Hp. simpl in Hw.
  destruct w as [|[|[|w]]]; by simplify_eq/=.
Qed.

End paths.

(** ** Queues and classes *)

Lemma queueSize_set_queue (c : class) (s : Server) (q : list string) :
  queueSize (set_queue c s q) = queueSize s.
Proof. by destruct c. Qed.

Lemma queueSize_close (ch : nat) (s : Server) : queueSize (close ch s) = queueSize s.
Proof. unfold close. by case_bool_decide. Qed.

Lemma step_queueSize (s s' : Server) (a : action) :
  step s a = Some s' → queueSize s' = queueSize s.
Proof.
  intros Hstep. unfold step in Hstep. destruct (panicked s); [done|].
  destruct a as [p|i o|i|w o|d]; simplify_eq; try done.
  - step_cases Hstep; simpl; rewrite ?queueSize_set_queue, ?queueSize_close; done.
  - by step_cases Hstep.
  - step_cases Hstep; simpl;
      try match goal with |- context [log_failure _ _ ?e _] => destruct e end; simpl;
      rewrite ?queueSize_set_queue, ?queueSize_close; done.
Qed.

Lemma routed_goto (s : Server) (i : nat) (pc : handler_pc) :
  routed s → routed (goto i pc s).
Proof. by intros []. Qed.

Lemma routed_wgoto (s : Server) (w : nat) (c : class) (pc : worker_pc) :
  routed s → worker_routed (Worker c pc) → routed (wgoto w c pc s).
Proof. intros [] Hpc. split; try done. simpl. by apply Forall_insert. Qed.

Lemma routed_set_fs (s : Server) (d : gmap string entry) (cmds : list command) :
  routed s →
  Forall (λ c, media_class (cmd_input c) = Some (tool_class (cmd_tool c))
               ∧ cmd_output c = getThumbnailPath (cmd_input c)) cmds →
  routed (set_fs s d cmds).
Proof. intros [] Hcmds. split; try done. simpl. by apply Forall_app. Qed.

Lemma routed_generate (s : Server) (o : outcome) (p : string) (err : option error)
    (d' : gmap string entry) (cmds : list command) :
  routed s → generateThumbnail o (fs s) p = (err, d', cmds) → routed (set_fs s d' cmds).
Proof.
  intros Hs Hgen. apply routed_set_fs; [done|].
  eapply Forall_impl; [apply (generateThumbnail_commands _ _ _ _ _ _ Hgen)|].
  intros c (-> & -> & Hclass). done.
Qed.

Lemma routed_close (s : Server) (ch : nat) : routed s → routed (close ch s).
Proof. intros []. unfold close. by case_bool_decide. Qed.

Lemma routed_log_failure (s : Server) (c : class) (p : string) (err : option error) :
  routed s → media_class p = Some c → err ≠ Some ErrUnsupported →
  routed (log_failure c p err s).
Proof.
  intros [] Hclass Herr. destruct err as [e|]; [|done]. split; try done.
  simpl. constructor; [|done]. simpl. split; [done|congruence].
Qed.

Lemma routed_send (s : Server) (c : class) (p : string) :
  routed s → media_class p = Some c → length (queue c s) < queueSize s →
  routed (set_queue c s (queue c s ++ [p])).
Proof.
  intros [] Hclass Hlen.
  destruct c; split; try done; simpl in *;
    try (apply Forall_app; split; [done|by repeat constructor]);
    rewrite length_app; simpl; lia.
Qed.

Lemma routed_receive (s : Server) (c : class) (p : string) (rest : list string) :
  routed s → queue c s = p :: rest →
  routed (set_queue c s rest) ∧ media_class p = Some c.
Proof.
  intros [Hi Hm Hil Hml Hw Hl Hc] Hq.
  destruct c; simpl in Hq; rewrite Hq in *.
  - apply Forall_cons in Hi as [Hp Hi]. split; [|done]. split; try done. simpl in *. lia.
  - apply Forall_cons in Hm as [Hp Hm]. split; [|done]. split; try done. simpl in *. lia.
Qed.

Lemma routed_step (s s' : Server) (a : action) :
  routed s → step s a = Some s' → routed s'.
Proof.
  intros Hs Hstep. unfold step in Hstep. destruct (panicked s); [done|].
  destruct a as [q|i o|i|w o|d]; simplify_eq.
  - by destruct Hs.
  - destruct (handlers s !! i) as [pc|] eqn:Hpc;
      [|by unfold handler_step in Hstep; rewrite Hpc in Hstep].
    destruct pc as [p|p|p|p ch|p ch|p ch err|p err|p ch|p ch dl|p|r].
    4: { rewrite (handler_step_select_queue _ _ _ _ _ Hpc) in Hstep. simplify_eq.
         unfold select_queue.
         destruct (media_class p) as [c|] eqn:Hclass;
           [unfold try_send; case_bool_decide|]; apply routed_goto; try done.
         by apply routed_send. }
    all: unfold handler_step, LoadOrStore in Hstep; rewrite Hpc in Hstep.
    + destruct (IsNotExist _); simplify_eq; by apply routed_goto.
    + destruct (IsNotExist _); simplify_eq; by apply routed_goto.
    + destruct (pendingThumbs s !! _); simplify_eq; apply routed_goto; by destruct Hs.
    + destruct (generateThumbnail o (fs s) p) as [[err d'] cmds] eqn:Hgen. simplify_eq.
      apply routed_goto. by eapply routed_generate.
    + simplify_eq. apply routed_goto. by apply routed_close.
    + simplify_eq. apply routed_goto. by destruct Hs.
    + simplify_eq. by apply routed_goto.
    + case_bool_decide; simplify_eq. by apply routed_goto.
    + destruct (IsNotExist _); simplify_eq; by apply routed_goto.
    + done.
  - unfold handler_timeout in Hstep.
    destruct (handlers s !! i) as [[]|] eqn:Hpc; try done.
    case_bool_decide; simplify_eq. by apply routed_goto.
  - unfold worker_step, LoadAndDelete in Hstep.
    destruct (workers s !! w) as [[c pc]|] eqn:Hpc; [|done].
    pose proof (Forall_lookup_1 _ _ _ _ (routed_workers _ Hs) Hpc) as Hw.
    unfold worker_routed in Hw. simpl in Hw.
    destruct pc as [|p|p err|p ch err].
    + destruct (queue c s) as [|p rest] eqn:Hq; simplify_eq.
      destruct (routed_receive _ _ _ _ Hs Hq) as [Hs' Hclass].
      by apply routed_wgoto.
    + destruct (generateThumbnail o (fs s) p) as [[err d'] cmds] eqn:Hgen. simplify_eq.
      apply routed_wgoto; [by eapply routed_generate|].
      unfold worker_routed. simpl. split; [done|].
      apply (generateThumbnail_commands _ _ _ _ _ _ Hgen). by rewrite Hw.
    + destruct Hw as [Hclass Herr].
      destruct (pendingThumbs s !! _); simplify_eq.
      * apply routed_wgoto; [by destruct Hs|done].
      * apply routed_wgoto; [|done]. apply routed_log_failure; try done. by destruct Hs.
    + destruct Hw as [Hclass Herr]. simplify_eq.
      apply routed_wgoto; [|done]. apply routed_log_failure; try done.
      by apply routed_close.
  - by destruct Hs.
Qed.

Lemma routed_run (acts : list action) (s s' : Server) :
  routed s → run s acts = Some s' → routed s' ∧ queueSize s' = queueSize s.
Proof.
  revert s. induction acts as [|a acts IH]; intros s Hs Hrun; simplify_eq/=; [done|].
  destruct (step s a) as [s1|] eqn:Hstep; [|done].
  destruct (IH s1) as [Hs' Hsize]; [by eapply routed_step|done|].
  split; [done|]. by rewrite Hsize, (step_queueSize _ _ _ Hstep).
Qed.

Lemma routed_main (files : gmap string entry) : routed (main files).
Proof. split; simpl; try done; try lia. by repeat constructor. Qed.

(** X17.  Whatever the schedule: each of the two queues holds at most 250
    paths, those of the image queue of the image class and those of the
    movie queue of the movie class; a worker generates thumbnails for paths
    of its own class only, so the failures that the workers log are never
    the unsupported-type error; and every run of a tool is for a source
    path of the class of the tool, [ffmpeg] for movies and [vipsthumbnail]
    for images, and is asked to write the thumbnail path of that source
    path. *)
Theorem queues_and_tools_by_class (files : gmap string entry) (acts : list action)
    (s : Server) :
  run (main files) acts = Some s →
  length (imageThumbnailQueue s) ≤ 250
  ∧ length (movieThumbnailQueue s) ≤ 250
  ∧ Forall (λ p, media_class p = Some Image) (imageThumbnailQueue s)
  ∧ Forall (λ p, media_class p = Some Movie) (movieThumbnailQueue s)
  ∧ (∀ w c p, workers s !! w = Some (Worker c (WGenerate p)) → media_class p = Some c)
  ∧ Forall (λ l, media_class l.1.2 = Some l.1.1 ∧ l.2 ≠ ErrUnsupported) (logged s)
  ∧ Forall (λ c, media_class (cmd_input c) = Some (tool_class (cmd_tool c))
                 ∧ cmd_output c = getThumbnailPath (cmd_input c)) (commands s).
Proof.
  intros Hrun.
  destruct (routed_run _ _ _ (routed_main files) Hrun) as [[Hi Hm Hil Hml Hw Hl Hc] Hsize].
  simpl in Hsize. rewrite Hsize in Hil, Hml.
  repeat apply conj; try done.
  intros w c p Hpc. apply (Forall_lookup_1 _ _ _ _ Hw Hpc).
Qed.

Lemma queues_and_tools_by_class_witness :
  length (imageThumbnailQueue (after failed_round)) ≤ 250
  ∧ length (movieThumbnailQueue (after failed_round)) ≤ 250
  ∧ Forall (λ p, media_class p = Some Image)
      (imageThumbnailQueue (after failed_round))
  ∧ Forall (λ p, media_class p = Some Movie)
      (movieThumbnailQueue (after failed_round))
  ∧ (∀ w c p,
       workers (after failed_round) !! w
       = Some (Worker c (WGenerate p)) → media_class p = Some c)
  ∧ Forall (λ l, media_class l.1.2 = Some l.1.1 ∧ l.2 ≠ ErrUnsupported)
      (logged (after failed_round))
  ∧ Forall (λ c, media_class (cmd_input c) = Some (tool_class (cmd_tool c))
                 ∧ cmd_output c = getThumbnailPath (cmd_input c))
      (commands (after failed_round)).
Proof.
  apply (queues_and_tools_by_class (disk ["/srv/a.jpg"]) failed_round).
  apply run_succeeds. vm_compute. reflexivity.
Defined.

(** ** What the server writes *)

Lemma made_impl (P Q : string → Prop) (files : gmap string entry) (s : Server)
    (k : string) :
  (∀ p, P p → Q p) → made P files s k → made Q files s k.
Proof.
  intros HPQ (Hk & Hfiles & p & l1 & l2 & Hp & Hl & Hl1).
  split; [done|]. split; [done|]. exists p, l1, l2. auto.
Qed.

(** A goroutine generates only for a path of a media class that a request
    came in for. *)
Lemma generating_requested (files : gmap string entry) (acts : list action)
    (s : Server) (p : string) :
  run (main files) acts = Some s → generating s p →
  is_Some (media_class p) ∧ Request p ∈ acts.
Proof.
  intros Hrun Hgen.
  assert (paths_satisfy (λ p, Request p ∈ acts) s) as Hpaths
    by (eapply paths_run; [apply paths_main|done..]).
  destruct Hgen as [(i & d & Hi)|(w & c & Hw)].
  - split; [by eapply generating_has_class|].
    by apply (ps_handlers _ _ Hpaths i (QGenerate p d)).
  - split; [|by apply (ps_workers _ _ Hpaths w c (WGenerate p))].
    assert (routed s) as Hrouted by (eapply routed_run; [apply routed_main|done]).
    pose proof (Forall_lookup_1 _ _ _ _ (routed_workers _ Hrouted) Hw) as Hc.
    unfold worker_routed in Hc. simpl in Hc. by rewrite Hc.
Qed.

(** Every step keeps the account of the disk: a path is as it was at the
    start, or it is a thumbnail that a tool has left, or a directory that
    [os.MkdirAll] has made. *)
Lemma changes_step (P : string → Prop) (files : gmap string entry) (s s' : Server)
    (a : action) :
  (∀ k, fs s !! k = files !! k ∨ written files s k ∨ made P files s k) →
  (∀ x, Stat files x = StatOK → Stat (fs s) x = StatOK) →
  (∀ p, generating s p → P p) →
  step s a = Some s' →
  ∀ k, fs s' !! k = files !! k ∨ written files s' k ∨ made P files s' k.
Proof.
  intros Hs Hkeep HP Hstep k.
  destruct (step_fs_who _ _ _ Hstep)
    as [[Hfs Hcmds]|(o & p & err & cmds & Hwho & Hgen & Hcmds)].
  { destruct (Hs k) as [?|[(? & ? & ?)|(? & ?)]].
    - left. congruence.
    - right. left. unfold written. by rewrite Hfs, Hcmds.
    - right. right. unfold made. by rewrite Hfs. }
  specialize (HP _ Hwho).
  assert (fs s' !! k = fs s !! k →
          fs s' !! k = files !! k ∨ written files s' k ∨ made P files s' k) as Hsame.
  { intros Heq. destruct (Hs k) as [?|[(Hk & Hfiles & t & q & ok & Hin & Hq)|(Hk & Hrest)]].
    - left. congruence.
    - right. left. split; [congruence|]. split; [done|].
      exists t, q, ok. split; [|done]. rewrite Hcmds. apply elem_of_app. by right.
    - right. right. split; [congruence|done]. }
  assert (∀ e fs1,
    MkdirAll (mkdir_ok o) (fs s) (filepath.Dir (getThumbnailPath p)) = (e, fs1) →
    fs s' !! k = fs1 !! k →
    fs s' !! k = files !! k ∨ written files s' k ∨ made P files s' k) as Hmkdir.
  { intros e fs1 Hmk Heq.
    destruct (MkdirAll_extends _ _ _ _ _ k Hmk) as [Heq'|(Hnone' & Hdir' & _)];
      [apply Hsame; congruence|].
    assert (fs1 !! k ≠ fs s !! k) as Hne by congruence.
    destruct (MkdirAll_made_below _ _ _ _ _ _ Hmk Hne) as (l1 & l2 & Hl & Hl1 & Hnone & Hdir).
    right. right. split; [congruence|]. split.
    { destruct (Hs k) as [?|[(? & _)|(? & _)]]; congruence. }
    exists p, l1, l2. split; [done|]. split; [done|].
    eapply Forall_impl; [exact Hl1|]. intros x Hx Hok. by apply Hx, Hkeep. }
  destruct (generateThumbnail_cases o (fs s) p) as
    [[_ Hg]|(Hstat & e & fs1 & Hmk & [(e' & Hg)|[(t & _ & Ht & Hg)|(t & ok & _ & Ht & Hg)]])];
    rewrite Hg in Hgen; injection Hgen as <- Hfs <-.
  - apply Hsame. by rewrite Hfs.
  - eapply Hmkdir; [done|]. by rewrite Hfs.
  - eapply Hmkdir; [done|]. by rewrite Hfs.
  - destruct (decide (getThumbnailPath p = k)) as [<-|Hne].
    + right. left. split; [by rewrite <- Hfs, lookup_insert_eq|]. split.
      { intros Hok. by apply Hstat, Hkeep. }
      exists t, p, ok. split; [|done]. rewrite Hcmds. apply elem_of_app. left.
      by apply list_elem_of_singleton.
    + eapply Hmkdir; [done|]. by rewrite <- Hfs, lookup_insert_ne.
Qed.

Lemma disk_changes (files : gmap string entry) (acts : list action) (s : Server) :
  run (main files) acts = Some s →
  ∀ k, fs s !! k = files !! k
       ∨ written files s k
       ∨ made (λ p, is_Some (media_class p) ∧ Request p ∈ acts) files s k.
Proof.
  revert s. induction acts as [|a acts IH] using rev_ind; intros s Hrun.
  { simplify_eq/=. by left. }
  apply run_snoc in Hrun as (s1 & Hrun & Hstep).
  eapply changes_step; [| | |exact Hstep].
  - intros k. destruct (IH _ Hrun k) as [?|[?|Hmade]]; [by left|by right; left|].
    right. right. eapply made_impl; [|exact Hmade].
    intros p [? ?]. split; [done|]. apply elem_of_app. by left.
  - intros x. apply (run_keeps_Stat _ _ _ _ Hrun).
  - intros p Hp. destruct (generating_requested _ _ _ _ Hrun Hp) as [? ?].
    split; [done|]. apply elem_of_app. by left.
Qed.

(** X15.  Whatever the schedule, what [os.Stat] could read on disk at the
    start is there unchanged, and every path whose state on disk has changed
    is either a regular file now, left by a run of a tool at the thumbnail
    path of a source path that a request came in for, the tool being that
    of the class of the source path; or a directory now, made by
    [os.MkdirAll] where nothing was, on its way to the directory of the
    thumbnail of a source path of a media class that a request came in for.
    The server writes nothing else, and it removes nothing. *)
Theorem server_writes_thumbnails_only (files : gmap string entry) (acts : list action)
    (s : Server) :
  run (main files) acts = Some s →
  (∀ k e, files !! k = Some e → e ≠ Inaccessible → fs s !! k = Some e)
  ∧ ∀ k, fs s !! k ≠ files !! k →
      (fs s !! k = Some Regular
       ∧ Stat files k ≠ StatOK
       ∧ ∃ t p ok, Command t p k ok ∈ commands s
           ∧ k = getThumbnailPath p
           ∧ media_class p = Some (tool_class t)
           ∧ Request p ∈ acts)
      ∨ (fs s !! k = Some Directory
         ∧ files !! k = None
         ∧ ∃ p, k ∈ lineage (filepath.Dir (getThumbnailPath p))
             ∧ is_Some (media_class p)
             ∧ Request p ∈ acts).
Proof.
  intros Hrun.
  assert (paths_satisfy (λ p, Request p ∈ acts) s) as Hpaths
    by (eapply paths_run; [apply paths_main|done..]).
  split.
  - intros k e Hk He. by eapply (run_keeps_entry _ _ _ _ _ Hrun).
  - intros k Hk.
    destruct (disk_changes files acts s Hrun k)
      as [?|[(Hnow & Hstart & t & p & ok & Hin & Hp & Hclass)
            |(Hnow & Hstart & p & l1 & l2 & [Hclass Hreq] & Hl & _)]]; [done|left|right].
    + split; [done|]. split; [done|]. exists t, p, ok. repeat apply conj; try done.
      pose proof (ps_commands _ _ Hpaths) as Hcmds.
      rewrite Forall_forall in Hcmds. apply (Hcmds _ Hin).
    + split; [done|]. split; [done|]. exists p. split; [|done].
      rewrite Hl. apply elem_of_app. right. apply list_elem_of_here.
Qed.

Lemma server_writes_thumbnails_only_witness :
  fs (after (request_received ++ [Work 0 all_ok])) !! "/srv/a.jpg" = Some Regular
  ∧ fs (after (request_received ++ [Work 0 all_ok])) !! "/srv" = Some Directory
  ∧ ((fs (after (request_received ++ [Work 0 all_ok])) !! "/srv/.small/a.jpg.jpg"
      = Some Regular
      ∧ Stat (disk ["/srv/a.jpg"]) "/srv/.small/a.jpg.jpg" ≠ StatOK
      ∧ ∃ t p ok, Command t p "/srv/.small/a.jpg.jpg" ok
                  ∈ commands (after (request_received ++ [Work 0 all_ok]))
          ∧ "/srv/.small/a.jpg.jpg" = getThumbnailPath p
          ∧ media_class p = Some (tool_class t)
          ∧ Request p ∈ request_received ++ [Work 0 all_ok])
     ∨ (fs (after (request_received ++ [Work 0 all_ok])) !! "/srv/.small/a.jpg.jpg"
        = Some Directory
        ∧ disk ["/srv/a.jpg"] !! "/srv/.small/a.jpg.jpg" = None
        ∧ ∃ p, "/srv/.small/a.jpg.jpg" ∈ lineage (filepath.Dir (getThumbnailPath p))
            ∧ is_Some (media_class p)
            ∧ Request p ∈ request_received ++ [Work 0 all_ok]))
  ∧ ((fs (after (request_received ++ [Work 0 all_ok])) !! "/srv/.small" = Some Regular
      ∧ Stat (disk ["/srv/a.jpg"]) "/srv/.small" ≠ StatOK
      ∧ ∃ t p ok, Command t p "/srv/.small" ok
                  ∈ commands (after (request_received ++ [Work 0 all_ok]))
          ∧ "/srv/.small" = getThumbnailPath p
          ∧ media_class p = Some (tool_class t)
          ∧ Request p ∈ request_received ++ [Work 0 all_ok])
     ∨ (fs (after (request_received ++ [Work 0 all_ok])) !! "/srv/.small"
        = Some Directory
        ∧ disk ["/srv/a.jpg"] !! "/srv/.small" = None
        ∧ ∃ p, "/srv/.small" ∈ lineage (filepath.Dir (getThumbnailPath p))
            ∧ is_Some (media_class p)
            ∧ Request p ∈ request_received ++ [Work 0 all_ok])).
Proof.
  destruct (server_writes_thumbnails_only (disk ["/srv/a.jpg"])
              (request_received ++ [Work 0 all_ok])
              (after (request_received ++ [Work 0 all_ok]))) as [Hkeep Hnew].
  { apply run_succeeds. vm_compute. reflexivity. }
  split; [apply Hkeep; [vm_compute; reflexivity|discriminate]|].
  split; [apply Hkeep; [vm_compute; reflexivity|discriminate]|].
  split; apply Hnew; vm_compute; discriminate.
Defined.

(** X16.  When every request has come in through [handleThumbnail] for a
    root that is a cleaned absolute path and a directory on disk, every
    file that the server writes and every directory that it makes lies
    below the root, whatever the schedule.  The one exception comes with a
    request for the root itself when its name has the extension of an image
    or of a movie: the thumbnail of the root lies beside the root, in a
    directory that [os.MkdirAll] may have to make, with directories above
    it. *)
Theorem server_writes_below_root (dirs : list string) (files : gmap string entry)
    (acts : list action) (s : Server) :
  Forall (λ e, is_name e = true) dirs →
  files !! abs_path dirs = Some Directory →
  (∀ p, Request p ∈ acts →
     ∃ urlPath, handleThumbnail (abs_path dirs) urlPath = inr (Request p)) →
  run (main files) acts = Some s →
  ∀ k, fs s !! k ≠ files !! k →
    (∃ rest, rest ≠ [] ∧ Forall (λ e, is_name e = true) rest
             ∧ k = abs_path (dirs ++ rest))
    ∨ (is_Some (media_class (abs_path dirs))
       ∧ Request (abs_path dirs) ∈ acts
       ∧ (k = getThumbnailPath (abs_path dirs)
          ∨ k ∈ lineage (filepath.Dir (getThumbnailPath (abs_path dirs))))).
Proof.
  intros Hdirs Hroot Hacts Hrun k Hk.
  assert (paths_satisfy (λ p, Request p ∈ acts) s) as Hpaths
    by (eapply paths_run; [apply paths_main|done..]).
  assert (∀ p, Request p ∈ acts →
    p = abs_path dirs
    ∨ ∃ init b, Forall (λ e, is_name e = true) init ∧ is_name b = true
        ∧ p = abs_path (dirs ++ init ++ [b])
        ∧ getThumbnailPath p = abs_path (dirs ++ init ++ [".small"; b +:+ ".jpg"]))
    as Hshape.
  { intros p Hp. destruct (Hacts p Hp) as (urlPath & Hurl).
    unfold handleThumbnail in Hurl.
    destruct (resolve _ _ _) as [r|fullPath] eqn:Hres; [done|]. injection Hurl as ->.
    destruct (resolve_below_root _ _ _ _ Hdirs Hres) as (rest & Hrest & -> & _).
    destruct (decide (rest = [])) as [->|Hne]; [left; by rewrite List.app_nil_r|].
    right. destruct (exists_last Hne) as (init & b & ->).
    apply Forall_app in Hrest as [Hinit Hb]. apply Forall_cons in Hb as [Hb _].
    exists init, b. repeat split; try done. by apply getThumbnailPath_below. }
  destruct (disk_changes files acts s Hrun k)
    as [?|[(Hnow & Hstart & t & p & ok & Hin & -> & Hclass)
          |(Hnow & Hstart & p & l1 & l2 & [Hclass Hreq] & Hl & Hl1)]]; [done|..].
  - pose proof (ps_commands _ _ Hpaths) as Hcmds. rewrite Forall_forall in Hcmds.
    pose proof (Hcmds _ Hin) as Hreq. simpl in Hreq.
    destruct (Hshape p Hreq) as [->|(init & b & Hinit & Hb & -> & Hthumb)].
    + right. split; [by rewrite Hclass|]. split; [done|by left].
    + left. rewrite Hthumb. exists (init ++ [".small"; b +:+ ".jpg"]).
      split; [by destruct init|]. split; [|done].
      apply Forall_app. split; [done|].
      apply is_name_spec in Hb as (_ & _ & _ & Hsep).
      repeat constructor. by apply is_name_jpg.
  - destruct (Hshape p Hreq) as [->|(init & b & Hinit & Hb & -> & Hthumb)].
    + right. split; [done|]. split; [done|]. right.
      rewrite Hl. apply elem_of_app. right. apply list_elem_of_here.
    + left. rewrite Hthumb in Hl.
      assert (is_name (b +:+ ".jpg") = true) as Hjpg.
      { apply is_name_spec in Hb as (_ & _ & _ & Hsep). by apply is_name_jpg. }
      assert (Forall (λ e, is_name e = true) (init ++ [".small"])) as Hsmall
        by (apply Forall_app; split; [done|by repeat constructor]).
      change (dirs ++ init ++ [".small"; b +:+ ".jpg"])
        with (dirs ++ init ++ [".small"] ++ [b +:+ ".jpg"]) in Hl.
      rewrite !List.app_assoc, Dir_abs_path_snoc, <- List.app_assoc in Hl
        by (done || (rewrite <- List.app_assoc; by apply Forall_app)).
      apply (lineage_below dirs (init ++ [".small"]) k l1 l2 Hdirs Hsmall Hl).
      * intros Hin. rewrite Forall_forall in Hl1. apply (Hl1 _ Hin).
        unfold Stat. by rewrite Hroot.
      * congruence.
Qed.

Lemma server_writes_below_root_witness :
  (∃ rest, rest ≠ [] ∧ Forall (λ e, is_name e = true) rest
           ∧ "/srv/.small" = abs_path (["srv"] ++ rest))
  ∨ (is_Some (media_class (abs_path ["srv"]))
     ∧ Request (abs_path ["srv"]) ∈ request_received ++ [Work 0 all_ok]
     ∧ ("/srv/.small" = getThumbnailPath (abs_path ["srv"])
        ∨ "/srv/.small" ∈ lineage (filepath.Dir (getThumbnailPath (abs_path ["srv"]))))).
Proof.
  apply (server_writes_below_root ["srv"] (disk ["/srv/a.jpg"])
           (request_received ++ [Work 0 all_ok])
           (after (request_received ++ [Work 0 all_ok]))).
  - repeat constructor.
  - vm_compute. reflexivity.
  - intros p Hp. exists "/api/thumbnail/a.jpg".
    repeat (apply elem_of_cons in Hp as [Hp|Hp]; [by simplify_eq|]).
    by apply elem_of_nil in Hp.
  - apply run_succeeds. vm_compute. reflexivity.
  - vm_compute. discriminate.
Defined.

(** ** Entries of the registry and their owners *)

(** When the starters hold paths of a class, the owners of a key shrink
    in one way only: with the removal of its entry. *)
Lemma step_owners_ge (s s' : Server) (a : action) (k : string) :
  (∀ i p d, handlers s !! i = Some (QSelectQueue p d) → media_class p ≠ None) →
  step s a = Some s' →
  owners k s ≤ owners k s' ∨ pendingThumbs s' !! k = None.
Proof.
  intros Hclass Hstep. unfold step in Hstep. destruct (panicked s); [done|].
  destruct a as [q|i o|i|w o|d]; simplify_eq.
  - left. unfold owners, queued. simpl. rewrite sum_list_with_snoc. simpl. lia.
  - destruct (handlers s !! i) as [pc|] eqn:Hpc;
      [|by unfold handler_step in Hstep; rewrite Hpc in Hstep].
    destruct pc as [q|q|q|q d'|q d'|q d' err|q err|q d'|q d' dl|q|r].
    4: { rewrite (handler_step_select_queue _ _ _ _ _ Hpc) in Hstep. simplify_eq.
         left. unfold select_queue. specialize (Hclass _ _ _ Hpc).
         destruct (media_class q) as [c|]; [unfold try_send; case_bool_decide|done].
         - assert (handlers (set_queue c s (queue c s ++ [q])) !! i
                   = Some (QSelectQueue q d')) as Hpc' by by rewrite handlers_set_queue.
           pose proof (owners_goto k i _ (QSelectDone q d') _ Hpc') as Hown.
           rewrite owners_send in Hown. simpl in Hown. lia.
         - pose proof (owners_goto k i _ (QGenerate q d') _ Hpc) as Hown. simpl in Hown. lia. }
    6: { unfold handler_step in Hstep. rewrite Hpc in Hstep. simplify_eq.
         destruct (decide (getThumbnailPath q = k)) as [<-|Hne].
         - right. simpl. unfold Delete. apply lookup_delete_eq.
         - left.
           pose proof (owners_goto k i _ (respond q err)
                         (set_pendingThumbs s (Delete (pendingThumbs s) (getThumbnailPath q)))
                         Hpc) as Hown.
           simpl in Hown. rewrite (has_key_ne _ _ Hne), handler_owns_respond in Hown.
           change (owners k (set_pendingThumbs s _)) with (owners k s) in Hown. lia. }
    all: unfold handler_step, LoadOrStore in Hstep; rewrite Hpc in Hstep.
    all: repeat case_match; simplify_eq.
    all: left;
      match goal with
      | |- _ ≤ owners ?k0 (goto ?i0 ?pc' ?s0) =>
          let H := fresh in
          assert (handlers s0 !! i0 = Some _) as H
            by (rewrite ?handlers_close; exact Hpc);
          pose proof (owners_goto k0 i0 _ pc' s0 H);
          rewrite ?owners_close in *; unfold owners, queued in *; simpl in *;
          rewrite ?handler_owns_respond in *; lia
      end.
  - left. unfold handler_timeout in Hstep.
    destruct (handlers s !! i) as [[]|] eqn:Hpc; try done.
    case_bool_decide; simplify_eq.
    pose proof (owners_goto k i _ (respond imagePath (Some ErrTimeout)) _ Hpc) as Hown.
    simpl in Hown. simpl. lia.
  - unfold worker_step, LoadAndDelete in Hstep.
    destruct (workers s !! w) as [[c [|q|q err|q d' err]]|] eqn:Hpc; [| | | |done].
    + left. destruct (queue c s) as [|q rest] eqn:Hq; simplify_eq.
      assert (workers (set_queue c s rest) !! w = Some (Worker c WReceive)) as Hpc'
        by by rewrite workers_set_queue.
      pose proof (owners_wgoto k w c c _ (WGenerate q) _ Hpc') as Hown.
      pose proof (owners_receive k c s q rest Hq).
      unfold worker_owns in Hown. simpl in Hown. lia.
    + left. destruct (generateThumbnail _ _ _) as [[e d'] cmds]. simplify_eq.
      pose proof (owners_wgoto k w c c _ (WLoadAndDelete q e) (set_fs s d' cmds) Hpc) as Hown.
      unfold worker_owns in Hown. simpl in Hown. rewrite owners_set_fs in Hown. lia.
    + destruct (decide (getThumbnailPath q = k)) as [<-|Hne].
      * right. destruct (pendingThumbs s !! getThumbnailPath q); simplify_eq; simpl;
          rewrite ?pendingThumbs_log_failure; simpl; apply lookup_delete_eq.
      * left. destruct (pendingThumbs s !! getThumbnailPath q); simplify_eq.
        -- pose proof (owners_wgoto k w c c _ (WClose q n err)
                        (set_pendingThumbs s (delete (getThumbnailPath q) (pendingThumbs s)))
                        Hpc) as Hown.
           unfold worker_owns in Hown. simpl in Hown. rewrite (has_key_ne _ _ Hne) in Hown.
           change (owners k (set_pendingThumbs s _)) with (owners k s) in Hown. lia.
        -- assert (workers (log_failure c q err (set_pendingThumbs s
                     (delete (getThumbnailPath q) (pendingThumbs s)))) !! w
                   = Some (Worker c (WLoadAndDelete q err))) as Hpc' by by destruct err.
           pose proof (owners_wgoto k w c c _ WReceive _ Hpc') as Hown.
           unfold worker_owns in Hown. simpl in Hown.
           rewrite owners_log_failure, (has_key_ne _ _ Hne) in Hown.
           change (owners k (set_pendingThumbs s _)) with (owners k s) in Hown. lia.
    + left. simplify_eq.
      assert (workers (log_failure c q err (close d' s)) !! w
              = Some (Worker c (WClose q d' err))) as Hpc'
        by (destruct err; simpl; by rewrite workers_close).
      pose proof (owners_wgoto k w c c _ WReceive _ Hpc') as Hown.
      unfold worker_owns in Hown. simpl in Hown.
      rewrite owners_log_failure, owners_close in Hown. lia.
  - by left.
Qed.

Lemma owned_step (s s' : Server) (a : action) :
  (∀ i p d, handlers s !! i = Some (QSelectQueue p d) → media_class p ≠ None) →
  (∀ k, is_Some (pendingThumbs s !! k) → 0 < owners k s) →
  step s a = Some s' →
  ∀ k, is_Some (pendingThumbs s' !! k) → 0 < owners k s'.
Proof.
  intros Hclass Hs Hstep k Hk.
  assert (is_Some (pendingThumbs s !! k) → 0 < owners k s') as Hkeep.
  { intros Hk'. specialize (Hs k Hk').
    destruct (step_owners_ge _ _ _ k Hclass Hstep) as [?|Hnone]; [lia|].
    rewrite Hnone in Hk. by destruct Hk. }
  destruct (step_pendingThumbs _ _ _ Hstep)
    as [Heq|[(i & o & p & -> & Hpc & Hnone & Heq)|[(i & o & p & e & -> & Hpc & Heq)
       |(w & o & c & p & e & -> & Hpc & Heq)]]]; rewrite Heq in Hk.
  - by apply Hkeep.
  - destruct (decide (getThumbnailPath p = k)) as [<-|Hne];
      [|rewrite lookup_insert_ne in Hk by done; by apply Hkeep].
    unfold step in Hstep. destruct (panicked s); [done|].
    unfold handler_step, LoadOrStore in Hstep. rewrite Hpc, Hnone in Hstep. simplify_eq.
    match goal with
    | |- _ < owners _ (goto i ?pc' ?s0) =>
        pose proof (owners_handler (getThumbnailPath p) i pc' (goto i pc' s0)
                      (handlers_goto _ _ _ s0 Hpc)) as Hown
    end.
    simpl in Hown. rewrite has_key_eq in Hown. lia.
  - destruct (decide (getThumbnailPath p = k)) as [<-|Hne];
      [rewrite lookup_delete_eq in Hk; by destruct Hk|].
    rewrite lookup_delete_ne in Hk by done. by apply Hkeep.
  - destruct (decide (getThumbnailPath p = k)) as [<-|Hne];
      [rewrite lookup_delete_eq in Hk; by destruct Hk|].
    rewrite lookup_delete_ne in Hk by done. by apply Hkeep.
Qed.

Lemma owned_run (acts : list action) (s s' : Server) :
  paths_satisfy (λ p, media_class p ≠ None) s →
  (∀ p, Request p ∈ acts → media_class p ≠ None) →
  (∀ k, is_Some (pendingThumbs s !! k) → 0 < owners k s) →
  run s acts = Some s' →
  ∀ k, is_Some (pendingThumbs s' !! k) → 0 < owners k s'.
Proof.
  revert s. induction acts as [|a acts IH]; intros s Hpaths Hacts Hs Hrun;
    simplify_eq/=; [done|].
  destruct (step s a) as [s1|] eqn:Hstep; [|done].
  eapply (IH s1); [| | |done].
  - eapply paths_step; [done| |done]. intros p ->. apply Hacts. by left.
  - intros p Hp. apply Hacts. by right.
  - eapply owned_step; [|done..]. intros i p d Hpc.
    by apply (ps_handlers _ _ Hpaths i (QSelectQueue p d)).
Qed.

Lemma sum_list_with_zero {A} (f : A → nat) (l : list A) :
  (∀ i x, l !! i = Some x → f x = 0) → sum_list_with f l = 0.
Proof.
  induction l as [|x l IH]; intros Hl; [done|].
  simpl. rewrite (Hl 0 x) by done. rewrite IH; [done|].
  intros i y Hy. by apply (Hl (S i)).
Qed.

Lemma owners_idle (s : Server) (k : string) : idle s → owners k s = 0.
Proof.
  intros (Hh & Hi & Hm & Hw). unfold owners, queued. rewrite Hi, Hm. simpl.
  rewrite !sum_list_with_zero; [done| |].
  - intros w wk Hwk. unfold worker_owns. by rewrite (Hw _ _ Hwk).
  - intros i pc Hpc. by destruct (Hh _ _ Hpc) as [r ->].
Qed.

(** X18.  When every request is for a file of the image or of the movie
    class, then, whatever the schedule, every entry of the registry has
    exactly one goroutine or queued path in charge of it, which will remove
    it; so the registry is empty whenever the server is idle.  An entry
    is left behind only when a request came in for a file of neither
    class. *)
Theorem registry_has_no_leak (files : gmap string entry) (acts : list action) (s : Server) :
  (∀ p, Request p ∈ acts → media_class p ≠ None) →
  run (main files) acts = Some s →
  (∀ k, is_Some (pendingThumbs s !! k) → owners k s = 1)
  ∧ (idle s → pendingThumbs s = ∅).
Proof.
  intros Hacts Hrun.
  assert (∀ k, is_Some (pendingThumbs s !! k) → 0 < owners k s) as Hs.
  { eapply owned_run; [apply paths_main|done| |done].
    intros k Hk. simpl in Hk. rewrite lookup_empty in Hk. by destruct Hk. }
  assert (invariant s) as Hinv by (eapply invariant_run; [apply invariant_main|done]).
  split.
  - intros k Hk. specialize (Hs k Hk). pose proof (inv_owners _ Hinv k). lia.
  - intros Hidle. apply map_empty. intros k.
    destruct (pendingThumbs s !! k) as [ch|] eqn:Hk; [|done].
    specialize (Hs k ltac:(by rewrite Hk)). rewrite owners_idle in Hs by done. lia.
Qed.

Lemma registry_has_no_leak_witness :
  (pendingThumbs (after request_received) !! "/srv/.small/a.jpg.jpg" = Some 0
   ∧ workers (after request_received) !! 0 = Some (Worker Image (WGenerate "/srv/a.jpg"))
   ∧ owners "/srv/.small/a.jpg.jpg" (after request_received) = 1)
  ∧ (handlers (after served_round) = [HDone (ServeFile "/srv/.small/a.jpg.jpg")]
     ∧ idle (after served_round)
     ∧ pendingThumbs (after served_round) = ∅).
Proof.
  assert (∀ acts, acts = request_received ∨ acts = served_round →
            ∀ p, Request p ∈ acts → media_class p ≠ None) as Hclass.
  { intros acts [->| ->] p Hp;
      repeat (apply elem_of_cons in Hp as [Hp|Hp]; [by simplify_eq|]);
      by apply elem_of_nil in Hp. }
  split.
  - destruct (registry_has_no_leak (disk ["/srv/a.jpg"]) request_received
                (after request_received)) as [Hown _].
    { apply Hclass. by left. }
    { apply run_succeeds. vm_compute. reflexivity. }
    assert (pendingThumbs (after request_received) !! "/srv/.small/a.jpg.jpg" = Some 0)
      as Hentry by (vm_compute; reflexivity).
    split; [done|]. split; [vm_compute; reflexivity|].
    apply Hown. by rewrite Hentry.
  - destruct (registry_has_no_leak (disk ["/srv/a.jpg"]) served_round
                (after served_round)) as [_ Hidle].
    { apply Hclass. by right. }
    { apply run_succeeds. vm_compute. reflexivity. }
    assert (handlers (after served_round) = [HDone (ServeFile "/srv/.small/a.jpg.jpg")])
      as Hh by (vm_compute; reflexivity).
    assert (idle (after served_round)) as Hi.
    { split.
      { intros i pc Hpc. rewrite Hh in Hpc.
        destruct i as [|i]; simplify_eq/=. by eexists. }
      split; [vm_compute; reflexivity|]. split; [vm_compute; reflexivity|].
      assert (workers (after served_round)
              = [Worker Image WReceive; Worker Image WReceive; Worker Movie WReceive])
        as Hw by (vm_compute; reflexivity).
      intros w wk Hwk. rewrite Hw in Hwk.
      destruct w as [|[|[|w]]]; by simplify_eq/=. }
    split; [done|]. split; [done|]. by apply Hidle.
Defined.
